(** * SMC Layer Protocol: a shallow embedding of [smc_layer_masterpiece.py]

    The development follows the Python module section by section: the data
    model, the quant building blocks, the feature extractors, the six
    internal agents, the layer resolver and the orchestrator.

    Modelling conventions.
    - A finite Python [float] is the rational it denotes ([Q]); comparisons
      are the order of [Q].  The not-a-number value is explicit ([pyfloat])
      where the code creates it ([float("nan")] in [band_from_zone] and
      [percentile]).
    - Where a float result is truncated to an index or accumulated in a
      running sum, the operations round to binary64 ([round64]: to nearest,
      ties to even, 53 bits): [int(n * 0.35)] and the zone bounds
      [int(n * c)], the typical price, the histogram of
      [volume_nodes_proxy], the running sum of [sma] and the weighted sum
      of [combine_conf].  The exponent range of [round64] is not bounded, so
      overflow to infinity and underflow are outside the model.
    - The other float computations (interpolation in [percentile], true
      ranges, anchored VWAP, centroid, band widening, flag rates, window and
      state confidence, the fallback start [int((z1 - z0) * 0.6)]) use the
      exact [+ - * /] of [Q]: what is stated about their values holds up to
      rounding.
    - [int(x)] on a float truncates toward zero ([py_int]).
    - [math.sqrt], reached through [statistics.pstdev], has no rational
      counterpart: the regime stage is parametric in it ([fsqrt]).
    - A Python [int] is a [Z]; list indexing follows Python (a negative index
      counts from the end, an index out of range raises [IndexError]).
    - Exceptions are values of [PyExn], threaded by the [result] monad.
    - Formatted evidence strings are kept as structured [Note]s carrying the
      values the f-string prints. *)

From Stdlib Require Import ZArith QArith Qround Qminmax Qabs Qpower Qreduction.
From Stdlib Require Floats.SpecFloat.
From Stdlib Require Import List Bool Lia Lqa String Ascii FinFun Sorted Permutation
  Morphisms.
Import ListNotations.
Local Open Scope Z_scope.

(** ** Python runtime: exceptions, indexing, ranges *)

Inductive PyExn : Type :=
| ValueError (msg : string)
| IndexError
| KeyError (key : string)
| ZeroDivisionError
| StatisticsError
| TypeError.

(** The two [ValueError]s the module raises itself. *)
Definition InsufficientData : PyExn :=
  ValueError "Need at least ~100 candles for meaningful layer inference."%string.
Definition InvalidArgument : PyExn := ValueError "window must be > 0"%string.

Inductive result (A : Type) : Type :=
| Ok (a : A)
| Raise (e : PyExn).
Arguments Ok {A} a.
Arguments Raise {A} e.

Definition bind {A B : Type} (m : result A) (k : A -> result B) : result B :=
  match m with
  | Ok a => k a
  | Raise e => Raise e
  end.

Notation "x <- m ;; k" := (bind m (fun x => k))
  (at level 61, m at next level, right associativity).
Notation "' p <- m ;; k" := (bind m (fun x => match x with p => k end))
  (at level 61, p pattern, m at next level, right associativity).

Definition len {A : Type} (xs : list A) : Z := Z.of_nat (List.length xs).

(** [xs[i]] *)
Definition py_index {A : Type} (xs : list A) (i : Z) : result A :=
  let j := if i <? 0 then i + len xs else i in
  if j <? 0 then Raise IndexError
  else match nth_error xs (Z.to_nat j) with
       | Some x => Ok x
       | None => Raise IndexError
       end.

(** [xs[a:b]] *)
Definition py_slice_bound (n i : Z) : Z :=
  if i <? 0 then Z.max 0 (i + n) else Z.min i n.
Definition py_slice {A : Type} (xs : list A) (a b : Z) : list A :=
  skipn (Z.to_nat (py_slice_bound (len xs) a))
        (firstn (Z.to_nat (py_slice_bound (len xs) b)) xs).

(** [range(a, b)] *)
Definition range (a b : Z) : list Z :=
  map (fun k => a + Z.of_nat k) (seq 0 (Z.to_nat (b - a))).

(** [all(p(x) for x in xs)]: the generator stops at the first false value. *)
Fixpoint all_gen {A : Type} (p : A -> result bool) (xs : list A) : result bool :=
  match xs with
  | [] => Ok true
  | x :: rest => b <- p x ;; if b then all_gen p rest else Ok false
  end.

Fixpoint mapM {A B : Type} (f : A -> result B) (xs : list A) : result (list B) :=
  match xs with
  | [] => Ok []
  | x :: rest => y <- f x ;; ys <- mapM f rest ;; Ok (y :: ys)
  end.

(** ** Floats *)

Definition Qltb (x y : Q) : bool := negb (Qle_bool y x).

(** [int(x)] *)
Definition py_int (x : Q) : Z := Z.quot (Qnum x) (Z.pos (Qden x)).

(** [a / b] *)
Definition py_div (a b : Q) : result Q :=
  if Qeq_bool b 0 then Raise ZeroDivisionError else Ok (a / b)%Q.

(** Not-a-number or a number.  Equality of [pyfloat] is identity of the
    value, not Python's [==], under which not-a-number differs from itself;
    the comparisons the code makes against a possible not-a-number are
    [fle], [flt] and [fgt] below. *)
Inductive pyfloat : Type :=
| FNaN
| FVal (q : Q).

(** *** Binary64 rounding

    [round64 x] is the binary64 value nearest to [x], ties going to the even
    mantissa; the exponent is not bounded.  A positive [x] with
    [2^e <= x < 2^(e+1)] is rounded on the grid of step [2^(e-52)]. *)
Definition pow2 (e : Z) : Q := Qpower 2 e.

(** The [e] with [2^e <= x < 2^(e+1)], for [x > 0]. *)
Definition ilog2 (x : Q) : Z :=
  let d := Z.log2 (Qnum x) - Z.log2 (Z.pos (Qden x)) in
  if Qle_bool (pow2 d) x then d else d - 1.

(** The nearest integer, ties to even. *)
Definition rne (x : Q) : Z :=
  let f := Qfloor x in
  match (x - inject_Z f ?= 1 # 2)%Q with
  | Lt => f
  | Gt => f + 1
  | Eq => if Z.even f then f else f + 1
  end.

Definition ulp (x : Q) : Q := pow2 (ilog2 x - 52).

Definition round_pos (x : Q) : Q := Qred (inject_Z (rne (x / ulp x)) * ulp x).

Definition round64 (x : Q) : Q :=
  match (x ?= 0)%Q with
  | Eq => 0%Q
  | Gt => round_pos x
  | Lt => Qopp (round_pos (Qopp x))
  end.

(** Float [+], [-], [*], [/], the conversion [float(n)] of an integer
    operand, and a decimal literal. *)
Definition fadd (x y : Q) : Q := round64 (x + y).
Definition fsub (x y : Q) : Q := round64 (x - y).
Definition fmul (x y : Q) : Q := round64 (x * y).
Definition fdiv (x y : Q) : result Q :=
  if Qeq_bool y 0 then Raise ZeroDivisionError else Ok (round64 (x / y)).
Definition float_of_int (n : Z) : Q := round64 (inject_Z n).
Definition float_lit (q : Q) : Q := round64 q.

(** [int(n * c)] for an integer [n] and a decimal literal [c]. *)
Definition int_scale (n : Z) (c : Q) : Z :=
  py_int (fmul (float_of_int n) (float_lit c)).

(** The largest relative error of one rounding. *)
Definition eps64 : Q := 1 # (2 ^ 53).

(** The exact sum, the float [sum(xs)] (left to right, as CPython adds
    floats up to version 3.11), and [min(xs)], [max(xs)] on a non-empty
    list. *)
Definition qsum (xs : list Q) : Q := fold_left Qplus xs 0%Q.
Definition fsum (xs : list Q) : Q := fold_left fadd xs 0%Q.
Definition qmin_list (x : Q) (xs : list Q) : Q := fold_left Qmin xs x.
Definition qmax_list (x : Q) (xs : list Q) : Q := fold_left Qmax xs x.

(** The same operations in the Standard Library's specification of IEEE 754
    arithmetic, at precision 53 and maximal exponent 1024 (binary64);
    [of_b64] is the value of a finite float and [to_b64] the float of a
    rational whose reduced denominator is a power of two.  They serve to
    compare [round64] with the standard on the inputs used below. *)
Definition of_b64 (f : SpecFloat.spec_float) : Q :=
  match f with
  | SpecFloat.S754_finite s m e =>
      ((if s then - (1) else 1) * inject_Z (Z.pos m) * pow2 e)%Q
  | _ => 0%Q
  end.
Definition to_b64 (x : Q) : SpecFloat.spec_float :=
  let e := (- Z.log2 (Z.pos (Qden (Qred x))))%Z in
  match Qnum (Qred x) with
  | Z0 => SpecFloat.S754_zero false
  | Z.pos m => SpecFloat.S754_finite false m e
  | Z.neg m => SpecFloat.S754_finite true m e
  end.
Definition b64_add (x y : Q) : Q :=
  of_b64 (SpecFloat.SFadd 53 1024 (to_b64 x) (to_b64 y)).
Definition b64_sub (x y : Q) : Q :=
  of_b64 (SpecFloat.SFsub 53 1024 (to_b64 x) (to_b64 y)).
Definition b64_mul (x y : Q) : Q :=
  of_b64 (SpecFloat.SFmul 53 1024 (to_b64 x) (to_b64 y)).
Definition b64_div (x y : Q) : Q :=
  of_b64 (SpecFloat.SFdiv 53 1024 (to_b64 x) (to_b64 y)).

(** ** 0) Core data models *)

Record Candle : Type := mkCandle {
  cd_ts : Z;
  cd_o : Q;
  cd_h : Q;
  cd_l : Q;
  cd_c : Q;
  cd_v : Q
}.

(** [(cd.h + cd.l + cd.c) / 3.0] *)
Definition typical (cd : Candle) : Q :=
  round64 (fadd (fadd (cd_h cd) (cd_l cd)) (cd_c cd) / 3).

(** A histogram bucket [(bin_low, bin_high, vol)]. *)
Definition Node : Type := (Q * Q * Q)%type.
Definition node_lo (nd : Node) : Q := fst (fst nd).
Definition node_hi (nd : Node) : Q := snd (fst nd).
Definition node_vol (nd : Node) : Q := snd nd.

Inductive State : Type :=
| accumulating | holding | distributing | broken | unknown.

(** The evidence strings, by the f-string that builds them. *)
Inductive Note : Type :=
| NText (s : string)
| NSwingCounts (highs lows : Z)
| NBaseEnd (j : Z)
| NVapBins (k : Z)
| NHvnTop (top : list Node)
| NAnchors (anchors : list Z)
| NStdP30 (x : pyfloat)
| NAtrP30 (x : pyfloat)
| NEmptyZone
| NZone (z0 z1 : Z)
| NCentroid (cb : option Q)
| NFallbackWindow (ss ee : Z)
| NCompressionWindow (s e ln : Z)
| NDistRate (r : Q)
| NAbsRate (r : Q)
| NVerifier (conf : Q)
| NHvnHint (centroid vol : Q).

Record LayerBand : Type := mkLayerBand {
  layer : Z;
  price_low : pyfloat;
  price_high : pyfloat;
  entry_start_ts : option Z;
  entry_end_ts : option Z;
  cost_basis : option Q;
  state : State;
  confidence : Q;
  evidence : list Note
}.

Definition Params : Type := list (string * Z).

Record SMCLayerMap : Type := mkSMCLayerMap {
  lm_symbol : string;
  lm_timeframe : string;
  start_ts : Z;
  end_ts : Z;
  layers : list LayerBand;
  notes : list string;
  meta_params : Params
}.

(** [int(params.get(key, default))] *)
Fixpoint get_param (params : Params) (key : string) (default : Z) : Z :=
  match params with
  | [] => default
  | (k, x) :: rest => if String.eqb k key then x else get_param rest key default
  end.

(** ** 3) Core quant building blocks *)

Fixpoint sma_loop (window : Z) (s : Q) (q : list Q) (values : list Q)
  : list (option Q) :=
  match values with
  | [] => []
  | x :: rest =>
    let q1 := q ++ [x] in
    let s1 := fadd s x in
    let '(s2, q2) :=
      if window <? len q1
      then match q1 with
           | y :: q' => (fsub s1 y, q')
           | [] => (s1, q1)
           end
      else (s1, q1) in
    (if len q2 =? window then Some (round64 (s2 / float_of_int window)) else None)
      :: sma_loop window s2 q2 rest
  end.

Definition sma (values : list Q) (window : Z) : result (list (option Q)) :=
  if window <=? 0 then Raise InvalidArgument
  else Ok (sma_loop window 0%Q [] values).

Fixpoint true_ranges (prev_c : Q) (candles : list Candle) : list Q :=
  match candles with
  | [] => []
  | cd :: rest =>
    Qmax (Qmax (cd_h cd - cd_l cd) (Qabs (cd_h cd - prev_c)))
         (Qabs (cd_l cd - prev_c))
      :: true_ranges (cd_c cd) rest
  end.

Definition atr (candles : list Candle) (window : Z) : result (list (option Q)) :=
  let prev_c := match candles with cd :: _ => cd_c cd | [] => 0%Q end in
  sma (true_ranges prev_c candles) window.

Definition clamp (x lo hi : Q) : Q := Qmax lo (Qmin hi x).

(** Ascending and descending stable sorts ([sorted], [sorted(reverse=True)]). *)
Section StableSort.
Context {A : Type} (key : A -> Q).

Fixpoint insert_asc (x : A) (xs : list A) : list A :=
  match xs with
  | [] => [x]
  | y :: rest =>
    if Qle_bool (key x) (key y) then x :: xs else y :: insert_asc x rest
  end.

Fixpoint insert_desc (x : A) (xs : list A) : list A :=
  match xs with
  | [] => [x]
  | y :: rest =>
    if Qle_bool (key y) (key x) then x :: xs else y :: insert_desc x rest
  end.

Definition sorted_asc (xs : list A) : list A := fold_right insert_asc [] xs.
Definition sorted_desc (xs : list A) : list A := fold_right insert_desc [] xs.
End StableSort.

Section Pstdev.
(** [math.sqrt], as [statistics.pstdev] applies it to the exact variance. *)
Variable fsqrt : Q -> Q.

Definition pstdev (data : list Q) : result Q :=
  match data with
  | [] => Raise StatisticsError
  | _ =>
    let n := inject_Z (len data) in
    let mean := (qsum data / n)%Q in
    let ss := qsum (map (fun x => (x - mean) * (x - mean))%Q data) in
    Ok (fsqrt (ss / n)%Q)
  end.

Definition rolling_std (values : list Q) (window : Z)
  : result (list (option Q)) :=
  mapM (fun i =>
          if window <=? i + 1
          then sd <- pstdev (py_slice values (i + 1 - window) (i + 1)) ;;
               Ok (Some sd)
          else Ok None)
       (range 0 (len values)).
End Pstdev.

Definition percentile (values : list Q) (p : Q) : result pyfloat :=
  match values with
  | [] => Ok FNaN
  | _ =>
    let xs := sorted_asc (fun x => x) values in
    let k := (inject_Z (len xs - 1) * p)%Q in
    let f := Qfloor k in
    let c := Qceiling k in
    if f =? c
    then x <- py_index xs (py_int k) ;; Ok (FVal x)
    else xf <- py_index xs f ;;
         xc <- py_index xs c ;;
         Ok (FVal (xf + (xc - xf) * (k - inject_Z f))%Q)
  end.

(** ** 4) Feature extraction *)

Record Swings : Type := mkSwings {
  highs : list Z;
  lows : list Z
}.

(** One pass of the loop [for i in range(left, n - right)]; the two index
    lists come out in the order the loop appends them. *)
Fixpoint find_swings_loop (candles : list Candle) (left right : Z)
  (idxs : list Z) : result Swings :=
  match idxs with
  | [] => Ok (mkSwings [] [])
  | i :: rest =>
    cdi <- py_index candles i ;;
    is_hi <- all_gen (fun j => cj <- py_index candles j ;;
                               Ok (Qle_bool (cd_h cj) (cd_h cdi)))
                     (range (i - left) (i + right + 1)) ;;
    is_lo <- all_gen (fun j => cj <- py_index candles j ;;
                               Ok (Qle_bool (cd_l cdi) (cd_l cj)))
                     (range (i - left) (i + right + 1)) ;;
    sw <- find_swings_loop candles left right rest ;;
    Ok (mkSwings (if is_hi then i :: highs sw else highs sw)
                 (if is_lo then i :: lows sw else lows sw))
  end.

Definition find_swings (candles : list Candle) (left right : Z) : result Swings :=
  find_swings_loop candles left right (range left (len candles - right)).

Fixpoint list_set {A : Type} (xs : list A) (k : nat) (x : A) : list A :=
  match xs, k with
  | [], _ => []
  | _ :: rest, O => x :: rest
  | y :: rest, S k' => y :: list_set rest k' x
  end.

(** [xs[i] = x] *)
Definition py_setitem {A : Type} (xs : list A) (i : Z) (x : A) : result (list A) :=
  let j := if i <? 0 then i + len xs else i in
  if (j <? 0) || (len xs <=? j) then Raise IndexError
  else Ok (list_set xs (Z.to_nat j) x).

Fixpoint anchored_vwap_loop (candles : list Candle) (cum_pv cum_v : Q)
  (out : list (option Q)) (idxs : list Z) : result (list (option Q)) :=
  match idxs with
  | [] => Ok out
  | i :: rest =>
    cd <- py_index candles i ;;
    let cum_pv' := (cum_pv + typical cd * cd_v cd)%Q in
    let cum_v' := (cum_v + cd_v cd)%Q in
    x <- (if Qltb 0 cum_v'
          then q <- py_div cum_pv' cum_v' ;; Ok (Some q)
          else Ok None) ;;
    out' <- py_setitem out i x ;;
    anchored_vwap_loop candles cum_pv' cum_v' out' rest
  end.

Definition anchored_vwap (candles : list Candle) (anchor_idx : Z)
  : result (list (option Q)) :=
  anchored_vwap_loop candles 0%Q 0%Q (repeat None (List.length candles))
                     (range anchor_idx (len candles)).

(** [idx = max(0, min(bins - 1, int((tp - lo) / bin_size)))] *)
Definition bucket_index (lo bin_size : Q) (bins : Z) (cd : Candle) : result Z :=
  r <- fdiv (fsub (typical cd) lo) bin_size ;;
  Ok (Z.max 0 (Z.min (bins - 1) (py_int r))).

Fixpoint fill_bins (lo bin_size : Q) (bins : Z) (vols : list Q)
  (candles : list Candle) : result (list Q) :=
  match candles with
  | [] => Ok vols
  | cd :: rest =>
    idx <- bucket_index lo bin_size bins cd ;;
    old <- py_index vols idx ;;
    vols' <- py_setitem vols idx (fadd old (cd_v cd)) ;;
    fill_bins lo bin_size bins vols' rest
  end.

Fixpoint nodes_from (lo bin_size : Q) (i : Z) (vols : list Q) : list Node :=
  match vols with
  | [] => []
  | x :: rest =>
    (fadd lo (fmul (float_of_int i) bin_size),
     fadd lo (fmul (float_of_int (i + 1)) bin_size), x)
      :: nodes_from lo bin_size (i + 1) rest
  end.

Definition volume_nodes_proxy (candles : list Candle) (bins : Z)
  : result (list Node) :=
  match map typical candles with
  | [] => Ok []
  | p0 :: ps =>
    let lo := qmin_list p0 ps in
    let hi := qmax_list p0 ps in
    if Qle_bool hi lo then Ok [(lo, hi, fsum (map cd_v candles))]
    else
      bin_size <- fdiv (fsub hi lo) (float_of_int bins) ;;
      vols <- fill_bins lo bin_size bins (repeat 0%Q (Z.to_nat bins)) candles ;;
      Ok (nodes_from lo bin_size 0 vols)
  end.

Definition top_hvn (nodes : list Node) (k : Z) : list Node :=
  py_slice (sorted_desc node_vol nodes) 0 k.

(** ** 1) Agent results, traces and the run context *)

Record StructureOut : Type := mkStructureOut {
  swings : Swings;
  base_end_idx : Z;
  base_start_idx : Z;
  impulse_start_idx : Z;
  impulse_end_idx : Z
}.

Record VolumeOut : Type := mkVolumeOut {
  vap_nodes : list Node;
  hvn : list Node
}.

Record CostBasisOut : Type := mkCostBasisOut {
  anchors : list Z;
  avwaps : list (Z * list (option Q))
}.

Record RegimeOut : Type := mkRegimeOut {
  compression_mask : list bool;
  std_p30 : pyfloat;
  atr_p30 : pyfloat
}.

Record AccumDistOut : Type := mkAccumDistOut {
  distribution_flags : list bool;
  absorption_flags : list bool
}.

Record VerifierOut : Type := mkVerifierOut {
  checks_ok : Z;
  checks_need : Z
}.

(** The [output] dictionary of an [AgentResult], by the keys it holds. *)
Inductive AgentOutput : Type :=
| OStructure (out : StructureOut)
| OVolume (out : VolumeOut)
| OCostBasis (out : CostBasisOut)
| ORegime (out : RegimeOut)
| OAccumDist (out : AccumDistOut)
| OVerifier (out : VerifierOut).

Record AgentResult : Type := mkAgentResult {
  ar_name : string;
  ar_output : AgentOutput;
  ar_confidence : Q;
  ar_evidence : list Note;
  ar_warnings : list string
}.

(** A stored trace: the output dictionary with the reserved keys
    [_confidence], [_evidence] and (when there are warnings) [_warnings]. *)
Record TraceEntry : Type := mkTraceEntry {
  t_output : AgentOutput;
  t_confidence : Q;
  t_evidence : list Note;
  t_warnings : option (list string)
}.

Definition Traces : Type := list (string * TraceEntry).

Fixpoint dict_get {V : Type} (d : list (string * V)) (key : string) : option V :=
  match d with
  | [] => None
  | (k, x) :: rest => if String.eqb k key then Some x else dict_get rest key
  end.

Fixpoint dict_set {V : Type} (d : list (string * V)) (key : string) (x : V)
  : list (string * V) :=
  match d with
  | [] => [(key, x)]
  | (k, y) :: rest =>
    if String.eqb k key then (k, x) :: rest else (k, y) :: dict_set rest key x
  end.

Record GenesisContext : Type := mkGenesisContext {
  ctx_symbol : string;
  ctx_timeframe : string;
  ctx_candles : list Candle;
  ctx_params : Params;
  ctx_traces : Traces
}.

(** ** 5) Internal agents *)

Inductive Agent : Type :=
| StructureAgent | VolumeAgent | CostBasisAgent
| RegimeAgent | AccumDistAgent | VerifierAgent.

Definition agent_name (a : Agent) : string :=
  match a with
  | StructureAgent => "internal.structure"
  | VolumeAgent => "internal.volume"
  | CostBasisAgent => "internal.cost_basis"
  | RegimeAgent => "internal.regime"
  | AccumDistAgent => "internal.accum_dist"
  | VerifierAgent => "internal.verifier"
  end.

(** The inner loop [for j in range(hi0 + 1, len(closes))]. *)
Fixpoint first_close_above (closes : list Q) (level : Q) (idxs : list Z)
  : result (option Z) :=
  match idxs with
  | [] => Ok None
  | j :: rest =>
    cj <- py_index closes j ;;
    if Qltb level cj then Ok (Some j) else first_close_above closes level rest
  end.

(** The outer loop [for li in swing_lows]. *)
Fixpoint base_end_search (cs : list Candle) (closes : list Q)
  (swing_highs swing_lows : list Z) : result (option Z) :=
  match swing_lows with
  | [] => Ok None
  | li :: rest =>
    match filter (fun hi => li <? hi) swing_highs with
    | [] => base_end_search cs closes swing_highs rest
    | hi0 :: _ =>
      chi <- py_index cs hi0 ;;
      found <- first_close_above closes (cd_h chi)
                 (range (hi0 + 1) (len closes)) ;;
      match found with
      | Some j => Ok (Some j)
      | None => base_end_search cs closes swing_highs rest
      end
    end
  end.

Definition nonempty {A : Type} (xs : list A) : bool :=
  match xs with [] => false | _ => true end.

Definition structure_base_end (cs : list Candle) (sw : Swings) : result Z :=
  let closes := map cd_c cs in
  found <- (if nonempty (lows sw) && nonempty (highs sw)
            then base_end_search cs closes (highs sw) (lows sw)
            else Ok None) ;;
  Ok (match found with
      | Some j => j
      | None => Z.max 0 (int_scale (len cs) (35 # 100))
      end).

Definition StructureAgent_run (ctx : GenesisContext) : result AgentResult :=
  let cs := ctx_candles ctx in
  sw <- find_swings cs (get_param (ctx_params ctx) "swing_left" 3)
                       (get_param (ctx_params ctx) "swing_right" 3) ;;
  base_end <- structure_base_end cs sw ;;
  Ok (mkAgentResult "internal.structure"
        (OStructure (mkStructureOut sw base_end 0 base_end (len cs - 1)))
        (65 # 100)
        [NSwingCounts (len (highs sw)) (len (lows sw)); NBaseEnd base_end]
        []).

(** The evidence note keeps the first three HVN buckets as they are (the
    f-string prints them rounded). *)
Definition VolumeAgent_run (ctx : GenesisContext) : result AgentResult :=
  nodes <- volume_nodes_proxy (ctx_candles ctx)
             (get_param (ctx_params ctx) "vap_bins" 60) ;;
  let top := top_hvn nodes (get_param (ctx_params ctx) "hvn_topk" 6) in
  Ok (mkAgentResult "internal.volume"
        (OVolume (mkVolumeOut nodes top))
        (7 # 10)
        [NVapBins (len nodes); NHvnTop (py_slice top 0 3)]
        []).

(** [sorted(set(xs))] on integers. *)
Fixpoint insert_uniq (x : Z) (xs : list Z) : list Z :=
  match xs with
  | [] => [x]
  | y :: rest =>
    if x <? y then x :: xs
    else if x =? y then xs
    else y :: insert_uniq x rest
  end.
Definition sorted_set (xs : list Z) : list Z := fold_right insert_uniq [] xs.

Fixpoint zdict_set {V : Type} (d : list (Z * V)) (key : Z) (x : V)
  : list (Z * V) :=
  match d with
  | [] => [(key, x)]
  | (k, y) :: rest =>
    if k =? key then (k, x) :: rest else (k, y) :: zdict_set rest key x
  end.

Fixpoint avwaps_loop (cs : list Candle) (acc : list (Z * list (option Q)))
  (anchs : list Z) : result (list (Z * list (option Q))) :=
  match anchs with
  | [] => Ok acc
  | a :: rest =>
    av <- anchored_vwap cs a ;;
    avwaps_loop cs (zdict_set acc a av) rest
  end.

(** [ctx.traces.get("structure", {}).get("swings")] *)
Definition traced_swings (tr : Traces) : option Swings :=
  match dict_get tr "structure" with
  | Some te =>
    match t_output te with
    | OStructure out => Some (swings out)
    | _ => None
    end
  | None => None
  end.

Definition CostBasisAgent_run (ctx : GenesisContext) : result AgentResult :=
  let cs := ctx_candles ctx in
  sw <- match traced_swings (ctx_traces ctx) with
        | Some sw => Ok sw
        | None => find_swings cs 3 3
        end ;;
  let swing_lows := lows sw in
  anchs <- match swing_lows with
           | [] => Ok [0; len cs / 2]
           | _ =>
             a0 <- py_index swing_lows 0 ;;
             a1 <- py_index swing_lows (len swing_lows / 2) ;;
             a2 <- py_index swing_lows (-1) ;;
             Ok (sorted_set [a0; a1; a2])
           end ;;
  avs <- avwaps_loop cs [] anchs ;;
  Ok (mkAgentResult "internal.cost_basis"
        (OCostBasis (mkCostBasisOut anchs avs))
        (66 # 100)
        [NAnchors anchs; NText "avwap=typical_price*volume"]
        []).

(** [x <= y] where [y] may be not-a-number (then the comparison is false). *)
Definition fle (x : Q) (y : pyfloat) : bool :=
  match y with
  | FVal q => Qle_bool x q
  | FNaN => false
  end.

(** [[x for x in xs if x is not None]] *)
Fixpoint not_none {A : Type} (xs : list (option A)) : list A :=
  match xs with
  | [] => []
  | Some x :: rest => x :: not_none rest
  | None :: rest => not_none rest
  end.

Definition compression_at (rstd atrv : list (option Q)) (std_p atr_p : pyfloat)
  (i : Z) : result bool :=
  r <- py_index rstd i ;;
  match r with
  | None => Ok false
  | Some rv =>
    a <- py_index atrv i ;;
    match a with
    | None => Ok false
    | Some av => Ok (fle rv std_p && fle av atr_p)
    end
  end.

Definition RegimeAgent_run (fsqrt : Q -> Q) (ctx : GenesisContext)
  : result AgentResult :=
  let closes := map cd_c (ctx_candles ctx) in
  rstd <- rolling_std fsqrt closes (get_param (ctx_params ctx) "vol_window" 20) ;;
  atrv <- atr (ctx_candles ctx) (get_param (ctx_params ctx) "atr_window" 14) ;;
  let std_vals := not_none rstd in
  let atr_vals := not_none atrv in
  std_p <- (if nonempty std_vals then percentile std_vals (30 # 100)
            else Ok (FVal 0)) ;;
  atr_p <- (if nonempty atr_vals then percentile atr_vals (30 # 100)
            else Ok (FVal 0)) ;;
  compression <- mapM (compression_at rstd atrv std_p atr_p)
                      (range 0 (len closes)) ;;
  Ok (mkAgentResult "internal.regime"
        (ORegime (mkRegimeOut compression std_p atr_p))
        (6 # 10)
        [NStdP30 std_p; NAtrP30 atr_p]
        []).

(** One index of the flag loop: [(distribution, absorption)]. *)
Definition accum_dist_at (cs : list Candle) (ranges vols : list Q)
  (r_sma v_sma : list (option Q)) (i : Z) : result (bool * bool) :=
  r <- py_index r_sma i ;;
  match r with
  | None => Ok (false, false)
  | Some rs =>
    w <- py_index v_sma i ;;
    match w with
    | None => Ok (false, false)
    | Some vs =>
      if 0 <? i then
        ci <- py_index cs i ;;
        cp <- py_index cs (i - 1) ;;
        vi <- py_index vols i ;;
        ri <- py_index ranges i ;;
        Ok (Qltb (cd_c cp) (cd_c ci) && Qltb vs vi && Qltb ri rs,
            Qltb (cd_c ci) (cd_c cp) && Qltb vs vi && Qltb ri rs)
      else Ok (false, false)
    end
  end.

Definition AccumDistAgent_run (ctx : GenesisContext) : result AgentResult :=
  let cs := ctx_candles ctx in
  let ranges := map (fun cd => cd_h cd - cd_l cd)%Q cs in
  let vols := map cd_v cs in
  r_sma <- sma ranges (get_param (ctx_params ctx) "range_window" 14) ;;
  v_sma <- sma vols (get_param (ctx_params ctx) "vol_sma_window" 14) ;;
  flags <- mapM (accum_dist_at cs ranges vols r_sma v_sma) (range 0 (len cs)) ;;
  Ok (mkAgentResult "internal.accum_dist"
        (OAccumDist (mkAccumDistOut (map fst flags) (map snd flags)))
        (55 # 100)
        [NText "dist: up close + high vol + narrow range";
         NText "abs: down close + high vol + narrow range"]
        []).

Definition has_base_end (tr : Traces) : bool :=
  match dict_get tr "structure" with
  | Some te => match t_output te with OStructure _ => true | _ => false end
  | None => false
  end.

Definition has_hvn (tr : Traces) : bool :=
  match dict_get tr "volume" with
  | Some te => match t_output te with OVolume out => nonempty (hvn out) | _ => false end
  | None => false
  end.

Definition has_anchors (tr : Traces) : bool :=
  match dict_get tr "cost_basis" with
  | Some te =>
    match t_output te with OCostBasis out => nonempty (anchors out) | _ => false end
  | None => false
  end.

Definition VerifierAgent_run (ctx : GenesisContext) : result AgentResult :=
  let tr := ctx_traces ctx in
  let s1 := if has_base_end tr then (1, [NText "structure: base_end_idx present"])
            else (0, []) in
  let s2 := if has_hvn tr
            then (fst s1 + 1, snd s1 ++ [NText "volume: hvn present"]) else s1 in
  let s3 := if has_anchors tr
            then (fst s2 + 1, snd s2 ++ [NText "cost_basis: anchors present"])
            else s2 in
  let ok := fst s3 in
  let need := 3 in
  Ok (mkAgentResult "internal.verifier"
        (OVerifier (mkVerifierOut ok need))
        (inject_Z ok / inject_Z need)%Q
        (snd s3)
        []).

Definition run (fsqrt : Q -> Q) (a : Agent) (ctx : GenesisContext)
  : result AgentResult :=
  match a with
  | StructureAgent => StructureAgent_run ctx
  | VolumeAgent => VolumeAgent_run ctx
  | CostBasisAgent => CostBasisAgent_run ctx
  | RegimeAgent => RegimeAgent_run fsqrt ctx
  | AccumDistAgent => AccumDistAgent_run ctx
  | VerifierAgent => VerifierAgent_run ctx
  end.

(** ** 6) Layer resolver *)

Definition _segment_by_indices (cs : list Candle) (i0 i1 : Z) : list Candle :=
  let i0 := Z.max 0 i0 in
  let i1 := Z.min (len cs - 1) i1 in
  if i1 <? i0 then [] else py_slice cs i0 (i1 + 1).

Definition centroid_sums (cs : list Candle) : Q * Q :=
  fold_left (fun acc cd => ((fst acc + typical cd * cd_v cd)%Q,
                            (snd acc + cd_v cd)%Q))
            cs (0%Q, 0%Q).

Definition _weighted_centroid_price (cs : list Candle) : result (option Q) :=
  match cs with
  | [] => Ok None
  | _ =>
    let '(num, den) := centroid_sums cs in
    if Qltb 0 den then q <- py_div num den ;; Ok (Some q) else Ok None
  end.

(** The loop state of [_find_longest_true_window]. *)
Record WinState : Type := mkWinState {
  best : option Z * option Z * Z;
  cur_s : option Z;
  cur_len : Z
}.

Definition better (st : WinState) (e : Z) : option Z * option Z * Z :=
  match cur_s st with
  | Some s => if snd (best st) <? cur_len st then (Some s, Some e, cur_len st)
              else best st
  | None => best st
  end.

Definition window_step (mask : list bool) (st : WinState) (i : Z)
  : result WinState :=
  b <- py_index mask i ;;
  if b : bool then
    match cur_s st with
    | None => Ok (mkWinState (best st) (Some i) 1)
    | Some s => Ok (mkWinState (best st) (Some s) (cur_len st + 1))
    end
  else Ok (mkWinState (better st (i - 1)) None 0).

Fixpoint foldM {A S : Type} (f : S -> A -> result S) (xs : list A) (st : S)
  : result S :=
  match xs with
  | [] => Ok st
  | x :: rest => st' <- f st x ;; foldM f rest st'
  end.

Definition _find_longest_true_window (mask : list bool) (start_idx end_idx : Z)
  : result (option Z * option Z * Z) :=
  st <- foldM (window_step mask) (range start_idx (end_idx + 1))
              (mkWinState (None, None, 0) None 0) ;;
  Ok (better st end_idx).

Definition Zone : Type := (Z * Z)%type.

(** [f"centroid={cb:.6f}" if cb else "centroid=None"]: a zero centroid is
    falsy and prints as [None]. *)
Definition centroid_note (cb : option Q) : Note :=
  match cb with
  | Some q => if Qeq_bool q 0 then NCentroid None else NCentroid (Some q)
  | None => NCentroid None
  end.

Definition band_from_zone (cs : list Candle) (z : Zone) (widen : Q)
  : result (pyfloat * pyfloat * option Q * list Note) :=
  match _segment_by_indices cs (fst z) (snd z) with
  | [] => Ok (FNaN, FNaN, None, [NEmptyZone])
  | cd0 :: rest =>
    let lo := qmin_list (cd_l cd0) (map cd_l rest) in
    let hi := qmax_list (cd_h cd0) (map cd_h rest) in
    let span := (hi - lo)%Q in
    let lo' := if Qltb 0 widen then (lo - span * widen)%Q else lo in
    let hi' := if Qltb 0 widen then (hi + span * widen)%Q else hi in
    cb <- _weighted_centroid_price (cd0 :: rest) ;;
    Ok (FVal lo', FVal hi', cb, [NZone (fst z) (snd z); centroid_note cb])
  end.

Definition entry_window (cs : list Candle) (compression : list bool) (z : Zone)
  : result (Z * Z * Q * list Note) :=
  '(s, e, ln) <- _find_longest_true_window compression (fst z) (snd z) ;;
  match s with
  | None =>
    let ss := fst z + py_int (inject_Z (snd z - fst z) * (6 # 10)) in
    let ee := snd z in
    c0 <- py_index cs ss ;;
    c1 <- py_index cs ee ;;
    Ok (cd_ts c0, cd_ts c1, 35 # 100, [NFallbackWindow ss ee])
  | Some s' =>
    let conf := clamp (inject_Z ln / inject_Z (Z.max 10 (snd z - fst z + 1)))
                      (35 # 100) (85 # 100) in
    c0 <- py_index cs s' ;;
    e' <- match e with Some e' => Ok e' | None => Raise TypeError end ;;
    c1 <- py_index cs e' ;;
    Ok (cd_ts c0, cd_ts c1, conf, [NCompressionWindow s' e' ln])
  end.

(** [sum(1 for i in idxs if flags[i])] *)
Definition count_flags (flags : list bool) (idxs : list Z) : result Z :=
  foldM (fun k i => b <- py_index flags i ;; Ok (if b : bool then k + 1 else k))
        idxs 0.

Definition state_for_zone (dist_flags abs_flags : list bool) (z : Zone)
  : result (State * Q * list Note) :=
  d <- count_flags dist_flags (range (fst z) (snd z + 1)) ;;
  a <- count_flags abs_flags (range (fst z) (snd z + 1)) ;;
  let total := Z.max 1 (snd z - fst z + 1) in
  let d_rate := (inject_Z d / inject_Z total)%Q in
  let a_rate := (inject_Z a / inject_Z total)%Q in
  let ev := [NDistRate d_rate; NAbsRate a_rate] in
  if Qltb (10 # 100) d_rate && Qltb a_rate d_rate
  then Ok (distributing, clamp ((55 # 100) + d_rate) (55 # 100) (85 # 100), ev)
  else if Qltb (10 # 100) a_rate && Qltb d_rate a_rate
  then Ok (accumulating, clamp ((55 # 100) + a_rate) (55 # 100) (85 # 100), ev)
  else Ok (holding, 55 # 100, ev).

(** [clamp(0.45*a + 0.35*b + 0.20*c, 0.0, 1.0)], in float arithmetic. *)
Definition combine_conf (a b c : Q) : Q :=
  clamp (fadd (fadd (fmul (float_lit (45 # 100)) a)
                    (fmul (float_lit (35 # 100)) b))
              (fmul (float_lit (20 # 100)) c)) 0 1.

(** [nd[1] < lb.price_low] and [nd[0] > lb.price_high]; false against NaN. *)
Definition flt (x : Q) (y : pyfloat) : bool :=
  match y with FVal q => Qltb x q | FNaN => false end.
Definition fgt (x : Q) (y : pyfloat) : bool :=
  match y with FVal q => Qltb q x | FNaN => false end.

Definition overlaps (lb : LayerBand) (nd : Node) : bool :=
  negb (flt (node_hi nd) (price_low lb) || fgt (node_lo nd) (price_high lb)).

(** The body of [for lb in layers] in the HVN refinement. *)
Definition hvn_refine (hvn_sorted : list Node) (lb : LayerBand) : LayerBand :=
  match filter (overlaps lb) hvn_sorted with
  | [] => lb
  | nd :: _ =>
    let hvn_centroid := ((node_lo nd + node_hi nd) / 2)%Q in
    mkLayerBand (layer lb) (price_low lb) (price_high lb)
      (entry_start_ts lb) (entry_end_ts lb)
      (match cost_basis lb with
       | Some cb => Some (cb * (7 # 10) + hvn_centroid * (3 # 10))%Q
       | None => None
       end)
      (state lb) (confidence lb)
      (evidence lb ++ [NHvnHint hvn_centroid (node_vol nd)])
  end.

(** [ctx.traces[key]] *)
Definition trace (tr : Traces) (key : string) : result TraceEntry :=
  match dict_get tr key with
  | Some te => Ok te
  | None => Raise (KeyError key)
  end.

(** The five lifecycle zones. *)
Definition base_zone (base_end : Z) : Zone := (0, base_end).
Definition early_zone (n base_end : Z) : Zone :=
  (base_end, int_scale n (55 # 100)).
Definition mid_zone (n : Z) : Zone :=
  (int_scale n (45 # 100), int_scale n (75 # 100)).
Definition late_zone (n : Z) : Zone := (int_scale n (70 # 100), n - 1).
Definition peak_zone (n : Z) : Zone := (int_scale n (85 # 100), n - 1).

Definition make_layer (k : Z) (band : pyfloat * pyfloat * option Q * list Note)
  (win : Z * Z * Q * list Note) (st : State * Q * list Note)
  (verifier_conf : Q) : LayerBand :=
  let '(lo, hi, cb, ev) := band in
  let '(s, e, wconf, wev) := win in
  let '(stt, sconf, sev) := st in
  mkLayerBand k lo hi (Some s) (Some e) cb stt
    (combine_conf wconf sconf verifier_conf)
    (ev ++ wev ++ sev ++ [NVerifier verifier_conf]).

(** [float(ctx.traces.get("verifier", {}).get("_confidence", 0.6))] *)
Definition verifier_confidence (tr : Traces) : Q :=
  match dict_get tr "verifier" with
  | Some te => t_confidence te
  | None => 6 # 10
  end.

Definition resolve_layers (ctx : GenesisContext) : result (list LayerBand) :=
  let cs := ctx_candles ctx in
  let tr := ctx_traces ctx in
  structure <- trace tr "structure" ;;
  volume <- trace tr "volume" ;;
  costb <- trace tr "cost_basis" ;;
  regime <- trace tr "regime" ;;
  accd <- trace tr "accum_dist" ;;
  base_end <- match t_output structure with
              | OStructure out => Ok (base_end_idx out)
              | _ => Raise (KeyError "base_end_idx")
              end ;;
  let n := len cs in
  let hvn_sorted :=
    sorted_desc node_vol
      (match t_output volume with OVolume out => hvn out | _ => [] end) in
  compression <- match t_output regime with
                 | ORegime out => Ok (compression_mask out)
                 | _ => Raise (KeyError "compression_mask")
                 end ;;
  l1 <- band_from_zone cs (base_zone base_end) (5 # 100) ;;
  w1 <- entry_window cs compression (base_zone base_end) ;;
  l2 <- band_from_zone cs (early_zone n base_end) (4 # 100) ;;
  w2 <- entry_window cs compression (early_zone n base_end) ;;
  l3 <- band_from_zone cs (mid_zone n) (3 # 100) ;;
  w3 <- entry_window cs compression (mid_zone n) ;;
  l4 <- band_from_zone cs (late_zone n) (2 # 100) ;;
  w4 <- entry_window cs compression (late_zone n) ;;
  l5 <- band_from_zone cs (peak_zone n) (1 # 100) ;;
  w5 <- entry_window cs compression (peak_zone n) ;;
  dist_flags <- match t_output accd with
                | OAccumDist out => Ok (distribution_flags out)
                | _ => Raise (KeyError "distribution_flags")
                end ;;
  abs_flags <- match t_output accd with
               | OAccumDist out => Ok (absorption_flags out)
               | _ => Raise (KeyError "absorption_flags")
               end ;;
  s1 <- state_for_zone dist_flags abs_flags (base_zone base_end) ;;
  s2 <- state_for_zone dist_flags abs_flags (early_zone n base_end) ;;
  s3 <- state_for_zone dist_flags abs_flags (mid_zone n) ;;
  s4 <- state_for_zone dist_flags abs_flags (late_zone n) ;;
  s5 <- state_for_zone dist_flags abs_flags (peak_zone n) ;;
  let vc := verifier_confidence tr in
  let built := [ make_layer 1 l1 w1 s1 vc; make_layer 2 l2 w2 s2 vc;
                 make_layer 3 l3 w3 s3 vc; make_layer 4 l4 w4 s4 vc;
                 make_layer 5 l5 w5 s5 vc ] in
  Ok (if nonempty hvn_sorted then map (hvn_refine hvn_sorted) built else built).

(** ** 1) and 7) Registry and orchestrator *)

Record AgentTask : Type := mkAgentTask {
  task_name : string;
  instruction : string;
  in_symbol : string;
  in_timeframe : string;
  in_params : Params;
  candles_head : list Candle;
  candles_tail : list Candle;
  traces_so_far : Traces
}.

(** An external adapter is outside the program: it is any relation between
    the task it is sent and what [run_task] gives back. *)
Definition ExternalAgentAdapter : Type := AgentTask -> result AgentResult -> Prop.

Definition AgentRegistry : Type := list (string * ExternalAgentAdapter).

Definition register (reg : AgentRegistry) (task_name_prefix : string)
  (adapter : ExternalAgentAdapter) : AgentRegistry :=
  reg ++ [(task_name_prefix, adapter)].

Fixpoint resolve_from (best : option (string * ExternalAgentAdapter))
  (routes : AgentRegistry) (name : string)
  : option (string * ExternalAgentAdapter) :=
  match routes with
  | [] => best
  | (p, ad) :: rest =>
    let best' :=
      if String.prefix p name
      then match best with
           | None => Some (p, ad)
           | Some b => if (String.length (fst b) <? String.length p)%nat
                       then Some (p, ad) else best
           end
      else best in
    resolve_from best' rest name
  end.

Definition resolve (reg : AgentRegistry) (name : string)
  : option ExternalAgentAdapter :=
  option_map snd (resolve_from None reg name).

Definition task_for (a : Agent) (ctx : GenesisContext) : AgentTask :=
  mkAgentTask (agent_name a)
    "You are a specialized analysis agent within Money Atlas SMC Layer Protocol.
Return output strictly as JSON-compatible dict.
Prefer numeric indices, price levels, and concise evidence."
    (ctx_symbol ctx) (ctx_timeframe ctx) (ctx_params ctx)
    (py_slice (ctx_candles ctx) 0 200)
    (py_slice (ctx_candles ctx) (-200) (len (ctx_candles ctx)))
    (ctx_traces ctx).

(** [agent.name.split(".")[-1]] *)
Fixpoint last_component (acc s : string) : string :=
  match s with
  | EmptyString => acc
  | String ch rest =>
    if Ascii.eqb ch "." then last_component EmptyString rest
    else last_component (acc ++ String ch EmptyString) rest
  end.

Definition trace_key (a : Agent) : string := last_component EmptyString (agent_name a).

(** The loop body after the agent returned: [ctx.traces[key] = res.output]
    with the reserved keys added.  (The re-assignment under
    [if key == "structure"] stores the same object again.) *)
Definition store_trace (a : Agent) (res : AgentResult) (ctx : GenesisContext)
  : GenesisContext :=
  mkGenesisContext (ctx_symbol ctx) (ctx_timeframe ctx) (ctx_candles ctx)
    (ctx_params ctx)
    (dict_set (ctx_traces ctx) (trace_key a)
       (mkTraceEntry (ar_output res) (ar_confidence res) (ar_evidence res)
          (if nonempty (ar_warnings res) then Some (ar_warnings res) else None))).

Definition internal_agents : list Agent :=
  [StructureAgent; VolumeAgent; CostBasisAgent;
   RegimeAgent; AccumDistAgent; VerifierAgent].

(** The agent loop with no adapter registered: the context is threaded
    through, and comes back as the loop left it. *)
Fixpoint run_agents (fsqrt : Q -> Q) (agents : list Agent) (ctx : GenesisContext)
  : GenesisContext * result unit :=
  match agents with
  | [] => (ctx, Ok tt)
  | a :: rest =>
    match run fsqrt a ctx with
    | Ok res => run_agents fsqrt rest (store_trace a res ctx)
    | Raise e => (ctx, Raise e)
    end
  end.

Definition layer_notes : list string :=
  ["This is a cost-basis proxy inference, not true holder cost basis.";
   "Confidence is ensemble of regime window + acc/dist signals + verifier checks."]%string.

(** What [analyze] does once the agent loop is over. *)
Definition finish (symbol timeframe : string) (cs : list Candle)
  (ctx : GenesisContext) (loop : result unit) : result SMCLayerMap :=
  _ <- loop ;;
  lys <- resolve_layers ctx ;;
  c0 <- py_index cs 0 ;;
  c1 <- py_index cs (-1) ;;
  Ok (mkSMCLayerMap symbol timeframe (cd_ts c0) (cd_ts c1) lys layer_notes
        (ctx_params ctx)).

(** A run of [analyze]: the context the call created, as it stands when the
    call ends ([None] when it ends before creating one), and the outcome. *)
Record Run : Type := mkRun {
  run_ctx : option GenesisContext;
  outcome : result SMCLayerMap
}.

(** [params or {}] *)
Definition params_or_empty (params : option Params) : Params :=
  match params with
  | Some p => p
  | None => []
  end.

Definition initial_context (symbol timeframe : string) (cs : list Candle)
  (params : option Params) : GenesisContext :=
  mkGenesisContext symbol timeframe cs (params_or_empty params) [].

Definition analyze_run (fsqrt : Q -> Q) (symbol timeframe : string)
  (cs : list Candle) (params : option Params) : Run :=
  if negb (nonempty cs) || (len cs <? 100)
  then mkRun None (Raise InsufficientData)
  else
    let '(ctx, loop) :=
      run_agents fsqrt internal_agents
                 (initial_context symbol timeframe cs params) in
    mkRun (Some ctx) (finish symbol timeframe cs ctx loop).

Definition analyze (fsqrt : Q -> Q) (symbol timeframe : string)
  (cs : list Candle) (params : option Params) : result SMCLayerMap :=
  outcome (analyze_run fsqrt symbol timeframe cs params).

(** The engine with a registry: an agent whose name an adapter is registered
    for is run by the adapter. *)
Definition _run_agent (reg : AgentRegistry) (fsqrt : Q -> Q) (a : Agent)
  (ctx : GenesisContext) (r : result AgentResult) : Prop :=
  match resolve reg (agent_name a) with
  | None => r = run fsqrt a ctx
  | Some adapter => adapter (task_for a ctx) r
  end.

Inductive agents_loop (reg : AgentRegistry) (fsqrt : Q -> Q)
  : list Agent -> GenesisContext -> GenesisContext * result unit -> Prop :=
| loop_done : forall ctx, agents_loop reg fsqrt [] ctx (ctx, Ok tt)
| loop_raise : forall a rest ctx e,
    _run_agent reg fsqrt a ctx (Raise e) ->
    agents_loop reg fsqrt (a :: rest) ctx (ctx, Raise e)
| loop_next : forall a rest ctx res out,
    _run_agent reg fsqrt a ctx (Ok res) ->
    agents_loop reg fsqrt rest (store_trace a res ctx) out ->
    agents_loop reg fsqrt (a :: rest) ctx out.

Inductive engine_analyze (reg : AgentRegistry) (fsqrt : Q -> Q)
  (symbol timeframe : string) (cs : list Candle) (params : option Params)
  : Run -> Prop :=
| analyze_short :
    negb (nonempty cs) || (len cs <? 100) = true ->
    engine_analyze reg fsqrt symbol timeframe cs params
      (mkRun None (Raise InsufficientData))
| analyze_full : forall ctx loop,
    negb (nonempty cs) || (len cs <? 100) = false ->
    agents_loop reg fsqrt internal_agents
      (initial_context symbol timeframe cs params) (ctx, loop) ->
    engine_analyze reg fsqrt symbol timeframe cs params
      (mkRun (Some ctx) (finish symbol timeframe cs ctx loop)).

(** * Specifications *)

(** The candle at index [i] (for [0 <= i < len cs]). *)
Definition candle0 : Candle := mkCandle 0 0 0 0 0 0.
Definition candle_at (cs : list Candle) (i : Z) : Candle :=
  nth (Z.to_nat i) cs candle0.

(** ** Swings *)

(** [i] is a swing high: it is at least [left] from the start and [right]
    from the end, and its high is the maximum over [[i-left, i+right]]. *)
Definition is_swing_high (cs : list Candle) (left right i : Z) : Prop :=
  left <= i < len cs - right /\
  forall j, i - left <= j <= i + right ->
            (cd_h (candle_at cs j) <= cd_h (candle_at cs i))%Q.

Definition is_swing_low (cs : list Candle) (left right i : Z) : Prop :=
  left <= i < len cs - right /\
  forall j, i - left <= j <= i + right ->
            (cd_l (candle_at cs i) <= cd_l (candle_at cs j))%Q.

(** The highs rise strictly up to index [p] and fall strictly after it. *)
Definition strictly_unimodal_highs (cs : list Candle) (p : Z) : Prop :=
  0 <= p < len cs /\
  (forall i, 0 <= i < p ->
             (cd_h (candle_at cs i) < cd_h (candle_at cs (i + 1)))%Q) /\
  (forall i, p <= i < len cs - 1 ->
             (cd_h (candle_at cs (i + 1)) < cd_h (candle_at cs i))%Q).

(** The boolean tests the loop of [find_swings] computes at index [i]. *)
Definition swing_high_b (cs : list Candle) (left right i : Z) : bool :=
  forallb (fun j => Qle_bool (cd_h (candle_at cs j)) (cd_h (candle_at cs i)))
          (range (i - left) (i + right + 1)).

Definition swing_low_b (cs : list Candle) (left right i : Z) : bool :=
  forallb (fun j => Qle_bool (cd_l (candle_at cs i)) (cd_l (candle_at cs j)))
          (range (i - left) (i + right + 1)).

(** ** Structure stage *)

(** [hi0] is the earliest swing high after the swing low [li]. *)
Definition earliest_high_after (swing_highs : list Z) (li hi0 : Z) : Prop :=
  In hi0 swing_highs /\ li < hi0 /\
  forall x, In x swing_highs -> li < x -> hi0 <= x.

(** [j] is the breakout of the swing low [li]: the first bar after the
    earliest swing high following [li] whose close is strictly above that
    high's level. *)
Definition breakout (cs : list Candle) (swing_highs : list Z) (li j : Z) : Prop :=
  exists hi0,
    earliest_high_after swing_highs li hi0 /\
    hi0 < j < len cs /\
    (cd_h (candle_at cs hi0) < cd_c (candle_at cs j))%Q /\
    forall k, hi0 < k < j ->
              (cd_c (candle_at cs k) <= cd_h (candle_at cs hi0))%Q.

Definition no_breakout (cs : list Candle) (swing_highs : list Z) (li : Z) : Prop :=
  forall j, ~ breakout cs swing_highs li j.

(** What [base_end_idx] is, given the swings: the breakout of the first swing
    low, in list order, that has one; [int(len * 0.35)] when no swing low
    has one, which the float product makes 35% of the series length rounded
    down, or one less. *)
Definition base_end_spec (cs : list Candle) (sw : Swings) (base_end : Z) : Prop :=
  (exists pre li post,
      lows sw = pre ++ li :: post /\
      (forall l', In l' pre -> no_breakout cs (highs sw) l') /\
      breakout cs (highs sw) li base_end)
  \/
  ((forall li, In li (lows sw) -> no_breakout cs (highs sw) li) /\
   base_end = int_scale (len cs) (35 # 100) /\
   (len cs <= 2 ^ 40 ->
    35 * len cs / 100 - 1 <= base_end <= 35 * len cs / 100)).

(** ** Volume-at-price histogram *)

Definition is_min_typical (cs : list Candle) (lo : Q) : Prop :=
  (exists cd, In cd cs /\ (typical cd == lo)%Q) /\
  forall cd, In cd cs -> (lo <= typical cd)%Q.

Definition is_max_typical (cs : list Candle) (hi : Q) : Prop :=
  (exists cd, In cd cs /\ (typical cd == hi)%Q) /\
  forall cd, In cd cs -> (typical cd <= hi)%Q.


(** The bucket the histogram loop charges a candle to. *)
Definition bucket_of (lo bin_size : Q) (bins : Z) (cd : Candle) : Z :=
  Z.max 0 (Z.min (bins - 1)
             (py_int (round64 (fsub (typical cd) lo / bin_size)))).

(** A whole number that is not negative. *)
Definition whole (x : Q) : Prop := exists k, 0 <= k /\ (x == inject_Z k)%Q.


(** ** Entry windows *)

Definition mask_at (mask : list bool) (i : Z) : bool :=
  nth (Z.to_nat i) mask false.

(** Bars [a..b] are all compressed and lie inside the zone [z0..z1]. *)
Definition compressed_run (mask : list bool) (z0 z1 a b : Z) : Prop :=
  z0 <= a /\ a <= b /\ b <= z1 /\
  forall i, a <= i <= b -> mask_at mask i = true.

(** [s..e] is a longest compressed run of the zone, and the first of that
    length from the left. *)
Definition first_longest_run (mask : list bool) (z0 z1 s e : Z) : Prop :=
  compressed_run mask z0 z1 s e /\
  forall a b, compressed_run mask z0 z1 a b ->
              b - a <= e - s /\ (b - a = e - s -> s <= a).

Definition no_compressed_bar (mask : list bool) (z0 z1 : Z) : Prop :=
  forall i, z0 <= i <= z1 -> mask_at mask i = false.

(** What [_find_longest_true_window] is to return on the zone [z0..z1]. *)
Definition window_spec (mask : list bool) (z0 z1 : Z)
  (r : option Z * option Z * Z) : Prop :=
  (no_compressed_bar mask z0 z1 /\ r = (None, None, 0))
  \/
  (exists s e, first_longest_run mask z0 z1 s e /\
               r = (Some s, Some e, e - s + 1)).

(** The loop invariant of [_find_longest_true_window]: [best] is right for
    the runs that ended before bar [B]. *)
Definition best_ok (mask : list bool) (z0 B : Z)
  (b : option Z * option Z * Z) : Prop :=
  window_spec mask z0 (B - 1) b.

Definition win_inv (mask : list bool) (z0 i : Z) (st : WinState) : Prop :=
  match cur_s st with
  | Some s0 =>
    z0 <= s0 < i /\ cur_len st = i - s0 /\
    (forall k, s0 <= k < i -> mask_at mask k = true) /\
    (s0 = z0 \/ mask_at mask (s0 - 1) = false) /\
    best_ok mask z0 s0 (best st)
  | None =>
    (i = z0 \/ mask_at mask (i - 1) = false) /\
    best_ok mask z0 i (best st)
  end.

(** ** Layer resolver *)

(** What [resolve_layers] reads from the traces of a context. *)
Definition ctx_base_end (ctx : GenesisContext) : option Z :=
  match dict_get (ctx_traces ctx) "structure" with
  | Some te =>
    match t_output te with
    | OStructure out => Some (base_end_idx out)
    | _ => None
    end
  | None => None
  end.

Definition ctx_hvn (ctx : GenesisContext) : list Node :=
  match dict_get (ctx_traces ctx) "volume" with
  | Some te => match t_output te with OVolume out => hvn out | _ => [] end
  | None => []
  end.

Definition ctx_mask (ctx : GenesisContext) : list bool :=
  match dict_get (ctx_traces ctx) "regime" with
  | Some te => match t_output te with ORegime out => compression_mask out | _ => [] end
  | None => []
  end.

Definition ctx_dist_flags (ctx : GenesisContext) : list bool :=
  match dict_get (ctx_traces ctx) "accum_dist" with
  | Some te =>
    match t_output te with OAccumDist out => distribution_flags out | _ => [] end
  | None => []
  end.

Definition ctx_abs_flags (ctx : GenesisContext) : list bool :=
  match dict_get (ctx_traces ctx) "accum_dist" with
  | Some te =>
    match t_output te with OAccumDist out => absorption_flags out | _ => [] end
  | None => []
  end.

(** The zones of layers 1 to 5, in order, with their widen factors. *)
Definition layer_zones (n base_end : Z) : list Zone :=
  [base_zone base_end; early_zone n base_end; mid_zone n; late_zone n; peak_zone n].

Definition layer_widens : list Q :=
  [5 # 100; 4 # 100; 3 # 100; 2 # 100; 1 # 100].

(** Layer [k] as [resolve_layers] builds it on zone [z], before the HVN
    refinement. *)
Definition layer_built (ctx : GenesisContext) (k : Z) (z : Zone) (widen : Q)
  (lb : LayerBand) : Prop :=
  exists b w s,
    band_from_zone (ctx_candles ctx) z widen = Ok b /\
    entry_window (ctx_candles ctx) (ctx_mask ctx) z = Ok w /\
    state_for_zone (ctx_dist_flags ctx) (ctx_abs_flags ctx) z = Ok s /\
    lb = make_layer k b w s (verifier_confidence (ctx_traces ctx)).

(** The refinement loop over the finished layers. *)
Definition refine_all (hvn_sorted : list Node) (built : list LayerBand)
  : list LayerBand :=
  if nonempty hvn_sorted then map (hvn_refine hvn_sorted) built else built.

(** The order of a list sorted by descending key. *)
Definition key_ge {A : Type} (key : A -> Q) (a b : A) : Prop :=
  (key b <= key a)%Q.

(** The layer [lb] with its cost basis blended 70/30 toward the midpoint of
    bucket [nd] (a null cost basis stays null) and the evidence note added. *)
Definition blended (lb : LayerBand) (nd : Node) : LayerBand :=
  let mid := ((node_lo nd + node_hi nd) / 2)%Q in
  mkLayerBand (layer lb) (price_low lb) (price_high lb)
    (entry_start_ts lb) (entry_end_ts lb)
    (match cost_basis lb with
     | Some cb => Some (cb * (7 # 10) + mid * (3 # 10))%Q
     | None => None
     end)
    (state lb) (confidence lb)
    (evidence lb ++ [NHvnHint mid (node_vol nd)]).

(** The price range of bucket [nd] overlaps the band [[lo, hi]]. *)
Definition touches (lo hi : Q) (nd : Node) : Prop :=
  (lo <= node_hi nd)%Q /\ (node_lo nd <= hi)%Q.

(** ** Runs *)

(** Parameters under which every built-in stage returns. *)
Definition good_params (p : Params) : Prop :=
  0 <= get_param p "swing_left" 3 /\
  0 <= get_param p "swing_right" 3 /\
  1 <= get_param p "vap_bins" 60 /\
  1 <= get_param p "vol_window" 20 /\
  1 <= get_param p "atr_window" 14 /\
  1 <= get_param p "range_window" 14 /\
  1 <= get_param p "vol_sma_window" 14.

(** The traces hold what [resolve_layers] needs, over the whole series. *)
Definition resolvable (ctx : GenesisContext) : Prop :=
  let n := len (ctx_candles ctx) in
  exists te1 te2 te3 te4 te5 so ro ao,
    dict_get (ctx_traces ctx) "structure" = Some te1 /\
    t_output te1 = OStructure so /\
    dict_get (ctx_traces ctx) "volume" = Some te2 /\
    dict_get (ctx_traces ctx) "cost_basis" = Some te3 /\
    dict_get (ctx_traces ctx) "regime" = Some te4 /\
    t_output te4 = ORegime ro /\
    dict_get (ctx_traces ctx) "accum_dist" = Some te5 /\
    t_output te5 = OAccumDist ao /\
    0 <= base_end_idx so < n /\
    len (compression_mask ro) = n /\
    len (distribution_flags ao) = n /\
    len (absorption_flags ao) = n.

(** A band is ordered: both bounds are the not-a-number sentinel of an
    empty zone, or both are numbers with [price_low <= price_high]. *)
Definition band_ordered (lb : LayerBand) : Prop :=
  (price_low lb = FNaN /\ price_high lb = FNaN) \/
  (exists lo hi, price_low lb = FVal lo /\ price_high lb = FVal hi /\
                 (lo <= hi)%Q).

(** Every candle has [low <= high]. *)
Definition well_formed_candles (cs : list Candle) : Prop :=
  forall cd, In cd cs -> (cd_l cd <= cd_h cd)%Q.

(** ** Sample inputs *)

(** A rational square root, to 53 binary digits after the point. *)
Definition sqrt_approx (q : Q) : Q :=
  Z.sqrt (Qnum q * 2 ^ 106 / Z.pos (Qden q)) # (2 ^ 53).

(** [k] candles with timestamps [0, 1, ...] and prices and volume given by
    the bar index. *)
Definition series (k : nat) (bar : Z -> Q * Q * Q * Q * Q) : list Candle :=
  map (fun i => let '(o, h, l, c, v) := bar (Z.of_nat i) in
                mkCandle (Z.of_nat i) o h l c v)
      (seq 0 k).

(** A flat market: [o = h = l = c = 100], [v = 10]. *)
Definition flat_candles (k : nat) : list Candle :=
  series k (fun _ => (100, 100, 100, 100, 10)%Q).

(** A flat market at 10 whose bar 90 closes at 11: the first close above the
    level of the swing high at bar 4. *)
Definition late_breakout_candles : list Candle :=
  series 100 (fun i => if i =? 90 then (10, 11, 10, 11, 1)%Q
                       else (10, 10, 10, 10, 1)%Q).

(** Candles whose low is above their high. *)
Definition crossed_candles : list Candle :=
  series 100 (fun _ => (1, 1, 2, 1, 1)%Q).

(** Eighty-five heavy bars spread over seven price levels near 100, then
    fifteen light bars at 200. *)
Definition gap_candles : list Candle :=
  series 100 (fun i => if i <? 85
                       then let p := inject_Z (100 + 2 * (i mod 7)) in
                            (p, p, p, p, 1000)%Q
                       else (200, 200, 200, 200, 1)%Q).


(** Highs rising to a peak at bar 3 and falling after it. *)
Definition peak_candles : list Candle :=
  series 7 (fun i => let p := inject_Z (10 - Z.abs (i - 3)) in
                     (p, p, p, p, 1)%Q).


(** Nine bars whose first swing low (bar 1) breaks out at bar 7, after the
    breakout at bar 6 of the second swing low (bar 3); swings are detected
    with [left = right = 1]. *)
Definition two_breakout_candles : list Candle :=
  map (fun '(i, hi, lo, cl) =>
         mkCandle i (inject_Z cl) (inject_Z hi) (inject_Z lo) (inject_Z cl) 1)
      [(0, 50, 40, 45); (1, 20, 10, 15); (2, 100, 50, 90); (3, 60, 20, 30);
       (4, 80, 60, 70); (5, 70, 65, 68); (6, 90, 70, 90); (7, 110, 80, 110);
       (8, 120, 90, 120)].




Definition narrow_swing_params : Params :=
  [("swing_left"%string, 1); ("swing_right"%string, 1)].

(** ** Moving windows *)

(** Entry [i] of a series with undefined values. *)
Definition opt_at {A : Type} (out : list (option A)) (i : Z) : option A :=
  nth (Z.to_nat i) out None.

(** The [window] values that end at index [i]: [values[i+1-window : i+1]]. *)
Definition window_ending (values : list Q) (window i : Z) : list Q :=
  py_slice values (i + 1 - window) (i + 1).

(** The true range of bar [i]: the greatest of the bar's range and of the
    distances of its high and of its low to the previous close, bar 0 taking
    its own close as the previous close. *)
Definition true_range_at (cs : list Candle) (i : Z) : Q :=
  let cd := candle_at cs i in
  let prev_c := cd_c (candle_at cs (Z.max 0 (i - 1))) in
  Qmax (Qmax (cd_h cd - cd_l cd) (Qabs (cd_h cd - prev_c)))
       (Qabs (cd_l cd - prev_c)).

(** The floats 0.1, 0.2, 0.3, then three zeros. *)
Definition drift_values : list Q :=
  [float_lit (1 # 10); float_lit (2 # 10); float_lit (3 # 10); 0; 0; 0]%Q.

(** Six bars with low and close 0 whose highs, hence true ranges, are
    0, 0, 0.2, 0.5, 0, 0. *)
Definition spiky_candles : list Candle :=
  map (fun '(i, hi) => mkCandle i 0 hi 0 0 1)
      [(0, 0%Q); (1, 0%Q); (2, float_lit (2 # 10)); (3, float_lit (5 # 10));
       (4, 0%Q); (5, 0%Q)].

(** ** Anchored VWAP *)

(** Volume, and price times volume, traded by the bars [a..i]. *)
Definition traded_volume (cs : list Candle) (a i : Z) : Q :=
  qsum (map cd_v (py_slice cs a (i + 1))).

Definition traded_value (cs : list Candle) (a i : Z) : Q :=
  qsum (map (fun cd => typical cd * cd_v cd)%Q (py_slice cs a (i + 1))).

(** Entry [i] of the series anchored at bar [a] is right: undefined while
    no volume has traded since the anchor, else the volume-weighted mean of
    the typical prices of the bars [a..i]. *)
Definition vwap_entry (cs : list Candle) (a i : Z) (x : option Q) : Prop :=
  ((traded_volume cs a i <= 0)%Q -> x = None) /\
  ((0 < traded_volume cs a i)%Q ->
   exists q, x = Some q /\
             (q == traded_value cs a i / traded_volume cs a i)%Q).

(** ** Stages *)

(** The swings the cost-basis stage works from: those of the Structure
    trace when it holds some, else those [find_swings] detects with
    [left = right = 3]. *)
Definition cost_basis_swings (ctx : GenesisContext) (sw : Swings) : Prop :=
  traced_swings (ctx_traces ctx) = Some sw \/
  (traced_swings (ctx_traces ctx) = None /\
   find_swings (ctx_candles ctx) 3 3 = Ok sw).

(** The close, range and volume of bar [i]. *)
Definition close_of (cs : list Candle) (i : Z) : Q := cd_c (candle_at cs i).
Definition range_of (cs : list Candle) (i : Z) : Q :=
  (cd_h (candle_at cs i) - cd_l (candle_at cs i))%Q.
Definition volume_of (cs : list Candle) (i : Z) : Q := cd_v (candle_at cs i).

(** ** Zones *)

(** The number of raised flags among the bars of a zone. *)
Definition flags_in_zone (flags : list bool) (z : Zone) : Z :=
  len (filter (mask_at flags) (range (fst z) (snd z + 1))).

(** The timestamps of a series never decrease. *)
Definition timestamps_ascend (cs : list Candle) : Prop :=
  forall i j, 0 <= i -> i <= j -> j < len cs ->
              cd_ts (candle_at cs i) <= cd_ts (candle_at cs j).

(** ** Registry and runs *)

(** The route [(p, ad)] is the one picked in [routes] for [name]: the
    first, in registration order, among the routes whose prefix is the
    longest that [name] starts with. *)
Definition longest_prefix_route (routes : AgentRegistry) (name p : string)
  (ad : ExternalAgentAdapter) : Prop :=
  exists pre post,
    routes = pre ++ (p, ad) :: post /\
    String.prefix p name = true /\
    (forall p' ad', In (p', ad') pre -> String.prefix p' name = true ->
                    (String.length p' < String.length p)%nat) /\
    (forall p' ad', In (p', ad') post -> String.prefix p' name = true ->
                    (String.length p' <= String.length p)%nat).

(** No registered prefix starts [name]. *)
Definition no_route (routes : AgentRegistry) (name : string) : Prop :=
  forall p ad, In (p, ad) routes -> String.prefix p name = false.

(** The trace stored for a result. *)
Definition trace_entry (res : AgentResult) : TraceEntry :=
  mkTraceEntry (ar_output res) (ar_confidence res) (ar_evidence res)
    (if nonempty (ar_warnings res) then Some (ar_warnings res) else None).

(** What the loop of [resolve] holds in [best] after the routes [seen]. *)
Definition best_route (seen : AgentRegistry) (name : string)
  (best : option (string * ExternalAgentAdapter)) : Prop :=
  match best with
  | None => no_route seen name
  | Some (p, ad) => longest_prefix_route seen name p ad
  end.

(** The first of [keys] that the traces do not hold. *)
Fixpoint first_missing (tr : Traces) (keys : list string) : option string :=
  match keys with
  | [] => None
  | k :: rest =>
    match dict_get tr k with
    | None => Some k
    | Some _ => first_missing tr rest
    end
  end.

(** The traces [resolve_layers] indexes, in the order it reads them. *)
Definition required_traces : list string :=
  ["structure"; "volume"; "cost_basis"; "regime"; "accum_dist"]%string.

(** * Proofs *)

(** ** The Python runtime *)

Lemma len_nonneg : forall (A : Type) (xs : list A), 0 <= len xs.
Proof. intros; unfold len; lia. Qed.

Lemma len_cons : forall (A : Type) (x : A) (xs : list A),
  len (x :: xs) = len xs + 1.
Proof. intros; unfold len; simpl; lia. Qed.

Lemma len_app : forall (A : Type) (xs ys : list A),
  len (xs ++ ys) = len xs + len ys.
Proof. intros; unfold len; rewrite length_app; lia. Qed.

Lemma len_map : forall (A B : Type) (f : A -> B) (xs : list A),
  len (map f xs) = len xs.
Proof. intros; unfold len; now rewrite length_map. Qed.

Lemma range_empty : forall a b, b <= a -> range a b = [].
Proof.
  intros a b H. unfold range.
  replace (Z.to_nat (b - a)) with 0%nat by lia. reflexivity.
Qed.

Lemma range_cons : forall a b, a < b -> range a b = a :: range (a + 1) b.
Proof.
  intros a b H. unfold range.
  replace (Z.to_nat (b - a)) with (S (Z.to_nat (b - (a + 1)))) by lia.
  simpl. f_equal; [lia|].
  rewrite <- seq_shift, map_map. apply map_ext. intros; lia.
Qed.

Lemma range_In : forall a b x, In x (range a b) <-> a <= x < b.
Proof.
  intros a b x. unfold range. rewrite in_map_iff. split.
  - intros [k [Hk Hin]]. apply in_seq in Hin. lia.
  - intros H. exists (Z.to_nat (x - a)). split; [lia|]. apply in_seq. lia.
Qed.

Lemma range_length : forall a b, len (range a b) = Z.max 0 (b - a).
Proof. intros. unfold len, range. rewrite length_map, length_seq. lia. Qed.

Lemma range_snoc : forall a b, a <= b -> range a (b + 1) = range a b ++ [b].
Proof.
  intros a b H. unfold range.
  replace (Z.to_nat (b + 1 - a)) with (Z.to_nat (b - a) + 1)%nat by lia.
  rewrite seq_app, map_app. simpl. do 2 f_equal. lia.
Qed.

Lemma range_NoDup : forall a b, NoDup (range a b).
Proof.
  intros. unfold range. apply Injective_map_NoDup.
  - intros x y; lia.
  - apply seq_NoDup.
Qed.

(** Induction over [range a b] from the left. *)
Lemma range_ind : forall (b : Z) (P : Z -> Prop),
  (forall a, b <= a -> P a) ->
  (forall a, a < b -> P (a + 1) -> P a) ->
  forall a, P a.
Proof.
  intros b P Hbase Hstep a.
  remember (Z.to_nat (b - a)) as k eqn:Hk. revert a Hk.
  induction k as [|k IH]; intros a Hk.
  - apply Hbase. lia.
  - apply Hstep; [lia|]. apply IH. lia.
Qed.

Lemma py_index_ok : forall (A : Type) (d : A) (xs : list A) i,
  0 <= i < len xs -> py_index xs i = Ok (nth (Z.to_nat i) xs d).
Proof.
  intros A d xs i H. unfold py_index.
  destruct (i <? 0) eqn:E; [lia|]. rewrite E.
  destruct (nth_error xs (Z.to_nat i)) eqn:En.
  - now rewrite (nth_error_nth _ _ d En).
  - apply nth_error_None in En. unfold len in H. lia.
Qed.

Lemma py_index_last : forall (A : Type) (d : A) (xs : list A),
  xs <> [] -> py_index xs (-1) = Ok (nth (Z.to_nat (len xs - 1)) xs d).
Proof.
  intros A d xs H. unfold py_index.
  replace (-1 <? 0) with true by reflexivity.
  assert (0 < len xs) by (destruct xs; [congruence | rewrite len_cons; pose proof (len_nonneg _ xs); lia]).
  destruct (-1 + len xs <? 0) eqn:E; [lia|].
  replace (-1 + len xs) with (len xs - 1) by lia.
  destruct (nth_error xs (Z.to_nat (len xs - 1))) eqn:En.
  - now rewrite (nth_error_nth _ _ d En).
  - apply nth_error_None in En. unfold len in *. lia.
Qed.

Lemma candle_index : forall cs i,
  0 <= i < len cs -> py_index cs i = Ok (candle_at cs i).
Proof. intros. now apply py_index_ok. Qed.

Lemma all_gen_pure : forall (A : Type) (p : A -> result bool) (q : A -> bool) xs,
  (forall x, In x xs -> p x = Ok (q x)) ->
  all_gen p xs = Ok (forallb q xs).
Proof.
  intros A p q xs. induction xs as [|x xs IH]; intros H; simpl; [reflexivity|].
  rewrite (H x) by (now left). simpl.
  destruct (q x); simpl; [|reflexivity].
  apply IH. intros y Hy. apply H. now right.
Qed.

Lemma mapM_pure : forall (A B : Type) (f : A -> result B) (g : A -> B) xs,
  (forall x, In x xs -> f x = Ok (g x)) ->
  mapM f xs = Ok (map g xs).
Proof.
  intros A B f g xs. induction xs as [|x xs IH]; intros H; simpl; [reflexivity|].
  rewrite (H x) by (now left). simpl.
  rewrite IH by (intros y Hy; apply H; now right). reflexivity.
Qed.

Lemma mapM_length : forall (A B : Type) (f : A -> result B) xs ys,
  mapM f xs = Ok ys -> len ys = len xs.
Proof.
  intros A B f xs. induction xs as [|x xs IH]; intros ys H; simpl in H.
  - now inversion H.
  - destruct (f x); simpl in H; [|discriminate].
    destruct (mapM f xs) eqn:E; simpl in H; [|discriminate].
    inversion H; subst. rewrite !len_cons. f_equal. now apply IH.
Qed.

(** ** Rational comparisons *)

Lemma Qltb_lt : forall x y, Qltb x y = true <-> (x < y)%Q.
Proof.
  intros x y. unfold Qltb. rewrite negb_true_iff.
  split; intros H.
  - apply Qnot_le_lt. intros Hle. apply Qle_bool_iff in Hle. congruence.
  - destruct (Qle_bool y x) eqn:E; [|reflexivity].
    apply Qle_bool_iff in E. exfalso. now apply (Qlt_not_le x y).
Qed.

Lemma Qltb_ge : forall x y, Qltb x y = false <-> (y <= x)%Q.
Proof.
  intros x y. unfold Qltb. rewrite negb_false_iff. apply Qle_bool_iff.
Qed.

Lemma Qle_bool_false : forall x y, Qle_bool x y = false <-> (y < x)%Q.
Proof.
  intros x y. split; intros H.
  - apply Qnot_le_lt. intros Hle. apply Qle_bool_iff in Hle. congruence.
  - destruct (Qle_bool x y) eqn:E; [|reflexivity].
    apply Qle_bool_iff in E. exfalso. now apply (Qlt_not_le y x).
Qed.

Lemma py_int_scale : forall n (a : Z) (b : positive),
  py_int (inject_Z n * (a # b)) = Z.quot (n * a) (Z.pos b).
Proof. intros. unfold py_int. simpl. reflexivity. Qed.

(** ** Binary64 rounding *)

(** *** Powers of two and the binary exponent *)

Lemma pow2_pos : forall e, (0 < pow2 e)%Q.
Proof. intros e. unfold pow2. apply Qpower_0_lt. reflexivity. Qed.

Lemma pow2_add : forall a b, (pow2 (a + b) == pow2 a * pow2 b)%Q.
Proof. intros a b. unfold pow2. apply Qpower_plus. discriminate. Qed.

Lemma pow2_le : forall a b, a <= b -> (pow2 a <= pow2 b)%Q.
Proof. intros a b H. unfold pow2. apply Qpower_le_compat_l; [exact H|discriminate]. Qed.

Lemma pow2_lt : forall a b, a < b -> (pow2 a < pow2 b)%Q.
Proof. intros a b H. unfold pow2. apply Qpower_lt_compat_l; [exact H|reflexivity]. Qed.

Lemma pow2_Z : forall e, 0 <= e -> (pow2 e == inject_Z (2 ^ e))%Q.
Proof. intros e H. unfold pow2. rewrite Zpower_Qpower by exact H. reflexivity. Qed.

Lemma pow2_succ : forall e, (pow2 (e + 1) == 2 * pow2 e)%Q.
Proof. intros e. rewrite pow2_add. change (pow2 1) with 2%Q. ring. Qed.

Lemma pow2_lt_inv : forall a b, (pow2 a < pow2 b)%Q -> a < b.
Proof.
  intros a b H. destruct (Z_lt_le_dec a b) as [L|L]; [exact L|].
  apply pow2_le in L. lra.
Qed.

(** [x = pow2 (a - b) * y] helpers *)
Lemma pow2_sub : forall a b, (pow2 (a - b) == pow2 a / pow2 b)%Q.
Proof.
  intros a b. pose proof (pow2_pos b).
  assert (E : (pow2 a == pow2 (a - b) * pow2 b)%Q).
  { rewrite <- pow2_add. replace (a - b + b) with a by lia. reflexivity. }
  rewrite E. field. lra.
Qed.

Lemma Q_as_fraction : forall x : Q,
  (x == inject_Z (Qnum x) / inject_Z (Z.pos (Qden x)))%Q.
Proof.
  intros [n d]. unfold Qeq, Qdiv, Qmult, Qinv, inject_Z. simpl. lia.
Qed.

Lemma ilog2_spec : forall x, (0 < x)%Q ->
  (pow2 (ilog2 x) <= x)%Q /\ (x < pow2 (ilog2 x + 1))%Q.
Proof.
  intros x Hx.
  assert (Ha : 0 < Qnum x).
  { unfold Qlt in Hx. simpl in Hx. lia. }
  set (a := Qnum x) in *. set (b := Z.pos (Qden x)).
  assert (Hb : 0 < b) by (unfold b; lia).
  pose proof (Z.log2_spec a Ha) as [La1 La2].
  pose proof (Z.log2_spec b Hb) as [Lb1 Lb2].
  pose proof (Z.log2_nonneg a) as Na. pose proof (Z.log2_nonneg b) as Nb.
  assert (Ex : (x == inject_Z a / inject_Z b)%Q) by apply Q_as_fraction.
  assert (Hbq : (0 < inject_Z b)%Q).
  { change 0%Q with (inject_Z 0). rewrite <- Zlt_Qlt. exact Hb. }
  assert (A1 : (pow2 (Z.log2 a) <= inject_Z a)%Q).
  { rewrite pow2_Z by exact Na. rewrite <- Zle_Qle. exact La1. }
  assert (A2 : (inject_Z a < pow2 (Z.log2 a + 1))%Q).
  { rewrite pow2_Z by lia. rewrite <- Zlt_Qlt. replace (Z.log2 a + 1) with (Z.succ (Z.log2 a)) by lia. exact La2. }
  assert (B1 : (pow2 (Z.log2 b) <= inject_Z b)%Q).
  { rewrite pow2_Z by exact Nb. rewrite <- Zle_Qle. exact Lb1. }
  assert (B2 : (inject_Z b < pow2 (Z.log2 b + 1))%Q).
  { rewrite pow2_Z by lia. rewrite <- Zlt_Qlt. replace (Z.log2 b + 1) with (Z.succ (Z.log2 b)) by lia. exact Lb2. }
  assert (Xb : (x * inject_Z b == inject_Z a)%Q).
  { rewrite Ex. field. lra. }
  unfold ilog2. fold a. fold b.
  set (d := Z.log2 a - Z.log2 b).
  pose proof (pow2_pos d) as Pd. pose proof (pow2_pos (Z.log2 b)) as Plb.
  assert (Ed : (pow2 d * pow2 (Z.log2 b) == pow2 (Z.log2 a))%Q).
  { rewrite <- pow2_add. unfold d. replace (Z.log2 a - Z.log2 b + Z.log2 b) with (Z.log2 a) by lia. reflexivity. }
  destruct (Qle_bool (pow2 d) x) eqn:E.
  - apply Qle_bool_iff in E. split; [exact E|].
    rewrite pow2_succ.
    (* x * b = a < 2 * 2^la = 2 * 2^d * 2^lb <= 2 * 2^d * b *)
    rewrite pow2_succ in A2.
    assert (H1 : (x * inject_Z b < 2 * pow2 d * inject_Z b)%Q).
    { rewrite Xb. apply Qlt_le_trans with (2 * pow2 (Z.log2 a))%Q; [exact A2|].
      rewrite <- Ed. 
      assert (pow2 d * pow2 (Z.log2 b) <= pow2 d * inject_Z b)%Q by (apply Qmult_le_l; lra).
      lra. }
    apply Qmult_lt_r in H1; [exact H1 | exact Hbq].
  - assert (E' : (x < pow2 d)%Q).
    { destruct (Qlt_le_dec x (pow2 d)) as [L|L]; [exact L|].
      apply Qle_bool_iff in L. congruence. }
    replace (d - 1 + 1) with d by lia. split; [|exact E'].
    (* 2^(d-1) * b < 2^(d-1) * 2 * 2^lb = 2^la <= a = x * b *)
    assert (Ed1 : (pow2 d == 2 * pow2 (d - 1))%Q).
    { rewrite <- pow2_succ. replace (d - 1 + 1) with d by lia. reflexivity. }
    rewrite pow2_succ in B2.
    pose proof (pow2_pos (d - 1)) as Pd1.
    assert (H1 : (pow2 (d - 1) * inject_Z b <= x * inject_Z b)%Q).
    { rewrite Xb. apply Qle_trans with (pow2 (Z.log2 a)); [|exact A1].
      rewrite <- Ed, Ed1.
      assert (pow2 (d - 1) * inject_Z b <= pow2 (d - 1) * (2 * pow2 (Z.log2 b)))%Q
        by (apply Qmult_le_l; lra).
      lra. }
    apply Qmult_le_r in H1; [exact H1 | exact Hbq].
Qed.

Lemma ilog2_unique : forall x e, (0 < x)%Q ->
  (pow2 e <= x)%Q -> (x < pow2 (e + 1))%Q -> ilog2 x = e.
Proof.
  intros x e Hx H1 H2. destruct (ilog2_spec x Hx) as [S1 S2].
  assert (A : ilog2 x < e + 1) by (apply pow2_lt_inv; lra).
  assert (B : e < ilog2 x + 1) by (apply pow2_lt_inv; lra).
  lia.
Qed.

Lemma ilog2_comp : forall x y, (0 < x)%Q -> (x == y)%Q -> ilog2 x = ilog2 y.
Proof.
  intros x y Hx E. assert (Hy : (0 < y)%Q) by (rewrite <- E; exact Hx).
  destruct (ilog2_spec y Hy) as [S1 S2].
  apply ilog2_unique; [exact Hx | rewrite E; exact S1 | rewrite E; exact S2].
Qed.

(** rounding to the nearest integer, ties to even *)

Lemma rne_cases : forall x,
  let f := Qfloor x in
  (rne x = f /\ (x - inject_Z f <= 1 # 2)%Q) \/
  (rne x = f + 1 /\ (1 # 2 <= x - inject_Z f)%Q).
Proof.
  intros x f. unfold rne. fold f.
  destruct (Qcompare_spec (x - inject_Z f) (1 # 2)) as [E|L|G].
  - destruct (Z.even f); [left | right]; split; try reflexivity; lra.
  - left. split; [reflexivity | lra].
  - right. split; [reflexivity | lra].
Qed.

Lemma rne_error : forall x,
  (x - (1 # 2) <= inject_Z (rne x))%Q /\ (inject_Z (rne x) <= x + (1 # 2))%Q.
Proof.
  intros x. pose proof (Qfloor_le x) as F1. pose proof (Qlt_floor x) as F2.
  rewrite inject_Z_plus in F2. change (inject_Z 1) with 1%Q in F2.
  destruct (rne_cases x) as [[E H]|[E H]]; rewrite E; cbv zeta in H;
    rewrite ?inject_Z_plus; change (inject_Z 1) with 1%Q; split; lra.
Qed.

Lemma rne_Z : forall n, rne (inject_Z n) = n.
Proof.
  intros n. unfold rne. rewrite Qfloor_Z.
  destruct (Qcompare_spec (inject_Z n - inject_Z n) (1 # 2)) as [E|L|G];
    [lra | reflexivity | lra].
Qed.

Lemma rne_comp : forall x y, (x == y)%Q -> rne x = rne y.
Proof.
  intros x y E. unfold rne.
  assert (Ef : Qfloor x = Qfloor y) by (rewrite E; reflexivity).
  rewrite Ef. 
  assert (Ec : (x - inject_Z (Qfloor y) ?= 1 # 2)%Q = (y - inject_Z (Qfloor y) ?= 1 # 2)%Q).
  { rewrite E. reflexivity. }
  rewrite Ec. reflexivity.
Qed.

Lemma rne_le : forall x y, (x <= y)%Q -> rne x <= rne y.
Proof.
  intros x y H. pose proof (Qfloor_resp_le x y H) as Hf.
  destruct (Z.eq_dec (Qfloor x) (Qfloor y)) as [E|NE].
  - unfold rne. rewrite E.
    destruct (Qcompare_spec (x - inject_Z (Qfloor y)) (1 # 2)) as [E1|L1|G1];
    destruct (Qcompare_spec (y - inject_Z (Qfloor y)) (1 # 2)) as [E2|L2|G2];
      try destruct (Z.even (Qfloor y)); try lia; lra.
  - destruct (rne_cases x) as [[-> _]|[-> _]];
    destruct (rne_cases y) as [[-> _]|[-> _]]; lia.
Qed.

Lemma rne_ge_Z : forall x n, (inject_Z n <= x)%Q -> n <= rne x.
Proof. intros x n H. rewrite <- (rne_Z n). apply rne_le. exact H. Qed.

Lemma rne_le_Z : forall x n, (x <= inject_Z n)%Q -> rne x <= n.
Proof. intros x n H. rewrite <- (rne_Z n). apply rne_le. exact H. Qed.

(** rounding of a positive number *)

Lemma round_pos_eq : forall x,
  (round_pos x == inject_Z (rne (x / ulp x)) * ulp x)%Q.
Proof. intros x. unfold round_pos. rewrite Qred_correct. reflexivity. Qed.

Lemma ulp_pos : forall x, (0 < ulp x)%Q.
Proof. intros. apply pow2_pos. Qed.

Lemma ulp_scale : forall x, (pow2 (ilog2 x) == inject_Z (2 ^ 52) * ulp x)%Q.
Proof.
  intros x. unfold ulp. rewrite <- (pow2_Z 52) by lia. rewrite <- pow2_add.
  replace (52 + (ilog2 x - 52)) with (ilog2 x) by lia. reflexivity.
Qed.

Lemma mantissa_range : forall x, (0 < x)%Q ->
  (inject_Z (2 ^ 52) <= x / ulp x)%Q /\ (x / ulp x < inject_Z (2 ^ 53))%Q.
Proof.
  intros x Hx. destruct (ilog2_spec x Hx) as [S1 S2].
  pose proof (ulp_pos x) as U. pose proof (ulp_scale x) as E.
  rewrite pow2_succ in S2. rewrite E in S1, S2.
  change (2 ^ 53) with (2 * 2 ^ 52). rewrite inject_Z_mult.
  split.
  - apply Qle_shift_div_l; [exact U | exact S1].
  - apply Qlt_shift_div_r; [exact U|]. change (inject_Z 2) with 2%Q. lra.
Qed.

Lemma round_pos_error : forall x, (0 < x)%Q ->
  (x - ulp x / 2 <= round_pos x)%Q /\ (round_pos x <= x + ulp x / 2)%Q.
Proof.
  intros x Hx. rewrite round_pos_eq. pose proof (ulp_pos x) as U.
  destruct (rne_error (x / ulp x)) as [R1 R2].
  assert (E1 : ((x / ulp x - (1 # 2)) * ulp x == x - ulp x / 2)%Q) by (field; lra).
  assert (E2 : ((x / ulp x + (1 # 2)) * ulp x == x + ulp x / 2)%Q) by (field; lra).
  assert (A : ((x / ulp x - (1 # 2)) * ulp x <= inject_Z (rne (x / ulp x)) * ulp x)%Q)
    by (apply Qmult_le_compat_r; lra).
  assert (B : (inject_Z (rne (x / ulp x)) * ulp x <= (x / ulp x + (1 # 2)) * ulp x)%Q)
    by (apply Qmult_le_compat_r; lra).
  rewrite E1 in A. rewrite E2 in B. split; assumption.
Qed.

Lemma round_pos_binade : forall x, (0 < x)%Q ->
  (pow2 (ilog2 x) <= round_pos x)%Q /\ (round_pos x <= pow2 (ilog2 x + 1))%Q.
Proof.
  intros x Hx. rewrite round_pos_eq. pose proof (ulp_pos x) as U.
  destruct (mantissa_range x Hx) as [M1 M2].
  pose proof (rne_ge_Z _ _ M1) as R1.
  pose proof (rne_le_Z _ _ (Qlt_le_weak _ _ M2)) as R2.
  rewrite pow2_succ, ulp_scale.
  rewrite Zle_Qle in R1, R2.
  change (2 ^ 53) with (2 * 2 ^ 52) in R2. rewrite inject_Z_mult in R2.
  change (inject_Z 2) with 2%Q in R2.
  split.
  - apply Qmult_le_compat_r; lra.
  - apply Qle_trans with (2 * inject_Z (2 ^ 52) * ulp x)%Q; [|lra].
    apply Qmult_le_compat_r; lra.
Qed.

Lemma round_pos_pos : forall x, (0 < x)%Q -> (0 < round_pos x)%Q.
Proof.
  intros x Hx. destruct (round_pos_binade x Hx) as [B _].
  pose proof (pow2_pos (ilog2 x)). lra.
Qed.

Lemma round_pos_comp : forall x y, (0 < x)%Q -> (x == y)%Q -> round_pos x = round_pos y.
Proof.
  intros x y Hx E. unfold round_pos, ulp. apply Qred_complete.
  rewrite (ilog2_comp x y Hx E).
  rewrite (rne_comp (x / pow2 (ilog2 y - 52)) (y / pow2 (ilog2 y - 52)))
    by (rewrite E; reflexivity).
  reflexivity.
Qed.

Lemma round_pos_le : forall x y, (0 < x)%Q -> (x <= y)%Q ->
  (round_pos x <= round_pos y)%Q.
Proof.
  intros x y Hx Hxy. assert (Hy : (0 < y)%Q) by lra.
  destruct (ilog2_spec x Hx) as [X1 X2]. destruct (ilog2_spec y Hy) as [Y1 Y2].
  assert (Le : ilog2 x <= ilog2 y).
  { assert (ilog2 x < ilog2 y + 1) by (apply pow2_lt_inv; lra). lia. }
  destruct (Z.eq_dec (ilog2 x) (ilog2 y)) as [E|NE].
  - rewrite !round_pos_eq. unfold ulp. rewrite E.
    pose proof (pow2_pos (ilog2 y - 52)) as U.
    apply Qmult_le_compat_r; [|lra].
    rewrite <- Zle_Qle. apply rne_le.
    apply Qmult_le_compat_r; [exact Hxy|].
    apply Qlt_le_weak. apply Qinv_lt_0_compat. exact U.
  - destruct (round_pos_binade x Hx) as [_ Bx].
    destruct (round_pos_binade y Hy) as [By _].
    assert (pow2 (ilog2 x + 1) <= pow2 (ilog2 y))%Q by (apply pow2_le; lia).
    lra.
Qed.

(** [round64] *)


Lemma round64_pos_eq : forall x, (0 < x)%Q -> round64 x = round_pos x.
Proof.
  intros x H. unfold round64.
  destruct (Qcompare_spec x 0) as [E|L|G]; [lra | lra | reflexivity].
Qed.

Lemma round64_neg_eq : forall x, (x < 0)%Q -> round64 x = Qopp (round_pos (Qopp x)).
Proof.
  intros x H. unfold round64.
  destruct (Qcompare_spec x 0) as [E|L|G]; [lra | reflexivity | lra].
Qed.

Lemma round64_zero_eq : forall x, (x == 0)%Q -> round64 x = 0%Q.
Proof.
  intros x H. unfold round64.
  destruct (Qcompare_spec x 0) as [E|L|G]; [reflexivity | lra | lra].
Qed.

Lemma round64_comp : forall x y, (x == y)%Q -> round64 x = round64 y.
Proof.
  intros x y E. destruct (Q_dec x 0) as [[L|G]|Z].
  - rewrite (round64_neg_eq x L), (round64_neg_eq y) by lra.
    f_equal. apply round_pos_comp; [lra | rewrite E; reflexivity].
  - rewrite (round64_pos_eq x G), (round64_pos_eq y) by lra.
    apply round_pos_comp; assumption.
  - rewrite (round64_zero_eq x Z), (round64_zero_eq y) by lra. reflexivity.
Qed.

#[export] Instance round64_proper : Proper (Qeq ==> Qeq) round64.
Proof. intros x y E. rewrite (round64_comp x y E). reflexivity. Qed.

Lemma round64_opp : forall x, (round64 (- x) == - round64 x)%Q.
Proof.
  intros x. destruct (Q_dec x 0) as [[L|G]|Z].
  - rewrite (round64_neg_eq x L), (round64_pos_eq (- x)) by lra. lra.
  - rewrite (round64_pos_eq x G), (round64_neg_eq (- x)) by lra.
    rewrite (round_pos_comp (- - x) x) by (try lra; ring). reflexivity.
  - rewrite (round64_zero_eq x Z), (round64_zero_eq (- x)) by lra. reflexivity.
Qed.

Lemma round64_nonneg : forall x, (0 <= x)%Q -> (0 <= round64 x)%Q.
Proof.
  intros x H. destruct (Qle_lt_or_eq _ _ H) as [L|E].
  - rewrite round64_pos_eq by exact L. apply Qlt_le_weak, round_pos_pos, L.
  - rewrite round64_zero_eq by (symmetry; exact E). lra.
Qed.

Lemma round64_pos : forall x, (0 < x)%Q -> (0 < round64 x)%Q.
Proof. intros x H. rewrite round64_pos_eq by exact H. apply round_pos_pos, H. Qed.

Lemma round64_neg : forall x, (x < 0)%Q -> (round64 x < 0)%Q.
Proof.
  intros x H. rewrite round64_neg_eq by exact H.
  assert (0 < round_pos (- x))%Q by (apply round_pos_pos; lra). lra.
Qed.

Lemma round64_le : forall x y, (x <= y)%Q -> (round64 x <= round64 y)%Q.
Proof.
  intros x y H. destruct (Q_dec x 0) as [[Lx|Gx]|Zx].
  - destruct (Q_dec y 0) as [[Ly|Gy]|Zy].
    + rewrite (round64_neg_eq x Lx), (round64_neg_eq y Ly).
      assert (round_pos (- y) <= round_pos (- x))%Q by (apply round_pos_le; lra).
      lra.
    + pose proof (round64_neg x Lx). pose proof (round64_pos y Gy). lra.
    + pose proof (round64_neg x Lx). rewrite (round64_zero_eq y Zy). lra.
  - rewrite (round64_pos_eq x Gx), (round64_pos_eq y) by lra.
    apply round_pos_le; assumption.
  - rewrite (round64_zero_eq x Zx). apply round64_nonneg. lra.
Qed.

Lemma round64_eq_0 : forall x, (round64 x == 0)%Q -> (x == 0)%Q.
Proof.
  intros x H. destruct (Q_dec x 0) as [[L|G]|Z]; [| |exact Z].
  - pose proof (round64_neg x L). lra.
  - pose proof (round64_pos x G). lra.
Qed.

Lemma half_ulp_le : forall x, (0 < x)%Q -> (ulp x / 2 <= x * eps64)%Q.
Proof.
  intros x Hx. destruct (ilog2_spec x Hx) as [S1 _].
  rewrite ulp_scale in S1. pose proof (ulp_pos x) as U.
  unfold eps64.
  assert (E : (ulp x / 2 == inject_Z (2 ^ 52) * ulp x * (1 # 2 ^ 53))%Q).
  { assert (K : (inject_Z (2 ^ 52) * (1 # 2 ^ 53) == 1 # 2)%Q) by reflexivity.
    setoid_replace (inject_Z (2 ^ 52) * ulp x * (1 # 2 ^ 53))%Q
      with (inject_Z (2 ^ 52) * (1 # 2 ^ 53) * ulp x)%Q by ring.
    rewrite K. field. }
  rewrite E. apply Qmult_le_compat_r; [exact S1 | discriminate].
Qed.

Lemma round64_rel_error : forall x, (0 <= x)%Q ->
  (x * (1 - eps64) <= round64 x)%Q /\ (round64 x <= x * (1 + eps64))%Q.
Proof.
  intros x H. destruct (Qle_lt_or_eq _ _ H) as [L|E].
  - rewrite round64_pos_eq by exact L.
    destruct (round_pos_error x L) as [E1 E2].
    pose proof (half_ulp_le x L). split; lra.
  - rewrite round64_zero_eq by (symmetry; exact E). rewrite <- E. split; lra.
Qed.

(** Exactness on numbers with a 53-bit mantissa *)

Lemma round_pos_exact : forall x m, (0 < x)%Q ->
  (x == inject_Z m * ulp x)%Q -> (round_pos x == x)%Q.
Proof.
  intros x m Hx E. rewrite round_pos_eq. pose proof (ulp_pos x) as U.
  assert (Em : (x / ulp x == inject_Z m)%Q).
  { rewrite E at 1. field. lra. }
  rewrite (rne_comp _ _ Em), rne_Z. symmetry. exact E.
Qed.

Lemma ilog2_dyadic : forall m q, 0 < m ->
  ilog2 (inject_Z m * pow2 q) = Z.log2 m + q.
Proof.
  intros m q Hm. pose proof (Z.log2_spec m Hm) as [L1 L2].
  pose proof (Z.log2_nonneg m) as N. pose proof (pow2_pos q) as P.
  assert (M1 : (pow2 (Z.log2 m) <= inject_Z m)%Q).
  { rewrite pow2_Z by exact N. rewrite <- Zle_Qle. exact L1. }
  assert (M2 : (inject_Z m < pow2 (Z.log2 m + 1))%Q).
  { rewrite pow2_Z by lia. rewrite <- Zlt_Qlt.
    replace (Z.log2 m + 1) with (Z.succ (Z.log2 m)) by lia. exact L2. }
  assert (Hm' : (0 < inject_Z m)%Q).
  { change 0%Q with (inject_Z 0). rewrite <- Zlt_Qlt. exact Hm. }
  apply ilog2_unique.
  - apply Qmult_lt_0_compat; assumption.
  - rewrite pow2_add. apply Qmult_le_compat_r; lra.
  - replace (Z.log2 m + q + 1) with (Z.log2 m + 1 + q) by lia.
    rewrite pow2_add. apply Qmult_lt_compat_r; assumption.
Qed.

Lemma round_pos_dyadic : forall m q, 0 < m <= 2 ^ 53 ->
  (round_pos (inject_Z m * pow2 q) == inject_Z m * pow2 q)%Q.
Proof.
  intros m q [Hm Hle].
  assert (Hm' : (0 < inject_Z m)%Q).
  { change 0%Q with (inject_Z 0). rewrite <- Zlt_Qlt. exact Hm. }
  pose proof (pow2_pos q) as P.
  assert (Hx : (0 < inject_Z m * pow2 q)%Q) by (apply Qmult_lt_0_compat; assumption).
  pose proof (Z.log2_spec m Hm) as [L1 L2].
  pose proof (Z.log2_nonneg m) as N.
  assert (Hk : Z.log2 m <= 53).
  { apply Z.log2_le_mono in Hle. rewrite Z.log2_pow2 in Hle by lia. exact Hle. }
  assert (Eu : ulp (inject_Z m * pow2 q) = pow2 (Z.log2 m + q - 52)).
  { unfold ulp. rewrite ilog2_dyadic by exact Hm. reflexivity. }
  destruct (Z_le_gt_dec (Z.log2 m) 52) as [K|K].
  - apply (round_pos_exact _ (m * 2 ^ (52 - Z.log2 m)) Hx).
    rewrite Eu. rewrite inject_Z_mult. rewrite <- (pow2_Z (52 - Z.log2 m)) by lia.
    rewrite <- Qmult_assoc. rewrite <- pow2_add.
    replace (52 - Z.log2 m + (Z.log2 m + q - 52)) with q by lia. reflexivity.
  - assert (E53 : Z.log2 m = 53) by lia.
    assert (Em : m = 2 ^ 53).
    { rewrite E53 in L1. lia. }
    apply (round_pos_exact _ (2 ^ 52) Hx).
    rewrite Eu, E53, Em.
    rewrite <- (pow2_Z 53) by lia. rewrite <- (pow2_Z 52) by lia.
    rewrite <- !pow2_add. replace (52 + (53 + q - 52)) with (53 + q) by lia.
    reflexivity.
Qed.

Lemma round64_dyadic : forall m q, Z.abs m <= 2 ^ 53 ->
  (round64 (inject_Z m * pow2 q) == inject_Z m * pow2 q)%Q.
Proof.
  intros m q H. pose proof (pow2_pos q) as P.
  destruct (Z.lt_trichotomy m 0) as [L|[E|G]].
  - assert (Hm' : (inject_Z m < 0)%Q).
    { change 0%Q with (inject_Z 0). rewrite <- Zlt_Qlt. exact L. }
    assert (Hx : (inject_Z m * pow2 q < 0)%Q).
    { setoid_replace 0%Q with (0 * pow2 q)%Q by ring.
      apply Qmult_lt_compat_r; assumption. }
    rewrite round64_neg_eq by exact Hx.
    rewrite (round_pos_comp _ (inject_Z (- m) * pow2 q)).
    + rewrite round_pos_dyadic by lia. rewrite inject_Z_opp. ring.
    + lra.
    + rewrite inject_Z_opp. ring.
  - subst m. rewrite round64_zero_eq; [|ring]. ring.
  - assert (Hm' : (0 < inject_Z m)%Q).
    { change 0%Q with (inject_Z 0). rewrite <- Zlt_Qlt. exact G. }
    rewrite round64_pos_eq by (apply Qmult_lt_0_compat; assumption).
    apply round_pos_dyadic. lia.
Qed.

Lemma round64_Z : forall n, Z.abs n <= 2 ^ 53 ->
  (round64 (inject_Z n) == inject_Z n)%Q.
Proof.
  intros n H. pose proof (round64_dyadic n 0 H) as E.
  change (pow2 0) with 1%Q in E.
  rewrite (round64_comp (inject_Z n) (inject_Z n * 1)) by ring.
  rewrite E. ring.
Qed.

(** A rounded number has a 53-bit mantissa: rounding twice changes nothing. *)
Lemma round_pos_is_dyadic : forall x, (0 < x)%Q ->
  exists m q, 0 < m <= 2 ^ 53 /\ (round_pos x == inject_Z m * pow2 q)%Q.
Proof.
  intros x Hx. exists (rne (x / ulp x)), (ilog2 x - 52).
  destruct (mantissa_range x Hx) as [M1 M2].
  pose proof (rne_ge_Z _ _ M1) as R1.
  pose proof (rne_le_Z _ _ (Qlt_le_weak _ _ M2)) as R2.
  split; [lia|]. apply round_pos_eq.
Qed.

Lemma round64_idem : forall x, (round64 (round64 x) == round64 x)%Q.
Proof.
  intros x. destruct (Q_dec x 0) as [[L|G]|Z].
  - rewrite (round64_neg_eq x L).
    destruct (round_pos_is_dyadic (- x) ltac:(lra)) as (m & q & Hm & E).
    rewrite round64_opp. rewrite (round64_comp _ _ E).
    rewrite round64_dyadic by lia. rewrite E. reflexivity.
  - rewrite (round64_pos_eq x G).
    destruct (round_pos_is_dyadic x G) as (m & q & Hm & E).
    rewrite (round64_comp _ _ E). rewrite round64_dyadic by lia.
    rewrite E. reflexivity.
  - rewrite (round64_zero_eq x Z). reflexivity.
Qed.

(** *** Float operations *)

Lemma py_int_floor : forall r, (0 <= r)%Q -> py_int r = Qfloor r.
Proof.
  intros [n d] H. unfold py_int, Qfloor. simpl.
  unfold Qle in H. simpl in H. apply Z.quot_div_nonneg; lia.
Qed.

Lemma py_int_nonneg : forall r, (0 <= r)%Q -> 0 <= py_int r.
Proof.
  intros r H. rewrite py_int_floor by exact H.
  apply Qfloor_resp_le in H. exact H.
Qed.

Lemma py_int_le : forall r s, (0 <= r)%Q -> (r <= s)%Q -> py_int r <= py_int s.
Proof.
  intros r s Hr Hrs. rewrite !py_int_floor by lra. now apply Qfloor_resp_le.
Qed.

Lemma py_int_lt_Z : forall r n, (0 <= r)%Q -> (r < inject_Z n)%Q -> py_int r < n.
Proof.
  intros r n Hr H. rewrite py_int_floor by exact Hr.
  pose proof (Qfloor_le r) as F. rewrite Zlt_Qlt. lra.
Qed.

Lemma py_int_ge_Z : forall r n, (inject_Z n <= r)%Q -> 0 <= n -> n <= py_int r.
Proof.
  intros r n H Hn.
  assert (Hr : (0 <= r)%Q).
  { apply Qle_trans with (inject_Z n); [|exact H].
    change 0%Q with (inject_Z 0). rewrite <- Zle_Qle. exact Hn. }
  rewrite py_int_floor by exact Hr.
  apply Qfloor_resp_le in H. rewrite Qfloor_Z in H. exact H.
Qed.

Lemma inject_Z_nonneg : forall n, 0 <= n -> (0 <= inject_Z n)%Q.
Proof. intros n H. change 0%Q with (inject_Z 0). rewrite <- Zle_Qle. exact H. Qed.

Lemma inject_Z_pos : forall n, 0 < n -> (0 < inject_Z n)%Q.
Proof. intros n H. change 0%Q with (inject_Z 0). rewrite <- Zlt_Qlt. exact H. Qed.

Lemma float_of_int_exact : forall n, Z.abs n <= 2 ^ 53 ->
  (float_of_int n == inject_Z n)%Q.
Proof. intros n H. apply round64_Z. exact H. Qed.

Lemma float_of_int_nonneg : forall n, 0 <= n -> (0 <= float_of_int n)%Q.
Proof. intros n H. apply round64_nonneg, inject_Z_nonneg, H. Qed.

Lemma float_of_int_pos : forall n, 0 < n -> (0 < float_of_int n)%Q.
Proof. intros n H. apply round64_pos, inject_Z_pos, H. Qed.

Lemma float_of_int_le : forall n m, n <= m ->
  (float_of_int n <= float_of_int m)%Q.
Proof. intros n m H. apply round64_le. rewrite <- Zle_Qle. exact H. Qed.

Lemma fdiv_ok : forall x y, ~ (y == 0)%Q -> fdiv x y = Ok (round64 (x / y)).
Proof.
  intros x y H. unfold fdiv. destruct (Qeq_bool y 0) eqn:E; [|reflexivity].
  apply Qeq_bool_iff in E. contradiction.
Qed.

Lemma Qmult_le_nonneg_l : forall x y z : Q,
  (0 <= z)%Q -> (x <= y)%Q -> (z * x <= z * y)%Q.
Proof.
  intros x y z Hz H. rewrite (Qmult_comm z x), (Qmult_comm z y).
  apply Qmult_le_compat_r; assumption.
Qed.

(** *** [int(n * c)] *)

Lemma fmul_scale_nonneg : forall n c, 0 <= n -> (0 <= c)%Q ->
  (0 <= fmul (float_of_int n) (float_lit c))%Q.
Proof.
  intros n c Hn Hc. unfold fmul, float_lit. apply round64_nonneg.
  apply Qmult_le_0_compat; [apply float_of_int_nonneg, Hn | apply round64_nonneg, Hc].
Qed.

Lemma int_scale_nonneg : forall n c, 0 <= n -> (0 <= c)%Q -> 0 <= int_scale n c.
Proof.
  intros n c Hn Hc. unfold int_scale. apply py_int_nonneg.
  apply fmul_scale_nonneg; assumption.
Qed.

Lemma int_scale_mono : forall n c1 c2, 0 <= n -> (0 <= c1)%Q -> (c1 <= c2)%Q ->
  int_scale n c1 <= int_scale n c2.
Proof.
  intros n c1 c2 Hn H0 H. unfold int_scale.
  apply py_int_le; [apply fmul_scale_nonneg; assumption|].
  unfold fmul, float_lit. apply round64_le.
  apply Qmult_le_nonneg_l; [|apply round64_le, H].
  apply float_of_int_nonneg, Hn.
Qed.

Lemma eps64_small : (0 < eps64)%Q /\ (eps64 <= 1 # 1000)%Q.
Proof. split; reflexivity || (unfold Qle; vm_compute; discriminate). Qed.

(** Three roundings of a product [n * c] with [c <= 0.9] stay below [n]. *)
Lemma int_scale_lt : forall n c, 1 <= n -> (0 <= c)%Q -> (c <= 9 # 10)%Q ->
  int_scale n c < n.
Proof.
  intros n c Hn H0 H9. unfold int_scale.
  apply py_int_lt_Z; [apply fmul_scale_nonneg; [lia | exact H0]|].
  unfold fmul, float_lit, float_of_int.
  assert (Hq : (1 <= inject_Z n)%Q).
  { change 1%Q with (inject_Z 1). rewrite <- Zle_Qle. exact Hn. }
  destruct eps64_small as [E0 E1].
  destruct (round64_rel_error (inject_Z n) ltac:(lra)) as [_ A].
  destruct (round64_rel_error c H0) as [_ B].
  pose proof (round64_nonneg (inject_Z n) ltac:(lra)) as A0.
  pose proof (round64_nonneg c H0) as B0.
  set (a := round64 (inject_Z n)) in *. set (b := round64 c) in *.
  assert (P0 : (0 <= a * b)%Q) by (apply Qmult_le_0_compat; assumption).
  destruct (round64_rel_error (a * b) P0) as [_ C].
  assert (A' : (a <= inject_Z n * (1001 # 1000))%Q) by nra.
  assert (B' : (b <= (9 # 10) * (1001 # 1000))%Q) by nra.
  assert (AB : (a * b <= inject_Z n * (1001 # 1000) * ((9 # 10) * (1001 # 1000)))%Q).
  { apply Qle_trans with (inject_Z n * (1001 # 1000) * b)%Q.
    - apply Qmult_le_compat_r; assumption.
    - apply Qmult_le_nonneg_l; [nra | exact B']. }
  assert (C' : (round64 (a * b) <= a * b * (1001 # 1000))%Q) by nra.
  nra.
Qed.

(** The literal [0.35] is the double just below 35/100. *)
Lemma float_lit_35 :
  float_lit (35 # 100) = (3152519739159347 # 9007199254740992)%Q.
Proof. vm_compute. reflexivity. Qed.

(** [int(n * 0.35)] is 35% of [n] rounded down, or one less. *)
Lemma int_scale_35_bounds : forall n, 0 <= n <= 2 ^ 40 ->
  35 * n / 100 - 1 <= int_scale n (35 # 100) <= 35 * n / 100.
Proof.
  intros n [Hn Hb]. unfold int_scale, fmul.
  assert (Ea : (float_of_int n == inject_Z n)%Q)
    by (apply float_of_int_exact; lia).
  rewrite float_lit_35.
  set (c := (3152519739159347 # 9007199254740992)%Q).
  rewrite (round64_comp (float_of_int n * c) (inject_Z n * c))
    by (rewrite Ea; reflexivity).
  pose proof (inject_Z_nonneg n Hn) as N0.
  assert (Nb : (inject_Z n <= inject_Z (2 ^ 40))%Q) by (rewrite <- Zle_Qle; exact Hb).
  assert (X0 : (0 <= inject_Z n * c)%Q)
    by (apply Qmult_le_0_compat; [exact N0 | discriminate]).
  destruct (round64_rel_error _ X0) as [Lo Hi].
  pose proof (round64_nonneg _ X0) as P0.
  set (p := round64 (inject_Z n * c)) in *.
  set (q := 35 * n / 100).
  assert (Hq : 100 * q <= 35 * n < 100 * q + 100).
  { unfold q. pose proof (Z.div_mod (35 * n) 100 ltac:(lia)).
    pose proof (Z.mod_pos_bound (35 * n) 100 ltac:(lia)). lia. }
  destruct Hq as [Q1 Q2].
  assert (Q1' : (100 * inject_Z q <= 35 * inject_Z n)%Q).
  { change 100%Q with (inject_Z 100). change 35%Q with (inject_Z 35).
    rewrite <- !inject_Z_mult. rewrite <- Zle_Qle. exact Q1. }
  assert (Q2' : (35 * inject_Z n <= 100 * inject_Z q + 99)%Q).
  { change 100%Q with (inject_Z 100). change 35%Q with (inject_Z 35).
    change 99%Q with (inject_Z 99).
    rewrite <- !inject_Z_mult, <- inject_Z_plus. rewrite <- Zle_Qle. lia. }
  unfold c, eps64 in Lo, Hi.
  change (inject_Z (2 ^ 40)) with (1099511627776 # 1)%Q in Nb.
  change (2 ^ 53)%positive with 9007199254740992%positive in Lo, Hi.
  split.
  - destruct (Z.eq_dec q 0) as [Z0|NZ].
    + rewrite Z0. pose proof (py_int_nonneg p P0). lia.
    + assert (q >= 1) by (assert (0 <= q) by (unfold q; apply Z.div_pos; lia); lia).
      apply py_int_ge_Z; [|lia].
      unfold Z.sub. rewrite inject_Z_plus. change (inject_Z (- (1))) with (- (1))%Q.
      lra.
  - assert (py_int p < q + 1); [|lia].
    apply py_int_lt_Z; [exact P0|].
    rewrite inject_Z_plus. change (inject_Z 1) with 1%Q. lra.
Qed.

(** ** Agreement with the IEEE 754 specification on sample inputs *)

(** The literals [0.35], [0.1] and [0.2] are the correctly rounded quotients
    35/100, 1/10 and 2/10. *)
Example float_lit_matches_binary64 :
  (float_lit (35 # 100) == b64_div 35 100)%Q /\
  (float_lit (1 # 10) == b64_div 1 10)%Q /\
  (float_lit (2 # 10) == b64_div 2 10)%Q /\
  (float_lit (45 # 100) == b64_div 45 100)%Q.
Proof. repeat split; vm_compute; reflexivity. Qed.

(** [180 * 0.35] and [170 * 0.70]: the products that [int] truncates to 62
    and 118. *)
Example fmul_matches_binary64 :
  (fmul (float_of_int 180) (float_lit (35 # 100))
   == b64_mul 180 (float_lit (35 # 100)))%Q /\
  (fmul (float_of_int 170) (float_lit (70 # 100))
   == b64_mul 170 (float_lit (70 # 100)))%Q /\
  int_scale 180 (35 # 100) = 62 /\ int_scale 170 (70 # 100) = 118.
Proof. repeat split; vm_compute; reflexivity. Qed.

(** [(0.1 + 0.1 + 0.1) / 3.0], [0.1 + 0.2 + 0.3], [61.0 / 7],
    [9.0 / (18.0 / 14)] and [1e16 + 1.0]. *)
Example fadd_fdiv_match_binary64 :
  let a := float_lit (1 # 10) in
  let b := float_lit (2 # 10) in
  let c := float_lit (3 # 10) in
  (fadd (fadd a a) a == b64_add (b64_add a a) a)%Q /\
  (round64 (fadd (fadd a a) a / 3) == b64_div (b64_add (b64_add a a) a) 3)%Q /\
  (fadd (fadd a b) c == b64_add (b64_add a b) c)%Q /\
  (fsub (fsub (fsub (fadd (fadd a b) c) a) b) c
   == b64_sub (b64_sub (b64_sub (b64_add (b64_add a b) c) a) b) c)%Q /\
  (round64 (61 / 7) == b64_div 61 7)%Q /\
  (round64 (9 / round64 (18 / 14)) == b64_div 9 (b64_div 18 14))%Q /\
  py_int (round64 (9 / round64 (18 / 14))) = 6 /\
  (fadd (inject_Z (10 ^ 16)) 1 == b64_add (inject_Z (10 ^ 16)) 1)%Q.
Proof. repeat split; vm_compute; reflexivity. Qed.

(** ** Swing detection *)

Lemma find_swings_loop_filter : forall cs left right idxs,
  0 <= left -> 0 <= right ->
  (forall i, In i idxs -> left <= i < len cs - right) ->
  find_swings_loop cs left right idxs
  = Ok (mkSwings (filter (swing_high_b cs left right) idxs)
                 (filter (swing_low_b cs left right) idxs)).
Proof.
  intros cs left right idxs Hl Hr.
  induction idxs as [|i idxs IH]; intros Hin; simpl; [reflexivity|].
  assert (Hi : left <= i < len cs - right) by (apply Hin; now left).
  rewrite candle_index by lia. simpl.
  rewrite (all_gen_pure _ _
             (fun j => Qle_bool (cd_h (candle_at cs j)) (cd_h (candle_at cs i)))).
  2:{ intros j Hj. apply range_In in Hj. rewrite candle_index by lia.
      reflexivity. }
  simpl.
  rewrite (all_gen_pure _ _
             (fun j => Qle_bool (cd_l (candle_at cs i)) (cd_l (candle_at cs j)))).
  2:{ intros j Hj. apply range_In in Hj. rewrite candle_index by lia.
      reflexivity. }
  simpl. rewrite IH by (intros k Hk; apply Hin; now right). simpl.
  reflexivity.
Qed.

Lemma find_swings_filter : forall cs left right,
  0 <= left -> 0 <= right ->
  find_swings cs left right
  = Ok (mkSwings
          (filter (swing_high_b cs left right) (range left (len cs - right)))
          (filter (swing_low_b cs left right) (range left (len cs - right)))).
Proof.
  intros. unfold find_swings. apply find_swings_loop_filter; try assumption.
  intros i Hi. now apply range_In in Hi.
Qed.

Lemma swing_high_b_spec : forall cs left right i,
  swing_high_b cs left right i = true <->
  forall j, i - left <= j <= i + right ->
            (cd_h (candle_at cs j) <= cd_h (candle_at cs i))%Q.
Proof.
  intros. unfold swing_high_b. rewrite forallb_forall. split.
  - intros H j Hj. apply Qle_bool_iff. apply H. apply range_In. lia.
  - intros H j Hj. apply range_In in Hj. apply Qle_bool_iff. apply H. lia.
Qed.

Lemma swing_low_b_spec : forall cs left right i,
  swing_low_b cs left right i = true <->
  forall j, i - left <= j <= i + right ->
            (cd_l (candle_at cs i) <= cd_l (candle_at cs j))%Q.
Proof.
  intros. unfold swing_low_b. rewrite forallb_forall. split.
  - intros H j Hj. apply Qle_bool_iff. apply H. apply range_In. lia.
  - intros H j Hj. apply range_In in Hj. apply Qle_bool_iff. apply H. lia.
Qed.

Lemma filter_single : forall (f : Z -> bool) (p : Z) (xs : list Z),
  NoDup xs -> In p xs ->
  (forall x, In x xs -> (f x = true <-> x = p)) ->
  filter f xs = [p].
Proof.
  intros f p xs Hnd. induction Hnd as [|x xs Hx Hnd IH]; intros Hin Hf.
  - destruct Hin.
  - simpl. destruct (Z.eq_dec x p) as [->|Hne].
    + replace (f p) with true
        by (symmetry; apply (proj2 (Hf p (or_introl eq_refl))); reflexivity).
      f_equal. clear IH Hin.
      induction xs as [|y ys IHy]; simpl; [reflexivity|].
      destruct (f y) eqn:E.
      * exfalso. apply Hx. left. apply (proj1 (Hf y (or_intror (or_introl eq_refl)))). exact E.
      * apply IHy.
        -- intros Hp. apply Hx. now right.
        -- now inversion Hnd.
        -- intros z Hz. apply Hf. destruct Hz as [->|Hz]; [now left | right; now right].
    + destruct (f x) eqn:E.
      * exfalso. apply Hne. apply (proj1 (Hf x (or_introl eq_refl))). exact E.
      * apply IH.
        -- destruct Hin as [Heq|Hin]; [congruence | exact Hin].
        -- intros z Hz. apply Hf. now right.
Qed.

(** In a strictly unimodal series, with [left = right = 2], the window test
    holds at the peak and nowhere else. *)
Lemma unimodal_swing_high : forall cs p i,
  strictly_unimodal_highs cs p ->
  2 <= i < len cs - 2 ->
  (swing_high_b cs 2 2 i = true <-> i = p).
Proof.
  intros cs p i (Hp & Hup & Hdown) Hi. rewrite swing_high_b_spec. split.
  - intros H. destruct (Z.lt_trichotomy i p) as [Hlt|[Heq|Hgt]]; [|exact Heq|].
    + exfalso. specialize (H (i + 1) ltac:(lia)).
      specialize (Hup i ltac:(lia)). lra.
    + exfalso. specialize (H (i - 1) ltac:(lia)).
      specialize (Hdown (i - 1) ltac:(lia)).
      replace (i - 1 + 1) with i in Hdown by lia. lra.
  - intros -> j Hj.
    assert (Hc : j = p - 2 \/ j = p - 1 \/ j = p \/ j = p + 1 \/ j = p + 2) by lia.
    destruct Hc as [->|[->|[->|[->| ->]]]].
    + pose proof (Hup (p - 2) ltac:(lia)) as H1.
      pose proof (Hup (p - 1) ltac:(lia)) as H2.
      replace (p - 2 + 1) with (p - 1) in H1 by lia.
      replace (p - 1 + 1) with p in H2 by lia. lra.
    + pose proof (Hup (p - 1) ltac:(lia)) as H2.
      replace (p - 1 + 1) with p in H2 by lia. lra.
    + lra.
    + pose proof (Hdown p ltac:(lia)) as H1. lra.
    + pose proof (Hdown p ltac:(lia)) as H1.
      pose proof (Hdown (p + 1) ltac:(lia)) as H2.
      replace (p + 1 + 1) with (p + 2) in H2 by lia. lra.
Qed.

Lemma find_swings_total : forall cs left right,
  0 <= left -> 0 <= right -> exists sw, find_swings cs left right = Ok sw.
Proof. intros. eexists. now apply find_swings_filter. Qed.

(** C7. With [left, right >= 0], [find_swings] returns, and reports index
    [i] as a swing high exactly when [i] is at least [left] from the start
    and [right] from the end and [high[i]] is the maximum over the closed
    window [[i-left, i+right]]; swing lows follow the same rule with the
    minimum of the lows.  For highs that rise strictly to a peak [p] and fall
    strictly after it, with [left = right = 2], no index other than [p] is
    reported, and [p] itself is (the reported list is [[p]]) when it is not
    within two bars of either end. *)
Theorem find_swings_window_extremum : forall cs left right,
  0 <= left -> 0 <= right ->
  exists sw,
    find_swings cs left right = Ok sw /\
    (forall i, In i (highs sw) <-> is_swing_high cs left right i) /\
    (forall i, In i (lows sw) <-> is_swing_low cs left right i) /\
    (forall p, left = 2 -> right = 2 -> strictly_unimodal_highs cs p ->
               (forall i, In i (highs sw) -> i = p) /\
               (2 <= p < len cs - 2 -> highs sw = [p])).
Proof.
  intros cs left right Hl Hr.
  eexists. split; [apply find_swings_filter; assumption|]. simpl.
  split; [|split].
  - intros i. rewrite filter_In, range_In, swing_high_b_spec.
    unfold is_swing_high. tauto.
  - intros i. rewrite filter_In, range_In, swing_low_b_spec.
    unfold is_swing_low. tauto.
  - intros p -> -> Hu. split.
    + intros i Hi. apply filter_In in Hi. destruct Hi as [Hi Hb].
      apply range_In in Hi. now apply (unimodal_swing_high cs p i Hu).
    + intros Hp. apply filter_single.
      * apply range_NoDup.
      * apply range_In. lia.
      * intros x Hx. apply range_In in Hx.
        now apply unimodal_swing_high.
Qed.

(** ** Structure stage: the base-end search *)

Lemma range_sorted : forall a b, StronglySorted Z.lt (range a b).
Proof.
  intros a b. revert a. apply (range_ind b).
  - intros a H. rewrite range_empty by lia. constructor.
  - intros a H IH. rewrite range_cons by lia. constructor; [exact IH|].
    apply Forall_forall. intros x Hx. apply range_In in Hx. lia.
Qed.

Lemma filter_sorted : forall (f : Z -> bool) xs,
  StronglySorted Z.lt xs -> StronglySorted Z.lt (filter f xs).
Proof.
  intros f xs H. induction H as [|x xs Hs IH Hall]; simpl; [constructor|].
  destruct (f x); [|exact IH]. constructor; [exact IH|].
  apply Forall_forall. intros y Hy. apply filter_In in Hy.
  rewrite Forall_forall in Hall. apply Hall. tauto.
Qed.

Lemma find_swings_sorted : forall cs left right sw,
  0 <= left -> 0 <= right ->
  find_swings cs left right = Ok sw ->
  StronglySorted Z.lt (highs sw) /\ StronglySorted Z.lt (lows sw) /\
  (forall i, In i (highs sw) -> 0 <= i < len cs) /\
  (forall i, In i (lows sw) -> 0 <= i < len cs).
Proof.
  intros cs left right sw Hl Hr H.
  rewrite find_swings_filter in H by assumption. inversion H; subst; simpl.
  repeat split; try (apply filter_sorted, range_sorted);
    apply filter_In in H0; destruct H0 as [H0 _]; apply range_In in H0; lia.
Qed.

Lemma close_at : forall cs j,
  nth (Z.to_nat j) (map cd_c cs) 0%Q = cd_c (candle_at cs j).
Proof.
  intros. unfold candle_at.
  change 0%Q with (cd_c candle0). apply map_nth.
Qed.

Lemma first_close_above_spec : forall cs level a,
  0 <= a ->
  exists r,
    first_close_above (map cd_c cs) level (range a (len cs)) = Ok r /\
    match r with
    | Some j => a <= j < len cs /\
                (level < cd_c (candle_at cs j))%Q /\
                forall k, a <= k < j -> (cd_c (candle_at cs k) <= level)%Q
    | None => forall k, a <= k < len cs -> (cd_c (candle_at cs k) <= level)%Q
    end.
Proof.
  intros cs level. apply (range_ind (len cs)
    (fun a => 0 <= a -> exists r, first_close_above (map cd_c cs) level (range a (len cs)) = Ok r /\ _)).
  - intros a Hge Ha. rewrite range_empty by lia. exists None. split; [reflexivity|].
    intros k Hk. lia.
  - intros a Hlt IH Ha. rewrite range_cons by lia. simpl.
    rewrite (py_index_ok _ 0%Q) by (rewrite len_map; lia). simpl.
    rewrite close_at.
    destruct (Qltb level (cd_c (candle_at cs a))) eqn:E.
    + exists (Some a). split; [reflexivity|].
      split; [lia|]. split; [now apply Qltb_lt|]. intros k Hk. lia.
    + apply Qltb_ge in E.
      destruct (IH ltac:(lia)) as [r [Hr Hspec]]. exists r. split; [exact Hr|].
      destruct r as [j|].
      * destruct Hspec as (Hj & Hlev & Hbefore). split; [lia|]. split; [exact Hlev|].
        intros k Hk. destruct (Z.eq_dec k a) as [->|Hne]; [exact E|].
        apply Hbefore. lia.
      * intros k Hk. destruct (Z.eq_dec k a) as [->|Hne]; [exact E|].
        apply Hspec. lia.
Qed.

Lemma earliest_high_unique : forall hs li h1 h2,
  earliest_high_after hs li h1 -> earliest_high_after hs li h2 -> h1 = h2.
Proof.
  intros hs li h1 h2 (I1 & L1 & M1) (I2 & L2 & M2).
  specialize (M1 h2 I2 L2). specialize (M2 h1 I1 L1). lia.
Qed.

Lemma filter_head_earliest : forall hs li hi0 tl,
  StronglySorted Z.lt hs ->
  filter (fun hi => li <? hi) hs = hi0 :: tl ->
  earliest_high_after hs li hi0.
Proof.
  intros hs li hi0 tl Hs Hf.
  assert (Hin : In hi0 (filter (fun hi => li <? hi) hs)) by (rewrite Hf; now left).
  apply filter_In in Hin. destruct Hin as [Hin Hlt]. apply Z.ltb_lt in Hlt.
  split; [exact Hin|]. split; [exact Hlt|].
  intros x Hx Hlx.
  assert (Hxf : In x (filter (fun hi => li <? hi) hs))
    by (apply filter_In; split; [exact Hx | now apply Z.ltb_lt]).
  rewrite Hf in Hxf. destruct Hxf as [->|Hxt]; [lia|].
  pose proof (filter_sorted (fun hi => li <? hi) hs Hs) as Hfs.
  rewrite Hf in Hfs. inversion Hfs as [|? ? _ Hall]; subst.
  rewrite Forall_forall in Hall. specialize (Hall x Hxt). lia.
Qed.

Lemma filter_nil_no_high : forall hs li,
  filter (fun hi => li <? hi) hs = [] ->
  forall hi0, ~ earliest_high_after hs li hi0.
Proof.
  intros hs li Hf hi0 (Hin & Hlt & _).
  assert (Hxf : In hi0 (filter (fun hi => li <? hi) hs))
    by (apply filter_In; split; [exact Hin | now apply Z.ltb_lt]).
  rewrite Hf in Hxf. destruct Hxf.
Qed.

Lemma base_end_search_spec : forall cs hs ls,
  StronglySorted Z.lt hs ->
  (forall i, In i hs -> 0 <= i < len cs) ->
  exists r,
    base_end_search cs (map cd_c cs) hs ls = Ok r /\
    match r with
    | Some j => exists pre li post,
        ls = pre ++ li :: post /\
        (forall l', In l' pre -> no_breakout cs hs l') /\
        breakout cs hs li j
    | None => forall li, In li ls -> no_breakout cs hs li
    end.
Proof.
  intros cs hs ls Hs Hin.
  induction ls as [|li ls IH]; simpl.
  - exists None. split; [reflexivity|]. intros li [].
  - destruct (filter (fun hi => li <? hi) hs) as [|hi0 tl] eqn:Hf.
    + destruct IH as [r [Hr Hspec]]. exists r. split; [exact Hr|].
      assert (Hno : no_breakout cs hs li).
      { intros j (h0 & He & _). exact (filter_nil_no_high hs li Hf h0 He). }
      destruct r as [j|].
      * destruct Hspec as (pre & l0 & post & -> & Hpre & Hb).
        exists (li :: pre), l0, post. split; [reflexivity|]. split; [|exact Hb].
        intros l' [<-|Hl]; [exact Hno | now apply Hpre].
      * intros l' [<-|Hl]; [exact Hno | now apply Hspec].
    + pose proof (filter_head_earliest hs li hi0 tl Hs Hf) as He.
      assert (Hhi : 0 <= hi0 < len cs) by (apply Hin; apply He).
      rewrite candle_index by lia. simpl. rewrite len_map.
      destruct (first_close_above_spec cs (cd_h (candle_at cs hi0)) (hi0 + 1)
                  ltac:(lia)) as [f [Hfc Hfs]].
      rewrite Hfc. simpl. destruct f as [j|].
      * exists (Some j). split; [reflexivity|].
        exists [], li, ls. split; [reflexivity|]. split; [intros l' []|].
        destruct Hfs as (Hj & Hlev & Hbefore).
        exists hi0. split; [exact He|]. split; [lia|]. split; [exact Hlev|].
        intros k Hk. apply Hbefore. lia.
      * assert (Hno : no_breakout cs hs li).
        { intros j (h0 & He' & Hj & Hlev & _).
          rewrite (earliest_high_unique hs li h0 hi0 He' He) in *.
          specialize (Hfs j ltac:(lia)). lra. }
        destruct IH as [r [Hr Hspec]]. exists r. split; [exact Hr|].
        destruct r as [j|].
        -- destruct Hspec as (pre & l0 & post & -> & Hpre & Hb).
           exists (li :: pre), l0, post. split; [reflexivity|]. split; [|exact Hb].
           intros l' [<-|Hl]; [exact Hno | now apply Hpre].
        -- intros l' [<-|Hl]; [exact Hno | now apply Hspec].
Qed.

Lemma structure_base_end_spec : forall cs sw,
  StronglySorted Z.lt (highs sw) ->
  (forall i, In i (highs sw) -> 0 <= i < len cs) ->
  exists be, structure_base_end cs sw = Ok be /\ base_end_spec cs sw be.
Proof.
  intros cs sw Hs Hin. unfold structure_base_end, base_end_spec.
  destruct (base_end_search_spec cs (highs sw) (lows sw) Hs Hin) as [r [Hr Hspec]].
  assert (Hfall : Z.max 0 (int_scale (len cs) (35 # 100))
                  = int_scale (len cs) (35 # 100) /\
                  (len cs <= 2 ^ 40 ->
                   35 * len cs / 100 - 1
                   <= Z.max 0 (int_scale (len cs) (35 # 100))
                   <= 35 * len cs / 100)).
  { pose proof (len_nonneg _ cs) as Hn.
    pose proof (int_scale_nonneg (len cs) (35 # 100) Hn ltac:(discriminate)) as H0.
    split; [apply Z.max_r; exact H0|].
    intros Hb. rewrite Z.max_r by exact H0.
    apply int_scale_35_bounds. lia. }
  destruct Hfall as [Hmax Hfall].
  destruct (nonempty (lows sw) && nonempty (highs sw)) eqn:E.
  - rewrite Hr. simpl. destruct r as [j|].
    + exists j. split; [reflexivity|]. left. exact Hspec.
    + eexists. split; [reflexivity|]. right.
      split; [exact Hspec | split; [exact Hmax | exact Hfall]].
  - simpl. eexists. split; [reflexivity|]. right.
    split; [|split; [exact Hmax | exact Hfall]].
    apply andb_false_iff in E. destruct E as [E|E].
    + destruct (lows sw); [intros li [] | discriminate].
    + destruct (highs sw); [|discriminate].
      intros li _ j (h0 & (Hh & _) & _). destruct Hh.
Qed.

(** C5, amended.  With non-negative swing parameters the Structure stage
    returns, its swing lists are in chronological (strictly increasing)
    order, and its [base_end_idx] is the breakout of the first swing low, in
    that order, that has one: the first bar after the earliest swing high
    following that swing low whose close is strictly above that high.  When
    no swing low has a breakout (in particular when either swing list is
    empty) it is [int(len * 0.35)] as binary64 arithmetic evaluates it: for
    a series of at most [2^40] bars, 35% of the series length rounded down,
    or one less. *)
Theorem structure_base_end_first_breakout : forall ctx,
  0 <= get_param (ctx_params ctx) "swing_left" 3 ->
  0 <= get_param (ctx_params ctx) "swing_right" 3 ->
  exists res out,
    StructureAgent_run ctx = Ok res /\
    ar_output res = OStructure out /\
    find_swings (ctx_candles ctx)
                (get_param (ctx_params ctx) "swing_left" 3)
                (get_param (ctx_params ctx) "swing_right" 3) = Ok (swings out) /\
    StronglySorted Z.lt (lows (swings out)) /\
    StronglySorted Z.lt (highs (swings out)) /\
    base_end_spec (ctx_candles ctx) (swings out) (base_end_idx out).
Proof.
  intros ctx Hl Hr. unfold StructureAgent_run.
  destruct (find_swings_total (ctx_candles ctx) _ _ Hl Hr)
    as [sw Hsw].
  pose proof (find_swings_sorted _ _ _ sw Hl Hr Hsw) as (Hsh & Hsl & Hih & _).
  rewrite Hsw. simpl.
  destruct (structure_base_end_spec (ctx_candles ctx) sw Hsh Hih) as [be [Hbe Hspec]].
  rewrite Hbe. simpl.
  eexists. eexists. split; [reflexivity|]. simpl.
  split; [reflexivity|]. simpl. auto.
Qed.

(** ** Sums, minima and maxima of rationals *)

Lemma fold_plus_acc : forall xs a, (fold_left Qplus xs a == a + qsum xs)%Q.
Proof.
  unfold qsum. induction xs as [|x xs IH]; intros a; simpl.
  - lra.
  - rewrite (IH (a + x)%Q), (IH (0 + x)%Q). lra.
Qed.

Lemma qsum_cons : forall x xs, (qsum (x :: xs) == x + qsum xs)%Q.
Proof. intros. unfold qsum at 1. simpl. rewrite fold_plus_acc. lra. Qed.

Lemma qsum_single : forall x, (qsum [x] == x)%Q.
Proof. intros. unfold qsum. simpl. lra. Qed.


Lemma qsum_app : forall xs ys, (qsum (xs ++ ys) == qsum xs + qsum ys)%Q.
Proof.
  intros xs ys. unfold qsum at 1. rewrite fold_left_app, fold_plus_acc.
  reflexivity.
Qed.

Lemma qsum_nonneg : forall xs,
  (forall x, In x xs -> (0 <= x)%Q) -> (0 <= qsum xs)%Q.
Proof.
  induction xs as [|x xs IH]; intros H.
  - unfold qsum. simpl. lra.
  - rewrite qsum_cons.
    pose proof (H x (or_introl eq_refl)).
    pose proof (IH (fun y Hy => H y (or_intror Hy))). lra.
Qed.

Lemma qmin_list_spec : forall xs x,
  (qmin_list x xs <= x)%Q /\
  (forall y, In y xs -> (qmin_list x xs <= y)%Q) /\
  ((qmin_list x xs == x)%Q \/ exists y, In y xs /\ (qmin_list x xs == y)%Q).
Proof.
  unfold qmin_list. induction xs as [|y xs IH]; intros x; simpl.
  - split; [lra|]. split; [intros y []|]. left. reflexivity.
  - destruct (IH (Qmin x y)) as (H1 & H2 & H3).
    destruct (Q.min_spec x y) as [[Hlt He]|[Hle He]].
    + split; [lra|]. split.
      * intros z [<-|Hz]; [lra | now apply H2].
      * destruct H3 as [H3|[z [Hz H3]]]; [left; lra | right; exists z; auto].
    + split; [lra|]. split.
      * intros z [<-|Hz]; [lra | now apply H2].
      * destruct H3 as [H3|[z [Hz H3]]]; [|right; exists z; auto].
        right. exists y. split; [now left | lra].
Qed.

Lemma qmax_list_spec : forall xs x,
  (x <= qmax_list x xs)%Q /\
  (forall y, In y xs -> (y <= qmax_list x xs)%Q) /\
  ((qmax_list x xs == x)%Q \/ exists y, In y xs /\ (qmax_list x xs == y)%Q).
Proof.
  unfold qmax_list. induction xs as [|y xs IH]; intros x; simpl.
  - split; [lra|]. split; [intros y []|]. left. reflexivity.
  - destruct (IH (Qmax x y)) as (H1 & H2 & H3).
    destruct (Q.max_spec x y) as [[Hlt He]|[Hle He]].
    + split; [lra|]. split.
      * intros z [<-|Hz]; [lra | now apply H2].
      * destruct H3 as [H3|[z [Hz H3]]]; [|right; exists z; auto].
        right. exists y. split; [now left | lra].
    + split; [lra|]. split.
      * intros z [<-|Hz]; [lra | now apply H2].
      * destruct H3 as [H3|[z [Hz H3]]]; [left; lra | right; exists z; auto].
Qed.

(** ** List update *)

Lemma list_set_length : forall (A : Type) (xs : list A) k x,
  len (list_set xs k x) = len xs.
Proof.
  intros A xs. induction xs as [|y xs IH]; intros k x; simpl; [reflexivity|].
  destruct k; rewrite !len_cons; [reflexivity|]. now rewrite IH.
Qed.

Lemma list_set_nth_same : forall (A : Type) (d : A) (xs : list A) k x,
  (Z.of_nat k < len xs) -> nth k (list_set xs k x) d = x.
Proof.
  intros A d xs. induction xs as [|y xs IH]; intros k x H.
  - unfold len in H. simpl in H. lia.
  - destruct k; simpl; [reflexivity|]. apply IH. rewrite len_cons in H. lia.
Qed.

Lemma list_set_nth_other : forall (A : Type) (d : A) (xs : list A) k j x,
  j <> k -> nth j (list_set xs k x) d = nth j xs d.
Proof.
  intros A d xs. induction xs as [|y xs IH]; intros k j x H; simpl.
  - reflexivity.
  - destruct k, j; simpl; try reflexivity; try congruence.
    apply IH. congruence.
Qed.

Lemma qsum_list_set : forall xs k y,
  (Z.of_nat k < len xs) ->
  (qsum (list_set xs k (nth k xs 0 + y)) == qsum xs + y)%Q.
Proof.
  induction xs as [|x xs IH]; intros k y H.
  - unfold len in H. simpl in H. lia.
  - destruct k; simpl.
    + rewrite !qsum_cons. lra.
    + rewrite !qsum_cons. rewrite IH by (rewrite len_cons in H; lia). lra.
Qed.

Lemma py_setitem_ok : forall (A : Type) (xs : list A) i x,
  0 <= i < len xs -> py_setitem xs i x = Ok (list_set xs (Z.to_nat i) x).
Proof.
  intros A xs i x H. unfold py_setitem.
  destruct (i <? 0) eqn:E; [lia|]. rewrite E. simpl.
  destruct (len xs <=? i) eqn:E2; [lia|]. reflexivity.
Qed.

(** ** Volume-at-price histogram *)

Lemma bucket_index_ok : forall lo bs bins cd,
  ~ (bs == 0)%Q ->
  bucket_index lo bs bins cd = Ok (bucket_of lo bs bins cd).
Proof.
  intros lo bs bins cd H. unfold bucket_index. rewrite fdiv_ok by exact H.
  reflexivity.
Qed.

Lemma bucket_of_range : forall lo bs bins cd,
  1 <= bins -> 0 <= bucket_of lo bs bins cd < bins.
Proof. intros. unfold bucket_of. lia. Qed.






Lemma fill_bins_spec : forall lo bs bins cs vols,
  1 <= bins -> len vols = bins -> ~ (bs == 0)%Q ->
  exists vols',
    fill_bins lo bs bins vols cs = Ok vols' /\
    len vols' = bins /\
    (forall i, 0 <= i < bins ->
       nth (Z.to_nat i) vols' 0%Q =
       fold_left fadd
         (map cd_v (filter (fun cd => bucket_of lo bs bins cd =? i) cs))
         (nth (Z.to_nat i) vols 0%Q)).
Proof.
  intros lo bs bins cs. induction cs as [|cd cs IH]; intros vols Hb Hlen Hbs.
  - exists vols. split; [reflexivity|]. split; [exact Hlen|].
    intros i Hi. reflexivity.
  - simpl. rewrite bucket_index_ok by exact Hbs. simpl.
    pose proof (bucket_of_range lo bs bins cd Hb) as Hidx.
    set (idx := bucket_of lo bs bins cd) in *.
    rewrite (py_index_ok _ 0%Q) by lia. simpl.
    rewrite py_setitem_ok by lia. simpl.
    destruct (IH (list_set vols (Z.to_nat idx)
                    (fadd (nth (Z.to_nat idx) vols 0%Q) (cd_v cd))) Hb
                 ltac:(rewrite list_set_length; exact Hlen) Hbs)
      as (vols' & Hf & Hl & Hnth).
    exists vols'. split; [exact Hf|]. split; [exact Hl|].
    intros i Hi. rewrite (Hnth i Hi).
    destruct (Z.eq_dec idx i) as [<-|Hne].
    + rewrite Z.eqb_refl. rewrite list_set_nth_same by lia. reflexivity.
    + replace (idx =? i) with false by (symmetry; now apply Z.eqb_neq).
      rewrite list_set_nth_other by lia. reflexivity.
Qed.



Lemma typical_bounds : forall cd0 rest,
  is_min_typical (cd0 :: rest)
    (qmin_list (typical cd0) (map typical rest)) /\
  is_max_typical (cd0 :: rest)
    (qmax_list (typical cd0) (map typical rest)).
Proof.
  intros cd0 rest.
  destruct (qmin_list_spec (map typical rest) (typical cd0)) as (A1 & A2 & A3).
  destruct (qmax_list_spec (map typical rest) (typical cd0)) as (B1 & B2 & B3).
  split; split.
  - destruct A3 as [A3|[y [Hy A3]]].
    + exists cd0. split; [now left | lra].
    + apply in_map_iff in Hy. destruct Hy as [cd [<- Hcd]].
      exists cd. split; [now right | lra].
  - intros cd [<-|Hcd]; [exact A1|]. apply A2. now apply in_map.
  - destruct B3 as [B3|[y [Hy B3]]].
    + exists cd0. split; [now left | lra].
    + apply in_map_iff in Hy. destruct Hy as [cd [<- Hcd]].
      exists cd. split; [now right | lra].
  - intros cd [<-|Hcd]; [exact B1|]. apply B2. now apply in_map.
Qed.

(** What the histogram branch computes once the price range is known. *)
Lemma histogram_width_pos : forall lo hi bins,
  1 <= bins -> (lo < hi)%Q ->
  fdiv (fsub hi lo) (float_of_int bins)
  = Ok (round64 (fsub hi lo / float_of_int bins)) /\
  (0 < round64 (fsub hi lo / float_of_int bins))%Q.
Proof.
  intros lo hi bins Hb Hlt.
  pose proof (float_of_int_pos bins ltac:(lia)) as HB.
  assert (HD : (0 < fsub hi lo)%Q) by (apply round64_pos; lra).
  split; [apply fdiv_ok; lra|].
  apply round64_pos. apply Qlt_shift_div_l; lra.
Qed.

Lemma volume_nodes_total : forall cs bins,
  cs <> [] -> 1 <= bins -> exists nodes, volume_nodes_proxy cs bins = Ok nodes.
Proof.
  intros cs bins Hne Hb. destruct cs as [|cd0 rest]; [congruence|].
  unfold volume_nodes_proxy. cbn [map]. cbv zeta.
  set (lo := qmin_list (typical cd0) (map typical rest)) in *.
  set (hi := qmax_list (typical cd0) (map typical rest)) in *.
  destruct (Qle_bool hi lo) eqn:E; [eexists; reflexivity|].
  apply Qle_bool_false in E.
  destruct (histogram_width_pos lo hi bins Hb E) as [Hd Hw].
  rewrite Hd. cbn [bind].
  destruct (fill_bins_spec lo (round64 (fsub hi lo / float_of_int bins)) bins
              (cd0 :: rest) (repeat 0%Q (Z.to_nat bins)) Hb
              ltac:(unfold len; rewrite repeat_length; lia)
              ltac:(lra)) as (vols & Hf & _).
  rewrite Hf. cbn [bind]. eexists. reflexivity.
Qed.

(** *** Sums that do not round *)

Lemma whole_nonneg : forall x, whole x -> (0 <= x)%Q.
Proof. intros x (k & Hk & E). rewrite E. apply inject_Z_nonneg, Hk. Qed.

Lemma whole_0 : whole 0.
Proof. exists 0. split; [lia | reflexivity]. Qed.

Lemma fadd_whole : forall x y,
  whole x -> whole y -> (x + y <= inject_Z (2 ^ 53))%Q ->
  (fadd x y == x + y)%Q /\ whole (fadd x y).
Proof.
  intros x y (a & Ha & Ex) (b & Hb & Ey) H.
  assert (E : (x + y == inject_Z (a + b))%Q)
    by (rewrite inject_Z_plus, Ex, Ey; reflexivity).
  assert (Hab : a + b <= 2 ^ 53).
  { rewrite E in H. rewrite <- Zle_Qle in H. exact H. }
  unfold fadd. rewrite (round64_comp _ _ E).
  pose proof (round64_Z (a + b) ltac:(lia)) as R.
  split; [rewrite R; symmetry; exact E|].
  exists (a + b). split; [lia | exact R].
Qed.









(** ** The longest compressed window *)

Lemma mask_index : forall mask i,
  0 <= i < len mask -> py_index mask i = Ok (mask_at mask i).
Proof. intros. now apply py_index_ok. Qed.

Lemma best_ok_extend : forall mask z0 i b,
  best_ok mask z0 i b -> mask_at mask i = false ->
  best_ok mask z0 (i + 1) b.
Proof.
  unfold best_ok, window_spec. intros mask z0 i b H Hm.
  replace (i + 1 - 1) with i by lia.
  destruct H as [[Hno ->]|(s & e & (Hrun & Hmax) & ->)].
  - left. split; [|reflexivity]. intros k Hk.
    destruct (Z.eq_dec k i) as [->|Hne]; [exact Hm|]. apply Hno. lia.
  - right. exists s, e. split; [|reflexivity].
    destruct Hrun as (H1 & H2 & H3 & H4). split.
    + repeat split; try lia. exact H4.
    + intros a b (A1 & A2 & A3 & A4).
      assert (b <> i).
      { intros ->. specialize (A4 i ltac:(lia)). congruence. }
      apply Hmax. repeat split; try lia. exact A4.
Qed.

(** Closing the current run at bar [i - 1]. *)
Lemma better_ok : forall mask z0 i st,
  win_inv mask z0 i st -> best_ok mask z0 i (better st (i - 1)).
Proof.
  unfold win_inv, better. intros mask z0 i st H.
  destruct (cur_s st) as [s0|]; [|apply H].
  destruct H as (Hs0 & Hlen & Hrun & Hleft & Hbest).
  (* a run ending before [i] lies before [s0 - 1] or inside [s0 .. i-1] *)
  assert (Hsplit : forall a b, compressed_run mask z0 (i - 1) a b ->
            compressed_run mask z0 (s0 - 1) a b \/ s0 <= a).
  { intros a b (A1 & A2 & A3 & A4).
    destruct (Z_lt_le_dec a s0) as [Hlt|Hge]; [|now right]. left.
    destruct Hleft as [->|Hm]; [lia|].
    assert (b < s0 - 1).
    { destruct (Z_lt_le_dec b (s0 - 1)) as [Hb|Hb]; [exact Hb|].
      specialize (A4 (s0 - 1) ltac:(lia)). congruence. }
    repeat split; try lia. exact A4. }
  unfold best_ok, window_spec in *.
  destruct (snd (best st) <? cur_len st) eqn:E.
  - apply Z.ltb_lt in E. right. exists s0, (i - 1).
    split; [|f_equal; lia]. split.
    + repeat split; try lia. intros k Hk. apply Hrun. lia.
    + intros a b Hab. destruct (Hsplit a b Hab) as [Hold|Hin].
      * destruct Hbest as [[Hno Hb]|(s & e & (Hr & Hmax) & Hb)].
        -- destruct Hold as (A1 & A2 & A3 & A4).
           specialize (Hno a ltac:(lia)). specialize (A4 a ltac:(lia)). congruence.
        -- rewrite Hb in E. simpl in E.
           destruct (Hmax a b Hold) as [Hle _]. lia.
      * destruct Hab as (A1 & A2 & A3 & A4). lia.
  - apply Z.ltb_ge in E.
    destruct Hbest as [[Hno Hb]|(s & e & (Hr & Hmax) & Hb)].
    + rewrite Hb in E. simpl in E. lia.
    + right. exists s, e. split; [|exact Hb].
      rewrite Hb in E. simpl in E.
      destruct Hr as (R1 & R2 & R3 & R4). split.
      * repeat split; try lia. exact R4.
      * intros a b Hab. destruct (Hsplit a b Hab) as [Hold|Hin].
        -- now apply Hmax.
        -- destruct Hab as (A1 & A2 & A3 & A4). lia.
Qed.

Lemma window_step_inv : forall mask z0 i st,
  0 <= i < len mask -> z0 <= i ->
  win_inv mask z0 i st ->
  exists st', window_step mask st i = Ok st' /\ win_inv mask z0 (i + 1) st'.
Proof.
  intros mask z0 i st Hi Hz Hinv. unfold window_step.
  rewrite mask_index by lia. simpl.
  destruct (mask_at mask i) eqn:Hm.
  - destruct (cur_s st) as [s0|] eqn:Hc.
    + eexists. split; [reflexivity|]. unfold win_inv in *. rewrite Hc in Hinv.
      simpl. destruct Hinv as (H1 & H2 & H3 & H4 & H5).
      split; [lia|]. split; [lia|]. split; [|split; assumption].
      intros k Hk. destruct (Z.eq_dec k i) as [->|Hne]; [exact Hm|].
      apply H3. lia.
    + eexists. split; [reflexivity|]. unfold win_inv in *. rewrite Hc in Hinv.
      simpl. destruct Hinv as (H1 & H2).
      split; [lia|]. split; [lia|]. split; [|split; assumption].
      intros k Hk. replace k with i by lia. exact Hm.
  - eexists. split; [reflexivity|]. unfold win_inv at 1. simpl.
    replace (i + 1 - 1) with i by lia. split; [now right|].
    apply best_ok_extend; [|exact Hm]. now apply better_ok.
Qed.

Lemma window_loop_inv : forall mask z0 z1,
  z1 < len mask ->
  forall i st,
  0 <= i -> z0 <= i <= z1 + 1 ->
  win_inv mask z0 i st ->
  exists st', foldM (window_step mask) (range i (z1 + 1)) st = Ok st' /\
              win_inv mask z0 (z1 + 1) st'.
Proof.
  intros mask z0 z1 Hz1.
  apply (range_ind (z1 + 1)
    (fun i => forall st, 0 <= i -> z0 <= i <= z1 + 1 -> win_inv mask z0 i st ->
        exists st', foldM (window_step mask) (range i (z1 + 1)) st = Ok st' /\
                    win_inv mask z0 (z1 + 1) st')).
  - intros i Hge st Hi Hzi Hinv. rewrite range_empty by lia. simpl.
    exists st. split; [reflexivity|]. replace (z1 + 1) with i by lia. exact Hinv.
  - intros i Hlt IH st Hi Hzi Hinv. rewrite range_cons by lia. simpl.
    destruct (window_step_inv mask z0 i st ltac:(lia) ltac:(lia) Hinv)
      as (st1 & Hs & Hinv1).
    rewrite Hs. simpl. apply IH; try lia. exact Hinv1.
Qed.

Lemma find_longest_true_window_spec : forall mask z0 z1,
  0 <= z0 -> z1 < len mask ->
  exists r, _find_longest_true_window mask z0 z1 = Ok r /\
            window_spec mask z0 z1 r.
Proof.
  intros mask z0 z1 H0 H1. unfold _find_longest_true_window.
  destruct (Z_lt_le_dec z1 z0) as [Hinv|Hord].
  - rewrite range_empty by lia. simpl. eexists. split; [reflexivity|].
    left. split; [|reflexivity]. intros i Hi. lia.
  - destruct (window_loop_inv mask z0 z1 H1 z0
                (mkWinState (None, None, 0) None 0) H0 ltac:(lia))
      as (st & Hf & Hinv).
    { unfold win_inv. simpl. split; [now left|].
      left. split; [|reflexivity]. intros i Hi. lia. }
    rewrite Hf. simpl. eexists. split; [reflexivity|].
    pose proof (better_ok mask z0 (z1 + 1) st Hinv) as Hb.
    unfold best_ok in Hb.
    replace (z1 + 1 - 1) with z1 in Hb by lia. exact Hb.
Qed.

Lemma fallback_start_range : forall d,
  (0 <= d -> 0 <= Z.quot (d * 6) 10 <= d /\
             2 * d <= 5 * (d - Z.quot (d * 6) 10) < 2 * d + 5) /\
  (d <= 0 -> d <= Z.quot (d * 6) 10 <= 0).
Proof.
  intros d. pose proof (Z.quot_rem' (d * 6) 10) as Hqr.
  split; intros Hd.
  - pose proof (Z.rem_bound_pos (d * 6) 10 ltac:(lia) ltac:(lia)). lia.
  - pose proof (Z.rem_bound_pos_neg (d * 6) 10 ltac:(lia) ltac:(lia)). lia.
Qed.

(** [entry_window] on a zone inside the series: the window found by
    [_find_longest_true_window], or the fallback. *)
Lemma entry_window_cases : forall cs mask z0 z1,
  0 <= z0 < len cs -> 0 <= z1 < len cs -> len mask = len cs ->
  exists r,
    _find_longest_true_window mask z0 z1 = Ok r /\
    window_spec mask z0 z1 r /\
    0 <= z0 + Z.quot ((z1 - z0) * 6) 10 < len cs /\
    match r with
    | (Some s, Some e, ln) =>
      entry_window cs mask (z0, z1)
      = Ok (cd_ts (candle_at cs s), cd_ts (candle_at cs e),
            clamp (inject_Z ln / inject_Z (Z.max 10 (z1 - z0 + 1)))
                  (35 # 100) (85 # 100),
            [NCompressionWindow s e ln])
    | _ =>
      entry_window cs mask (z0, z1)
      = Ok (cd_ts (candle_at cs (z0 + Z.quot ((z1 - z0) * 6) 10)),
            cd_ts (candle_at cs z1), 35 # 100,
            [NFallbackWindow (z0 + Z.quot ((z1 - z0) * 6) 10) z1])
    end.
Proof.
  intros cs mask z0 z1 H0 H1 Hlen.
  destruct (find_longest_true_window_spec mask z0 z1 ltac:(lia) ltac:(lia))
    as (r & Hr & Hspec).
  exists r. split; [exact Hr|]. split; [exact Hspec|].
  destruct (fallback_start_range (z1 - z0)) as [Hpos Hneg].
  assert (Hss : 0 <= z0 + Z.quot ((z1 - z0) * 6) 10 < len cs).
  { destruct (Z_le_gt_dec 0 (z1 - z0)) as [Hd|Hd];
      [specialize (Hpos Hd) | specialize (Hneg ltac:(lia))]; lia. }
  split; [exact Hss|].
  unfold entry_window. cbn [fst snd]. rewrite Hr. cbn [bind].
  destruct Hspec as [[_ ->]|(s & e & ((A1 & A2 & A3 & _) & _) & ->)].
  - rewrite py_int_scale.
    rewrite (candle_index cs _ Hss). cbn [bind].
    rewrite (candle_index cs z1 H1). cbn [bind]. reflexivity.
  - rewrite (candle_index cs s) by lia. cbn [bind].
    rewrite (candle_index cs e) by lia. cbn [bind]. reflexivity.
Qed.


(** ** The resolver, taken apart *)

(** Inverts [m >>= k = Ok _]. *)
Ltac inv_bind H :=
  match type of H with
  | bind ?m _ = Ok _ =>
    let E := fresh "E" in
    destruct m eqn:E; cbn [bind] in H; [|discriminate H]
  end.

Lemma trace_inv : forall tr key te,
  trace tr key = Ok te -> dict_get tr key = Some te.
Proof.
  unfold trace. intros tr key te H.
  destruct (dict_get tr key); [now inversion H | discriminate].
Qed.

(** A successful [resolve_layers] built its five layers on the five zones,
    in order, and refined them. *)
Lemma resolve_layers_inv : forall ctx lys,
  resolve_layers ctx = Ok lys ->
  exists be l1 l2 l3 l4 l5,
    ctx_base_end ctx = Some be /\
    layer_built ctx 1 (base_zone be) (5 # 100) l1 /\
    layer_built ctx 2 (early_zone (len (ctx_candles ctx)) be) (4 # 100) l2 /\
    layer_built ctx 3 (mid_zone (len (ctx_candles ctx))) (3 # 100) l3 /\
    layer_built ctx 4 (late_zone (len (ctx_candles ctx))) (2 # 100) l4 /\
    layer_built ctx 5 (peak_zone (len (ctx_candles ctx))) (1 # 100) l5 /\
    lys = refine_all (sorted_desc node_vol (ctx_hvn ctx)) [l1; l2; l3; l4; l5].
Proof.
  intros ctx lys H. unfold resolve_layers in H.
  inv_bind H. inv_bind H. inv_bind H. inv_bind H. inv_bind H.
  apply trace_inv in E, E0, E1, E2, E3.
  inv_bind H. inv_bind H.
  do 10 inv_bind H. do 2 inv_bind H. do 5 inv_bind H.
  inversion H; subst lys; clear H.
  destruct (t_output a) eqn:Ha; try discriminate. inversion E4; subst; clear E4.
  destruct (t_output a2) eqn:Ha2; try discriminate. inversion E5; subst; clear E5.
  destruct (t_output a3) eqn:Ha3; try discriminate.
  inversion E16; subst; clear E16. inversion E17; subst; clear E17.
  assert (Hmask : ctx_mask ctx = compression_mask out0)
    by (unfold ctx_mask; now rewrite E2, Ha2).
  assert (Hd : ctx_dist_flags ctx = distribution_flags out1)
    by (unfold ctx_dist_flags; now rewrite E3, Ha3).
  assert (Hab : ctx_abs_flags ctx = absorption_flags out1)
    by (unfold ctx_abs_flags; now rewrite E3, Ha3).
  assert (Hh : ctx_hvn ctx
               = match t_output a0 with OVolume o => hvn o | _ => [] end)
    by (unfold ctx_hvn; now rewrite E0).
  exists (base_end_idx out).
  do 5 eexists.
  split; [unfold ctx_base_end; now rewrite E, Ha|].
  unfold layer_built. rewrite Hmask, Hd, Hab, Hh.
  repeat (split; [do 3 eexists; repeat split; eassumption|]).
  reflexivity.
Qed.

(** ** Volume-weighted centroid *)



Lemma weighted_centroid_total : forall seg,
  exists r, _weighted_centroid_price seg = Ok r.
Proof.
  intros seg. unfold _weighted_centroid_price.
  destruct seg as [|cd seg]; [eexists; reflexivity|].
  destruct (centroid_sums (cd :: seg)) as [num den].
  destruct (Qltb 0 den) eqn:E; [|eexists; reflexivity].
  apply Qltb_lt in E. unfold py_div.
  destruct (Qeq_bool den 0) eqn:E0.
  - apply Qeq_bool_iff in E0. lra.
  - eexists; reflexivity.
Qed.



Lemma make_layer_fields : forall k b w s vc,
  layer (make_layer k b w s vc) = k /\
  price_low (make_layer k b w s vc) = fst (fst (fst b)) /\
  price_high (make_layer k b w s vc) = snd (fst (fst b)) /\
  cost_basis (make_layer k b w s vc) = snd (fst b) /\
  entry_start_ts (make_layer k b w s vc) = Some (fst (fst (fst w))) /\
  entry_end_ts (make_layer k b w s vc) = Some (snd (fst (fst w))) /\
  confidence (make_layer k b w s vc)
  = combine_conf (snd (fst w)) (snd (fst s)) vc.
Proof.
  intros k [[[lo hi] cb] ev] [[[s0 e0] wc] wev] [[stt sc] sev] vc.
  unfold make_layer. simpl. repeat split.
Qed.

Lemma hvn_refine_fields : forall hs lb,
  layer (hvn_refine hs lb) = layer lb /\
  price_low (hvn_refine hs lb) = price_low lb /\
  price_high (hvn_refine hs lb) = price_high lb /\
  entry_start_ts (hvn_refine hs lb) = entry_start_ts lb /\
  entry_end_ts (hvn_refine hs lb) = entry_end_ts lb /\
  state (hvn_refine hs lb) = state lb /\
  confidence (hvn_refine hs lb) = confidence lb /\
  (cost_basis lb = None -> cost_basis (hvn_refine hs lb) = None).
Proof.
  intros hs lb. unfold hvn_refine.
  destruct (filter (overlaps lb) hs); simpl; repeat split; auto.
  intros ->. reflexivity.
Qed.

Lemma refine_all_map : forall hs built,
  refine_all hs built = map (hvn_refine hs) built.
Proof.
  intros hs built. unfold refine_all. destruct hs as [|nd hs]; [|reflexivity].
  simpl. symmetry. rewrite <- (map_id built) at 2. apply map_ext.
  intros lb. reflexivity.
Qed.

Lemma refine_all_nth : forall hs built k lb,
  nth_error (refine_all hs built) k = Some lb ->
  exists lb0, nth_error built k = Some lb0 /\
              (lb = lb0 \/ lb = hvn_refine hs lb0).
Proof.
  intros hs built k lb H. unfold refine_all in H.
  destruct (nonempty hs).
  - rewrite nth_error_map in H.
    destruct (nth_error built k) as [lb0|]; simpl in H; [|discriminate].
    inversion H. exists lb0. auto.
  - exists lb. auto.
Qed.

(** The layer at position [k] of a successful resolution was built on the
    [k]-th zone with the [k]-th widen factor. *)
Lemma resolved_layer_built : forall ctx lys be k z lb,
  resolve_layers ctx = Ok lys ->
  ctx_base_end ctx = Some be ->
  nth_error (layer_zones (len (ctx_candles ctx)) be) k = Some z ->
  nth_error lys k = Some lb ->
  exists w lb0,
    nth_error layer_widens k = Some w /\
    layer_built ctx (Z.of_nat k + 1) z w lb0 /\
    lb = hvn_refine (sorted_desc node_vol (ctx_hvn ctx)) lb0.
Proof.
  intros ctx lys be k z lb H Hbe Hz Hlb.
  destruct (resolve_layers_inv ctx lys H)
    as (be' & l1 & l2 & l3 & l4 & l5 & Hbe' & B1 & B2 & B3 & B4 & B5 & ->).
  rewrite Hbe in Hbe'. inversion Hbe'; subst be'.
  rewrite refine_all_map, nth_error_map in Hlb.
  unfold layer_zones in Hz.
  destruct k as [|[|[|[|[|k]]]]]; simpl in Hz, Hlb;
    inversion Hz; inversion Hlb; subst;
    try (do 2 eexists; split; [reflexivity|]; split; [eassumption | reflexivity]).
  destruct k; discriminate.
Qed.

Lemma resolved_layer_exists : forall ctx lys (k : nat),
  resolve_layers ctx = Ok lys -> (k < 5)%nat ->
  exists lb, nth_error lys k = Some lb.
Proof.
  intros ctx lys k H Hk.
  destruct (resolve_layers_inv ctx lys H)
    as (be' & l1 & l2 & l3 & l4 & l5 & _ & _ & _ & _ & _ & _ & ->).
  unfold refine_all. destruct (nonempty _);
    destruct k as [|[|[|[|[|k]]]]]; try lia; simpl; eexists; reflexivity.
Qed.


(** ** HVN refinement *)

Section SortedDesc.
Context {A : Type} (key : A -> Q).

Lemma insert_desc_In : forall x y xs,
  In y (insert_desc key x xs) <-> y = x \/ In y xs.
Proof.
  intros x y xs. induction xs as [|z xs IH]; simpl.
  - intuition.
  - destruct (Qle_bool (key z) (key x)); simpl; rewrite ?IH; intuition.
Qed.

Lemma sorted_desc_In : forall y xs, In y (sorted_desc key xs) <-> In y xs.
Proof.
  intros y xs. induction xs as [|x xs IH]; simpl; [tauto|].
  rewrite insert_desc_In, IH. intuition.
Qed.

Lemma insert_desc_sorted : forall x xs,
  StronglySorted (key_ge key) xs -> StronglySorted (key_ge key) (insert_desc key x xs).
Proof.
  intros x xs H. induction H as [|z xs Hs IH Hall]; simpl.
  - constructor; [constructor | constructor].
  - rewrite Forall_forall in Hall.
    destruct (Qle_bool (key z) (key x)) eqn:E.
    + apply Qle_bool_iff in E. constructor.
      * constructor; [exact Hs | now apply Forall_forall].
      * apply Forall_forall. intros y [<-|Hy]; [exact E|].
        unfold key_ge in *. specialize (Hall y Hy). lra.
    + apply Qle_bool_false in E. constructor; [exact IH|].
      apply Forall_forall. intros y Hy. apply insert_desc_In in Hy.
      destruct Hy as [->|Hy]; [unfold key_ge; lra | now apply Hall].
Qed.

Lemma sorted_desc_sorted : forall xs, StronglySorted (key_ge key) (sorted_desc key xs).
Proof.
  induction xs as [|x xs IH]; simpl; [constructor|].
  now apply insert_desc_sorted.
Qed.

Lemma sorted_desc_length : forall xs, len (sorted_desc key xs) = len xs.
Proof.
  assert (Hins : forall x xs, len (insert_desc key x xs) = len xs + 1).
  { intros x xs. induction xs as [|z xs IH]; cbn [insert_desc].
    - reflexivity.
    - destruct (Qle_bool (key z) (key x)); rewrite !len_cons; lia. }
  induction xs as [|x xs IH]; cbn [sorted_desc fold_right]; [reflexivity|].
  fold (sorted_desc key xs). rewrite Hins, IH, len_cons. reflexivity.
Qed.

(** The first element of a descending list that passes a test has the
    greatest key among those that pass. *)
Lemma filter_head_greatest : forall (f : A -> bool) xs x tl,
  StronglySorted (key_ge key) xs ->
  filter f xs = x :: tl ->
  In x xs /\ f x = true /\
  forall y, In y xs -> f y = true -> (key y <= key x)%Q.
Proof.
  intros f xs x tl Hs. induction Hs as [|z xs Hs IH Hall]; simpl; intros Hf.
  - discriminate.
  - rewrite Forall_forall in Hall. destruct (f z) eqn:E.
    + inversion Hf; subst. split; [now left|]. split; [exact E|].
      intros y [<-|Hy] _; [lra | now apply Hall].
    + destruct (IH Hf) as (Hin & Hfx & Hmax).
      split; [now right|]. split; [exact Hfx|].
      intros y [<-|Hy] Hfy; [congruence | now apply Hmax].
Qed.
End SortedDesc.

Lemma filter_nil_none : forall (A : Type) (f : A -> bool) xs,
  filter f xs = [] -> forall x, In x xs -> f x = false.
Proof.
  intros A f xs H x Hx. destruct (f x) eqn:E; [|reflexivity].
  assert (Hin : In x (filter f xs)) by (apply filter_In; auto).
  rewrite H in Hin. destruct Hin.
Qed.

Lemma hvn_refine_spec : forall hs lb,
  (exists nd,
      In nd hs /\ overlaps lb nd = true /\
      (forall nd', In nd' hs -> overlaps lb nd' = true ->
                   (node_vol nd' <= node_vol nd)%Q) /\
      hvn_refine (sorted_desc node_vol hs) lb = blended lb nd)
  \/
  ((forall nd, In nd hs -> overlaps lb nd = false) /\
   hvn_refine (sorted_desc node_vol hs) lb = lb).
Proof.
  intros hs lb. unfold hvn_refine.
  destruct (filter (overlaps lb) (sorted_desc node_vol hs)) as [|nd tl] eqn:Hf.
  - right. split; [|reflexivity]. intros nd Hnd.
    apply (filter_nil_none _ _ _ Hf). now apply sorted_desc_In.
  - left. exists nd.
    destruct (filter_head_greatest node_vol (overlaps lb) _ nd tl
                (sorted_desc_sorted node_vol hs) Hf) as (Hin & Hov & Hmax).
    split; [now apply sorted_desc_In in Hin|]. split; [exact Hov|].
    split; [|reflexivity].
    intros nd' Hin' Hov'. apply Hmax; [|exact Hov'].
    now apply sorted_desc_In.
Qed.

(** On a zone that holds a bar the band is numeric. *)
Lemma band_from_zone_numeric : forall cs z w b,
  _segment_by_indices cs (fst z) (snd z) <> [] ->
  band_from_zone cs z w = Ok b ->
  exists lo hi cb ev, b = (FVal lo, FVal hi, cb, ev).
Proof.
  intros cs z w b Hne H. unfold band_from_zone in H.
  destruct (_segment_by_indices cs (fst z) (snd z)) as [|cd0 rest];
    [congruence|].
  cbv zeta in H.
  destruct (_weighted_centroid_price (cd0 :: rest)) as [cb|e];
    [|discriminate H].
  cbn [bind] in H. injection H as <-. do 4 eexists. reflexivity.
Qed.

(** Against a numeric band the overlap test of the refinement is the
    overlap of two price ranges. *)
Lemma overlaps_numeric : forall lb nd lo hi,
  price_low lb = FVal lo -> price_high lb = FVal hi ->
  (overlaps lb nd = true <-> touches lo hi nd).
Proof.
  intros lb nd lo hi Hlo Hhi. unfold overlaps, touches, flt, fgt.
  rewrite Hlo, Hhi. rewrite negb_true_iff, orb_false_iff. split.
  - intros [H1 H2]. apply Qltb_ge in H1. apply Qltb_ge in H2. split; lra.
  - intros [H1 H2]. split; apply Qltb_ge; lra.
Qed.

(** C6, amended.  In a successful resolution the layer at position [k],
    when its zone holds at least one bar (so that its band is numeric), is
    the layer built on the [k]-th zone, refined against the HVN list of the
    Volume trace (the [hvn_topk] highest-volume histogram buckets, not the
    whole histogram).  If the price range of a bucket of that list overlaps
    the layer's band, the layer is blended toward the highest-volume such
    bucket: a non-null cost basis becomes
    [0.7 * previous + 0.3 * midpoint], a null one stays null, and the
    evidence note is appended.  If no bucket of the list overlaps, the layer
    is left entirely unchanged. *)
Theorem hvn_refinement_blends_toward_top_hvn : forall ctx lys be k z lb,
  resolve_layers ctx = Ok lys ->
  ctx_base_end ctx = Some be ->
  nth_error (layer_zones (len (ctx_candles ctx)) be) k = Some z ->
  _segment_by_indices (ctx_candles ctx) (fst z) (snd z) <> [] ->
  nth_error lys k = Some lb ->
  exists w lb0 lo hi,
    nth_error layer_widens k = Some w /\
    layer_built ctx (Z.of_nat k + 1) z w lb0 /\
    price_low lb0 = FVal lo /\ price_high lb0 = FVal hi /\
    ((exists nd,
         In nd (ctx_hvn ctx) /\ touches lo hi nd /\
         (forall nd', In nd' (ctx_hvn ctx) -> touches lo hi nd' ->
                      (node_vol nd' <= node_vol nd)%Q) /\
         lb = blended lb0 nd)
     \/
     ((forall nd, In nd (ctx_hvn ctx) -> ~ touches lo hi nd) /\
      lb = lb0)).
Proof.
  intros ctx lys be k z lb H Hbe Hz Hseg Hlb.
  destruct (resolve_layers_inv ctx lys H)
    as (be' & l1 & l2 & l3 & l4 & l5 & Hbe' & B1 & B2 & B3 & B4 & B5 & ->).
  rewrite Hbe in Hbe'. inversion Hbe'; subst be'.
  assert (Hpick : exists w lb0,
            nth_error layer_widens k = Some w /\
            layer_built ctx (Z.of_nat k + 1) z w lb0 /\
            nth_error [l1; l2; l3; l4; l5] k = Some lb0).
  { unfold layer_zones in Hz.
    destruct k as [|[|[|[|[|k]]]]]; simpl in Hz; inversion Hz; subst;
      try (do 2 eexists; split; [reflexivity|];
           split; [eassumption | reflexivity]).
    destruct k; discriminate. }
  destruct Hpick as (w & lb0 & Hwid & Hbuilt & Hk).
  assert (Hnum : exists lo hi, price_low lb0 = FVal lo /\ price_high lb0 = FVal hi).
  { destruct Hbuilt as (b & win & s & Hb & _ & _ & ->).
    destruct (band_from_zone_numeric _ _ _ _ Hseg Hb) as (lo & hi & cb & ev & ->).
    exists lo, hi. destruct win as [[[ws we] wc] wev]. destruct s as [[st sc] sev].
    split; reflexivity. }
  destruct Hnum as (lo & hi & Hlo & Hhi).
  exists w, lb0, lo, hi. split; [exact Hwid|]. split; [exact Hbuilt|].
  split; [exact Hlo|]. split; [exact Hhi|].
  pose proof (fun nd => overlaps_numeric lb0 nd lo hi Hlo Hhi) as Hov.
  unfold refine_all in Hlb.
  destruct (nonempty (sorted_desc node_vol (ctx_hvn ctx))) eqn:Hne.
  - rewrite nth_error_map, Hk in Hlb. simpl in Hlb. inversion Hlb; subst lb.
    destruct (hvn_refine_spec (ctx_hvn ctx) lb0)
      as [(nd & H1 & H2 & H3 & H4)|(H1 & H2)].
    + left. exists nd. split; [exact H1|]. split; [apply Hov, H2|].
      split; [|exact H4].
      intros nd' Hin Ht. apply H3; [exact Hin | apply Hov, Ht].
    + right. split; [|exact H2]. intros nd Hnd Ht.
      apply Hov in Ht. rewrite (H1 nd Hnd) in Ht. discriminate.
  - right. rewrite Hk in Hlb. inversion Hlb; subst lb. split; [|reflexivity].
    intros nd Hnd. exfalso.
    apply (sorted_desc_In node_vol) in Hnd.
    destruct (sorted_desc node_vol (ctx_hvn ctx)); [destruct Hnd | discriminate].
Qed.

(** ** The stages return *)

Lemma mapM_total : forall (A B : Type) (f : A -> result B) xs,
  (forall x, In x xs -> exists y, f x = Ok y) ->
  exists ys, mapM f xs = Ok ys /\ len ys = len xs.
Proof.
  intros A B f xs. induction xs as [|x xs IH]; intros H; simpl.
  - exists []. split; reflexivity.
  - destruct (H x (or_introl eq_refl)) as [y Hy]. rewrite Hy. simpl.
    destruct IH as (ys & Hys & Hl); [intros z Hz; apply H; now right|].
    rewrite Hys. simpl. exists (y :: ys). split; [reflexivity|].
    rewrite !len_cons. lia.
Qed.

Lemma py_slice_length : forall (A : Type) (xs : list A) a b,
  0 <= a -> a <= b -> b <= len xs -> len (py_slice xs a b) = b - a.
Proof.
  intros A xs a b Ha Hab Hb. unfold py_slice, py_slice_bound.
  destruct (a <? 0) eqn:Ea; [lia|]. destruct (b <? 0) eqn:Eb; [lia|].
  unfold len in *. rewrite length_skipn, length_firstn. lia.
Qed.

Lemma sma_loop_length : forall w values s q,
  len (sma_loop w s q values) = len values.
Proof.
  intros w values. induction values as [|x values IH]; intros s q.
  - reflexivity.
  - cbn [sma_loop].
    destruct (if w <? len (q ++ [x])
              then match q ++ [x] with
                   | y :: q' => (fsub (fadd s x) y, q')
                   | [] => (fadd s x, q ++ [x])
                   end
              else (fadd s x, q ++ [x])) as [s2 q2].
    rewrite !len_cons, IH. reflexivity.
Qed.

Lemma sma_total : forall values w,
  1 <= w -> exists out, sma values w = Ok out /\ len out = len values.
Proof.
  intros values w Hw. unfold sma.
  destruct (w <=? 0) eqn:E; [lia|].
  eexists. split; [reflexivity | apply sma_loop_length].
Qed.

Lemma true_ranges_length : forall cs prev, len (true_ranges prev cs) = len cs.
Proof.
  induction cs as [|cd cs IH]; intros prev; [reflexivity|].
  cbn [true_ranges]. rewrite !len_cons, IH. reflexivity.
Qed.

Lemma atr_total : forall cs w,
  1 <= w -> exists out, atr cs w = Ok out /\ len out = len cs.
Proof.
  intros cs w Hw. unfold atr.
  destruct (sma_total (true_ranges match cs with
                                   | [] => 0%Q
                                   | cd :: _ => cd_c cd
                                   end cs) w Hw) as (out & H & Hl).
  exists out. split; [exact H|]. now rewrite Hl, true_ranges_length.
Qed.

Lemma rolling_std_total : forall fsqrt values w,
  1 <= w ->
  exists out, rolling_std fsqrt values w = Ok out /\ len out = len values.
Proof.
  intros fsqrt values w Hw. unfold rolling_std.
  destruct (mapM_total _ _
              (fun i => if w <=? i + 1
                        then sd <- pstdev fsqrt (py_slice values (i + 1 - w) (i + 1)) ;;
                             Ok (Some sd)
                        else Ok None)
              (range 0 (len values))) as (out & H & Hl).
  - intros i Hi. apply range_In in Hi.
    destruct (w <=? i + 1) eqn:E; [|eexists; reflexivity].
    apply Z.leb_le in E.
    pose proof (py_slice_length _ values (i + 1 - w) (i + 1)
                  ltac:(lia) ltac:(lia) ltac:(lia)) as Hs.
    unfold pstdev.
    destruct (py_slice values (i + 1 - w) (i + 1)) as [|x seg].
    + unfold len in Hs. simpl in Hs. lia.
    + simpl. eexists. reflexivity.
  - exists out. split; [exact H|].
    rewrite Hl, range_length. pose proof (len_nonneg _ values). lia.
Qed.

Lemma insert_asc_length : forall (A : Type) (key : A -> Q) x xs,
  len (insert_asc key x xs) = len xs + 1.
Proof.
  intros A key x xs. induction xs as [|z xs IH]; cbn [insert_asc].
  - reflexivity.
  - destruct (Qle_bool (key x) (key z)); rewrite !len_cons; lia.
Qed.

Lemma sorted_asc_length : forall (A : Type) (key : A -> Q) xs,
  len (sorted_asc key xs) = len xs.
Proof.
  intros A key xs. induction xs as [|x xs IH]; [reflexivity|].
  cbn [sorted_asc fold_right]. fold (sorted_asc key xs).
  rewrite insert_asc_length, IH, len_cons. reflexivity.
Qed.

Lemma percentile_total : forall values p,
  values <> [] -> (0 <= p)%Q -> (p <= 1)%Q ->
  exists q, percentile values p = Ok (FVal q).
Proof.
  intros values p Hne Hp0 Hp1. unfold percentile.
  destruct values as [|v0 vs]; [congruence|].
  set (xs := sorted_asc (fun x => x) (v0 :: vs)).
  assert (Hlen : 1 <= len xs).
  { unfold xs. rewrite sorted_asc_length, len_cons.
    pose proof (len_nonneg _ vs). lia. }
  set (k := (inject_Z (len xs - 1) * p)%Q).
  assert (Hn0 : (0 <= inject_Z (len xs - 1))%Q).
  { change 0%Q with (inject_Z 0). rewrite <- Zle_Qle. lia. }
  assert (Hk0 : (0 <= k)%Q) by (unfold k; apply Qmult_le_0_compat; assumption).
  assert (Hk1 : (k <= inject_Z (len xs - 1))%Q).
  { assert (H1 : (p * inject_Z (len xs - 1) <= 1 * inject_Z (len xs - 1))%Q)
      by (apply Qmult_le_compat_r; assumption).
    unfold k. lra. }
  assert (Hf : 0 <= Qfloor k <= len xs - 1).
  { split.
    - apply Qfloor_resp_le in Hk0. exact Hk0.
    - apply Qfloor_resp_le in Hk1. now rewrite Qfloor_Z in Hk1. }
  assert (Hc : 0 <= Qceiling k <= len xs - 1).
  { split.
    - apply Qceiling_resp_le in Hk0. exact Hk0.
    - apply Qceiling_resp_le in Hk1. now rewrite Qceiling_Z in Hk1. }
  destruct (Qfloor k =? Qceiling k).
  - rewrite py_int_floor by exact Hk0.
    rewrite (py_index_ok _ 0%Q) by lia. simpl. eexists. reflexivity.
  - rewrite (py_index_ok _ 0%Q) by lia. cbn [bind].
    rewrite (py_index_ok _ 0%Q) by lia. cbn [bind]. eexists. reflexivity.
Qed.

Lemma RegimeAgent_total : forall fsqrt ctx,
  1 <= get_param (ctx_params ctx) "vol_window" 20 ->
  1 <= get_param (ctx_params ctx) "atr_window" 14 ->
  exists res ro,
    RegimeAgent_run fsqrt ctx = Ok res /\
    ar_output res = ORegime ro /\
    len (compression_mask ro) = len (ctx_candles ctx).
Proof.
  intros fsqrt ctx Hv Ha. unfold RegimeAgent_run.
  destruct (rolling_std_total fsqrt (map cd_c (ctx_candles ctx)) _ Hv)
    as (rstd & Hr & Hrl).
  rewrite Hr. cbn [bind]. rewrite len_map in Hrl.
  destruct (atr_total (ctx_candles ctx) _ Ha) as (atrv & Hat & Hal).
  rewrite Hat. cbn [bind].
  assert (Hp : forall vals,
            exists pf, (if nonempty vals then percentile vals (30 # 100)
                        else Ok (FVal 0)) = Ok pf).
  { intros vals. destruct vals as [|x vals]; [eexists; reflexivity|].
    destruct (percentile_total (x :: vals) (30 # 100)) as [q Hq];
      [discriminate | lra | lra |].
    exists (FVal q). exact Hq. }
  destruct (Hp (not_none rstd)) as [std_p Hsp]. rewrite Hsp. cbn [bind].
  destruct (Hp (not_none atrv)) as [atr_p Hap]. rewrite Hap. cbn [bind].
  destruct (mapM_total _ _ (compression_at rstd atrv std_p atr_p)
              (range 0 (len (map cd_c (ctx_candles ctx)))))
    as (mask & Hm & Hml).
  - intros i Hi. apply range_In in Hi. rewrite len_map in Hi.
    unfold compression_at.
    rewrite (py_index_ok _ None) by lia. cbn [bind].
    destruct (nth (Z.to_nat i) rstd None); [|eexists; reflexivity].
    rewrite (py_index_ok _ None) by lia. cbn [bind].
    destruct (nth (Z.to_nat i) atrv None); eexists; reflexivity.
  - rewrite Hm. cbn [bind]. do 2 eexists. split; [reflexivity|].
    split; [reflexivity|]. cbn [compression_mask].
    rewrite Hml, range_length, len_map.
    pose proof (len_nonneg _ (ctx_candles ctx)). lia.
Qed.

Lemma AccumDistAgent_total : forall ctx,
  1 <= get_param (ctx_params ctx) "range_window" 14 ->
  1 <= get_param (ctx_params ctx) "vol_sma_window" 14 ->
  exists res ao,
    AccumDistAgent_run ctx = Ok res /\
    ar_output res = OAccumDist ao /\
    len (distribution_flags ao) = len (ctx_candles ctx) /\
    len (absorption_flags ao) = len (ctx_candles ctx).
Proof.
  intros ctx Hr Hv. unfold AccumDistAgent_run.
  destruct (sma_total (map (fun cd => cd_h cd - cd_l cd)%Q (ctx_candles ctx)) _ Hr)
    as (r_sma & H1 & L1).
  rewrite H1. cbn [bind]. rewrite len_map in L1.
  destruct (sma_total (map cd_v (ctx_candles ctx)) _ Hv) as (v_sma & H2 & L2).
  rewrite H2. cbn [bind]. rewrite len_map in L2.
  destruct (mapM_total _ _
              (accum_dist_at (ctx_candles ctx)
                 (map (fun cd => cd_h cd - cd_l cd)%Q (ctx_candles ctx))
                 (map cd_v (ctx_candles ctx)) r_sma v_sma)
              (range 0 (len (ctx_candles ctx)))) as (flags & Hm & Hml).
  - intros i Hi. apply range_In in Hi. unfold accum_dist_at.
    rewrite (py_index_ok _ None) by lia. cbn [bind].
    destruct (nth (Z.to_nat i) r_sma None); [|eexists; reflexivity].
    rewrite (py_index_ok _ None) by lia. cbn [bind].
    destruct (nth (Z.to_nat i) v_sma None); [|eexists; reflexivity].
    destruct (0 <? i) eqn:E; [|eexists; reflexivity].
    apply Z.ltb_lt in E.
    rewrite (candle_index _ i) by lia. cbn [bind].
    rewrite (candle_index _ (i - 1)) by lia. cbn [bind].
    rewrite (py_index_ok _ 0%Q) by (rewrite len_map; lia). cbn [bind].
    rewrite (py_index_ok _ 0%Q) by (rewrite len_map; lia). cbn [bind].
    eexists. reflexivity.
  - rewrite Hm. cbn [bind]. do 2 eexists. split; [reflexivity|].
    split; [reflexivity|]. cbn [distribution_flags absorption_flags].
    rewrite !len_map, Hml, range_length.
    pose proof (len_nonneg _ (ctx_candles ctx)). lia.
Qed.

Lemma anchored_vwap_loop_total : forall cs idxs cum_pv cum_v out,
  (forall i, In i idxs -> 0 <= i < len cs) ->
  len out = len cs ->
  exists out', anchored_vwap_loop cs cum_pv cum_v out idxs = Ok out'.
Proof.
  intros cs idxs. induction idxs as [|i idxs IH]; intros cum_pv cum_v out Hin Hl.
  - eexists. reflexivity.
  - cbn [anchored_vwap_loop].
    assert (Hi : 0 <= i < len cs) by (apply Hin; now left).
    rewrite candle_index by lia. cbn [bind].
    assert (Hx : exists x,
              (if Qltb 0 (cum_v + cd_v (candle_at cs i))
               then q <- py_div (cum_pv + typical (candle_at cs i) * cd_v (candle_at cs i))
                                (cum_v + cd_v (candle_at cs i)) ;; Ok (Some q)
               else Ok None) = Ok x).
    { destruct (Qltb 0 (cum_v + cd_v (candle_at cs i))) eqn:E;
        [|eexists; reflexivity].
      apply Qltb_lt in E. unfold py_div.
      destruct (Qeq_bool (cum_v + cd_v (candle_at cs i)) 0) eqn:E0.
      - apply Qeq_bool_iff in E0. lra.
      - eexists. reflexivity. }
    destruct Hx as [x Hx]. rewrite Hx. cbn [bind].
    rewrite py_setitem_ok by lia. cbn [bind].
    apply IH.
    + intros j Hj. apply Hin. now right.
    + now rewrite list_set_length.
Qed.

Lemma anchored_vwap_total : forall cs a,
  0 <= a -> exists out, anchored_vwap cs a = Ok out.
Proof.
  intros cs a Ha. unfold anchored_vwap. apply anchored_vwap_loop_total.
  - intros i Hi. apply range_In in Hi. lia.
  - unfold len. now rewrite repeat_length.
Qed.

Lemma avwaps_loop_total : forall cs anchs acc,
  (forall a, In a anchs -> 0 <= a) ->
  exists avs, avwaps_loop cs acc anchs = Ok avs.
Proof.
  intros cs anchs. induction anchs as [|a anchs IH]; intros acc H.
  - eexists. reflexivity.
  - cbn [avwaps_loop].
    destruct (anchored_vwap_total cs a ltac:(apply H; now left)) as [av Hav].
    rewrite Hav. cbn [bind]. apply IH. intros b Hb. apply H. now right.
Qed.

Lemma insert_uniq_In : forall x y xs,
  In y (insert_uniq x xs) -> y = x \/ In y xs.
Proof.
  intros x y xs. induction xs as [|z xs IH]; simpl.
  - intuition.
  - destruct (x <? z); [simpl; intuition|].
    destruct (x =? z); [simpl; intuition|]. simpl. intuition.
Qed.

Lemma insert_uniq_nonempty : forall x xs, insert_uniq x xs <> [].
Proof.
  intros x xs. destruct xs as [|z xs]; simpl; [discriminate|].
  destruct (x <? z); [discriminate|]. destruct (x =? z); discriminate.
Qed.

Lemma py_index_In : forall (A : Type) (xs : list A) i x,
  py_index xs i = Ok x -> In x xs.
Proof.
  intros A xs i x H. unfold py_index in H.
  destruct ((if i <? 0 then i + len xs else i) <? 0); [discriminate|].
  destruct (nth_error xs _) eqn:E; [|discriminate].
  inversion H; subst. now apply nth_error_In in E.
Qed.

Lemma CostBasisAgent_total : forall ctx sw,
  traced_swings (ctx_traces ctx) = Some sw ->
  (forall i, In i (lows sw) -> 0 <= i < len (ctx_candles ctx)) ->
  exists res co,
    CostBasisAgent_run ctx = Ok res /\
    ar_output res = OCostBasis co /\
    nonempty (anchors co) = true.
Proof.
  intros ctx sw Ht Hlows. unfold CostBasisAgent_run. rewrite Ht. cbn [bind].
  assert (Ha : exists anchs,
            match lows sw with
            | [] => Ok [0; len (ctx_candles ctx) / 2]
            | _ :: _ =>
              a0 <- py_index (lows sw) 0 ;;
              a1 <- py_index (lows sw) (len (lows sw) / 2) ;;
              a2 <- py_index (lows sw) (-1) ;;
              Ok (sorted_set [a0; a1; a2])
            end = Ok anchs /\
            nonempty anchs = true /\ forall a, In a anchs -> 0 <= a).
  { destruct (lows sw) as [|l0 ls] eqn:El.
    - eexists. split; [reflexivity|]. split; [reflexivity|].
      intros a [<-|[<-|[]]]; [lia|].
      apply Z.div_pos; [apply len_nonneg | lia].
    - pose proof (len_nonneg _ ls) as Hls.
      assert (H0 : 0 <= 0 < len (l0 :: ls)) by (rewrite len_cons; lia).
      assert (H1 : 0 <= len (l0 :: ls) / 2 < len (l0 :: ls)).
      { rewrite len_cons. split; [apply Z.div_pos; lia|].
        apply Z.div_lt_upper_bound; lia. }
      destruct (py_index (l0 :: ls) 0) as [a0|] eqn:E0;
        [|rewrite (py_index_ok _ 0) in E0 by exact H0; discriminate].
      destruct (py_index (l0 :: ls) (len (l0 :: ls) / 2)) as [a1|] eqn:E1;
        [|rewrite (py_index_ok _ 0) in E1 by exact H1; discriminate].
      destruct (py_index (l0 :: ls) (-1)) as [a2|] eqn:E2;
        [|rewrite (py_index_last _ 0) in E2 by discriminate; discriminate].
      cbn [bind]. eexists. split; [reflexivity|]. split.
      + unfold sorted_set. cbn [fold_right].
        destruct (insert_uniq a0 _) eqn:Ei; [|reflexivity].
        now apply insert_uniq_nonempty in Ei.
      + intros a Hin. unfold sorted_set in Hin. cbn [fold_right] in Hin.
        apply py_index_In in E0, E1, E2.
        assert (In a (l0 :: ls)).
        { apply insert_uniq_In in Hin. destruct Hin as [->|Hin]; [exact E0|].
          apply insert_uniq_In in Hin. destruct Hin as [->|Hin]; [exact E1|].
          apply insert_uniq_In in Hin. destruct Hin as [->|[]]. exact E2. }
        apply Hlows in H. lia. }
  destruct Ha as (anchs & Han & Hne & Hpos). rewrite Han. cbn [bind].
  destruct (avwaps_loop_total (ctx_candles ctx) anchs [] Hpos) as [avs Havs].
  rewrite Havs. cbn [bind]. do 2 eexists. split; [reflexivity|].
  split; [reflexivity|]. exact Hne.
Qed.

Lemma VolumeAgent_total : forall ctx,
  ctx_candles ctx <> [] ->
  1 <= get_param (ctx_params ctx) "vap_bins" 60 ->
  exists res nodes,
    VolumeAgent_run ctx = Ok res /\
    volume_nodes_proxy (ctx_candles ctx)
      (get_param (ctx_params ctx) "vap_bins" 60) = Ok nodes /\
    ar_output res
    = OVolume (mkVolumeOut nodes
                 (top_hvn nodes (get_param (ctx_params ctx) "hvn_topk" 6))).
Proof.
  intros ctx Hne Hb. unfold VolumeAgent_run.
  destruct (volume_nodes_total (ctx_candles ctx) _ Hne Hb) as [nodes Hn].
  rewrite Hn. cbn [bind]. do 2 eexists. split; [reflexivity|].
  split; reflexivity.
Qed.

Lemma base_end_bounds : forall cs sw be,
  (forall i, In i (highs sw) -> 0 <= i < len cs) ->
  1 <= len cs ->
  base_end_spec cs sw be -> 0 <= be < len cs.
Proof.
  intros cs sw be Hh Hn [(pre & li & post & _ & _ & (hi0 & (Hin & _) & Hj & _))
                         |(_ & -> & _)].
  - apply Hh in Hin. lia.
  - split; [apply int_scale_nonneg; [lia | discriminate]|].
    apply int_scale_lt; [exact Hn | discriminate | discriminate].
Qed.

Lemma StructureAgent_total : forall ctx,
  0 <= get_param (ctx_params ctx) "swing_left" 3 ->
  0 <= get_param (ctx_params ctx) "swing_right" 3 ->
  1 <= len (ctx_candles ctx) ->
  exists res so,
    StructureAgent_run ctx = Ok res /\
    ar_output res = OStructure so /\
    0 <= base_end_idx so < len (ctx_candles ctx) /\
    (forall i, In i (lows (swings so)) -> 0 <= i < len (ctx_candles ctx)).
Proof.
  intros ctx Hl Hr Hn.
  unfold StructureAgent_run.
  destruct (find_swings_total (ctx_candles ctx) _ _ Hl Hr) as [sw Hsw].
  destruct (find_swings_sorted _ _ _ sw Hl Hr Hsw) as (Hsh & _ & Hh & Hlo).
  rewrite Hsw. cbn [bind].
  destruct (structure_base_end_spec (ctx_candles ctx) sw Hsh Hh)
    as [be [Hbe Hspec]].
  rewrite Hbe. cbn [bind]. do 2 eexists. split; [reflexivity|].
  split; [reflexivity|]. cbn [base_end_idx swings].
  split; [|exact Hlo]. now apply (base_end_bounds _ sw).
Qed.

(** ** The resolver returns *)

Lemma foldM_total : forall (A S : Type) (f : S -> A -> result S) xs st,
  (forall s x, In x xs -> exists s', f s x = Ok s') ->
  exists r, foldM f xs st = Ok r.
Proof.
  intros A S f xs. induction xs as [|x xs IH]; intros st H.
  - eexists. reflexivity.
  - cbn [foldM]. destruct (H st x (or_introl eq_refl)) as [s' Hs].
    rewrite Hs. cbn [bind]. apply IH. intros s y Hy. apply H. now right.
Qed.

Lemma count_flags_total : forall flags z0 z1,
  0 <= z0 -> z1 < len flags ->
  exists k, count_flags flags (range z0 (z1 + 1)) = Ok k.
Proof.
  intros flags z0 z1 H0 H1. unfold count_flags. apply foldM_total.
  intros s i Hi. apply range_In in Hi.
  rewrite (py_index_ok _ false) by lia. cbn [bind]. eexists. reflexivity.
Qed.

Lemma state_for_zone_total : forall dflags aflags z,
  0 <= fst z -> snd z < len dflags -> snd z < len aflags ->
  exists s, state_for_zone dflags aflags z = Ok s.
Proof.
  intros dflags aflags z H0 H1 H2. unfold state_for_zone.
  destruct (count_flags_total dflags _ _ H0 H1) as [d Hd]. rewrite Hd.
  destruct (count_flags_total aflags _ _ H0 H2) as [a Ha]. rewrite Ha.
  cbn [bind]. cbv zeta.
  destruct (_ && _); [eexists; reflexivity|].
  destruct (_ && _); eexists; reflexivity.
Qed.

Lemma band_from_zone_total : forall cs z w,
  exists b, band_from_zone cs z w = Ok b.
Proof.
  intros cs z w. unfold band_from_zone.
  destruct (_segment_by_indices cs (fst z) (snd z)) as [|cd0 rest];
    [eexists; reflexivity|].
  destruct (weighted_centroid_total (cd0 :: rest)) as [cb Hcb].
  rewrite Hcb. cbn [bind]. eexists. reflexivity.
Qed.

Lemma entry_window_total : forall cs mask z,
  0 <= fst z < len cs -> 0 <= snd z < len cs -> len mask = len cs ->
  exists r, entry_window cs mask z = Ok r.
Proof.
  intros cs mask [z0 z1] H0 H1 Hl.
  destruct (entry_window_cases cs mask z0 z1 H0 H1 Hl)
    as ([[[s|] [e|]] ln] & _ & _ & _ & Hew); eexists; exact Hew.
Qed.

Lemma percent_index : forall n k,
  1 <= n -> (k <= 90)%positive ->
  0 <= int_scale n (Z.pos k # 100) < n.
Proof.
  intros n k Hn Hk.
  split; [apply int_scale_nonneg; [lia | discriminate]|].
  apply int_scale_lt; [exact Hn | discriminate|].
  unfold Qle. simpl. lia.
Qed.

Lemma zones_in_range : forall n be z,
  1 <= n -> 0 <= be < n ->
  In z (layer_zones n be) -> 0 <= fst z < n /\ 0 <= snd z < n.
Proof.
  intros n be z Hn Hbe Hz.
  pose proof (percent_index n 55 Hn ltac:(lia)).
  pose proof (percent_index n 45 Hn ltac:(lia)).
  pose proof (percent_index n 75 Hn ltac:(lia)).
  pose proof (percent_index n 70 Hn ltac:(lia)).
  pose proof (percent_index n 85 Hn ltac:(lia)).
  unfold layer_zones, base_zone, early_zone, mid_zone, late_zone, peak_zone in Hz.
  simpl in Hz.
  destruct Hz as [<-|[<-|[<-|[<-|[<-|[]]]]]]; cbn [fst snd]; lia.
Qed.

Lemma resolve_layers_total : forall ctx,
  1 <= len (ctx_candles ctx) -> resolvable ctx ->
  exists lys, resolve_layers ctx = Ok lys.
Proof.
  intros ctx Hn (te1 & te2 & te3 & te4 & te5 & so & ro & ao &
                 G1 & O1 & G2 & G3 & G4 & O4 & G5 & O5 & Hbe & Lm & Ld & La).
  unfold resolve_layers, trace.
  rewrite G1, G2, G3, G4, G5. cbn [bind]. rewrite O1, O4, O5. cbn [bind].
  set (n := len (ctx_candles ctx)) in *.
  set (be := base_end_idx so) in *.
  assert (Hz : forall z, In z (layer_zones n be) ->
             0 <= fst z < n /\ 0 <= snd z < n)
    by (intros z; now apply zones_in_range).
  assert (Hw : forall z, In z (layer_zones n be) ->
             exists r, entry_window (ctx_candles ctx) (compression_mask ro) z = Ok r).
  { intros z Hin. destruct (Hz z Hin). now apply entry_window_total. }
  assert (Hs : forall z, In z (layer_zones n be) ->
             exists s, state_for_zone (distribution_flags ao)
                         (absorption_flags ao) z = Ok s).
  { intros z Hin. destruct (Hz z Hin). apply state_for_zone_total; lia. }
  unfold layer_zones in Hw, Hs.
  destruct (band_from_zone_total (ctx_candles ctx) (base_zone be) (5 # 100)) as [b1 B1].
  destruct (band_from_zone_total (ctx_candles ctx) (early_zone n be) (4 # 100)) as [b2 B2].
  destruct (band_from_zone_total (ctx_candles ctx) (mid_zone n) (3 # 100)) as [b3 B3].
  destruct (band_from_zone_total (ctx_candles ctx) (late_zone n) (2 # 100)) as [b4 B4].
  destruct (band_from_zone_total (ctx_candles ctx) (peak_zone n) (1 # 100)) as [b5 B5].
  destruct (Hw (base_zone be)) as [w1 W1]; [simpl; auto|].
  destruct (Hw (early_zone n be)) as [w2 W2]; [simpl; auto|].
  destruct (Hw (mid_zone n)) as [w3 W3]; [simpl; auto|].
  destruct (Hw (late_zone n)) as [w4 W4]; [simpl; auto|].
  destruct (Hw (peak_zone n)) as [w5 W5]; [simpl; auto 6|].
  destruct (Hs (base_zone be)) as [s1 S1]; [simpl; auto|].
  destruct (Hs (early_zone n be)) as [s2 S2]; [simpl; auto|].
  destruct (Hs (mid_zone n)) as [s3 S3]; [simpl; auto|].
  destruct (Hs (late_zone n)) as [s4 S4]; [simpl; auto|].
  destruct (Hs (peak_zone n)) as [s5 S5]; [simpl; auto 6|].
  rewrite B1. cbn [bind]. rewrite W1. cbn [bind].
  rewrite B2. cbn [bind]. rewrite W2. cbn [bind].
  rewrite B3. cbn [bind]. rewrite W3. cbn [bind].
  rewrite B4. cbn [bind]. rewrite W4. cbn [bind].
  rewrite B5. cbn [bind]. rewrite W5. cbn [bind].
  rewrite S1. cbn [bind]. rewrite S2. cbn [bind]. rewrite S3. cbn [bind].
  rewrite S4. cbn [bind]. rewrite S5. cbn [bind].
  eexists. reflexivity.
Qed.

(** ** The agent loop returns *)

Lemma store_trace_frame : forall a res ctx,
  ctx_candles (store_trace a res ctx) = ctx_candles ctx /\
  ctx_params (store_trace a res ctx) = ctx_params ctx /\
  ctx_symbol (store_trace a res ctx) = ctx_symbol ctx /\
  ctx_timeframe (store_trace a res ctx) = ctx_timeframe ctx.
Proof. intros. unfold store_trace. simpl. auto. Qed.

(** With good parameters and a non-empty series the six built-in stages all
    return, and leave a context [resolve_layers] can work on.  The
    structure, volume and accumulation traces are those of the stages run
    on the candles and parameters alone. *)
Lemma run_agents_total : forall fsqrt sym tf cs p,
  good_params p -> 1 <= len cs ->
  let ctx0 := mkGenesisContext sym tf cs p [] in
  exists ctx r1 so r2 nodes r5 ao,
    run_agents fsqrt internal_agents ctx0 = (ctx, Ok tt) /\
    ctx_candles ctx = cs /\ ctx_params ctx = p /\
    resolvable ctx /\
    StructureAgent_run ctx0 = Ok r1 /\ ar_output r1 = OStructure so /\
    ctx_base_end ctx = Some (base_end_idx so) /\
    VolumeAgent_run ctx0 = Ok r2 /\
    volume_nodes_proxy cs (get_param p "vap_bins" 60) = Ok nodes /\
    ctx_hvn ctx = top_hvn nodes (get_param p "hvn_topk" 6) /\
    AccumDistAgent_run ctx0 = Ok r5 /\ ar_output r5 = OAccumDist ao /\
    ctx_dist_flags ctx = distribution_flags ao /\
    ctx_abs_flags ctx = absorption_flags ao /\
    len (ctx_mask ctx) = len cs.
Proof.
  intros fsqrt sym tf cs p (G1 & G2 & G3 & G4 & G5 & G6 & G7) Hn ctx0.
  assert (Hne : cs <> []).
  { intros ->. unfold len in Hn. simpl in Hn. lia. }
  destruct (StructureAgent_total ctx0 G1 G2 Hn) as (r1 & so & R1 & O1 & Hbe & Hlows).
  set (ctx1 := store_trace StructureAgent r1 ctx0).
  destruct (VolumeAgent_total ctx1 Hne G3) as (r2 & nodes & R2 & N2 & O2).
  set (ctx2 := store_trace VolumeAgent r2 ctx1).
  destruct (CostBasisAgent_total ctx2 (swings so)) as (r3 & co & R3 & O3 & A3).
  { unfold traced_swings. cbn. now rewrite O1. }
  { exact Hlows. }
  set (ctx3 := store_trace CostBasisAgent r3 ctx2).
  destruct (RegimeAgent_total fsqrt ctx3 G4 G5) as (r4 & ro & R4 & O4 & L4).
  set (ctx4 := store_trace RegimeAgent r4 ctx3).
  destruct (AccumDistAgent_total ctx4 G6 G7) as (r5 & ao & R5 & O5 & L5 & L5').
  set (ctx5 := store_trace AccumDistAgent r5 ctx4).
  destruct (VerifierAgent_run ctx5) as [r6|] eqn:R6; [|discriminate R6].
  exists (store_trace VerifierAgent r6 ctx5), r1, so, r2, nodes, r5, ao.
  split.
  { cbn [run_agents internal_agents run].
    rewrite R1. fold ctx1. rewrite R2. fold ctx2. rewrite R3. fold ctx3.
    rewrite R4. fold ctx4. rewrite R5. fold ctx5. rewrite R6. reflexivity. }
  split; [reflexivity|]. split; [reflexivity|].
  split.
  { unfold resolvable. cbn [ctx_candles store_trace ctx5 ctx4 ctx3 ctx2 ctx1 ctx0].
    eexists. eexists. eexists. eexists. eexists. exists so, ro, ao.
    split; [cbn; reflexivity|]. split; [exact O1|].
    split; [cbn; reflexivity|]. split; [cbn; reflexivity|].
    split; [cbn; reflexivity|]. split; [exact O4|].
    split; [cbn; reflexivity|]. split; [exact O5|].
    split; [exact Hbe|]. split; [exact L4|]. split; [exact L5 | exact L5']. }
  split; [exact R1|]. split; [exact O1|].
  split; [unfold ctx_base_end; cbn; now rewrite O1|].
  split; [exact R2|]. split; [exact N2|].
  split; [unfold ctx_hvn; cbn; now rewrite O2|].
  split; [exact R5|]. split; [exact O5|].
  split; [unfold ctx_dist_flags; cbn; now rewrite O5|].
  split; [unfold ctx_abs_flags; cbn; now rewrite O5|].
  unfold ctx_mask. cbn. rewrite O4. exact L4.
Qed.

(** ** Runs of [analyze] *)

Lemma run_agents_frame : forall fsqrt agents ctx ctx' r,
  run_agents fsqrt agents ctx = (ctx', r) ->
  ctx_candles ctx' = ctx_candles ctx /\ ctx_params ctx' = ctx_params ctx.
Proof.
  intros fsqrt agents. induction agents as [|a agents IH]; intros ctx ctx' r H.
  - inversion H. auto.
  - cbn [run_agents] in H. destruct (run fsqrt a ctx) as [res|e].
    + apply IH in H. destruct H as [H1 H2].
      destruct (store_trace_frame a res ctx) as (F1 & F2 & _).
      rewrite H1, H2. auto.
    + inversion H. auto.
Qed.

Lemma short_series_test : forall cs : list Candle,
  negb (nonempty cs) || (len cs <? 100) = (len cs <? 100).
Proof.
  intros cs. destruct cs as [|cd cs]; [reflexivity|]. reflexivity.
Qed.

(** A run that returns a map went through the agent loop and the resolver. *)
Lemma analyze_inv : forall fsqrt sym tf cs params lm,
  analyze fsqrt sym tf cs params = Ok lm ->
  100 <= len cs /\
  exists ctx,
    run_agents fsqrt internal_agents (initial_context sym tf cs params)
    = (ctx, Ok tt) /\
    resolve_layers ctx = Ok (layers lm) /\
    ctx_candles ctx = cs.
Proof.
  intros fsqrt sym tf cs params lm H. unfold analyze, analyze_run in H.
  rewrite short_series_test in H.
  destruct (len cs <? 100) eqn:E; [discriminate H|].
  apply Z.ltb_ge in E. split; [exact E|].
  destruct (run_agents fsqrt internal_agents (initial_context sym tf cs params))
    as [ctx loop] eqn:Hrun.
  cbn [outcome] in H. unfold finish in H.
  destruct loop as [[]|e]; [|discriminate H]. cbn [bind] in H.
  inv_bind H. inv_bind H. inv_bind H. inversion H; subst lm; clear H.
  exists ctx. split; [reflexivity|]. split; [exact E0|].
  apply run_agents_frame in Hrun. apply Hrun.
Qed.

(** With good parameters a run on at least 100 candles returns a map. *)
Lemma analyze_total : forall fsqrt sym tf cs params,
  good_params (params_or_empty params) -> 100 <= len cs ->
  exists lm ctx r1 so nodes,
    analyze fsqrt sym tf cs params = Ok lm /\
    analyze_run fsqrt sym tf cs params = mkRun (Some ctx) (Ok lm) /\
    resolve_layers ctx = Ok (layers lm) /\
    ctx_candles ctx = cs /\
    len (ctx_mask ctx) = len cs /\
    StructureAgent_run (initial_context sym tf cs params) = Ok r1 /\
    ar_output r1 = OStructure so /\
    ctx_base_end ctx = Some (base_end_idx so) /\
    volume_nodes_proxy cs (get_param (params_or_empty params) "vap_bins" 60)
    = Ok nodes /\
    ctx_hvn ctx
    = top_hvn nodes (get_param (params_or_empty params) "hvn_topk" 6).
Proof.
  intros fsqrt sym tf cs params Hg Hn.
  destruct (run_agents_total fsqrt sym tf cs _ Hg ltac:(lia))
    as (ctx & r1 & so & r2 & nodes & r5 & ao &
        Hrun & Hcs & Hp & Hres & R1 & O1 & Hbe & _ & Hnodes & Hhvn & _ & _ & _ & _ & Hmask).
  destruct (resolve_layers_total ctx ltac:(rewrite Hcs; lia) Hres) as [lys Hlys].
  assert (Hrun' : analyze_run fsqrt sym tf cs params
                  = mkRun (Some ctx)
                      (Ok (mkSMCLayerMap sym tf (cd_ts (candle_at cs 0))
                             (cd_ts (candle_at cs (len cs - 1))) lys
                             layer_notes (ctx_params ctx)))).
  { unfold analyze_run. rewrite short_series_test.
    destruct (len cs <? 100) eqn:E; [lia|].
    unfold initial_context. rewrite Hrun. unfold finish. cbn [bind].
    rewrite Hlys. cbn [bind].
    rewrite (candle_index cs 0) by lia. cbn [bind].
    rewrite (py_index_last _ candle0) by (intros ->; unfold len in Hn; simpl in Hn; lia).
    cbn [bind]. reflexivity. }
  eexists. exists ctx, r1, so, nodes.
  split; [unfold analyze; rewrite Hrun'; reflexivity|].
  split; [exact Hrun'|]. split; [exact Hlys|]. auto 10.
Qed.

(** ** Bands and confidences *)

Lemma In_py_slice : forall (A : Type) (xs : list A) a b x,
  In x (py_slice xs a b) -> In x xs.
Proof.
  intros A xs a b x H. unfold py_slice in H.
  set (i := Z.to_nat (py_slice_bound (len xs) a)) in *.
  set (j := Z.to_nat (py_slice_bound (len xs) b)) in *.
  rewrite <- (firstn_skipn j xs). apply in_or_app. left.
  rewrite <- (firstn_skipn i (firstn j xs)). apply in_or_app. now right.
Qed.

Lemma In_segment : forall cs i0 i1 cd,
  In cd (_segment_by_indices cs i0 i1) -> In cd cs.
Proof.
  intros cs i0 i1 cd H. unfold _segment_by_indices in H.
  destruct (_ <? _); [destruct H|]. now apply In_py_slice in H.
Qed.

Lemma band_from_zone_ordered : forall cs z w b,
  well_formed_candles cs -> (0 <= w)%Q ->
  band_from_zone cs z w = Ok b ->
  (fst (fst (fst b)) = FNaN /\ snd (fst (fst b)) = FNaN) \/
  (exists lo hi, fst (fst (fst b)) = FVal lo /\ snd (fst (fst b)) = FVal hi /\
                 (lo <= hi)%Q).
Proof.
  intros cs z w b Hwf Hw H. unfold band_from_zone in H.
  destruct (_segment_by_indices cs (fst z) (snd z)) as [|cd0 rest] eqn:Hseg.
  - inversion H. left. auto.
  - inv_bind H. inversion H; subst b; clear H. right. cbn [fst snd].
    do 2 eexists. split; [reflexivity|]. split; [reflexivity|].
    assert (H0 : (cd_l cd0 <= cd_h cd0)%Q).
    { apply Hwf. apply (In_segment cs (fst z) (snd z)). rewrite Hseg. now left. }
    destruct (qmin_list_spec (map cd_l rest) (cd_l cd0)) as (Hlo & _).
    destruct (qmax_list_spec (map cd_h rest) (cd_h cd0)) as (Hhi & _).
    set (lo := qmin_list (cd_l cd0) (map cd_l rest)) in *.
    set (hi := qmax_list (cd_h cd0) (map cd_h rest)) in *.
    assert (Hspan : (0 <= (hi - lo) * w)%Q)
      by (apply Qmult_le_0_compat; lra).
    destruct (Qltb 0 w); lra.
Qed.

Lemma clamp_bounds : forall x lo hi,
  (lo <= hi)%Q -> (lo <= clamp x lo hi <= hi)%Q.
Proof.
  intros x lo hi H. unfold clamp. split.
  - apply Q.le_max_l.
  - apply Q.max_lub; [exact H | apply Q.le_min_l].
Qed.

Lemma combine_conf_unit : forall a b c, (0 <= combine_conf a b c <= 1)%Q.
Proof. intros. unfold combine_conf. apply clamp_bounds. lra. Qed.

Lemma refine_all_layers : forall hs built,
  map layer (refine_all hs built) = map layer built.
Proof.
  intros hs built. unfold refine_all. destruct (nonempty hs); [|reflexivity].
  rewrite map_map. apply map_ext. intros lb. apply hvn_refine_fields.
Qed.

Lemma refine_all_In : forall hs built lb,
  In lb (refine_all hs built) ->
  exists lb0, In lb0 built /\ (lb = lb0 \/ lb = hvn_refine hs lb0).
Proof.
  intros hs built lb H. unfold refine_all in H. destruct (nonempty hs).
  - apply in_map_iff in H. destruct H as (lb0 & <- & Hin). eauto.
  - eauto.
Qed.

(** What a successful [resolve_layers] returns. *)
Lemma resolve_layers_bands : forall ctx lys,
  resolve_layers ctx = Ok lys ->
  map layer lys = [1; 2; 3; 4; 5] /\
  (forall lb, In lb lys -> (0 <= confidence lb <= 1)%Q) /\
  (well_formed_candles (ctx_candles ctx) ->
   forall lb, In lb lys -> band_ordered lb).
Proof.
  intros ctx lys H.
  destruct (resolve_layers_inv ctx lys H)
    as (be & l1 & l2 & l3 & l4 & l5 & Hbe & B1 & B2 & B3 & B4 & B5 & ->).
  assert (Hall : forall lb0, In lb0 [l1; l2; l3; l4; l5] ->
            exists k z w, layer_built ctx k z w lb0 /\ (0 <= w)%Q).
  { intros lb0 [<-|[<-|[<-|[<-|[<-|[]]]]]];
      do 3 eexists; (split; [eassumption | lra]). }
  split.
  { rewrite refine_all_layers.
    destruct B1 as (? & ? & ? & _ & _ & _ & ->).
    destruct B2 as (? & ? & ? & _ & _ & _ & ->).
    destruct B3 as (? & ? & ? & _ & _ & _ & ->).
    destruct B4 as (? & ? & ? & _ & _ & _ & ->).
    destruct B5 as (? & ? & ? & _ & _ & _ & ->).
    cbn [map]. repeat f_equal; apply make_layer_fields. }
  split.
  - intros lb Hlb. apply refine_all_In in Hlb.
    destruct Hlb as (lb0 & Hin & Hor).
    destruct (Hall lb0 Hin) as (k & z & w & (b & win & s & _ & _ & _ & ->) & _).
    assert (Hc : (0 <= confidence (make_layer k b win s
                     (verifier_confidence (ctx_traces ctx))) <= 1)%Q).
    { destruct (make_layer_fields k b win s (verifier_confidence (ctx_traces ctx)))
        as (_ & _ & _ & _ & _ & _ & ->). apply combine_conf_unit. }
    destruct Hor as [->| ->]; [exact Hc|].
    destruct (hvn_refine_fields (sorted_desc node_vol (ctx_hvn ctx))
                (make_layer k b win s (verifier_confidence (ctx_traces ctx))))
      as (_ & _ & _ & _ & _ & _ & -> & _). exact Hc.
  - intros Hwf lb Hlb. apply refine_all_In in Hlb.
    destruct Hlb as (lb0 & Hin & Hor).
    destruct (Hall lb0 Hin) as (k & z & w & (b & win & s & Hb & _ & _ & ->) & Hw).
    pose proof (band_from_zone_ordered _ _ _ _ Hwf Hw Hb) as Hband.
    destruct (make_layer_fields k b win s (verifier_confidence (ctx_traces ctx)))
      as (_ & Hlo & Hhi & _).
    assert (Hc : band_ordered (make_layer k b win s
                   (verifier_confidence (ctx_traces ctx)))).
    { unfold band_ordered. rewrite Hlo, Hhi. exact Hband. }
    destruct Hor as [->| ->]; [exact Hc|].
    destruct (hvn_refine_fields (sorted_desc node_vol (ctx_hvn ctx))
                (make_layer k b win s (verifier_confidence (ctx_traces ctx))))
      as (_ & Hl' & Hh' & _).
    unfold band_ordered. rewrite Hl', Hh'. exact Hc.
Qed.

(** Layer [k + 1] of a run with good parameters, by its parts: the band and
    the HVN list do not depend on the square root, the window is that of
    some mask over the series. *)
Lemma analyze_layer_at : forall fsqrt sym tf cs params (k : nat),
  good_params (params_or_empty params) -> 100 <= len cs -> (k < 5)%nat ->
  exists lm r1 so nodes z w b mask win s vc,
    analyze fsqrt sym tf cs params = Ok lm /\
    StructureAgent_run (initial_context sym tf cs params) = Ok r1 /\
    ar_output r1 = OStructure so /\
    volume_nodes_proxy cs (get_param (params_or_empty params) "vap_bins" 60)
    = Ok nodes /\
    nth_error (layer_zones (len cs) (base_end_idx so)) k = Some z /\
    nth_error layer_widens k = Some w /\
    band_from_zone cs z w = Ok b /\
    len mask = len cs /\
    entry_window cs mask z = Ok win /\
    nth_error (layers lm) k
    = Some (hvn_refine
              (sorted_desc node_vol
                 (top_hvn nodes (get_param (params_or_empty params) "hvn_topk" 6)))
              (make_layer (Z.of_nat k + 1) b win s vc)).
Proof.
  intros fsqrt sym tf cs params k Hg Hn Hk.
  destruct (analyze_total fsqrt sym tf cs params Hg Hn)
    as (lm & ctx & r1 & so & nodes & Ha & _ & Hlys & Hcs & Hmask & R1 & O1 &
        Hbe & Hnodes & Hhvn).
  destruct (resolved_layer_exists ctx (layers lm) k Hlys Hk) as [lb Hlb].
  assert (Hz : exists z, nth_error (layer_zones (len cs) (base_end_idx so)) k
                         = Some z).
  { unfold layer_zones.
    destruct k as [|[|[|[|[|k]]]]]; try lia; simpl; eexists; reflexivity. }
  destruct Hz as [z Hz].
  destruct (resolved_layer_built ctx (layers lm) (base_end_idx so) k z lb
              Hlys Hbe ltac:(rewrite Hcs; exact Hz) Hlb)
    as (w & lb0 & Hw & (b & win & s & Hb & Hwin & _ & ->) & ->).
  rewrite Hcs in Hb, Hwin. rewrite Hhvn in Hlb.
  exists lm, r1, so, nodes, z, w, b, (ctx_mask ctx), win, s,
         (verifier_confidence (ctx_traces ctx)).
  repeat (split; [assumption|]). exact Hlb.
Qed.

Lemma refined_layer_fields : forall hs k b w s vc,
  let lb := hvn_refine hs (make_layer k b w s vc) in
  layer lb = k /\
  price_low lb = fst (fst (fst b)) /\
  price_high lb = snd (fst (fst b)) /\
  entry_start_ts lb = Some (fst (fst (fst w))) /\
  entry_end_ts lb = Some (snd (fst (fst w))).
Proof.
  intros hs k b w s vc lb.
  destruct (hvn_refine_fields hs (make_layer k b w s vc))
    as (H1 & H2 & H3 & H4 & H5 & _).
  destruct (make_layer_fields k b w s vc) as (F1 & F2 & F3 & _ & F5 & F6 & _).
  unfold lb. rewrite H1, H2, H3, H4, H5. auto.
Qed.

(** ** The sample inputs *)

Lemma default_params_good : good_params (params_or_empty None).
Proof. unfold good_params. simpl. lia. Qed.

Lemma forallb_well_formed : forall cs,
  forallb (fun cd => Qle_bool (cd_l cd) (cd_h cd)) cs = true ->
  well_formed_candles cs.
Proof.
  intros cs H cd Hcd. rewrite forallb_forall in H.
  apply Qle_bool_iff. now apply H.
Qed.

(** C1, amended.  A run with good parameters on at least 100 candles
    returns; and whenever a run returns, the resolver returned exactly five
    layers, numbered 1 to 5 in order, each with a confidence in [[0, 1]];
    when moreover every candle has [low <= high], each band has
    [price_low <= price_high] or both bounds are the not-a-number sentinel
    of an empty zone. *)
Theorem resolve_layers_five_ordered_bands : forall fsqrt sym tf cs params,
  (100 <= len cs -> good_params (params_or_empty params) ->
   exists lm, analyze fsqrt sym tf cs params = Ok lm) /\
  (forall lm,
     analyze fsqrt sym tf cs params = Ok lm ->
     100 <= len cs /\
     (exists ctx, ctx_candles ctx = cs /\ resolve_layers ctx = Ok (layers lm)) /\
     map layer (layers lm) = [1; 2; 3; 4; 5] /\
     (forall lb, In lb (layers lm) -> (0 <= confidence lb <= 1)%Q) /\
     (well_formed_candles cs ->
      forall lb, In lb (layers lm) -> band_ordered lb)).
Proof.
  intros fsqrt sym tf cs params. split.
  - intros Hn Hg.
    destruct (analyze_total fsqrt sym tf cs params Hg Hn) as (lm & _ & _ & _ & _ & H & _).
    now exists lm.
  - intros lm H. destruct (analyze_inv _ _ _ _ _ _ H) as (Hn & ctx & _ & Hlys & Hcs).
    split; [exact Hn|]. split; [now exists ctx|].
    destruct (resolve_layers_bands ctx (layers lm) Hlys) as (H1 & H2 & H3).
    split; [exact H1|]. split; [exact H2|]. now rewrite Hcs in H3.
Qed.

Lemma resolve_layers_five_ordered_bands_witness :
  exists lm,
    analyze sqrt_approx "XAGUSD" "4H" (flat_candles 100) None = Ok lm /\
    map layer (layers lm) = [1; 2; 3; 4; 5] /\
    (forall lb, In lb (layers lm) -> (0 <= confidence lb <= 1)%Q) /\
    (forall lb, In lb (layers lm) -> band_ordered lb).
Proof.
  destruct (resolve_layers_five_ordered_bands sqrt_approx "XAGUSD" "4H"
              (flat_candles 100) None) as [Htot Hret].
  destruct (Htot ltac:(vm_compute; discriminate) default_params_good) as [lm Hlm].
  exists lm. split; [exact Hlm|].
  destruct (Hret lm Hlm) as (_ & _ & H1 & H2 & H3).
  split; [exact H1|]. split; [exact H2|].
  apply H3. apply forallb_well_formed. vm_compute. reflexivity.
Defined.

(** C1 as stated fails on candles whose low is above their high: whatever
    the square root, the run on [crossed_candles] returns and its first
    band has [price_high < price_low]. *)
Lemma crossed_candles_cross_the_band :
  len crossed_candles = 100 /\
  forall fsqrt,
    exists lm lb lo hi,
      analyze fsqrt "XAGUSD" "4H" crossed_candles None = Ok lm /\
      nth_error (layers lm) 0 = Some lb /\
      price_low lb = FVal lo /\ price_high lb = FVal hi /\
      (hi < lo)%Q.
Proof.
  split; [vm_compute; reflexivity|]. intros fsqrt.
  destruct (analyze_layer_at fsqrt "XAGUSD" "4H" crossed_candles None 0
              default_params_good ltac:(vm_compute; discriminate) ltac:(lia))
    as (lm & r1 & so & nodes & z & w & b & mask & win & s & vc &
        Ha & R1 & O1 & _ & Hz & Hw & Hb & _ & _ & Hlb).
  vm_compute in R1. injection R1 as <-. cbn in O1. injection O1 as <-.
  vm_compute in Hz. injection Hz as <-. vm_compute in Hw. injection Hw as <-.
  destruct (refined_layer_fields
              (sorted_desc node_vol
                 (top_hvn nodes (get_param (params_or_empty None) "hvn_topk" 6)))
              (Z.of_nat 0 + 1) b win s vc) as (_ & Hl & Hh & _).
  vm_compute in Hb. injection Hb as <-. cbn [fst snd] in Hl, Hh.
  eexists. eexists. eexists. eexists.
  split; [exact Ha|]. split; [exact Hlb|].
  split; [exact Hl|]. split; [exact Hh|]. reflexivity.
Qed.

(** ** Entry windows of inverted zones *)

(** On a zone whose start is past its end the loop of
    [_find_longest_true_window] runs over no bar, and the fallback window
    starts [int(0.6 * (z1 - z0))] bars before [z0], after [z1]. *)
Lemma entry_window_inverted : forall cs mask z0 z1,
  0 <= z1 < z0 -> z0 < len cs -> len mask = len cs ->
  exists conf ev,
    entry_window cs mask (z0, z1)
    = Ok (cd_ts (candle_at cs (z0 + Z.quot ((z1 - z0) * 6) 10)),
          cd_ts (candle_at cs z1), conf, ev).
Proof.
  intros cs mask z0 z1 Hz Hn Hl.
  destruct (entry_window_cases cs mask z0 z1 ltac:(lia) ltac:(lia) Hl)
    as (r & _ & [[_ ->]|(s & e & ((A1 & A2 & A3 & _) & _) & _)] & _ & Hew).
  - rewrite Hew. do 2 eexists. reflexivity.
  - lia.
Qed.

(** On a zone in order, over a series with non-decreasing timestamps, the
    window does start no later than it ends. *)
Lemma entry_window_ordered : forall cs mask z0 z1 r,
  0 <= z0 -> z0 <= z1 -> z1 < len cs -> len mask = len cs ->
  (forall i j, 0 <= i -> i <= j -> j < len cs ->
               cd_ts (candle_at cs i) <= cd_ts (candle_at cs j)) ->
  entry_window cs mask (z0, z1) = Ok r ->
  fst (fst (fst r)) <= snd (fst (fst r)).
Proof.
  intros cs mask z0 z1 r H0 H01 H1 Hl Hts Hr.
  destruct (entry_window_cases cs mask z0 z1 ltac:(lia) ltac:(lia) Hl)
    as (w & _ & Hspec & Hss & Hew).
  destruct (fallback_start_range (z1 - z0)) as [Hpos _].
  specialize (Hpos ltac:(lia)).
  destruct Hspec as [[_ ->]|(s & e & ((A1 & A2 & A3 & _) & _) & ->)];
    rewrite Hew in Hr; injection Hr as <-; cbn [fst snd]; apply Hts; lia.
Qed.

(** C2 fails on the code.  On [late_breakout_candles] (100 bars, timestamps
    0 to 99 in order, default parameters) the base ends at bar 90, past
    [int(0.55 * 100) = 55], so the early zone is [(90, 55)]: whatever the
    square root, the run returns, and layer 2 has its entry window start at
    the timestamp of bar 69 and end at that of bar 55. *)
Theorem early_zone_window_runs_backwards :
  map cd_ts late_breakout_candles = range 0 100 /\
  forall fsqrt,
    exists lm lb,
      analyze fsqrt "XAGUSD" "4H" late_breakout_candles None = Ok lm /\
      nth_error (layers lm) 1 = Some lb /\
      entry_start_ts lb = Some 69 /\ entry_end_ts lb = Some 55.
Proof.
  split; [vm_compute; reflexivity|]. intros fsqrt.
  destruct (analyze_layer_at fsqrt "XAGUSD" "4H" late_breakout_candles None 1
              default_params_good ltac:(vm_compute; discriminate) ltac:(lia))
    as (lm & r1 & so & nodes & z & w & b & mask & win & s & vc &
        Ha & R1 & O1 & _ & Hz & _ & _ & Hm & Hwin & Hlb).
  vm_compute in R1. injection R1 as <-. cbn in O1. injection O1 as <-.
  vm_compute in Hz. injection Hz as <-.
  destruct (entry_window_inverted late_breakout_candles mask 90 55
              ltac:(lia) ltac:(vm_compute; reflexivity) Hm)
    as (conf & ev & Hinv).
  rewrite Hinv in Hwin. injection Hwin as <-.
  destruct (refined_layer_fields
              (sorted_desc node_vol
                 (top_hvn nodes (get_param (params_or_empty None) "hvn_topk" 6)))
              (Z.of_nat 1 + 1) b (69, 55, conf, ev) s vc)
    as (_ & _ & _ & Hs & He).
  cbn [fst snd] in Hs, He.
  eexists. eexists. split; [exact Ha|]. split; [exact Hlb|].
  split; [exact Hs | exact He].
Qed.

(** ** Validation of the series length *)

(** C3. On fewer than 100 candles (the empty series included) [analyze]
    raises the [ValueError] that stands for insufficient data before it
    creates a context: the run ends with no context, hence no trace, and
    no map.  On 100 candles or more the check passes: the run creates its
    context and goes through the agent loop, and with good parameters it
    returns a map. *)
Theorem analyze_requires_100_candles : forall fsqrt sym tf cs params,
  (len cs < 100 ->
   analyze_run fsqrt sym tf cs params = mkRun None (Raise InsufficientData) /\
   analyze fsqrt sym tf cs params = Raise InsufficientData) /\
  (100 <= len cs ->
   exists ctx loop,
     run_agents fsqrt internal_agents (initial_context sym tf cs params)
     = (ctx, loop) /\
     analyze_run fsqrt sym tf cs params
     = mkRun (Some ctx) (finish sym tf cs ctx loop) /\
     (good_params (params_or_empty params) ->
      exists lm, analyze fsqrt sym tf cs params = Ok lm)).
Proof.
  intros fsqrt sym tf cs params. split.
  - intros H. unfold analyze, analyze_run. rewrite short_series_test.
    destruct (len cs <? 100) eqn:E; [|lia]. split; reflexivity.
  - intros H. unfold analyze_run. rewrite short_series_test.
    destruct (len cs <? 100) eqn:E; [lia|].
    destruct (run_agents fsqrt internal_agents (initial_context sym tf cs params))
      as [ctx loop] eqn:Hrun.
    exists ctx, loop. split; [reflexivity|]. split; [reflexivity|].
    intros Hg.
    destruct (analyze_total fsqrt sym tf cs params Hg H) as (lm & _ & _ & _ & _ & Ha & _).
    now exists lm.
Qed.

Lemma analyze_requires_100_candles_witness :
  (analyze_run sqrt_approx "XAGUSD" "4H" (flat_candles 50) None
   = mkRun None (Raise InsufficientData)) /\
  (analyze_run sqrt_approx "XAGUSD" "4H" [] None
   = mkRun None (Raise InsufficientData)) /\
  (exists lm, analyze sqrt_approx "XAGUSD" "4H" (flat_candles 100) None = Ok lm).
Proof.
  split; [|split].
  - apply (proj1 (analyze_requires_100_candles sqrt_approx "XAGUSD" "4H"
                    (flat_candles 50) None)).
    vm_compute. reflexivity.
  - apply (proj1 (analyze_requires_100_candles sqrt_approx "XAGUSD" "4H"
                    [] None)).
    vm_compute. reflexivity.
  - destruct (proj2 (analyze_requires_100_candles sqrt_approx "XAGUSD" "4H"
                       (flat_candles 100) None)
                ltac:(vm_compute; discriminate))
      as (ctx & loop & _ & _ & Hok).
    exact (Hok default_params_good).
Defined.

(** ** The engine with no adapter registered *)

(** With an empty registry the runs of the engine are those of the function
    [analyze_run]. *)

Lemma run_agent_unregistered : forall fsqrt a ctx r,
  _run_agent [] fsqrt a ctx r <-> r = run fsqrt a ctx.
Proof. intros. unfold _run_agent. simpl. tauto. Qed.

Lemma agents_loop_functional : forall fsqrt agents ctx out,
  agents_loop [] fsqrt agents ctx out -> out = run_agents fsqrt agents ctx.
Proof.
  intros fsqrt agents ctx out H.
  induction H as [ctx | a rest ctx e Hr | a rest ctx res out Hr Hl IH].
  - reflexivity.
  - apply run_agent_unregistered in Hr. cbn [run_agents]. now rewrite <- Hr.
  - apply run_agent_unregistered in Hr. cbn [run_agents]. now rewrite <- Hr.
Qed.

Lemma agents_loop_runs : forall fsqrt agents ctx,
  agents_loop [] fsqrt agents ctx (run_agents fsqrt agents ctx).
Proof.
  intros fsqrt agents. induction agents as [|a agents IH]; intros ctx.
  - constructor.
  - cbn [run_agents]. destruct (run fsqrt a ctx) as [res|e] eqn:E.
    + apply loop_next with (res := res).
      * apply run_agent_unregistered. now symmetry.
      * apply IH.
    + apply loop_raise. apply run_agent_unregistered. now symmetry.
Qed.

Lemma engine_analyze_functional : forall fsqrt sym tf cs params r,
  engine_analyze [] fsqrt sym tf cs params r ->
  r = analyze_run fsqrt sym tf cs params.
Proof.
  intros fsqrt sym tf cs params r H. unfold analyze_run.
  destruct H as [Hs | ctx loop Hs Hl].
  - now rewrite Hs.
  - rewrite Hs. apply agents_loop_functional in Hl. now rewrite <- Hl.
Qed.

Lemma engine_analyze_runs : forall fsqrt sym tf cs params,
  engine_analyze [] fsqrt sym tf cs params (analyze_run fsqrt sym tf cs params).
Proof.
  intros fsqrt sym tf cs params. unfold analyze_run.
  destruct (negb (nonempty cs) || (len cs <? 100)) eqn:E.
  - now apply analyze_short.
  - destruct (run_agents fsqrt internal_agents
                (initial_context sym tf cs params)) as [ctx loop] eqn:Hrun.
    apply analyze_full; [exact E|]. rewrite <- Hrun. apply agents_loop_runs.
Qed.

(** ** The theorems on sample inputs *)

Lemma peak_candles_unimodal : strictly_unimodal_highs peak_candles 3.
Proof.
  unfold strictly_unimodal_highs.
  replace (len peak_candles) with 7 by (vm_compute; reflexivity).
  split; [lia|]. split; intros i Hi.
  - assert (Hc : i = 0 \/ i = 1 \/ i = 2) by lia.
    destruct Hc as [->|[->| ->]]; vm_compute; reflexivity.
  - assert (Hc : i = 3 \/ i = 4 \/ i = 5) by lia.
    destruct Hc as [->|[->| ->]]; vm_compute; reflexivity.
Qed.

Lemma find_swings_window_extremum_witness :
  exists sw, find_swings peak_candles 2 2 = Ok sw /\ highs sw = [3].
Proof.
  destruct (find_swings_window_extremum peak_candles 2 2
              ltac:(lia) ltac:(lia)) as (sw & Hsw & _ & _ & Hu).
  exists sw. split; [exact Hsw|].
  apply (Hu 3 eq_refl eq_refl peak_candles_unimodal).
  replace (len peak_candles) with 7 by (vm_compute; reflexivity). lia.
Defined.

(** The base end is the breakout of the first swing low (bar 7), although
    the second swing low breaks out earlier (bar 6). *)
Lemma structure_base_end_first_breakout_witness :
  exists res out,
    StructureAgent_run
      (mkGenesisContext "XAGUSD" "4H" two_breakout_candles
                        narrow_swing_params [])
    = Ok res /\
    ar_output res = OStructure out /\
    base_end_idx out = 7 /\
    base_end_spec two_breakout_candles (swings out) (base_end_idx out) /\
    breakout two_breakout_candles (highs (swings out)) 3 6.
Proof.
  destruct (structure_base_end_first_breakout
              (mkGenesisContext "XAGUSD" "4H" two_breakout_candles
                                narrow_swing_params [])
              ltac:(simpl; lia) ltac:(simpl; lia))
    as (res & out & H1 & H2 & _ & _ & _ & H6).
  exists res, out. split; [exact H1|]. split; [exact H2|].
  split; [|split; [exact H6|]];
    vm_compute in H1; injection H1 as <-; cbn in H2; injection H2 as <-.
  - reflexivity.
  - cbn [swings highs]. exists 4. split.
    + split; [simpl; auto|]. split; [lia|].
      intros x [<-|[<-|[]]] Hx; lia.
    + replace (len two_breakout_candles) with 9 by (vm_compute; reflexivity).
      split; [lia|]. split; [vm_compute; reflexivity|].
      intros k Hk. replace k with 5 by lia.
      apply Qle_bool_iff. vm_compute. reflexivity.
Defined.

(** C5 fails as stated: on 180 flat candles no close exceeds a high, so no
    swing low has a breakout, and 35% of the series length is 63; the stage
    returns 62, the float product [180 * 0.35] being just below 63. *)
Lemma flat_180_base_end_is_62 :
  exists res out,
    StructureAgent_run (mkGenesisContext "XAGUSD" "4H" (flat_candles 180) [] [])
    = Ok res /\
    ar_output res = OStructure out /\
    (forall li, In li (lows (swings out)) ->
                no_breakout (flat_candles 180) (highs (swings out)) li) /\
    base_end_idx out = 62 /\
    (inject_Z (len (flat_candles 180)) * (35 # 100) == 63)%Q /\
    base_end_idx out <> 35 * len (flat_candles 180) / 100.
Proof.
  set (ctx := mkGenesisContext "XAGUSD" "4H" (flat_candles 180) [] []).
  assert (Hrun : exists res, StructureAgent_run ctx = Ok res /\
                 exists out, ar_output res = OStructure out /\
                             base_end_idx out = 62).
  { eexists. split; [vm_compute; reflexivity|].
    eexists. split; [reflexivity|]. reflexivity. }
  destruct Hrun as (res & Hres & out & Hout & Hbe).
  exists res, out. split; [exact Hres|]. split; [exact Hout|].
  split.
  - intros li _ j (hi0 & _ & Hj & Hlt & _).
    replace (len (flat_candles 180)) with 180 in Hj by (vm_compute; reflexivity).
    assert (Hall : forallb (fun k => Qeq_bool (cd_h (candle_at (flat_candles 180) k)) 100
                                     && Qeq_bool (cd_c (candle_at (flat_candles 180) k)) 100)
                           (range 0 180) = true) by (vm_compute; reflexivity).
    rewrite forallb_forall in Hall.
    replace (candle_at (flat_candles 180) hi0)
      with (candle_at (flat_candles 180) (Z.max 0 hi0)) in Hlt
      by (unfold candle_at; f_equal; lia).
    pose proof (Hall (Z.max 0 hi0) ltac:(apply range_In; lia)) as H1.
    replace (candle_at (flat_candles 180) j)
      with (candle_at (flat_candles 180) (Z.max 0 j)) in Hlt
      by (unfold candle_at; f_equal; lia).
    pose proof (Hall (Z.max 0 j) ltac:(apply range_In; lia)) as H2.
    apply andb_true_iff in H1. destruct H1 as [H1 _].
    apply andb_true_iff in H2. destruct H2 as [_ H2].
    apply Qeq_bool_iff in H1. apply Qeq_bool_iff in H2. lra.
  - split; [exact Hbe|]. split; [vm_compute; reflexivity|].
    rewrite Hbe. vm_compute. discriminate.
Qed.

Lemma forallb_In : forall (A : Type) (f : A -> bool) xs x,
  forallb f xs = true -> In x xs -> f x = true.
Proof. intros A f xs x H Hx. rewrite forallb_forall in H. now apply H. Qed.






(** C6 as stated fails when the only histogram buckets that overlap a
    layer's band are outside the HVN list.  On [gap_candles], whatever the
    square root, the run returns; the band of layer 5 is overlapped by a
    histogram bucket [nd] (the highest-volume such bucket), yet the layer
    keeps the centroid of its zone as cost basis, which is not the 70/30
    blend with the midpoint of [nd]. *)
Lemma gap_candles_bucket_is_ignored :
  len gap_candles = 100 /\
  forall fsqrt,
    exists lm lb nodes nd prev,
      analyze fsqrt "XAGUSD" "4H" gap_candles None = Ok lm /\
      nth_error (layers lm) 4 = Some lb /\
      volume_nodes_proxy gap_candles 60 = Ok nodes /\
      In nd nodes /\ overlaps lb nd = true /\
      (forall nd', In nd' nodes -> overlaps lb nd' = true ->
                   (node_vol nd' <= node_vol nd)%Q) /\
      _weighted_centroid_price
        (_segment_by_indices gap_candles (fst (peak_zone 100))
                             (snd (peak_zone 100))) = Ok (Some prev) /\
      cost_basis lb = Some prev /\
      ~ (prev == prev * (7 # 10)
                 + ((node_lo nd + node_hi nd) / 2) * (3 # 10))%Q.
Proof.
  split; [vm_compute; reflexivity|]. intros fsqrt.
  destruct (analyze_layer_at fsqrt "XAGUSD" "4H" gap_candles None 4
              default_params_good ltac:(vm_compute; discriminate) ltac:(lia))
    as (lm & r1 & so & nodes & z & w & b & mask & win & s & vc &
        Ha & R1 & O1 & Hn & Hz & Hw & Hb & _ & _ & Hlb).
  vm_compute in R1. injection R1 as <-. cbn in O1. injection O1 as <-.
  vm_compute in Hz. injection Hz as <-. vm_compute in Hw. injection Hw as <-.
  assert (Hn' : volume_nodes_proxy gap_candles 60 = Ok nodes) by exact Hn.
  vm_compute in Hn. injection Hn as <-.
  vm_compute in Hb. injection Hb as <-.
  destruct win as [[[s0 e0] wc] wev]. destruct s as [[stt sc] sev].
  match type of Hn' with _ = Ok ?ns => set (NS := ns) in * end.
  match type of Hlb with
  | _ = Some (hvn_refine ?hs ?l0) => set (HS := hs) in *; set (L0 := l0) in *
  end.
  assert (Hsame : hvn_refine HS L0 = L0).
  { unfold hvn_refine.
    replace (filter (overlaps L0) HS) with (@nil Node)
      by (vm_compute; reflexivity).
    reflexivity. }
  rewrite Hsame in Hlb.
  set (nd := nth 59 NS (0, 0, 0)%Q).
  assert (Hall : forallb (fun x => implb (overlaps L0 x)
                                         (Qle_bool (node_vol x) (node_vol nd)))
                         NS = true) by (vm_compute; reflexivity).
  exists lm, L0, NS, nd.
  let v := eval vm_compute in
    (match _weighted_centroid_price
             (_segment_by_indices gap_candles (fst (peak_zone 100))
                                  (snd (peak_zone 100)))
     with Ok (Some p) => p | _ => 0%Q end) in exists v.
  split; [exact Ha|]. split; [exact Hlb|]. split; [exact Hn'|].
  split; [apply nth_In; vm_compute; apply le_n|].
  split; [vm_compute; reflexivity|].
  split.
  { intros nd' Hin Hov. apply (forallb_In _ _ _ nd') in Hall; [|exact Hin].
    cbv beta in Hall. rewrite Hov in Hall. apply Qle_bool_iff. exact Hall. }
  split; [vm_compute; reflexivity|].
  split; [reflexivity|].
  unfold Qeq. vm_compute. discriminate.
Qed.

(** Layer 3 of [gap_candles] (bars 45 to 75) is blended toward a bucket of
    the HVN list, which moves its cost basis. *)
Lemma hvn_refinement_blends_toward_top_hvn_witness :
  exists lm lb ctx w lb0 nd prev,
    analyze sqrt_approx "XAGUSD" "4H" gap_candles None = Ok lm /\
    nth_error (layers lm) 2 = Some lb /\
    layer_built ctx 3 (mid_zone 100) w lb0 /\
    In nd (ctx_hvn ctx) /\
    lb = blended lb0 nd /\
    cost_basis lb0 = Some prev /\
    ~ (prev == prev * (7 # 10) + (node_lo nd + node_hi nd) / 2 * (3 # 10))%Q.
Proof.
  destruct (analyze_total sqrt_approx "XAGUSD" "4H" gap_candles None
              default_params_good ltac:(vm_compute; discriminate))
    as (lm & ctx & r1 & so & nodes & Ha & _ & Hlys & Hcs & _ & R1 & O1 & Hbe &
        Hn & Hhvn).
  destruct (resolved_layer_exists ctx (layers lm) 2 Hlys ltac:(lia)) as [lb Hlb].
  vm_compute in R1. injection R1 as <-. cbn in O1. injection O1 as <-.
  cbn [base_end_idx] in Hbe.
  destruct (hvn_refinement_blends_toward_top_hvn ctx (layers lm) 85 2%nat
              (mid_zone 100) lb Hlys Hbe
              ltac:(rewrite Hcs; reflexivity)
              ltac:(rewrite Hcs; vm_compute; discriminate) Hlb)
    as (w & lb0 & lo & hi & Hw & Hbuilt & Plo & Phi & Hcase).
  pose proof Hbuilt as (b & win & s & Hb & _ & _ & Elb0).
  rewrite Hcs in Hb. cbn in Hw. injection Hw as Hw.
  vm_compute in Hn. injection Hn as <-.
  match type of Hhvn with
  | _ = ?r => let v := eval vm_compute in r in change r with v in Hhvn
  end.
  destruct win as [[[ws we] wc] wev]. destruct s as [[st sc] sev].
  destruct b as [[[blo bhi] bcb] bev].
  assert (Hband : blo = FVal lo /\ bhi = FVal hi).
  { rewrite Elb0 in Plo, Phi. cbn in Plo, Phi. split; assumption. }
  destruct Hband as [-> ->].
  destruct Hcase as [(nd & Hin & _ & _ & Hbl)|(Hnone & _)].
  - exists lm, lb, ctx, w, lb0, nd.
    assert (Hprev : exists prev, bcb = Some prev /\
              forall x, In x (ctx_hvn ctx) ->
                ~ (prev == prev * (7 # 10)
                           + (node_lo x + node_hi x) / 2 * (3 # 10))%Q).
    { subst w. vm_compute in Hb. injection Hb as _ _ <- _.
      eexists. split; [reflexivity|].
      intros x Hx. rewrite Hhvn in Hx.
      repeat (destruct Hx as [<-|Hx];
              [intros E; vm_compute in E; discriminate E|]).
      destruct Hx. }
    destruct Hprev as (prev & -> & Hdiff).
    exists prev. split; [exact Ha|]. split; [exact Hlb|].
    split; [exact Hbuilt|]. split; [exact Hin|]. split; [exact Hbl|].
    split; [rewrite Elb0; reflexivity|]. apply Hdiff, Hin.
  - exfalso. subst w. vm_compute in Hb. injection Hb as <- <- _ _.
    apply (Hnone (100, 7154155658062507 # 70368744177664, 13000)%Q).
    + rewrite Hhvn. left. reflexivity.
    + split; vm_compute; discriminate.
Defined.

(** * The quant building blocks *)

(** ** Simple moving average *)

Lemma firstn_subset : forall (A : Type) (xs : list A) k x,
  In x (firstn k xs) -> In x xs.
Proof.
  intros A xs k x H. rewrite <- (firstn_skipn k xs). apply in_or_app. now left.
Qed.

Lemma skipn_subset : forall (A : Type) (xs : list A) k x,
  In x (skipn k xs) -> In x xs.
Proof.
  intros A xs k x H. rewrite <- (firstn_skipn k xs). apply in_or_app. now right.
Qed.

(** Sums of whole numbers. *)
Lemma whole_comp : forall x y, (x == y)%Q -> whole x -> whole y.
Proof. intros x y E (k & Hk & Ex). exists k. split; [exact Hk | rewrite <- E; exact Ex]. Qed.

Lemma whole_qsum : forall xs, (forall y, In y xs -> whole y) -> whole (qsum xs).
Proof.
  induction xs as [|x xs IH]; intros H.
  - apply whole_0.
  - destruct (H x (or_introl eq_refl)) as (a & Ha & Ea).
    destruct (IH (fun y Hy => H y (or_intror Hy))) as (b & Hb & Eb).
    exists (a + b). split; [lia|].
    rewrite qsum_cons, inject_Z_plus, Ea, Eb. reflexivity.
Qed.

Lemma fsub_whole : forall x y k,
  0 <= k <= 2 ^ 53 -> (x - y == inject_Z k)%Q -> (fsub x y == x - y)%Q.
Proof.
  intros x y k Hk E. unfold fsub. rewrite (round64_comp _ _ E).
  rewrite round64_Z by lia. symmetry. exact E.
Qed.

Lemma qsum_skipn_le : forall xs k,
  (forall y, In y xs -> (0 <= y)%Q) -> (qsum (skipn k xs) <= qsum xs)%Q.
Proof.
  intros xs k H. rewrite <- (firstn_skipn k xs) at 2. rewrite qsum_app.
  assert (0 <= qsum (firstn k xs))%Q.
  { apply qsum_nonneg. intros y Hy. apply H. eapply firstn_subset; exact Hy. }
  lra.
Qed.

(** One turn of the loop keeps the queue equal to the last [window] values
    read; over whole values of total at most [2^53] no addition rounds, and
    [s] stays the sum of the queue. *)
Lemma sma_step : forall (w : Z) (pre q : list Q) (s x : Q),
  1 <= w ->
  q = skipn (List.length pre - Z.to_nat w) pre ->
  exists s2 q2,
    (if w <? len (q ++ [x])
     then match q ++ [x] with
          | y :: q' => (fsub (fadd s x) y, q')
          | [] => (fadd s x, q ++ [x])
          end
     else (fadd s x, q ++ [x])) = (s2, q2) /\
    q2 = skipn (List.length (pre ++ [x]) - Z.to_nat w) (pre ++ [x]) /\
    ((len q2 =? w) = (w <=? len (pre ++ [x]))) /\
    ((forall y, In y (pre ++ [x]) -> whole y) ->
     (qsum (pre ++ [x]) <= inject_Z (2 ^ 53))%Q ->
     (s == qsum q)%Q -> (s2 == qsum q2)%Q).
Proof.
  intros w pre q s x Hw Hq.
  assert (Hlq : (List.length q = List.length pre - (List.length pre - Z.to_nat w))%nat)
    by (rewrite Hq; apply length_skipn).
  assert (Hadd : (forall y, In y (pre ++ [x]) -> whole y) ->
                 (qsum (pre ++ [x]) <= inject_Z (2 ^ 53))%Q ->
                 (s == qsum q)%Q ->
                 (fadd s x == qsum q + x)%Q).
  { intros Hwh Hb Hs.
    assert (Hpre : forall y, In y pre -> whole y)
      by (intros y Hy; apply Hwh, in_or_app; now left).
    assert (Hx : whole x) by (apply Hwh, in_or_app; right; now left).
    assert (Hqw : whole (qsum q)).
    { apply whole_qsum. intros y Hy. apply Hpre. rewrite Hq in Hy.
      eapply skipn_subset; exact Hy. }
    assert (Hle : (qsum q <= qsum pre)%Q).
    { rewrite Hq. apply qsum_skipn_le. intros y Hy. apply whole_nonneg, Hpre, Hy. }
    rewrite qsum_app, qsum_single in Hb.
    destruct (fadd_whole s x (whole_comp _ _ (Qeq_sym _ _ Hs) Hqw) Hx
                ltac:(rewrite Hs; lra)) as [E _].
    rewrite E, Hs. reflexivity. }
  rewrite length_app. cbn [List.length].
  destruct (le_lt_dec (Z.to_nat w) (List.length pre)) as [Hge|Hlt].
  - (* the queue is full: its head leaves *)
    destruct q as [|y q0]; [simpl in Hlq; lia|].
    replace (w <? len ((y :: q0) ++ [x])) with true.
    2:{ symmetry. apply Z.ltb_lt. unfold len. rewrite length_app. simpl in *. lia. }
    cbn [app]. exists (fsub (fadd s x) y), (q0 ++ [x]).
    split; [reflexivity|].
    assert (Hq0 : q0 = skipn (S (List.length pre - Z.to_nat w)) pre).
    { change (S (List.length pre - Z.to_nat w))
        with (1 + (List.length pre - Z.to_nat w))%nat.
      rewrite <- skipn_skipn, <- Hq. reflexivity. }
    assert (Hq2 : q0 ++ [x]
                  = skipn (List.length pre + 1 - Z.to_nat w) (pre ++ [x])).
    { rewrite skipn_app.
      replace (List.length pre + 1 - Z.to_nat w)%nat
        with (S (List.length pre - Z.to_nat w)) by lia.
      rewrite <- Hq0.
      replace (S (List.length pre - Z.to_nat w) - List.length pre)%nat
        with 0%nat by lia.
      reflexivity. }
    split; [exact Hq2|]. split.
    { unfold len. rewrite !length_app. simpl in *.
      destruct (w <=? Z.of_nat (List.length pre + 1)) eqn:E;
        [apply Z.eqb_eq | apply Z.leb_gt in E]; lia. }
    intros Hwh Hb Hs. pose proof (Hadd Hwh Hb Hs) as Ea.
    assert (Hq2w : whole (qsum (q0 ++ [x]))).
    { apply whole_qsum. intros z Hz. apply Hwh. rewrite Hq2 in Hz.
      eapply skipn_subset; exact Hz. }
    assert (Hq2le : (qsum (q0 ++ [x]) <= qsum (pre ++ [x]))%Q).
    { rewrite Hq2. apply qsum_skipn_le. intros z Hz. apply whole_nonneg, Hwh, Hz. }
    destruct Hq2w as (k & Hk & Ek).
    assert (Ediff : (fadd s x - y == inject_Z k)%Q).
    { rewrite Ea, <- Ek. rewrite qsum_app, qsum_single, qsum_cons. lra. }
    assert (Hk53 : k <= 2 ^ 53).
    { rewrite Zle_Qle. rewrite <- Ek. lra. }
    rewrite (fsub_whole _ _ k ltac:(lia) Ediff). rewrite Ediff, Ek. reflexivity.
  - (* the queue is still filling *)
    assert (Hqp : q = pre).
    { rewrite Hq. replace (List.length pre - Z.to_nat w)%nat with 0%nat by lia.
      reflexivity. }
    clear Hq Hlq. subst q.
    replace (w <? len (pre ++ [x])) with false.
    2:{ symmetry. apply Z.ltb_ge. unfold len. rewrite length_app. simpl. lia. }
    exists (fadd s x), (pre ++ [x]). split; [reflexivity|].
    split.
    { replace (List.length pre + 1 - Z.to_nat w)%nat with 0%nat by lia.
      reflexivity. }
    split.
    { unfold len. rewrite length_app. simpl.
      destruct (w <=? Z.of_nat (List.length pre + 1)) eqn:E;
        [apply Z.eqb_eq; apply Z.leb_le in E | apply Z.eqb_neq; apply Z.leb_gt in E];
        lia. }
    intros Hwh Hb Hs. rewrite (Hadd Hwh Hb Hs), qsum_app, qsum_single.
    reflexivity.
Qed.

(** The loop invariant of [sma], read at output position [j]. *)
Lemma sma_loop_spec : forall (w : Z) (rest pre q : list Q) (s : Q),
  1 <= w ->
  q = skipn (List.length pre - Z.to_nat w) pre ->
  forall j, (j < List.length rest)%nat ->
    let i := (List.length pre + j)%nat in
    if (S i <? Z.to_nat w)%nat
    then nth j (sma_loop w s q rest) None = None
    else exists m,
        nth j (sma_loop w s q rest) None = Some m /\
        ((forall y, In y (pre ++ rest) -> whole y) ->
         (qsum (pre ++ rest) <= inject_Z (2 ^ 53))%Q ->
         (s == qsum q)%Q ->
         m = round64
               (qsum (skipn (S i - Z.to_nat w) (firstn (S i) (pre ++ rest)))
                / float_of_int w)).
Proof.
  intros w rest. induction rest as [|x rest IH]; intros pre q s Hw Hq j Hj;
    [simpl in Hj; lia|].
  cbv zeta. cbn [sma_loop].
  destruct (sma_step w pre q s x Hw Hq) as (s2 & q2 & Hstep & Hq2 & Hfull & Hs2).
  rewrite Hstep.
  assert (Hsub : (forall y, In y (pre ++ x :: rest) -> whole y) ->
                 (qsum (pre ++ x :: rest) <= inject_Z (2 ^ 53))%Q ->
                 (forall y, In y (pre ++ [x]) -> whole y) /\
                 (qsum (pre ++ [x]) <= inject_Z (2 ^ 53))%Q).
  { intros Hwh Hb. split.
    - intros y Hy. apply Hwh. apply in_app_or in Hy. apply in_or_app.
      destruct Hy as [Hy|[<-|[]]]; [now left | right; now left].
    - assert (0 <= qsum rest)%Q.
      { apply qsum_nonneg. intros y Hy. apply whole_nonneg, Hwh, in_or_app.
        right. now right. }
      rewrite qsum_app, qsum_cons in Hb. rewrite qsum_app, qsum_single. lra. }
  destruct j as [|j].
  - cbn [nth]. rewrite Hfull. unfold len. rewrite length_app. cbn [List.length].
    rewrite Nat.add_0_r.
    destruct (S (List.length pre) <? Z.to_nat w)%nat eqn:E.
    + apply Nat.ltb_lt in E.
      replace (w <=? Z.of_nat (List.length pre + 1)) with false
        by (symmetry; apply Z.leb_gt; lia).
      reflexivity.
    + apply Nat.ltb_ge in E.
      replace (w <=? Z.of_nat (List.length pre + 1)) with true
        by (symmetry; apply Z.leb_le; lia).
      eexists. split; [reflexivity|].
      intros Hwh Hb Hs. destruct (Hsub Hwh Hb) as [Hwh' Hb'].
      assert (Hwin : firstn (S (List.length pre)) (pre ++ x :: rest) = pre ++ [x]).
      { rewrite firstn_app.
        replace (S (List.length pre) - List.length pre)%nat with 1%nat by lia.
        rewrite firstn_all2 by lia. reflexivity. }
      rewrite Hwin. apply round64_comp.
      rewrite (Hs2 Hwh' Hb' Hs), Hq2. rewrite length_app. cbn [List.length].
      replace (List.length pre + 1)%nat with (S (List.length pre)) by lia.
      reflexivity.
  - cbn [nth]. simpl in Hj.
    pose proof (IH (pre ++ [x]) q2 s2 Hw Hq2 j ltac:(lia)) as Hrec.
    cbv zeta in Hrec. rewrite length_app in Hrec. cbn [List.length] in Hrec.
    replace (List.length pre + 1 + j)%nat with (List.length pre + S j)%nat
      in Hrec by lia.
    rewrite <- app_assoc in Hrec. cbn [app] in Hrec.
    destruct (S (List.length pre + S j) <? Z.to_nat w)%nat; [exact Hrec|].
    destruct Hrec as (m & Hm & Hex). exists m. split; [exact Hm|].
    intros Hwh Hb Hs. destruct (Hsub Hwh Hb) as [Hwh' Hb'].
    apply (Hex Hwh Hb). apply (Hs2 Hwh' Hb' Hs).
Qed.

Lemma py_slice_window : forall (A : Type) (xs : list A) a b,
  0 <= a -> a <= b -> b <= len xs ->
  py_slice xs a b = skipn (Z.to_nat a) (firstn (Z.to_nat b) xs).
Proof.
  intros A xs a b Ha Hab Hb. unfold py_slice, py_slice_bound.
  destruct (a <? 0) eqn:Ea; [lia|]. destruct (b <? 0) eqn:Eb; [lia|].
  rewrite !Z.min_l by lia. reflexivity.
Qed.

(** What [sma] returns for a window of at least one bar: an undefined
    prefix, then numbers; over whole values of total at most [2^53] each
    number is the mean of its window, rounded once. *)
Lemma sma_spec : forall values window,
  1 <= window ->
  exists out,
    sma values window = Ok out /\ len out = len values /\
    forall i, 0 <= i < len values ->
      (i < window - 1 -> opt_at out i = None) /\
      (window - 1 <= i ->
       exists m, opt_at out i = Some m /\
         ((forall y, In y values -> whole y) ->
          (qsum values <= inject_Z (2 ^ 53))%Q ->
          m = round64 (qsum (window_ending values window i)
                       / float_of_int window))).
Proof.
  intros values window Hw. unfold sma.
  destruct (window <=? 0) eqn:E; [lia|].
  eexists. split; [reflexivity|]. split; [apply sma_loop_length|].
  intros i Hi.
  pose proof (sma_loop_spec window values [] [] 0%Q Hw eq_refl
                (Z.to_nat i) ltac:(unfold len in Hi; lia)) as H.
  cbv zeta in H. cbn [List.length app Nat.add] in H.
  unfold opt_at. split.
  - intros Hlt.
    replace (S (Z.to_nat i) <? Z.to_nat window)%nat with true in H
      by (symmetry; apply Nat.ltb_lt; lia).
    exact H.
  - intros Hge.
    replace (S (Z.to_nat i) <? Z.to_nat window)%nat with false in H
      by (symmetry; apply Nat.ltb_ge; lia).
    destruct H as (m & Hm & Hex). exists m. split; [exact Hm|].
    intros Hwh Hb.
    unfold window_ending. rewrite py_slice_window by lia.
    replace (Z.to_nat (i + 1 - window)) with (S (Z.to_nat i) - Z.to_nat window)%nat
      by lia.
    replace (Z.to_nat (i + 1)) with (S (Z.to_nat i)) by lia.
    apply (Hex Hwh Hb). reflexivity.
Qed.

(** X1. [sma] raises [ValueError] exactly when the window is not positive
    (also on an empty series).  Otherwise it returns a series as long as
    its input, undefined on the first [window - 1] bars and a number from
    bar [window - 1] on.  The number comes from a running float sum: over
    whole values of total at most [2^53], which no addition rounds, it is
    the mean of the [window] values ending at the bar, rounded once; in
    general it is not: after 0.1, 0.2, 0.3 the window of three zeros gets a
    positive value. *)
Theorem sma_is_window_mean :
  (forall values window,
     (window <= 0 /\ sma values window = Raise InvalidArgument) \/
     (1 <= window /\
      exists out,
        sma values window = Ok out /\ len out = len values /\
        forall i, 0 <= i < len values ->
          (i < window - 1 -> opt_at out i = None) /\
          (window - 1 <= i ->
           exists m, opt_at out i = Some m /\
             ((forall y, In y values -> whole y) ->
              (qsum values <= inject_Z (2 ^ 53))%Q ->
              m = round64 (qsum (window_ending values window i)
                           / float_of_int window))))) /\
  (exists out m,
     sma drift_values 3 = Ok out /\
     window_ending drift_values 3 5 = [0; 0; 0]%Q /\
     opt_at out 5 = Some m /\ (0 < m)%Q).
Proof.
  split.
  - intros values window.
    destruct (Z_le_gt_dec window 0) as [Hle|Hgt].
    + left. split; [exact Hle|]. unfold sma.
      replace (window <=? 0) with true by (symmetry; apply Z.leb_le; exact Hle).
      reflexivity.
    + right. split; [lia|]. apply sma_spec. lia.
  - eexists. eexists. split; [vm_compute; reflexivity|].
    split; [vm_compute; reflexivity|]. split; [vm_compute; reflexivity|].
    vm_compute. reflexivity.
Qed.

(** ** Average true range *)

Lemma true_ranges_nonneg : forall cs prev x,
  In x (true_ranges prev cs) -> (0 <= x)%Q.
Proof.
  induction cs as [|cd cs IH]; intros prev x H; [destruct H|].
  cbn [true_ranges] in H. destruct H as [<-|H]; [|now apply (IH (cd_c cd))].
  apply Qle_trans with (Qabs (cd_l cd - prev)); [apply Qabs_nonneg|].
  apply Q.le_max_r.
Qed.

Lemma true_ranges_nth : forall cs prev k,
  (k < List.length cs)%nat ->
  nth k (true_ranges prev cs) 0%Q
  = let cd := nth k cs candle0 in
    let prev_c := match k with
                  | O => prev
                  | S k' => cd_c (nth k' cs candle0)
                  end in
    Qmax (Qmax (cd_h cd - cd_l cd) (Qabs (cd_h cd - prev_c)))
         (Qabs (cd_l cd - prev_c)).
Proof.
  induction cs as [|cd cs IH]; intros prev k Hk; [simpl in Hk; lia|].
  cbn [true_ranges]. destruct k as [|k]; [reflexivity|].
  cbn [nth]. rewrite IH by (simpl in Hk; lia).
  destruct k; reflexivity.
Qed.

(** X2. [atr] is the moving average of the true ranges: a window that is
    not positive raises [ValueError], also on an empty candle list; for a
    positive window the series is as long as the candles, undefined on the
    first [window - 1] bars and a number from bar [window - 1] on, and it
    is what [sma] returns on the true ranges.  No true range is negative,
    whatever the candles (a low above the high included).  A value of the
    series can be negative all the same, through the running float sum of
    [sma]: on [spiky_candles], whose true ranges are 0, 0, 0.2, 0.5, 0, 0,
    the last value for a window of 2 is below zero. *)
Theorem atr_is_mean_true_range :
  (forall cs window,
     (window <= 0 -> atr cs window = Raise InvalidArgument) /\
     (1 <= window ->
      exists out trs,
        atr cs window = Ok out /\ sma trs window = Ok out /\
        len out = len cs /\ len trs = len cs /\
        (forall i, 0 <= i < len cs ->
           nth (Z.to_nat i) trs 0%Q = true_range_at cs i /\
           (0 <= true_range_at cs i)%Q /\
           (i < window - 1 -> opt_at out i = None) /\
           (window - 1 <= i -> exists m, opt_at out i = Some m)))) /\
  (exists out m,
     atr spiky_candles 2 = Ok out /\
     map (true_range_at spiky_candles) (range 0 6)
     = [0; 0; float_lit (2 # 10); float_lit (5 # 10); 0; 0]%Q /\
     opt_at out 5 = Some m /\ (m < 0)%Q).
Proof.
  split.
  - intros cs window. unfold atr.
    set (tr := true_ranges match cs with
                           | [] => 0%Q
                           | cd :: _ => cd_c cd
                           end cs).
    assert (Htr : forall x, In x tr -> (0 <= x)%Q)
      by (intros x Hx; apply (true_ranges_nonneg _ _ _ Hx)).
    assert (Hlen : len tr = len cs) by apply true_ranges_length.
    split.
    + intros Hle. unfold sma.
      replace (window <=? 0) with true by (symmetry; apply Z.leb_le; exact Hle).
      reflexivity.
    + intros Hw. destruct (sma_spec tr window Hw) as (out & Hout & Hl & Hspec).
      exists out, tr. split; [exact Hout|]. split; [exact Hout|].
      split; [lia|]. split; [exact Hlen|].
      intros i Hi.
      assert (Hat : nth (Z.to_nat i) tr 0%Q = true_range_at cs i).
      { unfold tr. rewrite true_ranges_nth by (unfold len in Hi; lia).
        unfold true_range_at, candle_at. cbv zeta.
        destruct (Z.to_nat i) as [|k] eqn:Ek.
        - replace (Z.max 0 (i - 1)) with 0 by lia.
          change (Z.to_nat 0) with 0%nat.
          destruct cs; reflexivity.
        - replace (Z.to_nat (Z.max 0 (i - 1))) with k by lia. reflexivity. }
      split; [exact Hat|]. split.
      { rewrite <- Hat. apply Htr. apply nth_In. unfold len in *. lia. }
      destruct (Hspec i ltac:(lia)) as [Hnone Hsome].
      split; [exact Hnone|]. intros Hge.
      destruct (Hsome Hge) as (m & Hm & _). exists m. exact Hm.
  - eexists. eexists. split; [vm_compute; reflexivity|].
    split; [vm_compute; reflexivity|]. split; [vm_compute; reflexivity|].
    vm_compute. reflexivity.
Qed.

(** ** Rolling standard deviation *)

Lemma mapM_nth_error : forall (A B : Type) (f : A -> result B) xs ys k x,
  mapM f xs = Ok ys -> nth_error xs k = Some x ->
  exists y, f x = Ok y /\ nth_error ys k = Some y.
Proof.
  intros A B f xs. induction xs as [|x0 xs IH]; intros ys k x H Hk.
  - destruct k; discriminate.
  - cbn [mapM] in H. destruct (f x0) as [y0|] eqn:E0; [|discriminate].
    cbn [bind] in H. destruct (mapM f xs) as [ys0|] eqn:E1; [|discriminate].
    cbn [bind] in H. injection H as <-.
    destruct k as [|k]; simpl in Hk.
    + injection Hk as <-. exists y0. split; [exact E0 | reflexivity].
    + destruct (IH ys0 k x eq_refl Hk) as (y & Hy & Hn). exists y. auto.
Qed.

Lemma range_nth_error : forall a b i,
  0 <= i < b - a -> nth_error (range a b) (Z.to_nat i) = Some (a + i).
Proof.
  intros a b i Hi. unfold range.
  rewrite nth_error_map, nth_error_seq.
  replace (Z.to_nat i <? Z.to_nat (b - a))%nat with true
    by (symmetry; apply Nat.ltb_lt; lia).
  simpl. f_equal. lia.
Qed.

(** What [rolling_std] returns for a window of at least one bar. *)
Lemma rolling_std_spec : forall fsqrt values window,
  1 <= window ->
  exists out,
    rolling_std fsqrt values window = Ok out /\ len out = len values /\
    forall i, 0 <= i < len values ->
      (i < window - 1 -> opt_at out i = None) /\
      (window - 1 <= i ->
       exists sd, pstdev fsqrt (window_ending values window i) = Ok sd /\
                  opt_at out i = Some sd).
Proof.
  intros fsqrt values window Hw.
  destruct (rolling_std_total fsqrt values window Hw) as (out & Hout & Hl).
  exists out. split; [exact Hout|]. split; [exact Hl|].
  intros i Hi. unfold rolling_std in Hout.
  destruct (mapM_nth_error _ _ _ _ _ (Z.to_nat i) (0 + i) Hout
              (range_nth_error 0 (len values) i ltac:(lia)))
    as (y & Hy & Hn).
  assert (Hat : opt_at out i = y).
  { unfold opt_at. now apply nth_error_nth. }
  replace (0 + i) with i in Hy by lia.
  split.
  - intros Hlt.
    replace (window <=? i + 1) with false in Hy
      by (symmetry; apply Z.leb_gt; lia).
    injection Hy as <-. exact Hat.
  - intros Hge.
    replace (window <=? i + 1) with true in Hy
      by (symmetry; apply Z.leb_le; lia).
    unfold window_ending.
    destruct (pstdev fsqrt (py_slice values (i + 1 - window) (i + 1)))
      as [sd|]; [|discriminate].
    cbn [bind] in Hy. injection Hy as <-. exists sd. auto.
Qed.

(** On a non-empty series a window that is not positive makes the first
    segment empty. *)
Lemma rolling_std_bad_window : forall fsqrt values window,
  values <> [] -> window <= 0 ->
  rolling_std fsqrt values window = Raise StatisticsError.
Proof.
  intros fsqrt values window Hne Hw. destruct values as [|v0 vs]; [congruence|].
  unfold rolling_std. pose proof (len_nonneg _ vs) as Hl.
  rewrite range_cons by (rewrite len_cons; lia). cbn [mapM].
  replace (window <=? 0 + 1) with true by (symmetry; apply Z.leb_le; lia).
  assert (Hs : py_slice (v0 :: vs) (0 + 1 - window) (0 + 1) = []).
  { unfold py_slice, py_slice_bound.
    destruct (0 + 1 - window <? 0) eqn:Ea; [lia|].
    replace (0 + 1 <? 0) with false by reflexivity.
    rewrite len_cons.
    replace (Z.to_nat (Z.min (0 + 1) (len vs + 1))) with 1%nat by lia.
    cbn [firstn].
    replace (Z.to_nat (Z.min (0 + 1 - window) (len vs + 1)))
      with (S (Z.to_nat (Z.min (0 + 1 - window) (len vs + 1)) - 1)) by lia.
    cbn [skipn]. apply skipn_nil. }
  rewrite Hs. reflexivity.
Qed.

(** X3. [rolling_std] returns the empty series on an empty input, whatever
    the window.  On a non-empty input a window that is not positive raises
    [StatisticsError] (the deviation of an empty segment), not the
    [ValueError] of [sma].  For a positive window the series is as long as
    its input, undefined on the first [window - 1] bars, and from bar
    [window - 1] on it is the population standard deviation of the [window]
    values ending at the bar. *)
Theorem rolling_std_windows : forall fsqrt values window,
  (values = [] -> rolling_std fsqrt values window = Ok []) /\
  (values <> [] -> window <= 0 ->
   rolling_std fsqrt values window = Raise StatisticsError) /\
  (1 <= window ->
   exists out,
     rolling_std fsqrt values window = Ok out /\ len out = len values /\
     forall i, 0 <= i < len values ->
       (i < window - 1 -> opt_at out i = None) /\
       (window - 1 <= i ->
        exists sd, pstdev fsqrt (window_ending values window i) = Ok sd /\
                   opt_at out i = Some sd)).
Proof.
  intros fsqrt values window. split; [|split].
  - intros ->. reflexivity.
  - apply rolling_std_bad_window.
  - apply rolling_std_spec.
Qed.

Lemma rolling_std_windows_witness :
  rolling_std sqrt_approx [1; 2; 3]%Q 0 = Raise StatisticsError /\
  exists out sd,
    rolling_std sqrt_approx [1; 2; 3]%Q 2 = Ok out /\ opt_at out 0 = None /\
    pstdev sqrt_approx [2; 3]%Q = Ok sd /\ opt_at out 2 = Some sd.
Proof.
  destruct (rolling_std_windows sqrt_approx [1; 2; 3]%Q 0) as (_ & Hbad & _).
  destruct (rolling_std_windows sqrt_approx [1; 2; 3]%Q 2) as (_ & _ & Hok).
  split; [apply Hbad; [discriminate | lia]|].
  destruct (Hok ltac:(lia)) as (out & Hout & _ & Hspec).
  destruct (Hspec 0 ltac:(unfold len; simpl; lia)) as [Hnone _].
  destruct (Hspec 2 ltac:(unfold len; simpl; lia)) as [_ Hsome].
  destruct (Hsome ltac:(lia)) as (sd & Hsd & Hat).
  exists out, sd. split; [exact Hout|]. split; [apply Hnone; lia|].
  split; [exact Hsd | exact Hat].
Defined.

(** ** Percentile *)

Lemma insert_asc_In : forall (x y : Q) xs,
  In y (insert_asc (fun v => v) x xs) <-> y = x \/ In y xs.
Proof.
  intros x y xs. induction xs as [|z xs IH]; simpl.
  - intuition.
  - destruct (Qle_bool x z); simpl; rewrite ?IH; intuition.
Qed.

Lemma sorted_asc_In : forall (y : Q) xs,
  In y (sorted_asc (fun v => v) xs) <-> In y xs.
Proof.
  intros y xs. induction xs as [|x xs IH]; simpl; [tauto|].
  rewrite insert_asc_In, IH. intuition.
Qed.

Lemma insert_asc_sorted : forall (x : Q) xs,
  StronglySorted Qle xs -> StronglySorted Qle (insert_asc (fun v => v) x xs).
Proof.
  intros x xs H. induction H as [|z xs Hs IH Hall]; simpl.
  - constructor; constructor.
  - rewrite Forall_forall in Hall.
    destruct (Qle_bool x z) eqn:E.
    + apply Qle_bool_iff in E. constructor.
      * constructor; [exact Hs | now apply Forall_forall].
      * apply Forall_forall. intros y [<-|Hy]; [exact E|].
        specialize (Hall y Hy). lra.
    + apply Qle_bool_false in E. constructor; [exact IH|].
      apply Forall_forall. intros y Hy. apply insert_asc_In in Hy.
      destruct Hy as [->|Hy]; [lra | now apply Hall].
Qed.

Lemma sorted_asc_sorted : forall xs : list Q,
  StronglySorted Qle (sorted_asc (fun v => v) xs).
Proof.
  induction xs as [|x xs IH]; simpl; [constructor|].
  now apply insert_asc_sorted.
Qed.

Lemma sorted_nth_le : forall xs : list Q,
  StronglySorted Qle xs ->
  forall i j, (i <= j)%nat -> (j < List.length xs)%nat ->
              (nth i xs 0 <= nth j xs 0)%Q.
Proof.
  intros xs H. induction H as [|x xs Hs IH Hall]; intros i j Hij Hj.
  - simpl in Hj. lia.
  - rewrite Forall_forall in Hall. simpl in Hj.
    destruct i as [|i], j as [|j]; cbn [nth]; try lia.
    + lra.
    + apply Hall. apply nth_In. lia.
    + apply IH; lia.
Qed.

(** X4. [percentile] of an empty list is not-a-number.  On a non-empty list,
    for [0 <= p <= 1], it returns a number that lies between two values of
    the list; it is the least value for [p = 0] and the greatest for
    [p = 1]. *)
Theorem percentile_within_values : forall values p,
  percentile [] p = Ok FNaN /\
  (values <> [] -> (0 <= p)%Q -> (p <= 1)%Q ->
   exists q,
     percentile values p = Ok (FVal q) /\
     (exists a b, In a values /\ In b values /\ (a <= q)%Q /\ (q <= b)%Q) /\
     ((p == 0)%Q -> forall x, In x values -> (q <= x)%Q) /\
     ((p == 1)%Q -> forall x, In x values -> (x <= q)%Q)).
Proof.
  intros values p. split; [reflexivity|]. intros Hne Hp0 Hp1.
  unfold percentile. destruct values as [|v0 vs]; [congruence|].
  set (xs := sorted_asc (fun x => x) (v0 :: vs)).
  assert (Hlen : 1 <= len xs).
  { unfold xs. rewrite sorted_asc_length, len_cons.
    pose proof (len_nonneg _ vs). lia. }
  assert (Hsorted : StronglySorted Qle xs) by apply sorted_asc_sorted.
  assert (Hin : forall y, In y xs <-> In y (v0 :: vs)) by (intros; apply sorted_asc_In).
  set (k := (inject_Z (len xs - 1) * p)%Q).
  assert (Hn0 : (0 <= inject_Z (len xs - 1))%Q).
  { change 0%Q with (inject_Z 0). rewrite <- Zle_Qle. lia. }
  assert (Hk0 : (0 <= k)%Q) by (unfold k; apply Qmult_le_0_compat; assumption).
  assert (Hk1 : (k <= inject_Z (len xs - 1))%Q).
  { assert (H1 : (p * inject_Z (len xs - 1) <= 1 * inject_Z (len xs - 1))%Q)
      by (apply Qmult_le_compat_r; assumption).
    unfold k. lra. }
  assert (Hf : 0 <= Qfloor k <= len xs - 1).
  { split.
    - apply Qfloor_resp_le in Hk0. exact Hk0.
    - apply Qfloor_resp_le in Hk1. now rewrite Qfloor_Z in Hk1. }
  assert (Hc : 0 <= Qceiling k <= len xs - 1).
  { split.
    - apply Qceiling_resp_le in Hk0. exact Hk0.
    - apply Qceiling_resp_le in Hk1. now rewrite Qceiling_Z in Hk1. }
  assert (Hfc : Qfloor k <= Qceiling k).
  { pose proof (Qfloor_le k). pose proof (Qle_ceiling k).
    rewrite Zle_Qle. lra. }
  assert (Hnth : forall i, 0 <= i <= len xs - 1 -> In (nth (Z.to_nat i) xs 0%Q) (v0 :: vs)).
  { intros i Hi. apply Hin. apply nth_In. unfold len in Hi. lia. }
  assert (Hmin : forall x, In x (v0 :: vs) -> (nth (Z.to_nat 0) xs 0 <= x)%Q).
  { intros x Hx. apply Hin in Hx.
    destruct (In_nth xs x 0%Q Hx) as (j & Hj & <-).
    apply sorted_nth_le; [exact Hsorted | simpl; lia | exact Hj]. }
  assert (Hmax : forall x, In x (v0 :: vs) ->
                           (x <= nth (Z.to_nat (len xs - 1)) xs 0)%Q).
  { intros x Hx. apply Hin in Hx.
    destruct (In_nth xs x 0%Q Hx) as (j & Hj & <-).
    apply sorted_nth_le; [exact Hsorted | unfold len; lia | unfold len in *; lia]. }
  assert (Hz0 : (p == 0)%Q -> Qfloor k = 0 /\ Qceiling k = 0).
  { intros Hp. assert (Hk : (k == inject_Z 0)%Q) by (unfold k; rewrite Hp; change (inject_Z 0) with 0%Q; ring).
    split; [rewrite (Qfloor_comp _ _ Hk); apply Qfloor_Z
           | rewrite (Qceiling_comp _ _ Hk); apply Qceiling_Z]. }
  assert (Hz1 : (p == 1)%Q -> Qfloor k = len xs - 1 /\ Qceiling k = len xs - 1).
  { intros Hp. assert (Hk : (k == inject_Z (len xs - 1))%Q) by (unfold k; rewrite Hp; ring).
    split; [rewrite (Qfloor_comp _ _ Hk); apply Qfloor_Z
           | rewrite (Qceiling_comp _ _ Hk); apply Qceiling_Z]. }
  destruct (Qfloor k =? Qceiling k) eqn:E.
  - rewrite py_int_floor by exact Hk0.
    rewrite (py_index_ok _ 0%Q) by lia. cbn [bind].
    eexists. split; [reflexivity|]. split; [|split].
    + exists (nth (Z.to_nat (Qfloor k)) xs 0%Q), (nth (Z.to_nat (Qfloor k)) xs 0%Q).
      split; [apply Hnth; lia|]. split; [apply Hnth; lia|]. split; lra.
    + intros Hp x Hx. destruct (Hz0 Hp) as [-> _]. now apply Hmin.
    + intros Hp x Hx. destruct (Hz1 Hp) as [-> _]. now apply Hmax.
  - apply Z.eqb_neq in E.
    rewrite (py_index_ok _ 0%Q) by lia. cbn [bind].
    rewrite (py_index_ok _ 0%Q) by lia. cbn [bind].
    eexists. split; [reflexivity|]. split; [|split].
    + set (xf := nth (Z.to_nat (Qfloor k)) xs 0%Q).
      set (xc := nth (Z.to_nat (Qceiling k)) xs 0%Q).
      exists xf, xc. split; [apply Hnth; lia|]. split; [apply Hnth; lia|].
      assert (Hxfc : (xf <= xc)%Q).
      { apply sorted_nth_le; [exact Hsorted | lia | unfold len in *; lia]. }
      pose proof (Qfloor_le k) as H1. pose proof (Qlt_floor k) as H2.
      rewrite inject_Z_plus in H2. change (inject_Z 1) with 1%Q in H2.
      assert (Ha : (0 <= (xc - xf) * (k - inject_Z (Qfloor k)))%Q)
        by (apply Qmult_le_0_compat; lra).
      assert (Hb : (0 <= (xc - xf) * (1 - (k - inject_Z (Qfloor k))))%Q)
        by (apply Qmult_le_0_compat; lra).
      split; lra.
    + intros Hp. destruct (Hz0 Hp). lia.
    + intros Hp. destruct (Hz1 Hp). lia.
Qed.

Lemma percentile_within_values_witness :
  exists q,
    percentile [3; 1; 2]%Q (1 # 2) = Ok (FVal q) /\
    (exists a b, In a [3; 1; 2]%Q /\ In b [3; 1; 2]%Q /\ (a <= q)%Q /\ (q <= b)%Q).
Proof.
  destruct (percentile_within_values [3; 1; 2]%Q (1 # 2)) as [_ H].
  destruct (H ltac:(discriminate) ltac:(lra) ltac:(lra)) as (q & Hq & Hab & _).
  exists q. split; [exact Hq | exact Hab].
Defined.

(** ** Clamp *)

(** X5. With bounds in order [clamp] returns a value of [[lo, hi]]: [x]
    itself when [x] is inside, [lo] when it is below, [hi] when it is above.
    With bounds out of order ([hi < lo]) it returns [lo], whatever [x]. *)
Theorem clamp_saturates : forall x lo hi,
  ((lo <= hi)%Q ->
   (lo <= clamp x lo hi)%Q /\ (clamp x lo hi <= hi)%Q /\
   ((lo <= x)%Q -> (x <= hi)%Q -> (clamp x lo hi == x)%Q) /\
   ((x <= lo)%Q -> (clamp x lo hi == lo)%Q) /\
   ((hi <= x)%Q -> (clamp x lo hi == hi)%Q)) /\
  ((hi < lo)%Q -> (clamp x lo hi == lo)%Q).
Proof.
  intros x lo hi. unfold clamp.
  destruct (Q.max_spec lo (Qmin hi x)) as [[H1 H2]|[H1 H2]];
    destruct (Q.min_spec hi x) as [[H3 H4]|[H3 H4]];
    rewrite H2; rewrite H4 in *;
    (split; [intros Hle; repeat split; intros; lra | intros Hlt; lra]).
Qed.

(** * Feature extraction *)

(** ** Swing indices *)

(** X6. For [left, right >= 0] the two index lists of [find_swings] are
    strictly increasing, hold at most [len - left - right] indices each,
    and are both empty on a series of [left + right] candles or fewer. *)
Theorem find_swings_indices_ascending : forall cs left right,
  0 <= left -> 0 <= right ->
  exists sw,
    find_swings cs left right = Ok sw /\
    StronglySorted Z.lt (highs sw) /\ StronglySorted Z.lt (lows sw) /\
    len (highs sw) <= Z.max 0 (len cs - left - right) /\
    len (lows sw) <= Z.max 0 (len cs - left - right) /\
    (len cs <= left + right -> highs sw = [] /\ lows sw = []).
Proof.
  intros cs left right Hl Hr.
  eexists. split; [apply find_swings_filter; assumption|]. cbn [highs lows].
  assert (Hlen : forall f : Z -> bool,
            len (filter f (range left (len cs - right)))
            <= Z.max 0 (len cs - left - right)).
  { intros f. pose proof (filter_length_le f (range left (len cs - right))) as H.
    pose proof (range_length left (len cs - right)) as Hr'.
    unfold len in *. lia. }
  split; [apply filter_sorted, range_sorted|].
  split; [apply filter_sorted, range_sorted|].
  split; [apply Hlen|]. split; [apply Hlen|].
  intros Hshort. rewrite range_empty by lia. split; reflexivity.
Qed.

Lemma find_swings_indices_ascending_witness :
  exists sw,
    find_swings peak_candles 2 2 = Ok sw /\
    StronglySorted Z.lt (highs sw) /\ StronglySorted Z.lt (lows sw).
Proof.
  destruct (find_swings_indices_ascending peak_candles 2 2 ltac:(lia) ltac:(lia))
    as (sw & H & Hh & Hlo & _).
  exists sw. auto.
Defined.

(** ** Anchored VWAP *)

Lemma firstn_snoc : forall (A : Type) (d : A) (xs : list A) k,
  (k < List.length xs)%nat -> firstn (S k) xs = firstn k xs ++ [nth k xs d].
Proof.
  intros A d xs. induction xs as [|x xs IH]; intros k H; simpl in H; [lia|].
  destruct k; simpl; [reflexivity|]. f_equal. apply IH. lia.
Qed.

Lemma py_slice_snoc : forall cs a j,
  0 <= a -> a <= j -> j < len cs ->
  py_slice cs a (j + 1) = py_slice cs a j ++ [candle_at cs j].
Proof.
  intros cs a j Ha Haj Hj. rewrite !py_slice_window by lia.
  replace (Z.to_nat (j + 1)) with (S (Z.to_nat j)) by lia.
  rewrite (firstn_snoc _ candle0) by (unfold len in *; lia).
  rewrite skipn_app, length_firstn.
  replace (Z.to_nat a - Nat.min (Z.to_nat j) (List.length cs))%nat with 0%nat
    by (unfold len in *; lia).
  reflexivity.
Qed.

Lemma py_slice_empty : forall (A : Type) (xs : list A) a,
  0 <= a -> py_slice xs a a = [].
Proof.
  intros A xs a Ha. unfold py_slice, py_slice_bound.
  destruct (a <? 0) eqn:E; [lia|].
  apply skipn_all2. rewrite length_firstn. lia.
Qed.

Lemma opt_at_set_same : forall (out : list (option Q)) j x,
  0 <= j < len out -> opt_at (list_set out (Z.to_nat j) x) j = x.
Proof. intros. unfold opt_at. apply list_set_nth_same. lia. Qed.

Lemma opt_at_set_other : forall (out : list (option Q)) i j x,
  0 <= i -> 0 <= j -> i <> j ->
  opt_at (list_set out (Z.to_nat j) x) i = opt_at out i.
Proof. intros. unfold opt_at. apply list_set_nth_other. lia. Qed.

(** The loop invariant of [anchored_vwap], from bar [j] on. *)
Lemma anchored_vwap_loop_spec : forall cs a,
  0 <= a ->
  forall j pv v out,
    a <= j -> len out = len cs ->
    (pv == qsum (map (fun cd => typical cd * cd_v cd)%Q (py_slice cs a j)))%Q ->
    (v == qsum (map cd_v (py_slice cs a j)))%Q ->
    (forall i, 0 <= i < len cs -> i < a \/ j <= i -> opt_at out i = None) ->
    (forall i, a <= i < j -> i < len cs -> vwap_entry cs a i (opt_at out i)) ->
    exists out',
      anchored_vwap_loop cs pv v out (range j (len cs)) = Ok out' /\
      len out' = len cs /\
      (forall i, 0 <= i < len cs -> i < a -> opt_at out' i = None) /\
      (forall i, a <= i < len cs -> vwap_entry cs a i (opt_at out' i)).
Proof.
  intros cs a Ha j. pattern j. apply (range_ind (len cs)); clear j.
  - intros j Hj pv v out Haj Hl Hpv Hv Hnone Hset.
    rewrite range_empty by lia. exists out. split; [reflexivity|].
    split; [exact Hl|]. split.
    + intros i Hi Hia. apply Hnone; auto.
    + intros i Hi. apply Hset; lia.
  - intros j Hj IH pv v out Haj Hl Hpv Hv Hnone Hset.
    rewrite range_cons by lia. cbn [anchored_vwap_loop].
    rewrite candle_index by lia. cbn [bind].
    set (cd := candle_at cs j).
    set (pv' := (pv + typical cd * cd_v cd)%Q).
    set (v' := (v + cd_v cd)%Q).
    assert (Hpv' : (pv' == qsum (map (fun cd => typical cd * cd_v cd)%Q
                                     (py_slice cs a (j + 1))))%Q).
    { rewrite py_slice_snoc by lia. rewrite map_app, qsum_app. cbn [map].
      rewrite qsum_single. unfold pv'. rewrite Hpv. reflexivity. }
    assert (Hv' : (v' == qsum (map cd_v (py_slice cs a (j + 1))))%Q).
    { rewrite py_slice_snoc by lia. rewrite map_app, qsum_app. cbn [map].
      rewrite qsum_single. unfold v'. rewrite Hv. reflexivity. }
    assert (Hx : exists x,
              (if Qltb 0 v' then q <- py_div pv' v' ;; Ok (Some q) else Ok None)
              = Ok x /\ vwap_entry cs a j x).
    { unfold vwap_entry, traded_volume, traded_value.
      destruct (Qltb 0 v') eqn:E.
      - apply Qltb_lt in E. unfold py_div.
        destruct (Qeq_bool v' 0) eqn:E0; [apply Qeq_bool_iff in E0; lra|].
        cbn [bind]. eexists. split; [reflexivity|]. split.
        + intros Hle. rewrite <- Hv' in Hle. lra.
        + intros _. eexists. split; [reflexivity|].
          rewrite Hpv', Hv'. reflexivity.
      - apply Qltb_ge in E. eexists. split; [reflexivity|]. split.
        + reflexivity.
        + intros Hlt. rewrite <- Hv' in Hlt. lra. }
    destruct Hx as (x & Hx & Hentry). rewrite Hx. cbn [bind].
    rewrite py_setitem_ok by lia. cbn [bind].
    apply IH.
    + lia.
    + now rewrite list_set_length.
    + exact Hpv'.
    + exact Hv'.
    + intros i Hi Hor. rewrite opt_at_set_other by lia. apply Hnone; lia.
    + intros i Hi Hn. destruct (Z.eq_dec i j) as [->|Hne].
      * rewrite opt_at_set_same by lia. exact Hentry.
      * rewrite opt_at_set_other by lia. apply Hset; lia.
Qed.

Lemma anchored_vwap_spec : forall cs a,
  0 <= a ->
  exists out,
    anchored_vwap cs a = Ok out /\ len out = len cs /\
    (forall i, 0 <= i < len cs -> i < a -> opt_at out i = None) /\
    (forall i, a <= i < len cs -> vwap_entry cs a i (opt_at out i)).
Proof.
  intros cs a Ha. unfold anchored_vwap.
  apply (anchored_vwap_loop_spec cs a Ha a).
  - lia.
  - unfold len. now rewrite repeat_length.
  - rewrite py_slice_empty by lia. reflexivity.
  - rewrite py_slice_empty by lia. reflexivity.
  - intros i Hi _. unfold opt_at. apply nth_repeat.
  - intros i Hi. lia.
Qed.



Lemma py_slice_In_index : forall cs a b cd,
  0 <= a -> a <= b -> b <= len cs ->
  In cd (py_slice cs a b) -> exists k, a <= k < b /\ cd = candle_at cs k.
Proof.
  intros cs a b cd Ha Hab Hb H. rewrite py_slice_window in H by lia.
  destruct (In_nth _ _ candle0 H) as (t & Ht & Hnth).
  rewrite length_skipn, length_firstn in Ht.
  rewrite nth_skipn, nth_firstn in Hnth.
  replace (Z.to_nat a + t <? Z.to_nat b)%nat with true in Hnth
    by (symmetry; apply Nat.ltb_lt; lia).
  exists (a + Z.of_nat t). split; [lia|].
  unfold candle_at. rewrite <- Hnth. f_equal. lia.
Qed.

(** ** Volume-at-price histogram: the bucket count *)

(** X9. The bucket count is not validated.  On candles whose typical
    prices are not all equal, [bins = 0] raises [ZeroDivisionError] (the
    bucket width) and [bins < 0] raises [IndexError] (the first candle is
    charged to bucket 0 of an empty histogram).  On candles whose typical
    prices are all equal the single bucket holding the sum of the volumes
    is returned whatever the bucket count, and the empty candle list gives
    the empty histogram. *)
Theorem volume_nodes_proxy_bucket_count : forall cs bins,
  volume_nodes_proxy [] bins = Ok [] /\
  (cs <> [] ->
   (forall cd1 cd2, In cd1 cs -> In cd2 cs -> (typical cd1 == typical cd2)%Q) ->
   exists lo hi, volume_nodes_proxy cs bins = Ok [(lo, hi, fsum (map cd_v cs))]) /\
  ((exists cd1 cd2, In cd1 cs /\ In cd2 cs /\ (typical cd1 < typical cd2)%Q) ->
   (bins = 0 -> volume_nodes_proxy cs bins = Raise ZeroDivisionError) /\
   (bins < 0 -> volume_nodes_proxy cs bins = Raise IndexError)).
Proof.
  intros cs bins. split; [reflexivity|].
  destruct cs as [|cd0 rest].
  { split; [congruence|]. intros (cd1 & _ & [] & _). }
  destruct (typical_bounds cd0 rest) as [[Hmin1 Hmin] [Hmax1 Hmax]].
  unfold volume_nodes_proxy. cbn [map]. cbv zeta.
  set (lo := qmin_list (typical cd0) (map typical rest)) in *.
  set (hi := qmax_list (typical cd0) (map typical rest)) in *.
  split.
  - intros _ Hflat.
    destruct Hmin1 as (c1 & Hc1 & E1). destruct Hmax1 as (c2 & Hc2 & E2).
    pose proof (Hflat c1 c2 Hc1 Hc2) as Heq.
    replace (Qle_bool hi lo) with true
      by (symmetry; apply Qle_bool_iff; lra).
    do 2 eexists. reflexivity.
  - intros (cd1 & cd2 & H1 & H2 & Hlt).
    pose proof (Hmin cd1 H1). pose proof (Hmax cd2 H2).
    replace (Qle_bool hi lo) with false
      by (symmetry; apply Qle_bool_false; lra).
    split.
    + intros ->. reflexivity.
    + intros Hneg.
      assert (Hbq : (float_of_int bins < 0)%Q).
      { apply round64_neg. change 0%Q with (inject_Z 0). rewrite <- Zlt_Qlt.
        exact Hneg. }
      assert (HD : (0 < fsub hi lo)%Q) by (apply round64_pos; lra).
      rewrite fdiv_ok by lra. cbn [bind].
      set (bs := round64 (fsub hi lo / float_of_int bins)).
      assert (Hbs : ~ (bs == 0)%Q).
      { intros Hz. apply round64_eq_0 in Hz.
        assert (Hm : (fsub hi lo / float_of_int bins * float_of_int bins
                      == fsub hi lo)%Q) by (field; lra).
        rewrite Hz in Hm. lra. }
      replace (Z.to_nat bins) with 0%nat by lia. cbn [repeat fill_bins].
      rewrite bucket_index_ok by exact Hbs. cbn [bind].
      unfold bucket_of.
      replace (Z.max 0 (Z.min (bins - 1)
                          (py_int (round64 (fsub (typical cd0) lo / bs)))))
        with 0 by lia.
      reflexivity.
Qed.

Lemma volume_nodes_proxy_bucket_count_witness :
  volume_nodes_proxy peak_candles 0 = Raise ZeroDivisionError /\
  volume_nodes_proxy peak_candles (-3) = Raise IndexError /\
  exists lo hi,
    volume_nodes_proxy (flat_candles 5) 0 = Ok [(lo, hi, fsum (map cd_v (flat_candles 5)))].
Proof.
  assert (Hex : exists cd1 cd2, In cd1 peak_candles /\ In cd2 peak_candles /\
                                (typical cd1 < typical cd2)%Q).
  { exists (candle_at peak_candles 0), (candle_at peak_candles 3).
    split; [vm_compute; auto|]. split; [vm_compute; auto 10|].
    vm_compute. reflexivity. }
  split; [|split].
  - destruct (volume_nodes_proxy_bucket_count peak_candles 0) as (_ & _ & H).
    apply (H Hex). reflexivity.
  - destruct (volume_nodes_proxy_bucket_count peak_candles (-3)) as (_ & _ & H).
    apply (H Hex). lia.
  - destruct (volume_nodes_proxy_bucket_count (flat_candles 5) 0) as (_ & H & _).
    apply H; [discriminate|].
    intros cd1 cd2 H1 H2. vm_compute in H1, H2.
    repeat (destruct H1 as [<-|H1]; [repeat (destruct H2 as [<-|H2]; [reflexivity|]); destruct H2|]).
    destruct H1.
Defined.

(** ** The heaviest buckets *)

Lemma insert_desc_perm : forall (A : Type) (key : A -> Q) x xs,
  Permutation (x :: xs) (insert_desc key x xs).
Proof.
  intros A key x xs. induction xs as [|y xs IH]; cbn [insert_desc].
  - apply Permutation_refl.
  - destruct (Qle_bool (key y) (key x)); [apply Permutation_refl|].
    eapply perm_trans; [apply perm_swap|]. now apply perm_skip.
Qed.

Lemma sorted_desc_perm : forall (A : Type) (key : A -> Q) xs,
  Permutation xs (sorted_desc key xs).
Proof.
  intros A key xs. induction xs as [|x xs IH]; cbn [sorted_desc fold_right].
  - apply perm_nil.
  - fold (sorted_desc key xs).
    eapply perm_trans; [apply perm_skip, IH | apply insert_desc_perm].
Qed.

Lemma sorted_app_dominates : forall (A : Type) (R : A -> A -> Prop) l1 l2,
  StronglySorted R (l1 ++ l2) ->
  StronglySorted R l1 /\ forall a b, In a l1 -> In b l2 -> R a b.
Proof.
  intros A R l1 l2. induction l1 as [|x l1 IH]; cbn [app]; intros H.
  - split; [constructor | intros a b []].
  - inversion H as [|? ? Hs Hall]; subst. destruct (IH Hs) as [I1 I2].
    rewrite Forall_forall in Hall. split.
    + constructor; [exact I1|]. apply Forall_forall. intros y Hy.
      apply Hall. apply in_or_app. now left.
    + intros a b [<-|Ha] Hb; [|now apply I2].
      apply Hall. apply in_or_app. now right.
Qed.

(** X10. [top_hvn nodes k] is a prefix of the buckets sorted by descending
    volume: with the buckets it leaves out it makes up the input, it is
    sorted by descending volume, and no bucket left out is heavier than a
    bucket kept.  It keeps [min(k, len)] buckets for [k >= 0], and all but
    the last [-k] for [k < 0]. *)
Theorem top_hvn_keeps_heaviest : forall nodes k,
  exists rest,
    Permutation nodes (top_hvn nodes k ++ rest) /\
    StronglySorted (key_ge node_vol) (top_hvn nodes k) /\
    (forall a b, In a (top_hvn nodes k) -> In b rest ->
                 (node_vol b <= node_vol a)%Q) /\
    len (top_hvn nodes k)
    = (if k <? 0 then Z.max 0 (k + len nodes) else Z.min k (len nodes)).
Proof.
  intros nodes k. unfold top_hvn, py_slice.
  set (sorted := sorted_desc node_vol nodes).
  set (m := Z.to_nat (py_slice_bound (len sorted) k)).
  replace (Z.to_nat (py_slice_bound (len sorted) 0)) with 0%nat
    by (unfold py_slice_bound; simpl; pose proof (len_nonneg _ sorted); lia).
  cbn [skipn].
  exists (skipn m sorted).
  pose proof (sorted_desc_sorted node_vol nodes) as Hs. fold sorted in Hs.
  rewrite <- (firstn_skipn m sorted) in Hs.
  destruct (sorted_app_dominates _ _ _ _ Hs) as [H1 H2].
  split.
  { rewrite firstn_skipn. apply sorted_desc_perm. }
  split; [exact H1|]. split; [exact H2|].
  unfold len at 1. rewrite length_firstn. unfold m, py_slice_bound.
  assert (Hl : len sorted = len nodes) by apply sorted_desc_length.
  pose proof (len_nonneg _ nodes).
  destruct (k <? 0) eqn:E; unfold len in *; lia.
Qed.

(** * The stages *)

(** ** Cost-basis stage: the anchors *)

Lemma insert_uniq_In_iff : forall x y xs,
  In y (insert_uniq x xs) <-> y = x \/ In y xs.
Proof.
  intros x y xs. induction xs as [|z xs IH]; simpl.
  - intuition.
  - destruct (x <? z) eqn:E1; [simpl; intuition|].
    destruct (x =? z) eqn:E2.
    + apply Z.eqb_eq in E2. subst z. simpl. intuition.
    + simpl. rewrite IH. intuition.
Qed.

Lemma insert_uniq_sorted : forall x xs,
  StronglySorted Z.lt xs -> StronglySorted Z.lt (insert_uniq x xs).
Proof.
  intros x xs H. induction H as [|z xs Hs IH Hall]; simpl.
  - constructor; constructor.
  - rewrite Forall_forall in Hall.
    destruct (x <? z) eqn:E1.
    + apply Z.ltb_lt in E1.
      constructor; [constructor; [exact Hs | now apply Forall_forall]|].
      apply Forall_forall. intros y [<-|Hy]; [exact E1|].
      specialize (Hall y Hy). lia.
    + destruct (x =? z) eqn:E2.
      * constructor; [exact Hs | now apply Forall_forall].
      * apply Z.ltb_ge in E1. apply Z.eqb_neq in E2.
        constructor; [exact IH|]. apply Forall_forall. intros y Hy.
        apply insert_uniq_In_iff in Hy.
        destruct Hy as [->|Hy]; [lia | now apply Hall].
Qed.

Lemma insert_uniq_length : forall x xs,
  len xs <= len (insert_uniq x xs) <= len xs + 1.
Proof.
  intros x xs. induction xs as [|z xs IH]; cbn [insert_uniq].
  - unfold len. simpl. lia.
  - destruct (x <? z); [rewrite !len_cons; lia|].
    destruct (x =? z); rewrite !len_cons; lia.
Qed.

Lemma sorted_set3 : forall a0 a1 a2,
  StronglySorted Z.lt (sorted_set [a0; a1; a2]) /\
  1 <= len (sorted_set [a0; a1; a2]) <= 3 /\
  forall y, In y (sorted_set [a0; a1; a2]) <-> y = a0 \/ y = a1 \/ y = a2.
Proof.
  intros a0 a1 a2. unfold sorted_set. cbn [fold_right]. split; [|split].
  - do 3 apply insert_uniq_sorted. constructor.
  - pose proof (insert_uniq_length a2 []) as H2.
    pose proof (insert_uniq_length a1 (insert_uniq a2 [])) as H1.
    pose proof (insert_uniq_length a0 (insert_uniq a1 (insert_uniq a2 []))) as H0.
    change (len (@nil Z)) with 0 in H2.
    assert (Hne : 1 <= len (insert_uniq a2 [])) by (cbn; unfold len; simpl; lia).
    lia.
  - intros y. rewrite !insert_uniq_In_iff. simpl. tauto.
Qed.

(** The choice of anchors: the first, the middle and the last swing low,
    without repeats and in ascending order; bar 0 and the middle bar when
    there is no swing low. *)
Lemma anchors_choice : forall (lws : list Z) n,
  1 <= n -> (forall i, In i lws -> 0 <= i < n) ->
  exists anchs,
    match lws with
    | [] => Ok [0; n / 2]
    | _ :: _ =>
      a0 <- py_index lws 0 ;;
      a1 <- py_index lws (len lws / 2) ;;
      a2 <- py_index lws (-1) ;;
      Ok (sorted_set [a0; a1; a2])
    end = Ok anchs /\
    1 <= len anchs <= 3 /\
    (forall a, In a anchs -> 0 <= a < n) /\
    (lws = [] -> anchs = [0; n / 2]) /\
    (lws <> [] ->
     StronglySorted Z.lt anchs /\
     forall a, In a anchs <->
               a = nth 0 lws 0 \/
               a = nth (Z.to_nat (len lws / 2)) lws 0 \/
               a = nth (Z.to_nat (len lws - 1)) lws 0).
Proof.
  intros lws n Hn Hin. destruct lws as [|l0 ls].
  - eexists. split; [reflexivity|]. split; [unfold len; simpl; lia|]. split.
    + intros a [<-|[<-|[]]]; [lia|].
      split; [apply Z.div_pos; lia | apply Z.div_lt_upper_bound; lia].
    + split; [reflexivity | congruence].
  - set (lws := l0 :: ls) in *.
    assert (Hlen : 1 <= len lws)
      by (unfold lws; rewrite len_cons; pose proof (len_nonneg _ ls); lia).
    assert (Hmid : 0 <= len lws / 2 < len lws)
      by (split; [apply Z.div_pos; lia | apply Z.div_lt_upper_bound; lia]).
    rewrite (py_index_ok _ 0 lws 0) by lia. cbn [bind].
    rewrite (py_index_ok _ 0 lws (len lws / 2)) by exact Hmid. cbn [bind].
    rewrite (py_index_last _ 0 lws) by discriminate. cbn [bind].
    change (Z.to_nat 0) with 0%nat.
    set (a0 := nth 0 lws 0).
    set (a1 := nth (Z.to_nat (len lws / 2)) lws 0).
    set (a2 := nth (Z.to_nat (len lws - 1)) lws 0).
    destruct (sorted_set3 a0 a1 a2) as (Hs & Hl & Hiff).
    eexists. split; [reflexivity|]. split; [exact Hl|]. split.
    + intros a Ha. apply Hiff in Ha. apply Hin.
      destruct Ha as [->|[->| ->]]; apply nth_In; unfold len in *; lia.
    + split; [discriminate|]. intros _. split; [exact Hs | exact Hiff].
Qed.

Lemma zdict_set_In : forall (V : Type) (d : list (Z * V)) key x k v,
  In (k, v) (zdict_set d key x) -> In (k, v) d \/ (k = key /\ v = x).
Proof.
  intros V d key x k v. induction d as [|[k0 y] d IH]; cbn [zdict_set].
  - intros [H|[]]. injection H as <- <-. auto.
  - destruct (k0 =? key) eqn:E.
    + apply Z.eqb_eq in E. intros [H|H].
      * injection H as <- <-. auto.
      * left. now right.
    + intros [H|H]; [left; now left|].
      destruct (IH H) as [H'|H']; [left; now right | now right].
Qed.

Lemma zdict_set_fresh : forall (V : Type) (d : list (Z * V)) key x,
  ~ In key (map fst d) -> zdict_set d key x = d ++ [(key, x)].
Proof.
  intros V d key x. induction d as [|[k0 y] d IH]; cbn [zdict_set map fst app];
    intros H; [reflexivity|].
  destruct (k0 =? key) eqn:E.
  - apply Z.eqb_eq in E. exfalso. apply H. now left.
  - rewrite IH; [reflexivity|]. intros Hin. apply H. now right.
Qed.

(** Every series stored by the loop over the anchors is the anchored VWAP
    of its key. *)
Lemma avwaps_loop_entries : forall cs anchs acc avs,
  avwaps_loop cs acc anchs = Ok avs ->
  forall a av, In (a, av) avs ->
    In (a, av) acc \/ (In a anchs /\ anchored_vwap cs a = Ok av).
Proof.
  intros cs anchs. induction anchs as [|a0 anchs IH]; intros acc avs H a av Hin.
  - injection H as <-. now left.
  - cbn [avwaps_loop] in H.
    destruct (anchored_vwap cs a0) as [av0|] eqn:E; [|discriminate].
    cbn [bind] in H.
    destruct (IH _ _ H a av Hin) as [Hacc|[Ha Hav]].
    + apply zdict_set_In in Hacc. destruct Hacc as [Hacc|[-> ->]].
      * now left.
      * right. split; [now left | exact E].
    + right. split; [now right | exact Hav].
Qed.

(** With anchors that do not repeat, the series are stored in the order of
    the anchors. *)
Lemma avwaps_loop_keys : forall cs anchs acc avs,
  NoDup (map fst acc ++ anchs) ->
  avwaps_loop cs acc anchs = Ok avs ->
  map fst avs = map fst acc ++ anchs.
Proof.
  intros cs anchs. induction anchs as [|a0 anchs IH]; intros acc avs Hnd H.
  - injection H as <-. now rewrite app_nil_r.
  - cbn [avwaps_loop] in H.
    destruct (anchored_vwap cs a0) as [av0|] eqn:E; [|discriminate].
    cbn [bind] in H.
    assert (Hfresh : ~ In a0 (map fst acc)).
    { apply NoDup_remove_2 in Hnd. intros Hin. apply Hnd.
      apply in_or_app. now left. }
    rewrite zdict_set_fresh in H by exact Hfresh.
    apply IH in H.
    + rewrite H, map_app. cbn [map fst]. now rewrite <- app_assoc.
    + rewrite map_app. cbn [map fst]. now rewrite <- app_assoc.
Qed.

Lemma sorted_lt_NoDup : forall xs, StronglySorted Z.lt xs -> NoDup xs.
Proof.
  intros xs H. induction H as [|x xs Hs IH Hall]; constructor; [|exact IH].
  rewrite Forall_forall in Hall. intros Hin. specialize (Hall x Hin). lia.
Qed.

(** X11. On a non-empty series the cost-basis stage returns.  It works from
    the swings of the Structure trace, or from its own detection when the
    trace holds none.  Its anchors are one to three valid bar indices: the
    first, the middle and the last swing low, without repeats and in
    ascending order, or bars 0 and [len / 2] when there is no swing low.
    Every stored series is the anchored VWAP of its anchor over the whole
    series, and there is one series per anchor, in the order of the
    anchors (on a single candle with no swing low the anchors are [0, 0],
    which share one series). *)
Theorem cost_basis_anchors_are_valid : forall ctx sw,
  1 <= len (ctx_candles ctx) ->
  cost_basis_swings ctx sw ->
  (forall i, In i (lows sw) -> 0 <= i < len (ctx_candles ctx)) ->
  exists res co,
    CostBasisAgent_run ctx = Ok res /\
    ar_output res = OCostBasis co /\
    1 <= len (anchors co) <= 3 /\
    (forall a, In a (anchors co) -> 0 <= a < len (ctx_candles ctx)) /\
    (lows sw = [] -> anchors co = [0; len (ctx_candles ctx) / 2]) /\
    (lows sw <> [] ->
     StronglySorted Z.lt (anchors co) /\
     forall a, In a (anchors co) <->
               a = nth 0 (lows sw) 0 \/
               a = nth (Z.to_nat (len (lows sw) / 2)) (lows sw) 0 \/
               a = nth (Z.to_nat (len (lows sw) - 1)) (lows sw) 0) /\
    (forall a av, In (a, av) (avwaps co) ->
       In a (anchors co) /\ anchored_vwap (ctx_candles ctx) a = Ok av /\
       len av = len (ctx_candles ctx)) /\
    (lows sw <> [] \/ 2 <= len (ctx_candles ctx) ->
     map fst (avwaps co) = anchors co).
Proof.
  intros ctx sw Hn Hsw Hlows. unfold CostBasisAgent_run.
  assert (Hpick : match traced_swings (ctx_traces ctx) with
                  | Some sw0 => Ok sw0
                  | None => find_swings (ctx_candles ctx) 3 3
                  end = Ok sw).
  { destruct Hsw as [->|[-> Hf]]; [reflexivity | exact Hf]. }
  rewrite Hpick. cbn [bind].
  destruct (anchors_choice (lows sw) (len (ctx_candles ctx)) Hn Hlows)
    as (anchs & Han & Hl & Hrange & Hnil & Hcons).
  rewrite Han. cbn [bind].
  destruct (avwaps_loop_total (ctx_candles ctx) anchs [])
    as [avs Havs]; [intros a Ha; apply Hrange in Ha; lia|].
  rewrite Havs. cbn [bind].
  do 2 eexists. split; [reflexivity|]. split; [reflexivity|].
  cbn [anchors avwaps].
  split; [exact Hl|]. split; [exact Hrange|]. split; [exact Hnil|].
  split; [exact Hcons|]. split.
  - intros a av Hin.
    destruct (avwaps_loop_entries _ _ _ _ Havs a av Hin) as [[]|[Ha Hav]].
    split; [exact Ha|]. split; [exact Hav|].
    destruct (anchored_vwap_spec (ctx_candles ctx) a
                ltac:(apply Hrange in Ha; lia)) as (out & Hout & Hlen & _).
    rewrite Hav in Hout. injection Hout as <-. exact Hlen.
  - intros Hor. apply (avwaps_loop_keys (ctx_candles ctx) anchs [] avs); [|exact Havs].
    cbn [map app]. destruct (lows sw) as [|l0 ls] eqn:El.
    + destruct Hor as [Hne|Hn2]; [congruence|].
      rewrite (Hnil eq_refl).
      assert (0 < len (ctx_candles ctx) / 2) by (apply Z.div_str_pos; lia).
      constructor; [intros [Heq|[]]; lia|]. constructor; [intros []|constructor].
    + apply sorted_lt_NoDup. apply Hcons. discriminate.
Qed.

Lemma cost_basis_anchors_are_valid_witness :
  exists res co,
    CostBasisAgent_run (mkGenesisContext "XAGUSD" "4H" peak_candles [] []) = Ok res /\
    ar_output res = OCostBasis co /\
    anchors co = [0; 3] /\ map fst (avwaps co) = [0; 3].
Proof.
  set (ctx := mkGenesisContext "XAGUSD" "4H" peak_candles [] []).
  destruct (cost_basis_anchors_are_valid ctx (mkSwings [3] []))
    as (res & co & Hres & Hco & _ & _ & Hnil & _ & _ & Hkeys).
  - vm_compute. discriminate.
  - right. split; vm_compute; reflexivity.
  - intros i [].
  - exists res, co. split; [exact Hres|]. split; [exact Hco|].
    assert (Ha : anchors co = [0; 3]) by (apply Hnil; reflexivity).
    split; [exact Ha|]. rewrite <- Ha. apply Hkeys. right.
    vm_compute. discriminate.
Defined.

(** ** Regime stage: the compression mask *)

Lemma nth_map_range : forall (B : Type) (g : Z -> B) n i d,
  0 <= i < n -> nth (Z.to_nat i) (map g (range 0 n)) d = g i.
Proof.
  intros B g n i d Hi. apply nth_error_nth.
  rewrite nth_error_map, (range_nth_error 0 n i) by lia.
  simpl. now replace (0 + i) with i by lia.
Qed.

Lemma threshold_is_number : forall vals,
  exists q, (if nonempty vals then percentile vals (30 # 100)
             else Ok (FVal 0)) = Ok (FVal q).
Proof.
  intros vals. destruct vals as [|x vals]; [eexists; reflexivity|].
  apply percentile_total; [discriminate | lra | lra].
Qed.

(** X12. The regime stage checks no window.  On a non-empty series a
    [vol_window] that is not positive raises [StatisticsError]; otherwise an
    [atr_window] that is not positive raises [ValueError].  With both
    windows positive the stage returns a mask as long as the series and two
    numeric thresholds; a bar is compressed exactly when its rolling
    deviation and its ATR are both defined and at or below their
    thresholds, so no bar of the first [max(vol_window, atr_window) - 1] is
    compressed. *)
Theorem regime_compression_mask : forall fsqrt ctx,
  let cs := ctx_candles ctx in
  let vw := get_param (ctx_params ctx) "vol_window" 20 in
  let aw := get_param (ctx_params ctx) "atr_window" 14 in
  (cs <> [] -> vw <= 0 -> RegimeAgent_run fsqrt ctx = Raise StatisticsError) /\
  (cs = [] \/ 1 <= vw -> aw <= 0 ->
   RegimeAgent_run fsqrt ctx = Raise InvalidArgument) /\
  (1 <= vw -> 1 <= aw ->
   exists res ro rstd atrv sp ap,
     RegimeAgent_run fsqrt ctx = Ok res /\ ar_output res = ORegime ro /\
     rolling_std fsqrt (map cd_c cs) vw = Ok rstd /\ atr cs aw = Ok atrv /\
     std_p30 ro = FVal sp /\ atr_p30 ro = FVal ap /\
     len (compression_mask ro) = len cs /\
     forall i, 0 <= i < len cs ->
       (mask_at (compression_mask ro) i = true <->
        exists rv av, opt_at rstd i = Some rv /\ opt_at atrv i = Some av /\
                      (rv <= sp)%Q /\ (av <= ap)%Q) /\
       (i < Z.max vw aw - 1 -> mask_at (compression_mask ro) i = false)).
Proof.
  intros fsqrt ctx cs vw aw. unfold RegimeAgent_run. fold cs vw aw.
  split; [|split].
  - intros Hne Hv.
    rewrite rolling_std_bad_window; [reflexivity | | exact Hv].
    destruct cs; [congruence | discriminate].
  - intros Hor Ha.
    assert (Hr : exists rstd, rolling_std fsqrt (map cd_c cs) vw = Ok rstd).
    { destruct Hor as [->|Hv]; [eexists; reflexivity|].
      destruct (rolling_std_total fsqrt (map cd_c cs) vw Hv) as (rstd & H & _).
      now exists rstd. }
    destruct Hr as [rstd ->]. cbn [bind]. unfold atr, sma.
    replace (aw <=? 0) with true by (symmetry; apply Z.leb_le; exact Ha).
    reflexivity.
  - intros Hv Ha.
    destruct (rolling_std_spec fsqrt (map cd_c cs) vw Hv) as (rstd & Hr & Hrl & Hrs).
    rewrite len_map in Hrl, Hrs.
    assert (Hat : exists atrv,
              atr cs aw = Ok atrv /\ len atrv = len cs /\
              forall i, 0 <= i < len cs -> i < aw - 1 -> opt_at atrv i = None).
    { unfold atr.
      destruct (sma_spec (true_ranges match cs with
                                      | [] => 0%Q
                                      | cd :: _ => cd_c cd
                                      end cs) aw Ha) as (atrv & H & Hl & Hs).
      rewrite true_ranges_length in Hl, Hs.
      exists atrv. split; [exact H|]. split; [exact Hl|].
      intros i Hi Hlt. now apply (Hs i Hi). }
    destruct Hat as (atrv & Hat & Hal & Hats).
    rewrite Hr, Hat. cbn [bind].
    destruct (threshold_is_number (not_none rstd)) as [sp Hsp].
    destruct (threshold_is_number (not_none atrv)) as [ap Hap].
    rewrite Hsp, Hap. cbn [bind].
    set (g := fun i =>
                match opt_at rstd i with
                | None => false
                | Some rv => match opt_at atrv i with
                             | None => false
                             | Some av => Qle_bool rv sp && Qle_bool av ap
                             end
                end).
    rewrite (mapM_pure _ _ _ g).
    2:{ intros i Hi. apply range_In in Hi. rewrite len_map in Hi.
        unfold compression_at, g, opt_at.
        rewrite (py_index_ok _ None) by lia. cbn [bind].
        destruct (nth (Z.to_nat i) rstd None); [|reflexivity].
        rewrite (py_index_ok _ None) by lia. cbn [bind].
        destruct (nth (Z.to_nat i) atrv None); reflexivity. }
    cbn [bind]. rewrite len_map.
    exists (mkAgentResult "internal.regime"
              (ORegime (mkRegimeOut (map g (range 0 (len cs))) (FVal sp) (FVal ap)))
              (6 # 10) [NStdP30 (FVal sp); NAtrP30 (FVal ap)] []).
    eexists. exists rstd, atrv, sp, ap.
    split; [reflexivity|]. split; [reflexivity|]. split; [reflexivity|].
    split; [reflexivity|]. split; [reflexivity|]. split; [reflexivity|].
    cbn [compression_mask]. split.
    { unfold len at 1. rewrite length_map. fold (len (range 0 (len cs))).
      rewrite range_length. pose proof (len_nonneg _ cs). lia. }
    intros i Hi. unfold mask_at. rewrite nth_map_range by exact Hi.
    split.
    + unfold g. split.
      * destruct (opt_at rstd i) as [rv|]; [|discriminate].
        destruct (opt_at atrv i) as [av|]; [|discriminate].
        intros H. apply andb_true_iff in H. destruct H as [H1 H2].
        apply Qle_bool_iff in H1, H2. exists rv, av. auto.
      * intros (rv & av & -> & -> & H1 & H2).
        apply andb_true_iff. split; now apply Qle_bool_iff.
    + intros Hlt. unfold g.
      destruct (Z_lt_ge_dec i (vw - 1)) as [Hl|Hg].
      * destruct (Hrs i Hi) as [Hnone _]. now rewrite (Hnone Hl).
      * destruct (opt_at rstd i); [|reflexivity].
        rewrite (Hats i Hi) by lia. reflexivity.
Qed.

Lemma regime_compression_mask_witness :
  RegimeAgent_run sqrt_approx
    (mkGenesisContext "XAGUSD" "4H" peak_candles [("vol_window"%string, 0)] [])
  = Raise StatisticsError /\
  exists res ro,
    RegimeAgent_run sqrt_approx
      (mkGenesisContext "XAGUSD" "4H" peak_candles
         [("vol_window"%string, 3); ("atr_window"%string, 2)] []) = Ok res /\
    ar_output res = ORegime ro /\
    mask_at (compression_mask ro) 1 = false.
Proof.
  split.
  - destruct (regime_compression_mask sqrt_approx
                (mkGenesisContext "XAGUSD" "4H" peak_candles
                   [("vol_window"%string, 0)] [])) as (H & _).
    apply H; [discriminate | vm_compute; discriminate].
  - destruct (regime_compression_mask sqrt_approx
                (mkGenesisContext "XAGUSD" "4H" peak_candles
                   [("vol_window"%string, 3); ("atr_window"%string, 2)] []))
      as (_ & _ & H).
    destruct (H ltac:(vm_compute; discriminate) ltac:(vm_compute; discriminate))
      as (res & ro & rstd & atrv & sp & ap & Hres & Hro & _ & _ & _ & _ & _ & Hmask).
    exists res, ro. split; [exact Hres|]. split; [exact Hro|].
    apply (Hmask 1); vm_compute; [split; [discriminate | reflexivity] | reflexivity].
Defined.

(** ** Accumulation and distribution flags *)

(** X13. The flag stage raises [ValueError] when [range_window] or
    [vol_sma_window] is not positive (also on an empty series).  With both
    positive it returns two flag lists as long as the series.  Bar [i] is
    flagged as distribution exactly when both moving averages are defined at
    [i], [i > 0], the close is above the previous close, the volume is
    above its average and the range is below its average; absorption is the
    same with the close below the previous close.  So no bar carries both
    flags, and bar 0 and the first [max(range_window, vol_sma_window) - 1]
    bars carry none. *)
Theorem accum_dist_flags_are_exclusive : forall ctx,
  let cs := ctx_candles ctx in
  let rw := get_param (ctx_params ctx) "range_window" 14 in
  let vw := get_param (ctx_params ctx) "vol_sma_window" 14 in
  (rw <= 0 \/ vw <= 0 -> AccumDistAgent_run ctx = Raise InvalidArgument) /\
  (1 <= rw -> 1 <= vw ->
   exists res ao r_sma v_sma,
     AccumDistAgent_run ctx = Ok res /\ ar_output res = OAccumDist ao /\
     sma (map (fun cd => cd_h cd - cd_l cd)%Q cs) rw = Ok r_sma /\
     sma (map cd_v cs) vw = Ok v_sma /\
     len (distribution_flags ao) = len cs /\
     len (absorption_flags ao) = len cs /\
     forall i, 0 <= i < len cs ->
       (mask_at (distribution_flags ao) i = true <->
        exists rs vs, opt_at r_sma i = Some rs /\ opt_at v_sma i = Some vs /\
                      0 < i /\ (close_of cs (i - 1) < close_of cs i)%Q /\
                      (vs < volume_of cs i)%Q /\ (range_of cs i < rs)%Q) /\
       (mask_at (absorption_flags ao) i = true <->
        exists rs vs, opt_at r_sma i = Some rs /\ opt_at v_sma i = Some vs /\
                      0 < i /\ (close_of cs i < close_of cs (i - 1))%Q /\
                      (vs < volume_of cs i)%Q /\ (range_of cs i < rs)%Q) /\
       (mask_at (distribution_flags ao) i = true ->
        mask_at (absorption_flags ao) i = false) /\
       (i < Z.max 1 (Z.max rw vw - 1) ->
        mask_at (distribution_flags ao) i = false /\
        mask_at (absorption_flags ao) i = false)).
Proof.
  intros ctx cs rw vw. unfold AccumDistAgent_run. fold cs rw vw.
  split.
  - intros Hor. unfold sma at 1.
    destruct (rw <=? 0) eqn:E; [reflexivity|]. cbn [bind].
    unfold sma. replace (vw <=? 0) with true; [reflexivity|].
    symmetry. apply Z.leb_le. apply Z.leb_gt in E. lia.
  - intros Hr Hv.
    destruct (sma_spec (map (fun cd => cd_h cd - cd_l cd)%Q cs) rw Hr)
      as (r_sma & H1 & L1 & S1).
    destruct (sma_spec (map cd_v cs) vw Hv) as (v_sma & H2 & L2 & S2).
    rewrite len_map in L1, S1, L2, S2.
    rewrite H1, H2. cbn [bind].
    set (g := fun i =>
                match opt_at r_sma i with
                | None => (false, false)
                | Some rs =>
                  match opt_at v_sma i with
                  | None => (false, false)
                  | Some vs =>
                    if 0 <? i
                    then (Qltb (close_of cs (i - 1)) (close_of cs i)
                          && Qltb vs (volume_of cs i) && Qltb (range_of cs i) rs,
                          Qltb (close_of cs i) (close_of cs (i - 1))
                          && Qltb vs (volume_of cs i) && Qltb (range_of cs i) rs)
                    else (false, false)
                  end
                end).
    rewrite (mapM_pure _ _ _ g).
    2:{ intros i Hi. apply range_In in Hi.
        unfold accum_dist_at, g, opt_at.
        rewrite (py_index_ok _ None) by lia. cbn [bind].
        destruct (nth (Z.to_nat i) r_sma None); [|reflexivity].
        rewrite (py_index_ok _ None) by lia. cbn [bind].
        destruct (nth (Z.to_nat i) v_sma None); [|reflexivity].
        destruct (0 <? i) eqn:E; [|reflexivity]. apply Z.ltb_lt in E.
        rewrite (candle_index _ i) by lia. cbn [bind].
        rewrite (candle_index _ (i - 1)) by lia. cbn [bind].
        rewrite (py_index_ok _ (cd_v candle0)) by (rewrite len_map; lia).
        cbn [bind].
        rewrite (py_index_ok _ (cd_h candle0 - cd_l candle0)%Q)
          by (rewrite len_map; lia).
        cbn [bind].
        rewrite (map_nth cd_v cs candle0).
        rewrite (map_nth (fun cd => (cd_h cd - cd_l cd)%Q) cs candle0).
        reflexivity. }
    cbn [bind].
    do 2 eexists. exists r_sma, v_sma.
    split; [reflexivity|]. split; [reflexivity|]. split; [reflexivity|].
    split; [reflexivity|]. cbn [distribution_flags absorption_flags].
    assert (Hlen : forall (B : Type) (f : bool * bool -> B),
              len (map f (map g (range 0 (len cs)))) = len cs).
    { intros B f. rewrite !len_map, range_length.
      pose proof (len_nonneg _ cs). lia. }
    split; [apply Hlen|]. split; [apply Hlen|].
    intros i Hi. unfold mask_at.
    rewrite !map_map.
    rewrite (nth_map_range _ (fun x => fst (g x))) by exact Hi.
    rewrite (nth_map_range _ (fun x => snd (g x))) by exact Hi.
    assert (Hd : fst (g i) = true <->
                 exists rs vs, opt_at r_sma i = Some rs /\ opt_at v_sma i = Some vs /\
                   0 < i /\ (close_of cs (i - 1) < close_of cs i)%Q /\
                   (vs < volume_of cs i)%Q /\ (range_of cs i < rs)%Q).
    { unfold g. split.
      - destruct (opt_at r_sma i) as [rs|]; [|discriminate].
        destruct (opt_at v_sma i) as [vs|]; [|discriminate].
        destruct (0 <? i) eqn:E; [|discriminate]. apply Z.ltb_lt in E.
        cbn [fst]. rewrite !andb_true_iff, !Qltb_lt.
        intros [[A B] C]. exists rs, vs. auto 10.
      - intros (rs & vs & -> & -> & Hpos & A & B & C).
        replace (0 <? i) with true by (symmetry; now apply Z.ltb_lt).
        cbn [fst]. rewrite !andb_true_iff, !Qltb_lt. auto. }
    assert (Ha : snd (g i) = true <->
                 exists rs vs, opt_at r_sma i = Some rs /\ opt_at v_sma i = Some vs /\
                   0 < i /\ (close_of cs i < close_of cs (i - 1))%Q /\
                   (vs < volume_of cs i)%Q /\ (range_of cs i < rs)%Q).
    { unfold g. split.
      - destruct (opt_at r_sma i) as [rs|]; [|discriminate].
        destruct (opt_at v_sma i) as [vs|]; [|discriminate].
        destruct (0 <? i) eqn:E; [|discriminate]. apply Z.ltb_lt in E.
        cbn [snd]. rewrite !andb_true_iff, !Qltb_lt.
        intros [[A B] C]. exists rs, vs. auto 10.
      - intros (rs & vs & -> & -> & Hpos & A & B & C).
        replace (0 <? i) with true by (symmetry; now apply Z.ltb_lt).
        cbn [snd]. rewrite !andb_true_iff, !Qltb_lt. auto. }
    split; [exact Hd|]. split; [exact Ha|]. split.
    + intros Ht. apply Hd in Ht. destruct Ht as (_ & _ & _ & _ & _ & Hup & _).
      apply not_true_is_false. intros Es.
      apply Ha in Es. destruct Es as (_ & _ & _ & _ & _ & Hdown & _). lra.
    + intros Hlt.
      assert (Hno : forall b, b = true ->
                (exists rs vs, opt_at r_sma i = Some rs /\ opt_at v_sma i = Some vs /\
                               0 < i /\ b = true) -> False).
      { intros b _ (rs & vs & Hrs & Hvs & Hpos & _).
        destruct (S1 i Hi) as [N1 _]. destruct (S2 i Hi) as [N2 _].
        destruct (Z_lt_ge_dec i (rw - 1)) as [Hl|Hg];
          [rewrite (N1 Hl) in Hrs; discriminate|].
        destruct (Z_lt_ge_dec i (vw - 1)) as [Hl|Hg'];
          [rewrite (N2 Hl) in Hvs; discriminate|].
        lia. }
      split.
      * apply not_true_is_false. intros E.
        apply Hd in E. destruct E as (rs & vs & A & B & C & _).
        apply (Hno true eq_refl). exists rs, vs. auto.
      * apply not_true_is_false. intros E.
        apply Ha in E. destruct E as (rs & vs & A & B & C & _).
        apply (Hno true eq_refl). exists rs, vs. auto.
Qed.

Lemma accum_dist_flags_are_exclusive_witness :
  exists res ao,
    AccumDistAgent_run
      (mkGenesisContext "XAGUSD" "4H" two_breakout_candles
         [("range_window"%string, 2); ("vol_sma_window"%string, 2)] []) = Ok res /\
    ar_output res = OAccumDist ao /\
    len (distribution_flags ao) = 9 /\
    (mask_at (distribution_flags ao) 4 = true ->
     mask_at (absorption_flags ao) 4 = false).
Proof.
  destruct (accum_dist_flags_are_exclusive
              (mkGenesisContext "XAGUSD" "4H" two_breakout_candles
                 [("range_window"%string, 2); ("vol_sma_window"%string, 2)] []))
    as [_ H].
  destruct (H ltac:(vm_compute; discriminate) ltac:(vm_compute; discriminate))
    as (res & ao & r_sma & v_sma & Hres & Hao & _ & _ & Hl & _ & Hflags).
  exists res, ao. split; [exact Hres|]. split; [exact Hao|].
  split; [exact Hl|].
  apply (Hflags 4). vm_compute. split; [discriminate | reflexivity].
Defined.

(** ** Verifier stage *)

(** X14. The verifier never raises.  It counts three checks (a Structure
    trace with a base end, a Volume trace with a non-empty HVN list, a
    cost-basis trace with a non-empty anchor list), reports one evidence
    note per check passed, and its confidence is the count over three: it
    is 1 exactly when the three checks pass, and 0 on a context without
    traces. *)
Theorem verifier_counts_three_checks : forall ctx,
  exists res vo,
    VerifierAgent_run ctx = Ok res /\ ar_output res = OVerifier vo /\
    checks_need vo = 3 /\ 0 <= checks_ok vo <= 3 /\
    checks_ok vo
    = Z.b2z (has_base_end (ctx_traces ctx)) + Z.b2z (has_hvn (ctx_traces ctx))
      + Z.b2z (has_anchors (ctx_traces ctx)) /\
    len (ar_evidence res) = checks_ok vo /\
    (ar_confidence res == inject_Z (checks_ok vo) / 3)%Q /\
    ((ar_confidence res == 1)%Q <->
     has_base_end (ctx_traces ctx) = true /\ has_hvn (ctx_traces ctx) = true /\
     has_anchors (ctx_traces ctx) = true) /\
    (ctx_traces ctx = [] -> (ar_confidence res == 0)%Q /\ ar_evidence res = []).
Proof.
  intros ctx. unfold VerifierAgent_run. cbv zeta.
  do 2 eexists. split; [reflexivity|]. split; [reflexivity|].
  cbn [checks_need checks_ok ar_evidence ar_confidence].
  split; [reflexivity|].
  destruct (has_base_end (ctx_traces ctx)) eqn:E1;
    destruct (has_hvn (ctx_traces ctx)) eqn:E2;
    destruct (has_anchors (ctx_traces ctx)) eqn:E3;
    cbn [fst snd app Z.b2z];
    (split; [lia|]); (split; [reflexivity|]); (split; [reflexivity|]);
    (split; [reflexivity|]);
    (split;
     [split; [intros H; try (vm_compute in H; discriminate); auto
             | intros (A & B & C); try discriminate; reflexivity]
     | intros Hnil; unfold has_base_end, has_hvn, has_anchors in E1, E2, E3;
       rewrite Hnil in E1, E2, E3; cbn [dict_get] in E1, E2, E3;
       try discriminate; split; reflexivity]).
Qed.

(** X30 (StructureAgent.run): on a non-empty series, with non-negative swing
    parameters, the Structure stage returns with confidence 0.65 and two
    evidence notes, and its boundaries split the whole series at one bar of
    it: the base starts at bar 0, the impulse starts at the base end and
    ends at the last bar, and the base end is an index of the series.  Every
    detected swing index is an index of the series as well. *)
Theorem structure_boundaries_split_series : forall ctx,
  0 <= get_param (ctx_params ctx) "swing_left" 3 ->
  0 <= get_param (ctx_params ctx) "swing_right" 3 ->
  1 <= len (ctx_candles ctx) ->
  exists res so,
    StructureAgent_run ctx = Ok res /\
    ar_output res = OStructure so /\
    (ar_confidence res == 65 # 100)%Q /\
    ar_evidence res
    = [NSwingCounts (len (highs (swings so))) (len (lows (swings so)));
       NBaseEnd (base_end_idx so)] /\
    ar_warnings res = [] /\
    base_start_idx so = 0 /\
    impulse_start_idx so = base_end_idx so /\
    impulse_end_idx so = len (ctx_candles ctx) - 1 /\
    base_start_idx so <= base_end_idx so <= impulse_end_idx so /\
    (forall i, In i (highs (swings so)) \/ In i (lows (swings so)) ->
               0 <= i < len (ctx_candles ctx)).
Proof.
  intros ctx Hl Hr Hn. unfold StructureAgent_run. cbv zeta.
  destruct (find_swings_total (ctx_candles ctx) _ _ Hl Hr) as [sw Hsw].
  destruct (find_swings_sorted _ _ _ sw Hl Hr Hsw) as (Hsh & _ & Hh & Hlo).
  rewrite Hsw. cbn [bind].
  destruct (structure_base_end_spec (ctx_candles ctx) sw Hsh Hh)
    as [be [Hbe Hspec]].
  rewrite Hbe. cbn [bind].
  pose proof (base_end_bounds _ _ _ Hh Hn Hspec) as Hb.
  do 2 eexists. split; [reflexivity|]. split; [reflexivity|].
  cbn [ar_confidence ar_evidence ar_warnings swings base_end_idx
       base_start_idx impulse_start_idx impulse_end_idx].
  split; [reflexivity|]. split; [reflexivity|]. split; [reflexivity|].
  split; [reflexivity|]. split; [reflexivity|]. split; [reflexivity|].
  split; [lia|].
  intros i [Hi|Hi]; [apply Hh | apply Hlo]; exact Hi.
Qed.

Lemma structure_boundaries_split_series_witness :
  exists res so,
    StructureAgent_run
      (mkGenesisContext "XAGUSD" "4H" two_breakout_candles
                        narrow_swing_params [])
    = Ok res /\
    ar_output res = OStructure so /\
    base_start_idx so = 0 /\ base_end_idx so = 7 /\
    impulse_start_idx so = 7 /\ impulse_end_idx so = 8.
Proof.
  destruct (structure_boundaries_split_series
              (mkGenesisContext "XAGUSD" "4H" two_breakout_candles
                                narrow_swing_params [])
              ltac:(simpl; lia) ltac:(simpl; lia)
              ltac:(vm_compute; discriminate))
    as (res & so & H1 & H2 & _ & _ & _ & H3 & H4 & H5 & _).
  exists res, so. split; [exact H1|]. split; [exact H2|].
  split; [exact H3|].
  vm_compute in H1. injection H1 as <-. cbn in H2. injection H2 as <-.
  repeat split; reflexivity.
Defined.

(** * The layer resolver *)

(** ** Segments *)

(** X15. [_segment_by_indices] clips its bounds to the series instead of
    wrapping or raising: it returns the candles whose index lies in
    [[max(0, i0), min(len - 1, i1)]], in order, and the empty list when that
    interval is empty. *)
Theorem segment_by_indices_clips : forall cs i0 i1,
  let a := Z.max 0 i0 in
  let b := Z.min (len cs - 1) i1 in
  len (_segment_by_indices cs i0 i1) = Z.max 0 (b - a + 1) /\
  (forall k, 0 <= k < b - a + 1 ->
     nth (Z.to_nat k) (_segment_by_indices cs i0 i1) candle0
     = candle_at cs (a + k)) /\
  (forall cd, In cd (_segment_by_indices cs i0 i1) <->
              exists k, a <= k <= b /\ cd = candle_at cs k).
Proof.
  intros cs i0 i1 a b. unfold _segment_by_indices. fold a b.
  destruct (b <? a) eqn:E.
  - apply Z.ltb_lt in E. split; [unfold len; simpl; lia|]. split.
    + intros k Hk. lia.
    + intros cd. split; [intros [] | intros (k & Hk & _); lia].
  - apply Z.ltb_ge in E.
    assert (Ha : 0 <= a) by (unfold a; lia).
    assert (Hb : b + 1 <= len cs) by (unfold b; lia).
    assert (Hlen : len (py_slice cs a (b + 1)) = b - a + 1)
      by (rewrite py_slice_length by lia; lia).
    assert (Hnth : forall k, 0 <= k < b - a + 1 ->
              nth (Z.to_nat k) (py_slice cs a (b + 1)) candle0
              = candle_at cs (a + k)).
    { intros k Hk. rewrite py_slice_window by lia.
      rewrite nth_skipn, nth_firstn.
      replace (Z.to_nat a + Z.to_nat k <? Z.to_nat (b + 1))%nat with true
        by (symmetry; apply Nat.ltb_lt; lia).
      unfold candle_at. f_equal. lia. }
    split; [lia|]. split; [exact Hnth|].
    intros cd. split.
    + intros Hin.
      destruct (py_slice_In_index cs a (b + 1) cd Ha ltac:(lia) Hb Hin)
        as (k & Hk & ->).
      exists k. split; [lia | reflexivity].
    + intros (k & Hk & ->).
      replace (candle_at cs k)
        with (nth (Z.to_nat (k - a)) (py_slice cs a (b + 1)) candle0)
        by (rewrite Hnth by lia; f_equal; lia).
      apply nth_In. unfold len in Hlen. lia.
Qed.

(** ** Price bands *)

(** The band of a non-empty segment, as the code computes it. *)
Lemma band_from_zone_cons : forall cs z w cd0 rest,
  _segment_by_indices cs (fst z) (snd z) = cd0 :: rest ->
  let lo := qmin_list (cd_l cd0) (map cd_l rest) in
  let hi := qmax_list (cd_h cd0) (map cd_h rest) in
  exists cb,
    _weighted_centroid_price (cd0 :: rest) = Ok cb /\
    band_from_zone cs z w
    = Ok (FVal (if Qltb 0 w then lo - (hi - lo) * w else lo)%Q,
          FVal (if Qltb 0 w then hi + (hi - lo) * w else hi)%Q,
          cb, [NZone (fst z) (snd z); centroid_note cb]).
Proof.
  intros cs z w cd0 rest Hseg lo hi. unfold band_from_zone. rewrite Hseg.
  destruct (weighted_centroid_total (cd0 :: rest)) as [cb Hcb].
  exists cb. split; [exact Hcb|]. rewrite Hcb. reflexivity.
Qed.

Lemma segment_price_bounds : forall cd0 rest,
  let lo := qmin_list (cd_l cd0) (map cd_l rest) in
  let hi := qmax_list (cd_h cd0) (map cd_h rest) in
  (forall cd, In cd (cd0 :: rest) -> (lo <= cd_l cd)%Q /\ (cd_h cd <= hi)%Q) /\
  (exists cd, In cd (cd0 :: rest) /\ (cd_l cd == lo)%Q) /\
  (exists cd, In cd (cd0 :: rest) /\ (cd_h cd == hi)%Q).
Proof.
  intros cd0 rest lo hi.
  destruct (qmin_list_spec (map cd_l rest) (cd_l cd0)) as (A1 & A2 & A3).
  destruct (qmax_list_spec (map cd_h rest) (cd_h cd0)) as (B1 & B2 & B3).
  fold lo in A1, A2, A3. fold hi in B1, B2, B3.
  split; [|split].
  - intros cd [<-|Hcd]; [split; assumption|].
    split; [apply A2 | apply B2]; now apply in_map.
  - destruct A3 as [A3|(y & Hy & A3)].
    + exists cd0. split; [now left | lra].
    + apply in_map_iff in Hy. destruct Hy as (cd & <- & Hcd).
      exists cd. split; [now right | lra].
  - destruct B3 as [B3|(y & Hy & B3)].
    + exists cd0. split; [now left | lra].
    + apply in_map_iff in Hy. destruct Hy as (cd & <- & Hcd).
      exists cd. split; [now right | lra].
Qed.

(** X16. The band of an empty zone is the not-a-number sentinel with no
    cost basis.  On a zone whose candles have [low <= high], with a widen
    factor that is not negative, the band contains the low and the high of
    every candle of the zone; with no widening its bounds are the lowest
    low and the highest high. *)
Theorem band_contains_zone_prices : forall cs z w b,
  (0 <= w)%Q ->
  (forall cd, In cd (_segment_by_indices cs (fst z) (snd z)) ->
              (cd_l cd <= cd_h cd)%Q) ->
  band_from_zone cs z w = Ok b ->
  (_segment_by_indices cs (fst z) (snd z) = [] /\
   b = (FNaN, FNaN, None, [NEmptyZone])) \/
  (exists lo hi cb ev,
     b = (FVal lo, FVal hi, cb, ev) /\
     (forall cd, In cd (_segment_by_indices cs (fst z) (snd z)) ->
                 (lo <= cd_l cd)%Q /\ (cd_h cd <= hi)%Q) /\
     ((w == 0)%Q ->
      (exists cd, In cd (_segment_by_indices cs (fst z) (snd z)) /\
                  (cd_l cd == lo)%Q) /\
      (exists cd, In cd (_segment_by_indices cs (fst z) (snd z)) /\
                  (cd_h cd == hi)%Q))).
Proof.
  intros cs z w b Hw Hwf Hb.
  destruct (_segment_by_indices cs (fst z) (snd z)) as [|cd0 rest] eqn:Hseg.
  - left. split; [reflexivity|]. unfold band_from_zone in Hb.
    rewrite Hseg in Hb. now injection Hb as <-.
  - right. destruct (band_from_zone_cons cs z w cd0 rest Hseg) as (cb & _ & Hband).
    cbv zeta in Hband. rewrite Hband in Hb. injection Hb as <-.
    destruct (segment_price_bounds cd0 rest) as (Hall & Hmin & Hmax).
    cbv zeta in Hall, Hmin, Hmax.
    set (lo := qmin_list (cd_l cd0) (map cd_l rest)) in *.
    set (hi := qmax_list (cd_h cd0) (map cd_h rest)) in *.
    assert (Hspan : (0 <= (hi - lo) * w)%Q).
    { apply Qmult_le_0_compat; [|exact Hw].
      destruct (Hall cd0 (or_introl eq_refl)) as [H1 H2].
      pose proof (Hwf cd0 (or_introl eq_refl)). lra. }
    do 4 eexists. split; [reflexivity|]. split.
    + intros cd Hcd. destruct (Hall cd Hcd) as [H1 H2].
      destruct (Qltb 0 w); lra.
    + intros Hz. destruct (Qltb 0 w) eqn:E; [apply Qltb_lt in E; lra|].
      split; [exact Hmin | exact Hmax].
Qed.

Lemma band_contains_zone_prices_witness :
  exists lo hi cb ev,
    band_from_zone two_breakout_candles (2, 4) (5 # 100) = Ok (FVal lo, FVal hi, cb, ev) /\
    (lo <= 20)%Q /\ (100 <= hi)%Q.
Proof.
  destruct (band_from_zone two_breakout_candles (2, 4) (5 # 100)) as [b|] eqn:Hb;
    [|vm_compute in Hb; discriminate].
  destruct (band_contains_zone_prices two_breakout_candles (2, 4) (5 # 100) b
              ltac:(lra)) as [[He _]|(lo & hi & cb & ev & -> & Hall & _)].
  - intros cd Hcd. vm_compute in Hcd.
    destruct Hcd as [<-|[<-|[<-|[]]]]; vm_compute; discriminate.
  - exact Hb.
  - vm_compute in He. discriminate.
  - exists lo, hi, cb, ev. split; [reflexivity|].
    split.
    + apply (Hall (candle_at two_breakout_candles 3)). vm_compute. auto.
    + apply (Hall (candle_at two_breakout_candles 2)). vm_compute. auto.
Defined.

(** ** The state of a zone *)

Lemma count_flags_spec : forall flags idxs k0,
  (forall i, In i idxs -> 0 <= i < len flags) ->
  foldM (fun k i => b <- py_index flags i ;; Ok (if b : bool then k + 1 else k))
        idxs k0
  = Ok (k0 + len (filter (mask_at flags) idxs)).
Proof.
  intros flags idxs. induction idxs as [|i idxs IH]; intros k0 H.
  - cbn. f_equal. unfold len. simpl. lia.
  - cbn [foldM filter].
    rewrite (py_index_ok _ false) by (apply H; now left). cbn [bind].
    fold (mask_at flags i).
    rewrite IH by (intros j Hj; apply H; now right).
    destruct (mask_at flags i); [rewrite len_cons|]; f_equal; lia.
Qed.

Lemma rate_above_tenth : forall d t,
  1 <= t -> (Qltb (10 # 100) (inject_Z d / inject_Z t) = true <-> t < 10 * d).
Proof.
  intros d t Ht. rewrite Qltb_lt.
  destruct t as [|p|p]; try lia.
  unfold Qlt, Qdiv, Qmult, Qinv, inject_Z. cbn [Qnum Qden].
  rewrite ?Pos2Z.inj_mul. lia.
Qed.

Lemma rate_above_rate : forall a d t,
  1 <= t ->
  (Qltb (inject_Z a / inject_Z t) (inject_Z d / inject_Z t) = true <-> a < d).
Proof.
  intros a d t Ht. rewrite Qltb_lt.
  destruct t as [|p|p]; try lia.
  unfold Qlt, Qdiv, Qmult, Qinv, inject_Z. cbn [Qnum Qden].
  rewrite ?Pos2Z.inj_mul. nia.
Qed.

(** X18. On a zone inside the flag lists, the state is [distributing] when
    more than a tenth of the zone's bars carry a distribution flag and they
    outnumber the absorption flags, [accumulating] in the symmetric case,
    and [holding] otherwise (ties and empty or inverted zones included); it
    is never [broken] or [unknown].  The state confidence lies in
    [[0.55, 0.85]] and is 0.55 for [holding]. *)
Theorem state_for_zone_majority : forall dflags aflags z,
  0 <= fst z -> snd z < len dflags -> snd z < len aflags ->
  let d := flags_in_zone dflags z in
  let a := flags_in_zone aflags z in
  let total := Z.max 1 (snd z - fst z + 1) in
  exists st conf ev,
    state_for_zone dflags aflags z = Ok (st, conf, ev) /\
    (st = distributing <-> total < 10 * d /\ a < d) /\
    (st = accumulating <-> total < 10 * a /\ d < a) /\
    (st = distributing \/ st = accumulating \/ st = holding) /\
    (55 # 100 <= conf)%Q /\ (conf <= 85 # 100)%Q /\
    (st = holding -> conf = 55 # 100).
Proof.
  intros dflags aflags z H0 Hd Ha d a total. unfold state_for_zone, count_flags.
  rewrite (count_flags_spec dflags)
    by (intros i Hi; apply range_In in Hi; lia).
  rewrite (count_flags_spec aflags)
    by (intros i Hi; apply range_In in Hi; lia).
  cbn [bind]. cbv zeta.
  change (0 + len (filter (mask_at dflags) (range (fst z) (snd z + 1)))) with (0 + d).
  change (0 + len (filter (mask_at aflags) (range (fst z) (snd z + 1)))) with (0 + a).
  rewrite !Z.add_0_l. fold total.
  assert (Ht : 1 <= total) by (unfold total; lia).
  pose proof (rate_above_tenth d total Ht) as Dt.
  pose proof (rate_above_tenth a total Ht) as At.
  pose proof (rate_above_rate a d total Ht) as Dr.
  pose proof (rate_above_rate d a total Ht) as Ar.
  destruct (Qltb (10 # 100) (inject_Z d / inject_Z total)) eqn:E1;
    destruct (Qltb (inject_Z a / inject_Z total) (inject_Z d / inject_Z total)) eqn:E2;
    cbn [andb].
  1:{ do 3 eexists. split; [reflexivity|].
      assert (Hda : total < 10 * d /\ a < d)
        by (split; [now apply Dt | now apply Dr]).
      split; [tauto|]. split; [split; [discriminate | lia]|].
      split; [auto|].
      destruct (clamp_bounds ((55 # 100) + inject_Z d / inject_Z total)
                  (55 # 100) (85 # 100) ltac:(lra)).
      split; [assumption|]. split; [assumption | discriminate]. }
  all: assert (Hnd : ~ (total < 10 * d /\ a < d))
         by (intros [X Y]; try (apply Dt in X; discriminate);
             try (apply Dr in Y; discriminate)).
  all: destruct (Qltb (10 # 100) (inject_Z a / inject_Z total)) eqn:E3;
         destruct (Qltb (inject_Z d / inject_Z total) (inject_Z a / inject_Z total)) eqn:E4;
         cbn [andb].
  all: try (assert (Hna : ~ (total < 10 * a /\ d < a))
              by (intros [X Y]; try (apply At in X; discriminate);
                  try (apply Ar in Y; discriminate));
            do 3 eexists; (split; [reflexivity|]);
            (split; [split; [discriminate | tauto]|]);
            (split; [split; [discriminate | tauto]|]);
            (split; [auto|]); (split; [lra|]); (split; [lra | reflexivity])).
  all: do 3 eexists; (split; [reflexivity|]);
       assert (Had : total < 10 * a /\ d < a)
         by (split; [now apply At | now apply Ar]);
       (split; [split; [discriminate | tauto]|]);
       (split; [tauto|]); (split; [auto|]);
       destruct (clamp_bounds ((55 # 100) + inject_Z a / inject_Z total)
                   (55 # 100) (85 # 100) ltac:(lra));
       (split; [assumption|]); (split; [assumption | discriminate]).
Qed.

Lemma state_for_zone_majority_witness :
  exists conf ev,
    state_for_zone [false; true; true; false] [false; false; false; true] (0, 3)
    = Ok (distributing, conf, ev).
Proof.
  destruct (state_for_zone_majority
              [false; true; true; false] [false; false; false; true] (0, 3)
              ltac:(simpl; lia) ltac:(vm_compute; reflexivity)
              ltac:(vm_compute; reflexivity))
    as (st & conf & ev & Hs & Hd & _).
  assert (Hst : st = distributing)
    by (apply Hd; vm_compute; split; reflexivity).
  subst st. exists conf, ev. exact Hs.
Defined.

(** ** The finished layers *)

Lemma state_for_zone_states : forall dflags aflags z st conf ev,
  state_for_zone dflags aflags z = Ok (st, conf, ev) ->
  st = distributing \/ st = accumulating \/ st = holding.
Proof.
  intros dflags aflags z st conf ev H. unfold state_for_zone in H.
  inv_bind H. inv_bind H. cbv zeta in H.
  destruct (_ && _) in H; [injection H as <- _ _; auto|].
  destruct (_ && _) in H; injection H as <- _ _; auto.
Qed.

Lemma entry_window_timestamps : forall cs mask z s e conf ev,
  entry_window cs mask z = Ok (s, e, conf, ev) ->
  exists c0 c1, In c0 cs /\ In c1 cs /\ s = cd_ts c0 /\ e = cd_ts c1.
Proof.
  intros cs mask z s e conf ev H. unfold entry_window in H.
  inv_bind H. destruct a as [[s0 e0] ln]. destruct s0 as [s0|].
  - inv_bind H. inv_bind H. inv_bind H. injection H as <- <- _ _.
    apply py_index_In in E0, E2. exists a, a1. auto.
  - inv_bind H. inv_bind H. injection H as <- <- _ _.
    apply py_index_In in E0, E1. exists a, a0. auto.
Qed.

(** The window and the state of a finished layer are those computed on
    its zone. *)
Lemma resolved_layer_parts : forall ctx lys lb,
  resolve_layers ctx = Ok lys -> In lb lys ->
  exists z win s,
    entry_window (ctx_candles ctx) (ctx_mask ctx) z = Ok win /\
    state_for_zone (ctx_dist_flags ctx) (ctx_abs_flags ctx) z = Ok s /\
    entry_start_ts lb = Some (fst (fst (fst win))) /\
    entry_end_ts lb = Some (snd (fst (fst win))) /\
    state lb = fst (fst s) /\
    confidence lb
    = combine_conf (snd (fst win)) (snd (fst s))
        (verifier_confidence (ctx_traces ctx)).
Proof.
  intros ctx lys lb H Hin.
  destruct (resolve_layers_inv ctx lys H)
    as (be & l1 & l2 & l3 & l4 & l5 & _ & B1 & B2 & B3 & B4 & B5 & ->).
  rewrite refine_all_map in Hin. apply in_map_iff in Hin.
  destruct Hin as (lb0 & <- & Hin0).
  assert (Hb : exists k z w, layer_built ctx k z w lb0).
  { destruct Hin0 as [<-|[<-|[<-|[<-|[<-|[]]]]]]; eauto. }
  destruct Hb as (k & z & w & b & win & s & _ & Hwin & Hst & ->).
  destruct (hvn_refine_fields (sorted_desc node_vol (ctx_hvn ctx))
              (make_layer k b win s (verifier_confidence (ctx_traces ctx))))
    as (_ & _ & _ & Hs & He & Hstate & Hconf & _).
  exists z, win, s. split; [exact Hwin|]. split; [exact Hst|].
  rewrite Hs, He, Hstate, Hconf.
  destruct b as [[[lo hi] cb] bev]. destruct win as [[[ws we] wc] wev].
  destruct s as [[st sc] sev]. cbn. auto.
Qed.

(** X19. Every layer of a successful resolution is complete: its state is
    [accumulating], [holding] or [distributing] (never [broken] or
    [unknown]), and its entry window is never null: both ends are
    timestamps of candles of the series. *)
Theorem resolved_layers_are_complete : forall ctx lys lb,
  resolve_layers ctx = Ok lys -> In lb lys ->
  (state lb = accumulating \/ state lb = holding \/ state lb = distributing) /\
  exists c0 c1,
    In c0 (ctx_candles ctx) /\ In c1 (ctx_candles ctx) /\
    entry_start_ts lb = Some (cd_ts c0) /\ entry_end_ts lb = Some (cd_ts c1).
Proof.
  intros ctx lys lb H Hin.
  destruct (resolved_layer_parts ctx lys lb H Hin)
    as (z & [[[ws we] wc] wev] & [[st sc] sev] & Hwin & Hst & Hs & He & Hstate & _).
  cbn [fst snd] in Hs, He, Hstate. rewrite Hs, He, Hstate. split.
  - destruct (state_for_zone_states _ _ _ _ _ _ Hst) as [->|[->| ->]]; auto.
  - destruct (entry_window_timestamps _ _ _ _ _ _ _ Hwin)
      as (c0 & c1 & H0 & H1 & -> & ->).
    exists c0, c1. auto.
Qed.

Lemma resolved_layers_are_complete_witness :
  exists lm,
    analyze sqrt_approx "XAGUSD" "4H" (flat_candles 100) None = Ok lm /\
    forall lb, In lb (layers lm) ->
      state lb = accumulating \/ state lb = holding \/ state lb = distributing.
Proof.
  destruct (analyze_total sqrt_approx "XAGUSD" "4H" (flat_candles 100) None
              default_params_good ltac:(vm_compute; discriminate))
    as (lm & ctx & _ & _ & _ & Ha & _ & Hlys & _).
  exists lm. split; [exact Ha|].
  intros lb Hlb.
  apply (resolved_layers_are_complete ctx (layers lm) lb Hlys Hlb).
Defined.

(** ** Entry windows of zones in order *)

Lemma percent_monotone : forall n (a b : positive),
  0 <= n -> (a <= b)%positive ->
  int_scale n (Z.pos a # 100) <= int_scale n (Z.pos b # 100).
Proof.
  intros n a b Hn Hab. apply int_scale_mono; [exact Hn | discriminate|].
  unfold Qle. simpl. lia.
Qed.

(** X20. Over a series whose timestamps never decrease, with a base end
    inside the series and a mask as long as the series, the entry window of
    layers 1, 3, 4 and 5 starts no later than it ends; so does that of
    layer 2 when the base ends no later than bar [int(0.55 * len)]. *)
Theorem forward_zone_window_is_ordered : forall ctx lys be (k : nat) lb,
  resolve_layers ctx = Ok lys ->
  ctx_base_end ctx = Some be ->
  0 <= be < len (ctx_candles ctx) ->
  len (ctx_mask ctx) = len (ctx_candles ctx) ->
  timestamps_ascend (ctx_candles ctx) ->
  nth_error lys k = Some lb ->
  k <> 1%nat \/ be <= int_scale (len (ctx_candles ctx)) (55 # 100) ->
  exists s e,
    entry_start_ts lb = Some s /\ entry_end_ts lb = Some e /\ s <= e.
Proof.
  intros ctx lys be k lb H Hbe Hrange Hmask Hts Hlb Hk.
  set (n := len (ctx_candles ctx)) in *.
  assert (Hz : exists z, nth_error (layer_zones n be) k = Some z /\
                         0 <= fst z /\ fst z <= snd z /\ snd z < n).
  { pose proof (percent_index n 55 ltac:(lia) ltac:(lia)).
    pose proof (percent_index n 75 ltac:(lia) ltac:(lia)).
    pose proof (percent_index n 45 ltac:(lia) ltac:(lia)).
    pose proof (percent_index n 70 ltac:(lia) ltac:(lia)).
    pose proof (percent_index n 85 ltac:(lia) ltac:(lia)).
    pose proof (percent_monotone n 45 75 ltac:(lia) ltac:(lia)).
    unfold layer_zones, base_zone, early_zone, mid_zone, late_zone, peak_zone.
    destruct k as [|[|[|[|[|k]]]]]; cbn [nth_error];
      try (eexists; split; [reflexivity|]; cbn [fst snd]; lia).
    assert (Hlen : (S (S (S (S (S k)))) < List.length lys)%nat)
      by (apply nth_error_Some; rewrite Hlb; discriminate).
    assert (Hl5 : List.length lys = 5%nat).
    { destruct (resolve_layers_bands ctx lys H) as (Hl & _).
      rewrite <- (length_map layer), Hl. reflexivity. }
    lia. }
  destruct Hz as (z & Hz & Z0 & Z01 & Z1).
  destruct (resolved_layer_built ctx lys be k z lb H Hbe Hz Hlb)
    as (w & lb0 & _ & (b & win & s & _ & Hwin & _ & ->) & ->).
  destruct (refined_layer_fields (sorted_desc node_vol (ctx_hvn ctx))
              (Z.of_nat k + 1) b win s (verifier_confidence (ctx_traces ctx)))
    as (_ & _ & _ & Hs & He).
  cbv zeta in Hs, He.
  exists (fst (fst (fst win))), (snd (fst (fst win))).
  split; [exact Hs|]. split; [exact He|].
  destruct z as [z0 z1]. cbn [fst snd] in *.
  apply (entry_window_ordered (ctx_candles ctx) (ctx_mask ctx) z0 z1 win);
    try assumption; lia.
Qed.

Lemma series_ts : forall k bar i,
  0 <= i < Z.of_nat k -> cd_ts (candle_at (series k bar) i) = i.
Proof.
  intros k bar i Hi. unfold candle_at, series.
  set (f := fun j : nat => let '(o, h, l, c, v) := bar (Z.of_nat j) in
                           mkCandle (Z.of_nat j) o h l c v).
  rewrite (nth_indep _ candle0 (f 0%nat))
    by (rewrite length_map, length_seq; lia).
  rewrite map_nth, seq_nth by lia. unfold f.
  destruct (bar (Z.of_nat (0 + Z.to_nat i))) as [[[[o h] l] c] v]. simpl. lia.
Qed.

Lemma series_len : forall k bar, len (series k bar) = Z.of_nat k.
Proof. intros. unfold len, series. now rewrite length_map, length_seq. Qed.

Lemma series_timestamps_ascend : forall k bar, timestamps_ascend (series k bar).
Proof.
  intros k bar i j Hi Hij Hj. rewrite series_len in Hj.
  rewrite !series_ts by lia. exact Hij.
Qed.

Lemma forward_zone_window_is_ordered_witness :
  exists lm lb s e,
    analyze sqrt_approx "XAGUSD" "4H" (flat_candles 100) None = Ok lm /\
    nth_error (layers lm) 0 = Some lb /\
    entry_start_ts lb = Some s /\ entry_end_ts lb = Some e /\ s <= e.
Proof.
  destruct (analyze_total sqrt_approx "XAGUSD" "4H" (flat_candles 100) None
              default_params_good ltac:(vm_compute; discriminate))
    as (lm & ctx & r1 & so & nodes & Ha & _ & Hlys & Hcs & Hmask & R1 & O1 & Hbe & _).
  destruct (resolved_layer_exists ctx (layers lm) 0 Hlys ltac:(lia)) as [lb Hlb].
  vm_compute in R1. injection R1 as <-. cbn in O1. injection O1 as <-.
  cbn [base_end_idx] in Hbe.
  destruct (forward_zone_window_is_ordered ctx (layers lm) _ 0 lb Hlys Hbe)
    as (s & e & Hs & He & Hle).
  - rewrite Hcs. vm_compute. split; [discriminate | reflexivity].
  - rewrite Hcs. exact Hmask.
  - rewrite Hcs. apply series_timestamps_ascend.
  - exact Hlb.
  - left. discriminate.
  - exists lm, lb, s, e. auto.
Defined.

(** ** Missing traces *)

Lemma layer_built_verifier_note : forall ctx k z w lb,
  layer_built ctx k z w lb ->
  In (NVerifier (verifier_confidence (ctx_traces ctx))) (evidence lb).
Proof.
  intros ctx k z w lb (b & win & s & _ & _ & _ & ->).
  destruct b as [[[lo hi] cb] bev]. destruct win as [[[ws we] wc] wev].
  destruct s as [[st sc] sev]. cbn [make_layer evidence].
  apply in_or_app. right. apply in_or_app. right. apply in_or_app. right.
  now left.
Qed.

Lemma hvn_refine_keeps_evidence : forall hs lb nt,
  In nt (evidence lb) -> In nt (evidence (hvn_refine hs lb)).
Proof.
  intros hs lb nt H. unfold hvn_refine.
  destruct (filter (overlaps lb) hs); [exact H|].
  cbn [evidence]. apply in_or_app. now left.
Qed.

(** X27. [resolve_layers] indexes five traces and raises [KeyError] with the
    name of the first one missing, in the order [structure], [volume],
    [cost_basis], [regime], [accum_dist].  The verifier trace is optional:
    without it the resolver works with a verifier confidence of 0.6, which
    every layer records in its evidence. *)
Theorem resolve_layers_needs_five_traces : forall ctx,
  (forall key, first_missing (ctx_traces ctx) required_traces = Some key ->
               resolve_layers ctx = Raise (KeyError key)) /\
  (dict_get (ctx_traces ctx) "verifier" = None ->
   1 <= len (ctx_candles ctx) -> resolvable ctx ->
   exists lys,
     resolve_layers ctx = Ok lys /\
     forall lb, In lb lys -> In (NVerifier (6 # 10)) (evidence lb)).
Proof.
  intros ctx. split.
  - intros key H. unfold required_traces in H. cbn [first_missing] in H.
    unfold resolve_layers, trace.
    destruct (dict_get (ctx_traces ctx) "structure");
      [|injection H as <-; reflexivity].
    destruct (dict_get (ctx_traces ctx) "volume");
      [|injection H as <-; reflexivity].
    destruct (dict_get (ctx_traces ctx) "cost_basis");
      [|injection H as <-; reflexivity].
    destruct (dict_get (ctx_traces ctx) "regime");
      [|injection H as <-; reflexivity].
    destruct (dict_get (ctx_traces ctx) "accum_dist");
      [discriminate | injection H as <-; reflexivity].
  - intros Hv Hn Hres.
    destruct (resolve_layers_total ctx Hn Hres) as [lys Hlys].
    exists lys. split; [exact Hlys|]. intros lb Hlb.
    destruct (resolve_layers_inv ctx lys Hlys)
      as (be & l1 & l2 & l3 & l4 & l5 & _ & B1 & B2 & B3 & B4 & B5 & ->).
    rewrite refine_all_map in Hlb. apply in_map_iff in Hlb.
    destruct Hlb as (lb0 & <- & Hin0).
    apply hvn_refine_keeps_evidence.
    assert (Hvc : verifier_confidence (ctx_traces ctx) = 6 # 10)
      by (unfold verifier_confidence; now rewrite Hv).
    rewrite <- Hvc.
    destruct Hin0 as [<-|[<-|[<-|[<-|[<-|[]]]]]];
      eapply layer_built_verifier_note; eassumption.
Qed.

Lemma resolve_layers_needs_five_traces_witness :
  resolve_layers (mkGenesisContext "XAGUSD" "4H" (flat_candles 100) [] [])
  = Raise (KeyError "structure").
Proof.
  destruct (resolve_layers_needs_five_traces
              (mkGenesisContext "XAGUSD" "4H" (flat_candles 100) [] []))
    as [H _].
  apply H. reflexivity.
Defined.

(** * Registry and orchestrator *)

(** ** Longest-prefix routing *)

Lemma resolve_from_spec : forall routes seen best name,
  best_route seen name best ->
  best_route (seen ++ routes) name (resolve_from best routes name).
Proof.
  induction routes as [|[p ad] routes IH]; intros seen best name Hbest.
  - cbn [resolve_from]. now rewrite app_nil_r.
  - cbn [resolve_from].
    replace (seen ++ (p, ad) :: routes) with ((seen ++ [(p, ad)]) ++ routes)
      by (rewrite <- app_assoc; reflexivity).
    apply IH.
    destruct (String.prefix p name) eqn:Ep.
    + destruct best as [[p0 ad0]|].
      * cbn [fst].
        destruct Hbest as (pre & post & -> & Hp0 & Hpre & Hpost).
        destruct (String.length p0 <? String.length p)%nat eqn:El.
        -- apply Nat.ltb_lt in El.
           exists (pre ++ (p0, ad0) :: post), []. split; [reflexivity|].
           split; [exact Ep|]. split; [|intros ? ? []].
           intros p' ad' Hin Hm. apply in_app_or in Hin.
           destruct Hin as [Hin|[Heq|Hin]].
           ++ specialize (Hpre _ _ Hin Hm). lia.
           ++ injection Heq as <- <-. lia.
           ++ specialize (Hpost _ _ Hin Hm). lia.
        -- apply Nat.ltb_ge in El.
           exists pre, (post ++ [(p, ad)]).
           split; [rewrite <- app_assoc; reflexivity|].
           split; [exact Hp0|]. split; [exact Hpre|].
           intros p' ad' Hin Hm. apply in_app_or in Hin.
           destruct Hin as [Hin|[Heq|[]]]; [now apply (Hpost _ _ Hin)|].
           injection Heq as <- <-. exact El.
      * exists seen, []. split; [reflexivity|]. split; [exact Ep|].
        split; [|intros ? ? []].
        intros p' ad' Hin Hm. rewrite (Hbest _ _ Hin) in Hm. discriminate.
    + destruct best as [[p0 ad0]|].
      * destruct Hbest as (pre & post & -> & Hp0 & Hpre & Hpost).
        exists pre, (post ++ [(p, ad)]).
        split; [rewrite <- app_assoc; reflexivity|].
        split; [exact Hp0|]. split; [exact Hpre|].
        intros p' ad' Hin Hm. apply in_app_or in Hin.
        destruct Hin as [Hin|[Heq|[]]]; [now apply (Hpost _ _ Hin)|].
        injection Heq as <- <-. congruence.
      * intros p' ad' Hin. apply in_app_or in Hin.
        destruct Hin as [Hin|[Heq|[]]]; [now apply (Hbest _ _ Hin)|].
        injection Heq as <- <-. exact Ep.
Qed.

Lemma app_split_cases : forall (A : Type) (pre pre' post post' : list A) x x',
  pre ++ x :: post = pre' ++ x' :: post' ->
  (pre = pre' /\ x = x' /\ post = post') \/
  (In x pre' /\ In x' post) \/ (In x' pre /\ In x post').
Proof.
  intros A pre. induction pre as [|y pre IH]; intros pre' post post' x x' H.
  - destruct pre' as [|y' pre']; cbn [app] in H.
    + injection H as -> ->. auto.
    + injection H as -> ->. right. left. split; [now left|].
      apply in_or_app. right. now left.
  - destruct pre' as [|y' pre']; cbn [app] in H.
    + injection H as -> <-. right. right. split; [now left|].
      apply in_or_app. right. now left.
    + injection H as -> H.
      destruct (IH _ _ _ _ _ H) as [(-> & -> & ->)|[[H1 H2]|[H1 H2]]].
      * auto.
      * right. left. split; [now right | exact H2].
      * right. right. split; [now right | exact H2].
Qed.

(** X21. [resolve] returns no adapter exactly when no registered prefix
    starts the task name.  Otherwise it returns the adapter of the route
    with the longest prefix that starts the name, and of the earliest
    registered among several of that length. *)
Theorem resolve_picks_longest_prefix : forall reg name,
  (resolve reg name = None <-> no_route reg name) /\
  (forall ad, resolve reg name = Some ad ->
              exists p, longest_prefix_route reg name p ad) /\
  (forall p ad, longest_prefix_route reg name p ad ->
                resolve_from None reg name = Some (p, ad)).
Proof.
  intros reg name.
  pose proof (resolve_from_spec reg [] None name
                ltac:(intros p ad [])) as Hspec.
  cbn [app] in Hspec. unfold resolve.
  destruct (resolve_from None reg name) as [[p0 ad0]|] eqn:E;
    cbn [best_route option_map snd] in *.
  - split; [|split].
    + split; [discriminate|]. intros Hno.
      destruct Hspec as (pre & post & -> & Hp & _).
      rewrite (Hno p0 ad0) in Hp; [discriminate|].
      apply in_or_app. right. now left.
    + intros ad H. injection H as <-. now exists p0.
    + intros p ad (pre & post & Hreg & Hp & Hpre & Hpost).
      destruct Hspec as (pre0 & post0 & Hreg0 & Hp0 & Hpre0 & Hpost0).
      rewrite Hreg0 in Hreg.
      destruct (app_split_cases _ _ _ _ _ _ _ Hreg)
        as [(_ & Heq & _)|[[H1 H2]|[H1 H2]]].
      * now rewrite Heq.
      * specialize (Hpre _ _ H1 Hp0). specialize (Hpost0 _ _ H2 Hp). lia.
      * specialize (Hpre0 _ _ H1 Hp). specialize (Hpost _ _ H2 Hp0). lia.
  - split; [|split].
    + split; [intros _; exact Hspec | reflexivity].
    + intros ad H. discriminate.
    + intros p ad (pre & post & -> & Hp & _).
      rewrite (Hspec p ad) in Hp; [discriminate|].
      apply in_or_app. right. now left.
Qed.

Lemma resolve_picks_longest_prefix_witness :
  exists p,
    longest_prefix_route
      [("internal"%string, fun _ r => r = Raise TypeError);
       ("internal.volume"%string, fun _ r => r = Raise IndexError)]
      "internal.volume" p (fun _ r => r = Raise IndexError).
Proof.
  destruct (resolve_picks_longest_prefix
              [("internal"%string, fun _ r => r = Raise TypeError);
               ("internal.volume"%string, fun _ r => r = Raise IndexError)]
              "internal.volume") as (_ & H & _).
  apply H. reflexivity.
Defined.

Lemma resolve_from_app : forall r1 r2 best name,
  resolve_from best (r1 ++ r2) name
  = resolve_from (resolve_from best r1 name) r2 name.
Proof.
  induction r1 as [|[p ad] r1 IH]; intros r2 best name; [reflexivity|].
  cbn [app resolve_from]. apply IH.
Qed.

(** X22. A later registration takes a task name over only when its prefix
    starts the name and is strictly longer than the prefix of the route that
    resolved the name before (or when no route did).  In particular,
    registering a second adapter under a prefix already registered changes
    no resolution. *)
Theorem register_takes_over_only_if_longer : forall reg p ad name,
  (String.prefix p name = false ->
   resolve (register reg p ad) name = resolve reg name) /\
  (String.prefix p name = true -> resolve reg name = None ->
   resolve (register reg p ad) name = Some ad) /\
  (forall p0 ad0,
     String.prefix p name = true ->
     resolve_from None reg name = Some (p0, ad0) ->
     ((String.length p0 < String.length p)%nat ->
      resolve (register reg p ad) name = Some ad) /\
     ((String.length p <= String.length p0)%nat ->
      resolve (register reg p ad) name = Some ad0)) /\
  (forall ad', resolve (register (register reg p ad) p ad') name
               = resolve (register reg p ad) name).
Proof.
  intros reg p ad name. unfold resolve, register.
  rewrite !resolve_from_app. cbn [resolve_from].
  destruct (String.prefix p name) eqn:Ep.
  - split; [discriminate|]. split; [|split].
    + intros _ H. destruct (resolve_from None reg name); [discriminate|].
      reflexivity.
    + intros p0 ad0 _ ->. cbn [fst]. split; intros Hl.
      * replace (String.length p0 <? String.length p)%nat with true
          by (symmetry; apply Nat.ltb_lt; exact Hl).
        reflexivity.
      * replace (String.length p0 <? String.length p)%nat with false
          by (symmetry; apply Nat.ltb_ge; exact Hl).
        reflexivity.
    + intros ad'. rewrite !resolve_from_app. cbn [resolve_from]. rewrite Ep.
      destruct (resolve_from None reg name) as [[p0 ad0]|]; cbn [fst].
      * destruct (String.length p0 <? String.length p)%nat eqn:El; cbn [fst];
          [rewrite Nat.ltb_irrefl | rewrite El]; reflexivity.
      * rewrite Nat.ltb_irrefl. reflexivity.
  - split; [reflexivity|]. split; [discriminate|].
    split; [discriminate|].
    intros ad'. rewrite !resolve_from_app. cbn [resolve_from]. rewrite Ep.
    reflexivity.
Qed.

(** ** Running a stage *)

(** X23. A stage is run by the built-in agent when no registered prefix
    starts its name, and otherwise by the adapter of the resolved route,
    which is sent the task of the stage; the built-in agent is then not
    run.  One adapter registered under ["internal"] runs all six stages;
    one registered under ["internal.volume"] runs the Volume stage only. *)
Theorem prefix_route_captures_stages : forall fsqrt ctx r,
  (forall reg a, no_route reg (agent_name a) ->
     (_run_agent reg fsqrt a ctx r <-> r = run fsqrt a ctx)) /\
  (forall reg a p ad, longest_prefix_route reg (agent_name a) p ad ->
     (_run_agent reg fsqrt a ctx r <-> ad (task_for a ctx) r)) /\
  (forall ad a, _run_agent (register [] "internal" ad) fsqrt a ctx r
                <-> ad (task_for a ctx) r) /\
  (forall ad a, _run_agent (register [] "internal.volume" ad) fsqrt a ctx r
                <-> match a with
                    | VolumeAgent => ad (task_for a ctx) r
                    | _ => r = run fsqrt a ctx
                    end).
Proof.
  intros fsqrt ctx r. split; [|split; [|split]].
  - intros reg a Hno. unfold _run_agent, resolve.
    pose proof (resolve_from_spec reg [] None (agent_name a)
                  ltac:(intros p ad [])) as Hspec.
    cbn [app] in Hspec.
    destruct (resolve_from None reg (agent_name a)) as [[p ad]|];
      cbn [best_route option_map] in *; [|tauto].
    destruct Hspec as (pre & post & -> & Hp & _).
    rewrite (Hno p ad) in Hp; [discriminate|].
    apply in_or_app. right. now left.
  - intros reg a p ad Hroute. unfold _run_agent, resolve.
    pose proof (resolve_from_spec reg [] None (agent_name a)
                  ltac:(intros p' ad' [])) as Hspec.
    cbn [app] in Hspec.
    destruct (resolve_from None reg (agent_name a)) as [[p0 ad0]|] eqn:E;
      cbn [best_route option_map snd] in *.
    + destruct Hroute as (pre & post & Hreg & Hp & Hpre & Hpost).
      destruct Hspec as (pre0 & post0 & Hreg0 & Hp0 & Hpre0 & Hpost0).
      rewrite Hreg0 in Hreg.
      destruct (app_split_cases _ _ _ _ _ _ _ Hreg)
        as [(_ & Heq & _)|[[H1 H2]|[H1 H2]]].
      * injection Heq as -> ->. tauto.
      * specialize (Hpre _ _ H1 Hp0). specialize (Hpost0 _ _ H2 Hp). lia.
      * specialize (Hpre0 _ _ H1 Hp). specialize (Hpost _ _ H2 Hp0). lia.
    + destruct Hroute as (pre & post & -> & Hp & _).
      rewrite (Hspec p ad) in Hp; [discriminate|].
      apply in_or_app. right. now left.
  - intros ad a. destruct a; cbn; tauto.
  - intros ad a. destruct a; cbn; tauto.
Qed.

(** X24. The task sent to an adapter names the stage and carries the
    symbol, the timeframe, the parameters and all traces stored so far; of
    the candles it carries the first [min(200, len)] and the last
    [min(200, len)], so the whole series twice when it has at most 200
    candles. *)
Theorem task_carries_head_and_tail : forall a ctx,
  let t := task_for a ctx in
  let cs := ctx_candles ctx in
  let m := Z.min 200 (len cs) in
  task_name t = agent_name a /\
  in_symbol t = ctx_symbol ctx /\ in_timeframe t = ctx_timeframe ctx /\
  in_params t = ctx_params ctx /\ traces_so_far t = ctx_traces ctx /\
  len (candles_head t) = m /\ len (candles_tail t) = m /\
  (forall k, 0 <= k < m ->
     nth (Z.to_nat k) (candles_head t) candle0 = candle_at cs k /\
     nth (Z.to_nat k) (candles_tail t) candle0 = candle_at cs (len cs - m + k)) /\
  (len cs <= 200 -> candles_head t = cs /\ candles_tail t = cs).
Proof.
  intros a ctx t cs m. unfold t, task_for. cbn. fold cs.
  pose proof (len_nonneg _ cs) as Hn.
  assert (Hhead : py_slice cs 0 200 = firstn (Z.to_nat m) cs).
  { unfold py_slice, py_slice_bound.
    replace (0 <? 0) with false by reflexivity.
    replace (200 <? 0) with false by reflexivity.
    rewrite (Z.min_l 0) by lia. reflexivity. }
  assert (Htail : py_slice cs (-200) (len cs) = skipn (Z.to_nat (len cs - m)) cs).
  { unfold py_slice, py_slice_bound.
    replace (-200 <? 0) with true by reflexivity.
    destruct (len cs <? 0) eqn:E; [lia|].
    rewrite Z.min_id. rewrite firstn_all2 by (unfold len; lia).
    f_equal. unfold m. lia. }
  rewrite Hhead, Htail.
  repeat (split; [reflexivity|]).
  split; [unfold len in *; rewrite length_firstn; lia|].
  split; [unfold len in *; rewrite length_skipn; lia|].
  split.
  - intros k Hk. split.
    + rewrite nth_firstn.
      replace (Z.to_nat k <? Z.to_nat m)%nat with true
        by (symmetry; apply Nat.ltb_lt; lia).
      reflexivity.
    + rewrite nth_skipn. unfold candle_at. f_equal. lia.
  - intros Hle. split.
    + apply firstn_all2. unfold len in *. lia.
    + replace (Z.to_nat (len cs - m)) with 0%nat by lia. reflexivity.
Qed.

(** ** The returned map *)

Lemma analyze_fields : forall fsqrt sym tf cs params lm,
  analyze fsqrt sym tf cs params = Ok lm ->
  exists ctx,
    run_agents fsqrt internal_agents (initial_context sym tf cs params)
    = (ctx, Ok tt) /\
    resolve_layers ctx = Ok (layers lm) /\
    analyze_run fsqrt sym tf cs params = mkRun (Some ctx) (Ok lm) /\
    lm = mkSMCLayerMap sym tf (cd_ts (candle_at cs 0))
           (cd_ts (candle_at cs (len cs - 1))) (layers lm) layer_notes
           (params_or_empty params).
Proof.
  intros fsqrt sym tf cs params lm H.
  destruct (analyze_inv _ _ _ _ _ _ H) as (Hn & _).
  unfold analyze, analyze_run in H. unfold analyze_run.
  rewrite short_series_test in *.
  destruct (len cs <? 100) eqn:E; [discriminate H|].
  destruct (run_agents fsqrt internal_agents (initial_context sym tf cs params))
    as [ctx loop] eqn:Hrun.
  cbn [outcome] in H. rewrite H.
  unfold finish in H.
  destruct loop as [[]|e]; [|discriminate H]. cbn [bind] in H.
  inv_bind H. inv_bind H. inv_bind H. injection H as <-.
  rewrite (candle_index cs 0) in E1 by lia. injection E1 as <-.
  rewrite (py_index_last _ candle0) in E2
    by (intros ->; unfold len in Hn; simpl in Hn; lia).
  injection E2 as <-.
  exists ctx. split; [reflexivity|]. split; [exact E0|].
  split; [reflexivity|]. cbn [layers].
  destruct (run_agents_frame _ _ _ _ _ Hrun) as [_ Hp]. rewrite Hp.
  reflexivity.
Qed.

(** X25. The returned map echoes the symbol and the timeframe, carries the
    two fixed notes and the parameters of the call (none becomes the empty
    dictionary), and its range is the timestamp of the first candle and
    that of the last, in input order: the series is not sorted.  When the
    timestamps never decrease, the range is in order and the entry window
    of every layer lies within it. *)
Theorem analyze_map_header : forall fsqrt sym tf cs params lm,
  analyze fsqrt sym tf cs params = Ok lm ->
  lm_symbol lm = sym /\ lm_timeframe lm = tf /\
  start_ts lm = cd_ts (candle_at cs 0) /\
  end_ts lm = cd_ts (candle_at cs (len cs - 1)) /\
  notes lm = layer_notes /\ meta_params lm = params_or_empty params /\
  (timestamps_ascend cs ->
   start_ts lm <= end_ts lm /\
   forall lb, In lb (layers lm) ->
     exists s e, entry_start_ts lb = Some s /\ entry_end_ts lb = Some e /\
                 start_ts lm <= s <= end_ts lm /\
                 start_ts lm <= e <= end_ts lm).
Proof.
  intros fsqrt sym tf cs params lm H.
  destruct (analyze_inv _ _ _ _ _ _ H) as (Hn & ctx0 & _ & _ & _).
  destruct (analyze_fields _ _ _ _ _ _ H) as (ctx & Hrun & Hlys & _ & Hlm).
  assert (Hcs : ctx_candles ctx = cs)
    by (destruct (run_agents_frame _ _ _ _ _ Hrun) as [Hc _]; exact Hc).
  rewrite Hlm at 1 2 3 4 5 6. cbn [lm_symbol lm_timeframe start_ts end_ts notes meta_params].
  repeat (split; [reflexivity|]).
  intros Hts.
  assert (Hbetween : forall c, In c cs ->
            cd_ts (candle_at cs 0) <= cd_ts c <= cd_ts (candle_at cs (len cs - 1))).
  { intros c Hc. destruct (In_nth cs c candle0 Hc) as (k & Hk & <-).
    fold (candle_at cs (Z.of_nat k)) in *.
    replace (nth k cs candle0) with (candle_at cs (Z.of_nat k))
      by (unfold candle_at; now rewrite Nat2Z.id).
    unfold len. split; apply Hts; unfold len; lia. }
  replace (start_ts lm) with (cd_ts (candle_at cs 0)) by (rewrite Hlm; reflexivity).
  replace (end_ts lm) with (cd_ts (candle_at cs (len cs - 1)))
    by (rewrite Hlm; reflexivity).
  split; [apply Hts; lia|].
  intros lb Hlb.
  destruct (resolved_layer_parts ctx (layers lm) lb Hlys Hlb)
    as (z & [[[ws we] wc] wev] & s & Hwin & _ & Hs & He & _).
  cbn [fst snd] in Hs, He.
  destruct (entry_window_timestamps _ _ _ _ _ _ _ Hwin)
    as (c0 & c1 & H0 & H1 & -> & ->).
  rewrite Hcs in H0, H1.
  exists (cd_ts c0), (cd_ts c1). split; [exact Hs|]. split; [exact He|].
  split; now apply Hbetween.
Qed.

Lemma analyze_map_header_witness :
  exists lm,
    analyze sqrt_approx "XAGUSD" "4H" (flat_candles 100) None = Ok lm /\
    lm_symbol lm = "XAGUSD"%string /\ start_ts lm = 0 /\ end_ts lm = 99 /\
    meta_params lm = [].
Proof.
  destruct (analyze_total sqrt_approx "XAGUSD" "4H" (flat_candles 100) None
              default_params_good ltac:(vm_compute; discriminate))
    as (lm & _ & _ & _ & _ & Ha & _).
  exists lm. split; [exact Ha|].
  destruct (analyze_map_header _ _ _ _ _ _ Ha) as (H1 & _ & H3 & H4 & _ & H6 & _).
  split; [exact H1|]. split; [rewrite H3; vm_compute; reflexivity|].
  split; [rewrite H4; vm_compute; reflexivity | exact H6].
Defined.

(** ** The traces of a built-in run *)

Lemma run_agents_inv : forall fsqrt ctx0 ctx,
  run_agents fsqrt internal_agents ctx0 = (ctx, Ok tt) ->
  exists r1 r2 r3 r4 r5 r6,
    StructureAgent_run ctx0 = Ok r1 /\
    VolumeAgent_run (store_trace StructureAgent r1 ctx0) = Ok r2 /\
    CostBasisAgent_run
      (store_trace VolumeAgent r2 (store_trace StructureAgent r1 ctx0)) = Ok r3 /\
    VerifierAgent_run
      (store_trace AccumDistAgent r5
         (store_trace RegimeAgent r4
            (store_trace CostBasisAgent r3
               (store_trace VolumeAgent r2
                  (store_trace StructureAgent r1 ctx0))))) = Ok r6 /\
    (exists c3, RegimeAgent_run fsqrt c3 = Ok r4) /\
    (exists c4, AccumDistAgent_run c4 = Ok r5) /\
    ctx = store_trace VerifierAgent r6
            (store_trace AccumDistAgent r5
               (store_trace RegimeAgent r4
                  (store_trace CostBasisAgent r3
                     (store_trace VolumeAgent r2
                        (store_trace StructureAgent r1 ctx0))))).
Proof.
  intros fsqrt ctx0 ctx H. unfold internal_agents in H.
  cbn [run_agents run] in H.
  destruct (StructureAgent_run ctx0) as [r1|] eqn:E1; [|discriminate H].
  destruct (VolumeAgent_run _) as [r2|] eqn:E2; [|discriminate H].
  destruct (CostBasisAgent_run _) as [r3|] eqn:E3; [|discriminate H].
  destruct (RegimeAgent_run fsqrt _) as [r4|] eqn:E4; [|discriminate H].
  destruct (AccumDistAgent_run _) as [r5|] eqn:E5; [|discriminate H].
  destruct (VerifierAgent_run _) as [r6|] eqn:E6; [|discriminate H].
  injection H as <-.
  exists r1, r2, r3, r4, r5, r6.
  split; [reflexivity|]. split; [exact E2|]. split; [exact E3|].
  split; [exact E6|]. split; [eexists; exact E4|]. split; [eexists; exact E5|].
  reflexivity.
Qed.

Lemma six_traces : forall e1 e2 e3 e4 e5 e6 : TraceEntry,
  dict_set
    (dict_set
       (dict_set
          (dict_set
             (dict_set (dict_set [] (trace_key StructureAgent) e1)
                (trace_key VolumeAgent) e2)
             (trace_key CostBasisAgent) e3)
          (trace_key RegimeAgent) e4)
       (trace_key AccumDistAgent) e5)
    (trace_key VerifierAgent) e6
  = [("structure", e1); ("volume", e2); ("cost_basis", e3);
     ("regime", e4); ("accum_dist", e5); ("verifier", e6)]%string.
Proof. reflexivity. Qed.

Lemma StructureAgent_result : forall ctx r,
  StructureAgent_run ctx = Ok r ->
  ar_confidence r = 65 # 100 /\ ar_warnings r = [] /\
  exists so, ar_output r = OStructure so.
Proof.
  intros ctx r H. unfold StructureAgent_run in H.
  inv_bind H. inv_bind H. injection H as <-. cbn. eauto.
Qed.

Lemma VolumeAgent_result : forall ctx r,
  VolumeAgent_run ctx = Ok r ->
  ar_confidence r = 7 # 10 /\ ar_warnings r = [] /\
  exists vo, ar_output r = OVolume vo.
Proof.
  intros ctx r H. unfold VolumeAgent_run in H.
  inv_bind H. injection H as <-. cbn. eauto.
Qed.

Lemma CostBasisAgent_result : forall ctx r,
  CostBasisAgent_run ctx = Ok r ->
  ar_confidence r = 66 # 100 /\ ar_warnings r = [] /\
  exists co, ar_output r = OCostBasis co /\ nonempty (anchors co) = true.
Proof.
  intros ctx r H. unfold CostBasisAgent_run in H.
  inv_bind H. inv_bind H. inv_bind H. injection H as <-. cbn.
  split; [reflexivity|]. split; [reflexivity|].
  eexists. split; [reflexivity|]. cbn [anchors].
  destruct (lows a) as [|l0 ls].
  - injection E0 as <-. reflexivity.
  - inv_bind E0. inv_bind E0. inv_bind E0. injection E0 as <-.
    unfold sorted_set. cbn [fold_right].
    destruct (insert_uniq a2 _) eqn:Ei; [|reflexivity].
    now apply insert_uniq_nonempty in Ei.
Qed.

Lemma RegimeAgent_result : forall fsqrt ctx r,
  RegimeAgent_run fsqrt ctx = Ok r ->
  ar_confidence r = 6 # 10 /\ ar_warnings r = [].
Proof.
  intros fsqrt ctx r H. unfold RegimeAgent_run in H.
  do 5 inv_bind H. injection H as <-. cbn. auto.
Qed.

Lemma AccumDistAgent_result : forall ctx r,
  AccumDistAgent_run ctx = Ok r ->
  ar_confidence r = 55 # 100 /\ ar_warnings r = [].
Proof.
  intros ctx r H. unfold AccumDistAgent_run in H.
  do 3 inv_bind H. injection H as <-. cbn. auto.
Qed.

(** The results of the six stages of a run that returned a map. *)
Lemma builtin_run_results : forall fsqrt sym tf cs params lm,
  analyze fsqrt sym tf cs params = Ok lm ->
  exists ctx r1 r2 r3 r4 r5 r6 vo,
    analyze_run fsqrt sym tf cs params = mkRun (Some ctx) (Ok lm) /\
    resolve_layers ctx = Ok (layers lm) /\
    ctx_traces ctx
    = [("structure", trace_entry r1); ("volume", trace_entry r2);
       ("cost_basis", trace_entry r3); ("regime", trace_entry r4);
       ("accum_dist", trace_entry r5); ("verifier", trace_entry r6)]%string /\
    map ar_confidence [r1; r2; r3; r4; r5]
    = [65 # 100; 7 # 10; 66 # 100; 6 # 10; 55 # 100] /\
    map ar_warnings [r1; r2; r3; r4; r5; r6] = [[]; []; []; []; []; []] /\
    ar_output r2 = OVolume vo /\
    ar_confidence r6
    = (inject_Z (if nonempty (hvn vo) then 3 else 2) / inject_Z 3)%Q.
Proof.
  intros fsqrt sym tf cs params lm H.
  destruct (analyze_fields _ _ _ _ _ _ H) as (ctx & Hrun & Hlys & Hrun' & _).
  destruct (run_agents_inv _ _ _ Hrun)
    as (r1 & r2 & r3 & r4 & r5 & r6 & R1 & R2 & R3 & R6 & [c3 R4] & [c4 R5] & Hctx).
  destruct (StructureAgent_result _ _ R1) as (C1 & W1 & so & O1).
  destruct (VolumeAgent_result _ _ R2) as (C2 & W2 & vo & O2).
  destruct (CostBasisAgent_result _ _ R3) as (C3 & W3 & co & O3 & A3).
  destruct (RegimeAgent_result _ _ _ R4) as (C4 & W4).
  destruct (AccumDistAgent_result _ _ R5) as (C5 & W5).
  assert (Htr5 : ctx_traces
                   (store_trace AccumDistAgent r5
                      (store_trace RegimeAgent r4
                         (store_trace CostBasisAgent r3
                            (store_trace VolumeAgent r2
                               (store_trace StructureAgent r1
                                  (initial_context sym tf cs params))))))
                 = [("structure", trace_entry r1); ("volume", trace_entry r2);
                    ("cost_basis", trace_entry r3); ("regime", trace_entry r4);
                    ("accum_dist", trace_entry r5)]%string)
    by reflexivity.
  assert (Hr6 : ar_warnings r6 = [] /\
                ar_confidence r6
                = (inject_Z (if nonempty (hvn vo) then 3 else 2) / inject_Z 3)%Q).
  { unfold VerifierAgent_run in R6. rewrite Htr5 in R6.
    unfold has_base_end, has_hvn, has_anchors, trace_entry in R6.
    cbn [dict_get String.eqb Ascii.eqb Bool.eqb t_output] in R6.
    rewrite O1, O2, O3, A3 in R6. cbv zeta in R6.
    destruct (nonempty (hvn vo)); injection R6 as <-; split; reflexivity. }
  destruct Hr6 as [W6 C6].
  exists ctx, r1, r2, r3, r4, r5, r6, vo.
  split; [exact Hrun'|]. split; [exact Hlys|].
  split; [rewrite Hctx; reflexivity|].
  split; [cbn [map]; now rewrite C1, C2, C3, C4, C5|].
  split; [cbn [map]; now rewrite W1, W2, W3, W4, W5, W6|].
  split; [exact O2 | exact C6].
Qed.

(** X26. A run that returns a map leaves in its context exactly six
    traces, keyed [structure], [volume], [cost_basis], [regime],
    [accum_dist] and [verifier], in that order, with the confidences 0.65,
    0.7, 0.66, 0.6 and 0.55 for the first five and no warnings.  The
    verifier's confidence, which the resolver reads back, is 1 when the HVN
    list of the Volume trace is not empty and 2/3 when it is: its two other
    checks always pass. *)
Theorem builtin_run_leaves_six_traces : forall fsqrt sym tf cs params lm,
  analyze fsqrt sym tf cs params = Ok lm ->
  exists ctx e1 e2 e3 e4 e5 e6,
    analyze_run fsqrt sym tf cs params = mkRun (Some ctx) (Ok lm) /\
    ctx_traces ctx
    = [("structure", e1); ("volume", e2); ("cost_basis", e3);
       ("regime", e4); ("accum_dist", e5); ("verifier", e6)]%string /\
    map t_confidence [e1; e2; e3; e4; e5]
    = [65 # 100; 7 # 10; 66 # 100; 6 # 10; 55 # 100] /\
    (forall e, In e [e1; e2; e3; e4; e5; e6] -> t_warnings e = None) /\
    verifier_confidence (ctx_traces ctx) = t_confidence e6 /\
    ((ctx_hvn ctx <> [] /\ (t_confidence e6 == 1)%Q) \/
     (ctx_hvn ctx = [] /\ (t_confidence e6 == 2 # 3)%Q)).
Proof.
  intros fsqrt sym tf cs params lm H.
  destruct (builtin_run_results _ _ _ _ _ _ H)
    as (ctx & r1 & r2 & r3 & r4 & r5 & r6 & vo &
        Hrun & _ & Htr & Hconf & Hwarn & O2 & C6).
  exists ctx, (trace_entry r1), (trace_entry r2), (trace_entry r3),
         (trace_entry r4), (trace_entry r5), (trace_entry r6).
  split; [exact Hrun|]. split; [exact Htr|].
  split; [exact Hconf|]. split.
  { cbn [map] in Hwarn.
    injection Hwarn as W1 W2 W3 W4 W5 W6.
    intros e He. cbn [In] in He.
    destruct He as [<-|[<-|[<-|[<-|[<-|[<-|[]]]]]]];
      unfold trace_entry; cbn [t_warnings];
      rewrite ?W1, ?W2, ?W3, ?W4, ?W5, ?W6; reflexivity. }
  split; [rewrite Htr; reflexivity|].
  assert (Hhvn : ctx_hvn ctx = hvn vo).
  { unfold ctx_hvn. rewrite Htr. cbn. now rewrite O2. }
  rewrite Hhvn. cbn [trace_entry t_confidence]. rewrite C6.
  destruct (hvn vo) as [|nd nds]; cbn [nonempty].
  - right. split; reflexivity.
  - left. split; [discriminate | reflexivity].
Qed.

Lemma builtin_run_leaves_six_traces_witness :
  exists lm ctx,
    analyze_run sqrt_approx "XAGUSD" "4H" (flat_candles 100) None
    = mkRun (Some ctx) (Ok lm) /\
    map fst (ctx_traces ctx)
    = ["structure"; "volume"; "cost_basis"; "regime"; "accum_dist"; "verifier"]%string.
Proof.
  destruct (analyze_total sqrt_approx "XAGUSD" "4H" (flat_candles 100) None
              default_params_good ltac:(vm_compute; discriminate))
    as (lm & _ & _ & _ & _ & Ha & _).
  destruct (builtin_run_leaves_six_traces _ _ _ _ _ _ Ha)
    as (ctx & e1 & e2 & e3 & e4 & e5 & e6 & Hrun & Htr & _).
  exists lm, ctx. split; [exact Hrun|]. rewrite Htr. reflexivity.
Defined.

(** ** A stage that raises *)

Lemma run_agents_app : forall fsqrt pre rest ctx0,
  run_agents fsqrt (pre ++ rest) ctx0
  = match run_agents fsqrt pre ctx0 with
    | (ctx, Ok _) => run_agents fsqrt rest ctx
    | (ctx, Raise e) => (ctx, Raise e)
    end.
Proof.
  intros fsqrt pre. induction pre as [|a pre IH]; intros rest ctx0.
  - reflexivity.
  - cbn [app run_agents]. destruct (run fsqrt a ctx0); [apply IH | reflexivity].
Qed.

Lemma dict_set_fresh : forall (V : Type) (d : list (string * V)) key x,
  dict_get d key = None -> dict_set d key x = d ++ [(key, x)].
Proof.
  intros V d key x. induction d as [|[k y] d IH]; cbn [dict_get dict_set app];
    intros H; [reflexivity|].
  destruct (String.eqb k key); [discriminate|]. now rewrite IH.
Qed.

Lemma dict_get_app_fresh : forall (V : Type) (d : list (string * V)) k key x,
  k <> key -> dict_get (d ++ [(k, x)]) key = dict_get d key.
Proof.
  intros V d k key x Hne. induction d as [|[k0 y] d IH]; cbn [dict_get app].
  - destruct (String.eqb k key) eqn:E; [|reflexivity].
    apply String.eqb_eq in E. congruence.
  - destruct (String.eqb k0 key); [reflexivity | exact IH].
Qed.

(** The stages that returned have stored their traces, in order. *)
Lemma run_agents_keys : forall fsqrt agents ctx0 ctx,
  NoDup (map trace_key agents) ->
  (forall a, In a agents -> dict_get (ctx_traces ctx0) (trace_key a) = None) ->
  run_agents fsqrt agents ctx0 = (ctx, Ok tt) ->
  map fst (ctx_traces ctx) = map fst (ctx_traces ctx0) ++ map trace_key agents.
Proof.
  intros fsqrt agents. induction agents as [|a agents IH]; intros ctx0 ctx Hnd Hfresh H.
  - injection H as <-. now rewrite app_nil_r.
  - cbn [run_agents] in H. destruct (run fsqrt a ctx0) as [res|e]; [|discriminate H].
    inversion Hnd as [|? ? Hnotin Hnd']; subst.
    apply IH in H; [|exact Hnd'|].
    + rewrite H. unfold store_trace. cbn [ctx_traces].
      rewrite dict_set_fresh by (apply Hfresh; now left).
      rewrite map_app. cbn [map fst]. now rewrite <- app_assoc.
    + intros b Hb. unfold store_trace. cbn [ctx_traces].
      rewrite dict_set_fresh by (apply Hfresh; now left).
      rewrite dict_get_app_fresh; [apply Hfresh; now right|].
      intros Heq. apply Hnotin. rewrite Heq. now apply in_map.
Qed.

(** X28. When a stage raises, after the stages before it returned, the run
    ends there: [analyze] raises the same exception and returns no map, the
    later stages and the resolver are not run, and the context holds the
    traces of the stages that returned, and only those. *)
Theorem stage_error_aborts_run : forall fsqrt sym tf cs params pre a post ctx e,
  100 <= len cs ->
  internal_agents = pre ++ a :: post ->
  run_agents fsqrt pre (initial_context sym tf cs params) = (ctx, Ok tt) ->
  run fsqrt a ctx = Raise e ->
  analyze fsqrt sym tf cs params = Raise e /\
  analyze_run fsqrt sym tf cs params = mkRun (Some ctx) (Raise e) /\
  map fst (ctx_traces ctx) = map trace_key pre.
Proof.
  intros fsqrt sym tf cs params pre a post ctx e Hn Hsplit Hpre Ha.
  assert (Hrun : analyze_run fsqrt sym tf cs params = mkRun (Some ctx) (Raise e)).
  { unfold analyze_run. rewrite short_series_test.
    destruct (len cs <? 100) eqn:E; [lia|].
    rewrite Hsplit, run_agents_app, Hpre. cbn [run_agents]. rewrite Ha.
    reflexivity. }
  split; [unfold analyze; now rewrite Hrun|]. split; [exact Hrun|].
  assert (Hnd : NoDup (map trace_key internal_agents)).
  { cbn. repeat (constructor; [cbn; intuition discriminate|]). constructor. }
  rewrite Hsplit, map_app in Hnd. apply NoDup_app_remove_r in Hnd.
  apply (run_agents_keys fsqrt pre (initial_context sym tf cs params) ctx Hnd);
    [|exact Hpre].
  intros b _. reflexivity.
Qed.

Lemma stage_error_aborts_run_witness :
  exists ctx,
    analyze_run sqrt_approx "XAGUSD" "4H" late_breakout_candles
      (Some [("vap_bins"%string, 0)])
    = mkRun (Some ctx) (Raise ZeroDivisionError) /\
    map fst (ctx_traces ctx) = ["structure"%string].
Proof.
  set (ctx0 := initial_context "XAGUSD" "4H" late_breakout_candles
                 (Some [("vap_bins"%string, 0)])).
  destruct (StructureAgent_total ctx0 ltac:(vm_compute; discriminate)
              ltac:(vm_compute; discriminate) ltac:(vm_compute; discriminate))
    as (r1 & so & R1 & _).
  destruct (stage_error_aborts_run sqrt_approx "XAGUSD" "4H" late_breakout_candles
              (Some [("vap_bins"%string, 0)])
              [StructureAgent] VolumeAgent
              [CostBasisAgent; RegimeAgent; AccumDistAgent; VerifierAgent]
              (store_trace StructureAgent r1 ctx0) ZeroDivisionError)
    as (_ & Hrun & Hkeys).
  - vm_compute. discriminate.
  - reflexivity.
  - cbn [run_agents run]. fold ctx0. rewrite R1. reflexivity.
  - cbn [run]. unfold VolumeAgent_run. cbn [store_trace ctx_candles ctx_params ctx0 initial_context params_or_empty].
    replace (volume_nodes_proxy late_breakout_candles
               (get_param [("vap_bins"%string, 0)] "vap_bins" 60))
      with (@Raise (list Node) ZeroDivisionError) by (vm_compute; reflexivity).
    reflexivity.
  - exists (store_trace StructureAgent r1 ctx0). split; [exact Hrun | exact Hkeys].
Defined.

(** ** Layer confidences of a built-in run *)

Lemma entry_window_confidence : forall cs mask z s e conf ev,
  entry_window cs mask z = Ok (s, e, conf, ev) ->
  (35 # 100 <= conf)%Q /\ (conf <= 85 # 100)%Q.
Proof.
  intros cs mask z s e conf ev H. unfold entry_window in H.
  inv_bind H. destruct a as [[s0 e0] ln]. destruct s0 as [s0|].
  - inv_bind H. inv_bind H. inv_bind H. injection H as _ _ <- _.
    apply clamp_bounds. lra.
  - inv_bind H. inv_bind H. injection H as _ _ <- _. split; lra.
Qed.

Lemma state_for_zone_confidence : forall dflags aflags z st conf ev,
  state_for_zone dflags aflags z = Ok (st, conf, ev) ->
  (55 # 100 <= conf)%Q /\ (conf <= 85 # 100)%Q.
Proof.
  intros dflags aflags z st conf ev H. unfold state_for_zone in H.
  inv_bind H. inv_bind H. cbv zeta in H.
  destruct (_ && _) in H; [injection H as _ <- _; apply clamp_bounds; lra|].
  destruct (_ && _) in H; injection H as _ <- _;
    [apply clamp_bounds; lra | split; lra].
Qed.

(** The weighted float sum grows with each of its three terms. *)
Lemma combine_conf_mono : forall a b c a' b' c',
  (a <= a')%Q -> (b <= b')%Q -> (c <= c')%Q ->
  (combine_conf a b c <= combine_conf a' b' c')%Q.
Proof.
  intros a b c a' b' c' Ha Hb Hc. unfold combine_conf, clamp.
  apply Q.max_le_compat_l. apply Q.min_le_compat_l.
  unfold fadd, fmul. apply round64_le.
  assert (H1 : (round64 (float_lit (45 # 100) * a)
                <= round64 (float_lit (45 # 100) * a'))%Q)
    by (apply round64_le, Qmult_le_nonneg_l; [vm_compute; discriminate | exact Ha]).
  assert (H2 : (round64 (float_lit (35 # 100) * b)
                <= round64 (float_lit (35 # 100) * b'))%Q)
    by (apply round64_le, Qmult_le_nonneg_l; [vm_compute; discriminate | exact Hb]).
  assert (H3 : (round64 (float_lit (20 # 100) * c)
                <= round64 (float_lit (20 # 100) * c'))%Q)
    by (apply round64_le, Qmult_le_nonneg_l; [vm_compute; discriminate | exact Hc]).
  assert (H12 : (round64 (round64 (float_lit (45 # 100) * a)
                          + round64 (float_lit (35 # 100) * b))
                 <= round64 (round64 (float_lit (45 # 100) * a')
                             + round64 (float_lit (35 # 100) * b')))%Q)
    by (apply round64_le; lra).
  lra.
Qed.

(** X29. In a run that returns a map, the confidence of every layer lies
    between 0.48 and 0.89: it is the float sum
    [0.45 * window + 0.35 * state + 0.20 * verifier], which grows with its
    terms, of a window confidence in [[0.35, 0.85]], a state confidence in
    [[0.55, 0.85]] and a verifier confidence of 2/3 or 1. *)
Theorem builtin_layer_confidence_range : forall fsqrt sym tf cs params lm lb,
  analyze fsqrt sym tf cs params = Ok lm -> In lb (layers lm) ->
  (48 # 100 <= confidence lb)%Q /\ (confidence lb <= 89 # 100)%Q.
Proof.
  intros fsqrt sym tf cs params lm lb H Hlb.
  destruct (builtin_run_results _ _ _ _ _ _ H)
    as (ctx & r1 & r2 & r3 & r4 & r5 & r6 & vo &
        _ & Hlys & Htr & _ & _ & _ & C6).
  destruct (resolved_layer_parts ctx (layers lm) lb Hlys Hlb)
    as (z & [[[ws we] wc] wev] & [[st sc] sev] & Hwin & Hst & _ & _ & _ & Hconf).
  cbn [fst snd] in Hconf.
  destruct (entry_window_confidence _ _ _ _ _ _ _ Hwin) as [W1 W2].
  destruct (state_for_zone_confidence _ _ _ _ _ _ Hst) as [S1 S2].
  set (vc := verifier_confidence (ctx_traces ctx)) in *.
  assert (Hvc : (2 # 3 <= vc)%Q /\ (vc <= 1)%Q).
  { unfold vc. rewrite Htr. unfold verifier_confidence.
    cbn [dict_get String.eqb Ascii.eqb Bool.eqb trace_entry t_confidence].
    rewrite C6. destruct (nonempty (hvn vo)); split; vm_compute; discriminate. }
  destruct Hvc as [V1 V2].
  pose proof (combine_conf_mono (35 # 100) (55 # 100) (2 # 3) wc sc vc W1 S1 V1)
    as Lo.
  pose proof (combine_conf_mono wc sc vc (85 # 100) (85 # 100) 1 W2 S2 V2)
    as Hi.
  assert (K1 : (48 # 100 <= combine_conf (35 # 100) (55 # 100) (2 # 3))%Q)
    by (vm_compute; discriminate).
  assert (K2 : (combine_conf (85 # 100) (85 # 100) 1 <= 89 # 100)%Q)
    by (vm_compute; discriminate).
  rewrite Hconf. split; lra.
Qed.

Lemma builtin_layer_confidence_range_witness :
  exists lm,
    analyze sqrt_approx "XAGUSD" "4H" (flat_candles 100) None = Ok lm /\
    forall lb, In lb (layers lm) ->
      (48 # 100 <= confidence lb)%Q /\ (confidence lb <= 89 # 100)%Q.
Proof.
  destruct (analyze_total sqrt_approx "XAGUSD" "4H" (flat_candles 100) None
              default_params_good ltac:(vm_compute; discriminate))
    as (lm & _ & _ & _ & _ & Ha & _).
  exists lm. split; [exact Ha|]. intros lb Hlb.
  apply (builtin_layer_confidence_range _ _ _ _ _ lm lb Ha Hlb).
Defined.
